(** * A concurrent file indexer: indexing, search and cache

    Shallow embedding of the two variants of the indexer that live in the
    repository:

    - [cursor]: packages [indexer], [search] and [cache] and their [main];
    - [windsurf]: the single-package variant ([indexer.go], the classifier
      helpers and its [main]).

    Conventions.  A Go [string] and a Go [[]byte] are both byte sequences and
    are both modelled by [string] (a sequence of 8-bit [ascii]); the
    conversion [string(b)] is the identity.  Go's [int], [int64] and [rune]
    are modelled by [Z]: every counter of the program counts lines or bytes of
    data held in memory and stays far below [2^63].  Go maps are [gmap]s.
    Goroutines only influence the order in which results are collected; the
    functions below fix one order and the nondeterminism is a permutation of
    their output.

    The file system that is indexed is a record of what the calls of the
    program observe.  The disk that holds the cache is a map from paths to
    bytes, and a save runs under a fault that says which of its system
    calls fails, if any.  The text of the cache is the one of
    [encoding/json]: the encoder and the parser are modelled on the bytes,
    for the types that the two variants store. *)

From Stdlib Require Import ZArith Lia String Ascii List.
From stdpp Require Import gmap strings list fin_maps sorting.

Set Warnings "-register-all".

Open Scope string_scope.
Open Scope list_scope.
Open Scope Z_scope.

(** ** Byte sequences *)

(** [s[i]] as a number. *)
Definition byteval (c : ascii) : Z := Z.of_N (N_of_ascii c).

(** [byte(x)]: conversion of an integer to a byte keeps the low 8 bits. *)
Definition byte (x : Z) : ascii := ascii_of_N (Z.to_N (x mod 256)).

(** [len(s)] *)
Definition len (s : string) : Z := Z.of_nat (String.length s).

(** [s[n:]] *)
Fixpoint string_drop (n : nat) (s : string) : string :=
  match n, s with
  | O, _ => s
  | S n', String _ s' => string_drop n' s'
  | S _, EmptyString => EmptyString
  end.

(** [s[:n]] *)
Fixpoint string_take (n : nat) (s : string) : string :=
  match n, s with
  | O, _ => EmptyString
  | S n', String c s' => String c (string_take n' s')
  | S _, EmptyString => EmptyString
  end.

(** ** Package [unicode/utf8] *)

Module utf8.

Definition RuneError : Z := 0xFFFD.
Definition RuneSelf : Z := 0x80.
Definition MaxRune : Z := 0x10FFFF.
Definition UTFMax : Z := 4.

Definition surrogateMin : Z := 0xD800.
Definition surrogateMax : Z := 0xDFFF.

Definition tx : Z := 0x80.
Definition t2 : Z := 0xC0.
Definition t3 : Z := 0xE0.
Definition t4 : Z := 0xF0.

Definition maskx : Z := 0x3F.
Definition mask2 : Z := 0x1F.
Definition mask3 : Z := 0x0F.
Definition mask4 : Z := 0x07.

Definition rune1Max : Z := 0x7F.
Definition rune2Max : Z := 0x7FF.
Definition rune3Max : Z := 0xFFFF.

Definition locb : Z := 0x80.
Definition hicb : Z := 0xBF.

(** Entries of the [first] table: the low three bits hold the length of the
    sequence, the high four bits the index into [acceptRanges]. *)
Definition xx : Z := 0xF1.
Definition as_ : Z := 0xF0.
Definition s1 : Z := 0x02.
Definition s2 : Z := 0x13.
Definition s3 : Z := 0x03.
Definition s4 : Z := 0x23.
Definition s5 : Z := 0x34.
Definition s6 : Z := 0x04.
Definition s7 : Z := 0x44.

(** The 256-entry table [first], written by ranges of the first byte. *)
Definition first (b : Z) : Z :=
  if b <? 0x80 then as_
  else if b <? 0xC2 then xx
  else if b <? 0xE0 then s1
  else if b =? 0xE0 then s2
  else if b <? 0xED then s3
  else if b =? 0xED then s4
  else if b <? 0xF0 then s3
  else if b =? 0xF0 then s5
  else if b <? 0xF4 then s6
  else if b =? 0xF4 then s7
  else xx.

(** [acceptRanges]: the range of valid second bytes. *)
Definition acceptRanges (i : Z) : Z * Z :=
  if i =? 1 then (0xA0, hicb)
  else if i =? 2 then (locb, 0x9F)
  else if i =? 3 then (0x90, hicb)
  else if i =? 4 then (locb, 0x8F)
  else (locb, hicb).

(** [DecodeRuneInString]: the first rune of [s] and its width in bytes;
    [(RuneError, 1)] for an invalid encoding, [(RuneError, 0)] for the
    empty string. *)
Definition DecodeRuneInString (s : string) : Z * Z :=
  match s with
  | EmptyString => (RuneError, 0)
  | String c0 r0 =>
      let b0 := byteval c0 in
      let x := first b0 in
      if as_ <=? x then
        (if x =? xx then RuneError else b0, 1)
      else
        let sz := Z.land x 7 in
        let accept := acceptRanges (Z.shiftr x 4) in
        if len s <? sz then (RuneError, 1)
        else
          match r0 with
          | EmptyString => (RuneError, 1)
          | String c1 r1 =>
              let b1 := byteval c1 in
              if (b1 <? fst accept) || (snd accept <? b1) then (RuneError, 1)
              else if sz <=? 2 then
                (Z.lor (Z.shiftl (Z.land b0 mask2) 6) (Z.land b1 maskx), 2)
              else
                match r1 with
                | EmptyString => (RuneError, 1)
                | String c2 r2 =>
                    let b2 := byteval c2 in
                    if (b2 <? locb) || (hicb <? b2) then (RuneError, 1)
                    else if sz <=? 3 then
                      (Z.lor (Z.lor (Z.shiftl (Z.land b0 mask3) 12)
                                    (Z.shiftl (Z.land b1 maskx) 6))
                             (Z.land b2 maskx), 3)
                    else
                      match r2 with
                      | EmptyString => (RuneError, 1)
                      | String c3 _ =>
                          let b3 := byteval c3 in
                          if (b3 <? locb) || (hicb <? b3) then (RuneError, 1)
                          else
                            (Z.lor (Z.lor (Z.lor
                               (Z.shiftl (Z.land b0 mask4) 18)
                               (Z.shiftl (Z.land b1 maskx) 12))
                               (Z.shiftl (Z.land b2 maskx) 6))
                               (Z.land b3 maskx), 4)
                      end
                end
          end
  end.

(** One iteration of the loop of [RuneCountInString]: the number of bytes
    the loop advances by at the head of the non-empty string [s]. *)
Definition runeStep (s : string) : Z :=
  match s with
  | EmptyString => 1
  | String c0 r0 =>
      let c := byteval c0 in
      if c <? RuneSelf then 1
      else
        let x := first c in
        if x =? xx then 1
        else
          let size := Z.land x 7 in
          if len s <? size then 1
          else
            let accept := acceptRanges (Z.shiftr x 4) in
            match r0 with
            | EmptyString => 1
            | String c1 r1 =>
                let b1 := byteval c1 in
                if (b1 <? fst accept) || (snd accept <? b1) then 1
                else if size =? 2 then 2
                else
                  match r1 with
                  | EmptyString => 1
                  | String c2 r2 =>
                      let b2 := byteval c2 in
                      if (b2 <? locb) || (hicb <? b2) then 1
                      else if size =? 3 then 3
                      else
                        match r2 with
                        | EmptyString => 1
                        | String c3 _ =>
                            let b3 := byteval c3 in
                            if (b3 <? locb) || (hicb <? b3) then 1 else size
                        end
                  end
            end
  end.

(** [for i := 0; i < ns; n++ { ...; i += size }]; the fuel is the number of
    bytes left, and every iteration consumes at least one. *)
Fixpoint RuneCount_loop (fuel : nat) (s : string) (n : Z) : Z :=
  match fuel with
  | O => n
  | S fuel' =>
      match s with
      | EmptyString => n
      | String _ _ =>
          RuneCount_loop fuel' (string_drop (Z.to_nat (runeStep s)) s) (n + 1)
      end
  end.

Definition RuneCountInString (s : string) : Z :=
  RuneCount_loop (String.length s) s 0.

(** [AppendRune] to the empty buffer: the UTF-8 encoding of [r]; a rune out
    of range or a surrogate half is encoded as [RuneError]. *)
Definition EncodeRune (r : Z) : string :=
  if (0 <=? r) && (r <=? rune1Max) then
    String (byte r) EmptyString
  else if (0 <=? r) && (r <=? rune2Max) then
    String (byte (Z.lor t2 (byteval (byte (Z.shiftr r 6)))))
      (String (byte (Z.lor tx (Z.land (byteval (byte r)) maskx))) EmptyString)
  else if ((0 <=? r) && (r <? surrogateMin))
          || ((surrogateMax <? r) && (r <=? rune3Max)) then
    String (byte (Z.lor t3 (byteval (byte (Z.shiftr r 12)))))
      (String (byte (Z.lor tx (Z.land (byteval (byte (Z.shiftr r 6))) maskx)))
         (String (byte (Z.lor tx (Z.land (byteval (byte r)) maskx))) EmptyString))
  else if (rune3Max <? r) && (r <=? MaxRune) then
    String (byte (Z.lor t4 (byteval (byte (Z.shiftr r 18)))))
      (String (byte (Z.lor tx (Z.land (byteval (byte (Z.shiftr r 12))) maskx)))
         (String (byte (Z.lor tx (Z.land (byteval (byte (Z.shiftr r 6))) maskx)))
            (String (byte (Z.lor tx (Z.land (byteval (byte r)) maskx))) EmptyString)))
  else
    String (byte 0xEF) (String (byte 0xBF) (String (byte 0xBD) EmptyString)).

(** [utf8.ValidString], as a loop over [DecodeRuneInString]: no rune of [s]
    is an encoding error. *)
Fixpoint ValidString_loop (fuel : nat) (s : string) : bool :=
  match fuel with
  | O => true
  | S fuel' =>
      match s with
      | EmptyString => true
      | String c s' =>
          if byteval c <? RuneSelf then ValidString_loop fuel' s'
          else
            let '(r, size) := DecodeRuneInString s in
            if size =? 1 then false
            else ValidString_loop fuel' (string_drop (Z.to_nat size) s)
      end
  end.

Definition ValidString (s : string) : bool :=
  ValidString_loop (String.length s) s.

End utf8.

(** ** Package [unicode] *)

Module unicode.

(** The case tables of the package ([CaseRanges]) are data of the Go
    distribution; [to_lower_table r] stands for [To(LowerCase, r)] on the
    runes above [MaxASCII]. *)
Class CaseTables := to_lower_table : Z -> Z.

Definition MaxASCII : Z := 0x7F.

Definition ToLower `{CaseTables} (r : Z) : Z :=
  if r <=? MaxASCII then
    if (65 <=? r) && (r <=? 90) then r + (97 - 65) else r
  else to_lower_table r.

End unicode.

(** ** Package [strings] *)

Module strings.

(** [len(s) >= len(prefix) && s[:len(prefix)] == prefix] *)
Definition HasPrefix (s prefix : string) : bool :=
  (len prefix <=? len s)
  && bool_decide (string_take (String.length prefix) s = prefix).

(** The index of the first instance of [substr] in [s], or [-1]. *)
Fixpoint Index (s substr : string) : Z :=
  if HasPrefix s substr then 0
  else
    match s with
    | EmptyString => -1
    | String _ s' =>
        let i := Index s' substr in
        if i <? 0 then -1 else i + 1
    end.

Definition Contains (s substr : string) : bool := 0 <=? Index s substr.

(** [bytealg.CountString]: the number of bytes of [s] equal to [c]. *)
Fixpoint CountString (s : string) (c : ascii) : Z :=
  match s with
  | EmptyString => 0
  | String d s' => (if bool_decide (d = c) then 1 else 0) + CountString s' c
  end.

(** [for { i := Index(s, substr); if i == -1 { return n }; n++;
    s = s[i+len(substr):] }]; every iteration with a non-empty [substr]
    shortens [s], so [len(s) + 1] iterations are enough. *)
Fixpoint Count_loop (fuel : nat) (s substr : string) (n : Z) : Z :=
  match fuel with
  | O => n
  | S fuel' =>
      let i := Index s substr in
      if i =? -1 then n
      else Count_loop fuel' (string_drop (Z.to_nat (i + len substr)) s) substr (n + 1)
  end.

Definition Count (s substr : string) : Z :=
  match substr with
  | EmptyString => utf8.RuneCountInString s + 1
  | String c EmptyString => CountString s c
  | _ => Count_loop (S (String.length s)) s substr 0
  end.

(** [Map(mapping, s)]: every rune of [s] (an invalid byte reads as
    [RuneError]) is replaced by its image, encoded in UTF-8; a negative
    image drops the rune.  The library copies the unchanged part of [s]
    verbatim, which is the same string since a well-formed rune encodes
    back to the bytes it was read from. *)
Fixpoint Map_loop (fuel : nat) (mapping : Z -> Z) (s : string) : string :=
  match fuel with
  | O => EmptyString
  | S fuel' =>
      match s with
      | EmptyString => EmptyString
      | String _ _ =>
          let '(c, width) := utf8.DecodeRuneInString s in
          let r := mapping c in
          (if 0 <=? r then utf8.EncodeRune r else EmptyString)
          +:+ Map_loop fuel' mapping (string_drop (Z.to_nat width) s)
      end
  end.

Definition Map (mapping : Z -> Z) (s : string) : string :=
  Map_loop (String.length s) mapping s.

(** The first loop of [ToLower]: is every byte below [RuneSelf]? *)
Fixpoint isASCII (s : string) : bool :=
  match s with
  | EmptyString => true
  | String c s' => if utf8.RuneSelf <=? byteval c then false else isASCII s'
  end.

(** [if 'A' <= c && c <= 'Z' { c += 'a' - 'A' }] *)
Definition lowerByte (c : ascii) : ascii :=
  if (65 <=? byteval c) && (byteval c <=? 90) then byte (byteval c + (97 - 65))
  else c.

Fixpoint lowerASCII (s : string) : string :=
  match s with
  | EmptyString => EmptyString
  | String c s' => String (lowerByte c) (lowerASCII s')
  end.

Definition ToLower `{unicode.CaseTables} (s : string) : string :=
  if isASCII s then lowerASCII s else Map unicode.ToLower s.

End strings.


(** ** Package [path/filepath] (Unix flavour: the separator is [/] and there
    is no volume name) *)

Module filepath.

Definition Separator : ascii := "/"%char.

Definition IsPathSeparator (c : ascii) : bool := bool_decide (c = Separator).

(** Does the string contain a separator? *)
Fixpoint hasSeparator (s : string) : bool :=
  match s with
  | EmptyString => false
  | String c s' => IsPathSeparator c || hasSeparator s'
  end.

(** The elements of a path: the pieces between separators. *)
Fixpoint elements (path : string) : list string :=
  match path with
  | EmptyString => [EmptyString]
  | String c rest =>
      if IsPathSeparator c then EmptyString :: elements rest
      else
        match elements rest with
        | e :: es => String c e :: es
        | [] => [String c EmptyString]
        end
  end.

(** [strings.Join(elems, "/")] *)
Fixpoint joinElements (elems : list string) : string :=
  match elems with
  | [] => EmptyString
  | [e] => e
  | e :: es => e +:+ String Separator (joinElements es)
  end.

(** The loop of [Clean], element by element.  [out] is the output written so
    far, as the stack of its elements; [dotdot] is the number of leading
    [..] elements of the output, below which [..] cannot backtrack. *)
Fixpoint cleanLoop (rooted : bool) (elems : list string) (out : list string)
    (dotdot : nat) : list string :=
  match elems with
  | [] => out
  | e :: es =>
      if bool_decide (e = "") then cleanLoop rooted es out dotdot
      else if bool_decide (e = ".") then cleanLoop rooted es out dotdot
      else if bool_decide (e = "..") then
        if (dotdot <? length out)%nat then cleanLoop rooted es (tail out) dotdot
        else if negb rooted then cleanLoop rooted es (".." :: out) (S (length out))
        else cleanLoop rooted es out dotdot
      else cleanLoop rooted es (e :: out) dotdot
  end.

(** [Clean]: the shortest equivalent path. *)
Definition Clean (path : string) : string :=
  match path with
  | EmptyString => "."
  | String c _ =>
      let rooted := IsPathSeparator c in
      let out := rev (cleanLoop rooted (elements path) [] 0) in
      let s := (if rooted then "/" else "") +:+ joinElements out in
      if bool_decide (s = "") then "." else s
  end.

(** [Join] of two elements. *)
Definition Join (dir name : string) : string :=
  if bool_decide (dir <> "") then Clean (dir +:+ String Separator name)
  else if bool_decide (name <> "") then Clean name
  else "".

Definition IsAbs (path : string) : bool := strings.HasPrefix path "/".

(** [Abs]; [wd] is the result of [os.Getwd]. *)
Definition Abs (wd : string) (path : string) : string :=
  if IsAbs path then Clean path else Join wd path.

(** [Ext]: the suffix beginning at the final dot of the final element of the
    path; empty if there is no dot. *)
Fixpoint Ext (path : string) : string :=
  match path with
  | EmptyString => EmptyString
  | String c rest =>
      match Ext rest with
      | EmptyString =>
          if bool_decide (c = "."%char) && negb (hasSeparator rest) then path
          else EmptyString
      | e => e
      end
  end.

(** The part of [path] up to and including its last separator. *)
Fixpoint upToLastSeparator (path : string) : string :=
  match path with
  | EmptyString => EmptyString
  | String c rest =>
      if hasSeparator path then String c (upToLastSeparator rest)
      else EmptyString
  end.

(** [Dir]: all but the last element of the path, cleaned. *)
Definition Dir (path : string) : string := Clean (upToLastSeparator path).

(** The part of [path] after its last separator. *)
Fixpoint afterLastSeparator (path : string) : string :=
  match path with
  | EmptyString => EmptyString
  | String c rest =>
      if hasSeparator path then afterLastSeparator rest else path
  end.

(** [path] without its trailing separators. *)
Fixpoint stripTrailingSeparators (path : string) : string :=
  match path with
  | EmptyString => EmptyString
  | String c rest =>
      match stripTrailingSeparators rest with
      | EmptyString => if IsPathSeparator c then EmptyString else String c EmptyString
      | r => String c r
      end
  end.

(** [Base]: the last element of the path. *)
Definition Base (path : string) : string :=
  match path with
  | EmptyString => "."
  | _ =>
      match afterLastSeparator (stripTrailingSeparators path) with
      | EmptyString => String Separator EmptyString
      | b => b
      end
  end.

End filepath.

(** ** Errors *)

(** The error numbers of the operating system that matter here. *)
Inductive errno := ENOENT | EACCES | EISDIR | EIO | ENOSPC.

#[global] Instance errno_eq_dec : EqDecision errno.
Proof. solve_decision. Defined.

(** The error values that the program can meet: the sentinels of [io],
    [bufio] and [path/filepath], the errors of the operating system
    ([*fs.PathError]), of [encoding/json] and of [fmt.Errorf]. *)
Inductive error :=
| EOF
| ErrUnexpectedEOF
| ErrTooLong
| ErrNegativeAdvance
| ErrAdvanceTooFar
| SkipDir
| SkipAll
| PathError (op path : string) (err : errno)
| SyntaxError (msg : string)
| UnmarshalTypeError (msg : string)
| Errorf (msg : string)
| Wrapf (msg : string) (wrapped : error).

#[global] Instance error_eq_dec : EqDecision error.
Proof. solve_decision. Defined.

(** [os.IsNotExist] *)
Definition IsNotExist (err : error) : bool :=
  match err with
  | PathError _ _ ENOENT => true
  | _ => false
  end.

(** ** The file system, as the program observes it *)

Module os.

(** [fs.FileInfo], with the fields the program reads. *)
Record FileInfo := {
  Size : Z;
  IsDir : bool;
  ModTime : Z          (* [ModTime().Unix()] *)
}.

(** What [Lstat] and the directory reads find at a path and below it: a
    file, a directory with its entries in the order of [readDirNames]
    (sorted by name) or the error of reading it, or an entry on which
    [Lstat] fails. *)
Inductive node :=
| File (size modTime : Z)
| Directory (modTime : Z) (readErr : option errno) (entries : list (string * node))
| Broken (err : errno).

Definition fileInfo (size modTime : Z) : FileInfo :=
  {| Size := size; IsDir := false; ModTime := modTime |}.

Definition dirInfo (modTime : Z) : FileInfo :=
  {| Size := 0; IsDir := true; ModTime := modTime |}.

(** An open file: the result of [Stat] on it and the bytes that reading it
    to the end delivers. *)
Record file := {
  fstat : errno + FileInfo;
  contents : string
}.

(** The operations of the operating system that the indexer uses, at one
    moment.  The tree that a walk sees and the outcome of opening a path are
    independent observations: the file system may change between the two. *)
Record FileSystem := {
  lstatTree : string -> node;
  Open : string -> errno + file;
  Stat : string -> errno + FileInfo;
  Getwd : string
}.

End os.

(** ** Package [bytes] *)

Module bytes.

(** [IndexByte]: the index of the first byte of [b] equal to [c], or [-1]. *)
Fixpoint IndexByte (b : string) (c : ascii) : Z :=
  match b with
  | EmptyString => -1
  | String d b' =>
      if bool_decide (d = c) then 0
      else let i := IndexByte b' c in if i <? 0 then -1 else i + 1
  end.

End bytes.

(** ** Package [path/filepath]: [Walk] *)

Module walk.
Section walk.
Context {S : Type}.

(** [filepath.WalkFunc], with the state that the closure updates. *)
Definition WalkFunc : Type :=
  string -> option os.FileInfo -> option error -> S -> S * option error.

Definition isFile (n : os.node) : bool :=
  match n with os.File _ _ => true | _ => false end.

(** [walk]: the recursive descent.  On a [Broken] node it is the call of the
    function with the error of [Lstat], which in Go is made by the caller. *)
Fixpoint walk (walkFn : WalkFunc) (path : string) (n : os.node) (st : S)
  {struct n} : S * option error :=
  match n with
  | os.Broken err => walkFn path None (Some (PathError "lstat" path err)) st
  | os.File size modTime => walkFn path (Some (os.fileInfo size modTime)) None st
  | os.Directory modTime readErr entries =>
      let err := PathError "open" path <$> readErr in
      let '(st1, err1) := walkFn path (Some (os.dirInfo modTime)) err st in
      if bool_decide (err <> None) || bool_decide (err1 <> None) then (st1, err1)
      else
        (fix loop (entries : list (string * os.node)) (st : S) : S * option error :=
           match entries with
           | [] => (st, None)
           | (name, child) :: entries' =>
               let filename := filepath.Join path name in
               let '(st', err) := walk walkFn filename child st in
               match err with
               | None => loop entries' st'
               | Some e =>
                   if negb (isFile child) && bool_decide (e = SkipDir)
                   then loop entries' st'
                   else (st', Some e)
               end
           end) entries st1
  end.

(** [Walk] *)
Definition Walk (fs : os.FileSystem) (root : string) (fn : WalkFunc) (st : S)
  : S * option error :=
  let '(st', err) := walk fn root (os.lstatTree fs root) st in
  if bool_decide (err = Some SkipDir) || bool_decide (err = Some SkipAll)
  then (st', None)
  else (st', err).

End walk.
End walk.

(** ** Package [bufio]: [Scanner] *)

Module bufio.

Definition MaxScanTokenSize : Z := 64 * 1024.
Definition startBufSize : Z := 4096.

(** [SplitFunc]: [(advance, token, err)]. *)
Definition SplitFunc : Type := string -> bool -> Z * option string * option error.

(** The scanner.  [pending] is [buf[start:end]], the bytes read and not yet
    consumed, and [buflen] is [len(buf)]; [src] holds what the reader has not
    delivered yet. *)
Record Scanner := {
  src : string;
  split : SplitFunc;
  maxTokenSize : Z;
  token : string;
  pending : string;
  buflen : Z;
  err : option error
}.

Definition NewScanner (r : string) (split : SplitFunc) : Scanner :=
  {| src := r; split := split; maxTokenSize := MaxScanTokenSize;
     token := ""; pending := ""; buflen := 0; err := None |}.

(** [Buffer(buf, max)] with [cap(buf) = bufcap]. *)
Definition Buffer (s : Scanner) (bufcap max : Z) : Scanner :=
  {| src := src s; split := split s; maxTokenSize := max;
     token := token s; pending := pending s; buflen := bufcap; err := err s |}.

Definition Split (s : Scanner) (split : SplitFunc) : Scanner :=
  {| src := src s; split := split; maxTokenSize := maxTokenSize s;
     token := token s; pending := pending s; buflen := buflen s; err := err s |}.

(** [setErr] records the first error that is not [EOF]. *)
Definition setErr (s : Scanner) (e : error) : Scanner :=
  if bool_decide (err s = None) || bool_decide (err s = Some EOF) then
    {| src := src s; split := split s; maxTokenSize := maxTokenSize s;
       token := token s; pending := pending s; buflen := buflen s;
       err := Some e |}
  else s.

Definition setPending (s : Scanner) (p : string) : Scanner :=
  {| src := src s; split := split s; maxTokenSize := maxTokenSize s;
     token := token s; pending := p; buflen := buflen s; err := err s |}.

Definition setToken (s : Scanner) (t : string) : Scanner :=
  {| src := src s; split := split s; maxTokenSize := maxTokenSize s;
     token := t; pending := pending s; buflen := buflen s; err := err s |}.

(** The end of an iteration of [Scan] that produced no token: the buffer
    grows if it is full, up to [maxTokenSize], and the reader is asked for
    as many bytes as fit; a reader at its end reports [EOF].  [None] when the
    buffer is full and cannot grow. *)
Definition fill (s : Scanner) : option Scanner :=
  let grown :=
    if len (pending s) =? buflen s then
      if maxTokenSize s <=? buflen s then None
      else
        let newSize := buflen s * 2 in
        let newSize := if newSize =? 0 then startBufSize else newSize in
        Some (newSize `min` maxTokenSize s)
    else Some (buflen s) in
  match grown with
  | None => None
  | Some buflen' =>
      let n := Z.to_nat ((buflen' - len (pending s)) `min` len (src s)) in
      Some {| src := string_drop n (src s); split := split s;
              maxTokenSize := maxTokenSize s; token := token s;
              pending := pending s +:+ string_take n (src s);
              buflen := buflen';
              err := if bool_decide (src s = "") then Some EOF else err s |}
  end.

(** [Scan]: the loop runs until it has a token or stops.  Every iteration
    that does not return reads at least one byte or meets the end of the
    input, which bounds their number. *)
Fixpoint Scan_loop (fuel : nat) (s : Scanner) : bool * Scanner :=
  match fuel with
  | O => (false, s)
  | S fuel' =>
      let continue (s : Scanner) : bool * Scanner :=
        if bool_decide (err s <> None) then (false, setPending s "")
        else
          match fill s with
          | None => (false, setErr s ErrTooLong)
          | Some s' => Scan_loop fuel' s'
          end in
      if (0 <? len (pending s)) || bool_decide (err s <> None) then
        let '(advance, tok, e) := split s (pending s) (bool_decide (err s <> None)) in
        match e with
        | Some e' => (false, setErr s e')
        | None =>
            if advance <? 0 then (false, setErr s ErrNegativeAdvance)
            else if len (pending s) <? advance then (false, setErr s ErrAdvanceTooFar)
            else
              let s := setPending s (string_drop (Z.to_nat advance) (pending s)) in
              match tok with
              | Some t => (true, setToken s t)
              | None => continue s
              end
        end
      else continue s
  end.

Definition Scan (s : Scanner) : bool * Scanner :=
  Scan_loop (S (S (String.length (src s)))) s.

(** [Text] *)
Definition Text (s : Scanner) : string := token s.

(** [Err]: the first error met, [EOF] apart. *)
Definition Err (s : Scanner) : option error :=
  if bool_decide (err s = Some EOF) then None else err s.

(** [dropCR] drops a terminal carriage return. *)
Fixpoint dropCR (data : string) : string :=
  match data with
  | EmptyString => EmptyString
  | String c EmptyString =>
      if bool_decide (c = "013"%char) then EmptyString else data
  | String c rest => String c (dropCR rest)
  end.

(** [ScanLines], the default split function. *)
Definition ScanLines : SplitFunc := fun data atEOF =>
  if atEOF && (len data =? 0) then (0, None, None)
  else
    let i := bytes.IndexByte data "010"%char in
    if 0 <=? i then (i + 1, Some (dropCR (string_take (Z.to_nat i) data)), None)
    else if atEOF then (len data, Some (dropCR data), None)
    else (0, None, None).

End bufio.

(** ** Package [strconv] *)

Module strconv.

(** The decimal digit of a value below ten. *)
Definition digit (d : Z) : ascii := byte (48 + d).

(** The loop of [formatBits] in base 10: the digits of [n], last first,
    written in front of [acc].  A 64-bit value has at most 20 digits. *)
Fixpoint formatDigits (fuel : nat) (n : Z) (acc : string) : string :=
  match fuel with
  | O => acc
  | S fuel' =>
      let acc := String (digit (n mod 10)) acc in
      if n <? 10 then acc else formatDigits fuel' (n / 10) acc
  end.

(** [Itoa], that is [FormatInt(i, 10)]. *)
Definition Itoa (i : Z) : string :=
  if i <? 0 then String "-"%char (formatDigits 20 (- i) EmptyString)
  else formatDigits 20 i EmptyString.

(** The loop of [ParseUint] in base 10: [None] on a byte that is not a
    digit. *)
Fixpoint parseDigits (s : string) (n : Z) : option Z :=
  match s with
  | EmptyString => Some n
  | String c s' =>
      let d := byteval c - 48 in
      if (0 <=? d) && (d <=? 9) then parseDigits s' (n * 10 + d) else None
  end.

(** [ParseInt(s, 10, 64)]: an optional sign and decimal digits; [None] for a
    syntax error or a value out of the range of [int64]. *)
Definition ParseInt (s : string) : option Z :=
  let '(neg, digits) :=
    match s with
    | String c rest =>
        if bool_decide (c = "+"%char) then (false, rest)
        else if bool_decide (c = "-"%char) then (true, rest)
        else (false, s)
    | EmptyString => (false, s)
    end in
  match digits with
  | EmptyString => None
  | _ =>
      match parseDigits digits 0 with
      | None => None
      | Some un =>
          if negb neg && (2 ^ 63 <=? un) then None
          else if neg && (2 ^ 63 <? un) then None
          else Some (if neg then - un else un)
      end
  end.

End strconv.

(** ** Durable storage *)

Module disk.

(** The files that hold a cache, by path, with their bytes. *)
Abbreviation Disk := (gmap string string).

(** What can go wrong during a save: the directory cannot be made, the file
    cannot be opened for writing, the write stops after some bytes, or the
    file cannot be closed. *)
Inductive fault :=
| NoFault
| MkdirFails (err : errno)
| OpenFails (err : errno)
| WriteFails (written : nat) (err : errno)
| CloseFails (err : errno).

(** [os.ReadFile]; [readErr] is the error of the operating system, if the
    file exists and cannot be read. *)
Definition ReadFile (d : Disk) (readErr : option errno) (name : string)
  : error + string :=
  match d !! name with
  | None => inl (PathError "open" name ENOENT)
  | Some data =>
      match readErr with
      | Some err => inl (PathError "read" name err)
      | None => inr data
      end
  end.

(** [os.OpenFile] with [O_WRONLY|O_CREATE|O_TRUNC], as [os.WriteFile] and
    [os.Create] call it: the file is made, or emptied, when it is opened. *)
Definition Create (d : Disk) (f : fault) (name : string) : Disk * option error :=
  match f with
  | OpenFails err => (d, Some (PathError "open" name err))
  | _ => (<[name := EmptyString]> d, None)
  end.

(** [File.Write] to a file that has just been opened: a write that fails
    leaves the bytes written before the failure. *)
Definition Write (d : Disk) (f : fault) (name : string) (data : string)
  : Disk * option error :=
  match f with
  | WriteFails written err =>
      (<[name := string_take written data]> d, Some (PathError "write" name err))
  | _ => (<[name := data]> d, None)
  end.

(** [File.Close] *)
Definition Close (f : fault) (name : string) : option error :=
  match f with
  | CloseFails err => Some (PathError "close" name err)
  | _ => None
  end.

(** [os.WriteFile]: the error of closing is returned if the write has
    returned none. *)
Definition WriteFile (d : Disk) (f : fault) (name : string) (data : string)
  : Disk * option error :=
  match Create d f name with
  | (d, Some err) => (d, Some err)
  | (d, None) =>
      let '(d, err) := Write d f name data in
      let err1 := Close f name in
      (d, match err1, err with
          | Some err1, None => Some err1
          | _, _ => err
          end)
  end.

(** [os.MkdirAll] *)
Definition MkdirAll (f : fault) (path : string) : option error :=
  match f with
  | MkdirFails err => Some (PathError "mkdir" path err)
  | _ => None
  end.

End disk.

(** ** Package [unicode/utf16] *)

Module utf16.

Definition surr1 : Z := 0xd800.
Definition surr2 : Z := 0xdc00.
Definition surr3 : Z := 0xe000.
Definition surrSelf : Z := 0x10000.

Definition IsSurrogate (r : Z) : bool := (surr1 <=? r) && (r <? surr3).

(** [DecodeRune]: the rune of a surrogate pair, or the replacement rune. *)
Definition DecodeRune (r1 r2 : Z) : Z :=
  if (surr1 <=? r1) && (r1 <? surr2) && (surr2 <=? r2) && (r2 <? surr3) then
    Z.lor (Z.shiftl (r1 - surr1) 10) (r2 - surr2) + surrSelf
  else utf8.RuneError.

End utf16.

(** ** Package [encoding/json] *)

Module json.

(** *** Documents *)

(** A JSON value.  A number keeps its literal. *)
Inductive value :=
| Null
| Bool (b : bool)
| Number (literal : string)
| Str (s : string)
| Array (elements : list value)
| Object (members : list (string * value)).

Definition maxNestingDepth : Z := 10000.

(** *** The scanner and the decoding of literals *)

Definition isSpace (c : ascii) : bool :=
  bool_decide (c = " "%char) || bool_decide (c = "009"%char)
  || bool_decide (c = "013"%char) || bool_decide (c = "010"%char).

Fixpoint skipSpace (s : string) : string :=
  match s with
  | String c s' => if isSpace c then skipSpace s' else s
  | EmptyString => s
  end.

Definition isDigit (c : ascii) : bool := (48 <=? byteval c) && (byteval c <=? 57).

(** The value of a hexadecimal digit. *)
Definition hexval (c : ascii) : option Z :=
  let b := byteval c in
  if (48 <=? b) && (b <=? 57) then Some (b - 48)
  else if (97 <=? b) && (b <=? 102) then Some (b - 97 + 10)
  else if (65 <=? b) && (b <=? 70) then Some (b - 65 + 10)
  else None.

(** [getu4]: the rune of the four hexadecimal digits of a [\u] escape. *)
Definition getu4 (h1 h2 h3 h4 : ascii) : option Z :=
  match hexval h1, hexval h2, hexval h3, hexval h4 with
  | Some a, Some b, Some c, Some d => Some (((a * 16 + b) * 16 + c) * 16 + d)
  | _, _, _, _ => None
  end.

(** The byte of a one-letter escape. *)
Definition simpleEscape (c : ascii) : option ascii :=
  if bool_decide (c = "034"%char) then Some "034"%char
  else if bool_decide (c = "\"%char) then Some "\"%char
  else if bool_decide (c = "/"%char) then Some "/"%char
  else if bool_decide (c = "b"%char) then Some "008"%char
  else if bool_decide (c = "f"%char) then Some "012"%char
  else if bool_decide (c = "n"%char) then Some "010"%char
  else if bool_decide (c = "r"%char) then Some "013"%char
  else if bool_decide (c = "t"%char) then Some "009"%char
  else None.

(** The rune of a second [\u] escape at the head of [s], or [-1]. *)
Definition getu4At (s : string) : Z :=
  match s with
  | String c0 (String c1 (String h1 (String h2 (String h3 (String h4 _))))) =>
      if bool_decide (c0 = "\"%char) && bool_decide (c1 = "u"%char) then
        match getu4 h1 h2 h3 h4 with Some r => r | None => -1 end
      else -1
  | _ => -1
  end.

(** The string literal whose opening quote has been read: its value, where
    escapes are replaced and malformed UTF-8 is coerced to the replacement
    rune, and the input after the closing quote.  [None] for a literal that
    is not well formed.  Every iteration consumes a byte of the input. *)
Fixpoint unquote (fuel : nat) (s : string) : option (string * string) :=
  match fuel with
  | O => None
  | S fuel' =>
      let emit (out : string) (rest : string) : option (string * string) :=
        match unquote fuel' rest with
        | Some (t, rest') => Some (out +:+ t, rest')
        | None => None
        end in
      match s with
      | EmptyString => None
      | String c s' =>
          if bool_decide (c = "034"%char) then Some (EmptyString, s')
          else if bool_decide (c = "\"%char) then
            match s' with
            | EmptyString => None
            | String e s2 =>
                match simpleEscape e with
                | Some b => emit (String b EmptyString) s2
                | None =>
                    if bool_decide (e = "u"%char) then
                      match s2 with
                      | String h1 (String h2 (String h3 (String h4 s6))) =>
                          match getu4 h1 h2 h3 h4 with
                          | None => None
                          | Some rr =>
                              if utf16.IsSurrogate rr then
                                let dec := utf16.DecodeRune rr (getu4At s6) in
                                if bool_decide (dec <> utf8.RuneError) then
                                  emit (utf8.EncodeRune dec) (string_drop 6 s6)
                                else emit (utf8.EncodeRune utf8.RuneError) s6
                              else emit (utf8.EncodeRune rr) s6
                          end
                      | _ => None
                      end
                    else None
                end
            end
          else if byteval c <? 32 then None
          else if byteval c <? utf8.RuneSelf then emit (String c EmptyString) s'
          else
            let '(rr, size) := utf8.DecodeRuneInString s in
            emit (utf8.EncodeRune rr) (string_drop (Z.to_nat size) s)
      end
  end.

Fixpoint spanDigits (s : string) : string * string :=
  match s with
  | String c s' =>
      if isDigit c then let '(d, r) := spanDigits s' in (String c d, r)
      else (EmptyString, s)
  | EmptyString => (EmptyString, s)
  end.

(** The number literal at the head of [s] and the input after it. *)
Definition scanNumber (s : string) : option (string * string) :=
  let '(sign, s1) :=
    match s with
    | String c s' => if bool_decide (c = "-"%char) then ("-", s') else ("", s)
    | _ => ("", s)
    end in
  let '(int, s2) := spanDigits s1 in
  match int with
  | EmptyString => None
  | String d ds =>
      (* a leading zero stands alone *)
      let '(int, s2) :=
        if bool_decide (d = "0"%char) then ("0", string_drop 1 s1) else (int, s2) in
      let frac : option (string * string) :=
        match s2 with
        | String c s3 =>
            if bool_decide (c = "."%char) then
              let '(f, s4) := spanDigits s3 in
              match f with
              | EmptyString => None
              | _ => Some (String c f, s4)
              end
            else Some (EmptyString, s2)
        | EmptyString => Some (EmptyString, s2)
        end in
      match frac with
      | None => None
      | Some (frac, s4) =>
          let exp : option (string * string) :=
            match s4 with
            | String c s5 =>
                if bool_decide (c = "e"%char) || bool_decide (c = "E"%char) then
                  let '(esign, s6) :=
                    match s5 with
                    | String g s5' =>
                        if bool_decide (g = "+"%char) || bool_decide (g = "-"%char)
                        then (String g EmptyString, s5') else (EmptyString, s5)
                    | EmptyString => (EmptyString, s5)
                    end in
                  let '(e, s7) := spanDigits s6 in
                  match e with
                  | EmptyString => None
                  | _ => Some (String c (esign +:+ e), s7)
                  end
                else Some (EmptyString, s4)
            | EmptyString => Some (EmptyString, s4)
            end in
          match exp with
          | None => None
          | Some (exp, s7) => Some (sign +:+ int +:+ frac +:+ exp, s7)
          end
      end
  end.

(** *** The parser *)

(** The value at the head of [s], after white space, and the input after
    it.  The fuel bounds the number of values and separators read, which
    cannot exceed the length of the input; [depth] is the nesting depth. *)
Fixpoint parseValue (fuel : nat) (depth : Z) (s : string) : option (value * string) :=
  match fuel with
  | O => None
  | S fuel' =>
      match skipSpace s with
      | EmptyString => None
      | String c s' =>
          if bool_decide (c = "034"%char) then
            match unquote (S (String.length s')) s' with
            | Some (t, rest) => Some (Str t, rest)
            | None => None
            end
          else if bool_decide (c = "{"%char) then
            if maxNestingDepth <? depth + 1 then None
            else
              match skipSpace s' with
              | String "}"%char rest => Some (Object [], rest)
              | _ =>
                  match parseMembers fuel' (depth + 1) s' with
                  | Some (members, rest) => Some (Object members, rest)
                  | None => None
                  end
              end
          else if bool_decide (c = "["%char) then
            if maxNestingDepth <? depth + 1 then None
            else
              match skipSpace s' with
              | String "]"%char rest => Some (Array [], rest)
              | _ =>
                  match parseElements fuel' (depth + 1) s' with
                  | Some (elements, rest) => Some (Array elements, rest)
                  | None => None
                  end
              end
          else if strings.HasPrefix (String c s') "true" then
            Some (Bool true, string_drop 4 (String c s'))
          else if strings.HasPrefix (String c s') "false" then
            Some (Bool false, string_drop 5 (String c s'))
          else if strings.HasPrefix (String c s') "null" then
            Some (Null, string_drop 4 (String c s'))
          else
            match scanNumber (String c s') with
            | Some (lit, rest) => Some (Number lit, rest)
            | None => None
            end
      end
  end

(** The members of an object, after its opening brace, up to its closing
    brace. *)
with parseMembers (fuel : nat) (depth : Z) (s : string)
  : option (list (string * value) * string) :=
  match fuel with
  | O => None
  | S fuel' =>
      match skipSpace s with
      | String "034"%char s1 =>
          match unquote (S (String.length s1)) s1 with
          | None => None
          | Some (key, s2) =>
              match skipSpace s2 with
              | String ":"%char s3 =>
                  match parseValue fuel' depth s3 with
                  | None => None
                  | Some (v, s4) =>
                      match skipSpace s4 with
                      | String ","%char s5 =>
                          match parseMembers fuel' depth s5 with
                          | Some (members, rest) => Some ((key, v) :: members, rest)
                          | None => None
                          end
                      | String "}"%char rest => Some ([(key, v)], rest)
                      | _ => None
                      end
                  end
              | _ => None
              end
          end
      | _ => None
      end
  end

(** The elements of an array, after its opening bracket, up to its closing
    bracket. *)
with parseElements (fuel : nat) (depth : Z) (s : string)
  : option (list value * string) :=
  match fuel with
  | O => None
  | S fuel' =>
      match parseValue fuel' depth s with
      | None => None
      | Some (v, s1) =>
          match skipSpace s1 with
          | String ","%char s2 =>
              match parseElements fuel' depth s2 with
              | Some (elements, rest) => Some (v :: elements, rest)
              | None => None
              end
          | String "]"%char rest => Some ([v], rest)
          | _ => None
          end
      end
  end.

(** The document that [data] holds: one value, with white space around it
    ([checkValid] and the scan of [Unmarshal]). *)
Definition parse (data : string) : error + value :=
  match parseValue (S (String.length data)) 0 data with
  | Some (v, rest) =>
      match skipSpace rest with
      | EmptyString => inr v
      | _ => inl (SyntaxError "invalid character after top-level value")
      end
  | None => inl (SyntaxError "invalid JSON")
  end.

(** *** The scanner of a stream *)

(** The values of [scanner.step]: one for each state function of
    [scanner.go]. *)
Inductive state :=
| stBeginValueOrEmpty | stBeginValue | stBeginStringOrEmpty | stBeginString
| stEndValue | stEndTop
| stInString | stInStringEsc
| stInStringEscU | stInStringEscU1 | stInStringEscU12 | stInStringEscU123
| stNeg | st1 | st0 | stDot | stDot0 | stE | stESign | stE0
| stT | stTr | stTru | stF | stFa | stFal | stFals | stN | stNu | stNul
| stError.

(** What a state function returns. *)
Inductive opcode :=
| scanContinue | scanBeginLiteral | scanBeginObject | scanObjectKey
| scanObjectValue | scanEndObject | scanBeginArray | scanArrayValue
| scanEndArray | scanSkipSpace | scanEnd | scanError.

#[global] Instance opcode_eq_dec : EqDecision opcode.
Proof. solve_decision. Defined.

Inductive parseKind := parseObjectKey | parseObjectValue | parseArrayValue.

(** The scanner.  [parseState] is the stack of the composite values that
    are open, the innermost first. *)
Record scanner := {
  step : state;
  parseState : list parseKind;
  err : option error;
  endTop : bool
}.

(** [scanner.reset] *)
Definition reset : scanner :=
  {| step := stBeginValue; parseState := []; err := None; endTop := false |}.

Definition setStep (s : scanner) (f : state) : scanner :=
  {| step := f; parseState := parseState s; err := err s; endTop := endTop s |}.

Definition setParseState (s : scanner) (ps : list parseKind) : scanner :=
  {| step := step s; parseState := ps; err := err s; endTop := endTop s |}.

(** [scanner.error]; of the message, the context is kept. *)
Definition scanner_error (s : scanner) (context : string) : scanner * opcode :=
  ({| step := stError; parseState := parseState s;
      err := Some (SyntaxError ("invalid character " +:+ context));
      endTop := endTop s |}, scanError).

(** [scanner.pushParseState] *)
Definition pushParseState (s : scanner) (newParseState : parseKind)
    (successState : opcode) : scanner * opcode :=
  let s := setParseState s (newParseState :: parseState s) in
  if Z.of_nat (length (parseState s)) <=? maxNestingDepth then (s, successState)
  else scanner_error s "exceeded max depth".

(** [scanner.popParseState] *)
Definition popParseState (s : scanner) : scanner :=
  match tail (parseState s) with
  | [] => {| step := stEndTop; parseState := []; err := err s; endTop := true |}
  | ps => {| step := stEndValue; parseState := ps; err := err s; endTop := endTop s |}
  end.

Definition isHex (c : ascii) : bool :=
  match hexval c with Some _ => true | None => false end.

(** A state that expects the byte [want] of a literal. *)
Definition expect (s : scanner) (c want : ascii) (next : state) (context : string)
  : scanner * opcode :=
  if bool_decide (c = want) then (setStep s next, scanContinue)
  else scanner_error s context.

(** A state that expects a hexadecimal digit of a [\u] escape. *)
Definition expectHex (s : scanner) (c : ascii) (next : state) : scanner * opcode :=
  if isHex c then (setStep s next, scanContinue)
  else scanner_error s "in \u hexadecimal character escape".

(** [stateEndTop]: the error for a byte that is no white space is kept for
    the next call, and the value has ended. *)
Definition stateEndTop (s : scanner) (c : ascii) : scanner * opcode :=
  if isSpace c then (s, scanEnd)
  else ((scanner_error s "after top-level value").1, scanEnd).

(** [stateEndValue] *)
Definition stateEndValue (s : scanner) (c : ascii) : scanner * opcode :=
  match parseState s with
  | [] =>
      stateEndTop {| step := stEndTop; parseState := []; err := err s;
                     endTop := true |} c
  | ps :: below =>
      if isSpace c then (setStep s stEndValue, scanSkipSpace)
      else
        match ps with
        | parseObjectKey =>
            if bool_decide (c = ":"%char) then
              (setStep (setParseState s (parseObjectValue :: below)) stBeginValue,
               scanObjectKey)
            else scanner_error s "after object key"
        | parseObjectValue =>
            if bool_decide (c = ","%char) then
              (setStep (setParseState s (parseObjectKey :: below)) stBeginString,
               scanObjectValue)
            else if bool_decide (c = "}"%char) then (popParseState s, scanEndObject)
            else scanner_error s "after object key:value pair"
        | parseArrayValue =>
            if bool_decide (c = ","%char) then (setStep s stBeginValue, scanArrayValue)
            else if bool_decide (c = "]"%char) then (popParseState s, scanEndArray)
            else scanner_error s "after array element"
        end
  end.

(** [stateBeginValue] *)
Definition stateBeginValue (s : scanner) (c : ascii) : scanner * opcode :=
  if isSpace c then (s, scanSkipSpace)
  else if bool_decide (c = "{"%char) then
    pushParseState (setStep s stBeginStringOrEmpty) parseObjectKey scanBeginObject
  else if bool_decide (c = "["%char) then
    pushParseState (setStep s stBeginValueOrEmpty) parseArrayValue scanBeginArray
  else if bool_decide (c = "034"%char) then (setStep s stInString, scanBeginLiteral)
  else if bool_decide (c = "-"%char) then (setStep s stNeg, scanBeginLiteral)
  else if bool_decide (c = "0"%char) then (setStep s st0, scanBeginLiteral)
  else if bool_decide (c = "t"%char) then (setStep s stT, scanBeginLiteral)
  else if bool_decide (c = "f"%char) then (setStep s stF, scanBeginLiteral)
  else if bool_decide (c = "n"%char) then (setStep s stN, scanBeginLiteral)
  else if (49 <=? byteval c) && (byteval c <=? 57) then (setStep s st1, scanBeginLiteral)
  else scanner_error s "looking for beginning of value".

(** [stateBeginString] *)
Definition stateBeginString (s : scanner) (c : ascii) : scanner * opcode :=
  if isSpace c then (s, scanSkipSpace)
  else if bool_decide (c = "034"%char) then (setStep s stInString, scanBeginLiteral)
  else scanner_error s "looking for beginning of object key string".

(** [state0] *)
Definition state0 (s : scanner) (c : ascii) : scanner * opcode :=
  if bool_decide (c = "."%char) then (setStep s stDot, scanContinue)
  else if bool_decide (c = "e"%char) || bool_decide (c = "E"%char) then
    (setStep s stE, scanContinue)
  else stateEndValue s c.

(** [stateESign] *)
Definition stateESign (s : scanner) (c : ascii) : scanner * opcode :=
  if isDigit c then (setStep s stE0, scanContinue)
  else scanner_error s "in exponent of numeric literal".

(** [s.step(s, c)]: the state function that [step] names, on the byte
    [c]. *)
Definition scanStep (s : scanner) (c : ascii) : scanner * opcode :=
  match step s with
  | stBeginValueOrEmpty =>
      if isSpace c then (s, scanSkipSpace)
      else if bool_decide (c = "]"%char) then stateEndValue s c
      else stateBeginValue s c
  | stBeginValue => stateBeginValue s c
  | stBeginStringOrEmpty =>
      if isSpace c then (s, scanSkipSpace)
      else if bool_decide (c = "}"%char) then
        stateEndValue (setParseState s (parseObjectValue :: tail (parseState s))) c
      else stateBeginString s c
  | stBeginString => stateBeginString s c
  | stEndValue => stateEndValue s c
  | stEndTop => stateEndTop s c
  | stInString =>
      if bool_decide (c = "034"%char) then (setStep s stEndValue, scanContinue)
      else if bool_decide (c = "\"%char) then (setStep s stInStringEsc, scanContinue)
      else if byteval c <? 32 then scanner_error s "in string literal"
      else (s, scanContinue)
  | stInStringEsc =>
      if bool_decide (c = "b"%char) || bool_decide (c = "f"%char)
         || bool_decide (c = "n"%char) || bool_decide (c = "r"%char)
         || bool_decide (c = "t"%char) || bool_decide (c = "\"%char)
         || bool_decide (c = "/"%char) || bool_decide (c = "034"%char)
      then (setStep s stInString, scanContinue)
      else if bool_decide (c = "u"%char) then (setStep s stInStringEscU, scanContinue)
      else scanner_error s "in string escape code"
  | stInStringEscU => expectHex s c stInStringEscU1
  | stInStringEscU1 => expectHex s c stInStringEscU12
  | stInStringEscU12 => expectHex s c stInStringEscU123
  | stInStringEscU123 => expectHex s c stInString
  | stNeg =>
      if bool_decide (c = "0"%char) then (setStep s st0, scanContinue)
      else if (49 <=? byteval c) && (byteval c <=? 57) then (setStep s st1, scanContinue)
      else scanner_error s "in numeric literal"
  | st1 =>
      if isDigit c then (setStep s st1, scanContinue) else state0 s c
  | st0 => state0 s c
  | stDot =>
      if isDigit c then (setStep s stDot0, scanContinue)
      else scanner_error s "after decimal point in numeric literal"
  | stDot0 =>
      if isDigit c then (s, scanContinue)
      else if bool_decide (c = "e"%char) || bool_decide (c = "E"%char) then
        (setStep s stE, scanContinue)
      else stateEndValue s c
  | stE =>
      if bool_decide (c = "+"%char) || bool_decide (c = "-"%char) then
        (setStep s stESign, scanContinue)
      else stateESign s c
  | stESign => stateESign s c
  | stE0 => if isDigit c then (s, scanContinue) else stateEndValue s c
  | stT => expect s c "r" stTr "in literal true (expecting 'r')"
  | stTr => expect s c "u" stTru "in literal true (expecting 'u')"
  | stTru => expect s c "e" stEndValue "in literal true (expecting 'e')"
  | stF => expect s c "a" stFa "in literal false (expecting 'a')"
  | stFa => expect s c "l" stFal "in literal false (expecting 'l')"
  | stFal => expect s c "s" stFals "in literal false (expecting 's')"
  | stFals => expect s c "e" stEndValue "in literal false (expecting 'e')"
  | stN => expect s c "u" stNu "in literal null (expecting 'u')"
  | stNu => expect s c "l" stNul "in literal null (expecting 'l')"
  | stNul => expect s c "l" stEndValue "in literal null (expecting 'l')"
  | stError => (s, scanError)
  end.

(** *** The decoder of a stream *)

(** [nonSpace] *)
Definition nonSpace (b : string) : bool :=
  match skipSpace b with EmptyString => false | _ => true end.

(** The loop of [Decoder.readValue], on a reader that delivers [data] and
    then [io.EOF]; [buf] is what has not been scanned, and [scanp] the
    number of bytes scanned.  The result is the length of the first value
    of the stream, with the white space before it: the end of an object or
    of an array is known at its closing byte, and the end of another value
    at the byte after it, whatever that byte is. *)
Fixpoint readValueLoop (data : string) (scan : scanner) (buf : string) (scanp : nat)
  : error + nat :=
  match buf with
  | String c buf' =>
      let '(scan, op) := scanStep scan c in
      match op with
      | scanEnd => inr scanp
      | scanEndObject | scanEndArray =>
          let '(scan, op) := stateEndValue scan " " in
          if bool_decide (op = scanEnd) then inr (S scanp)
          else readValueLoop data scan buf' (S scanp)
      | scanError => inl (default (SyntaxError "") (err scan))
      | _ => readValueLoop data scan buf' (S scanp)
      end
  | EmptyString =>
      if bool_decide ((scanStep scan " ").2 = scanEnd) then inr scanp
      else if nonSpace data then inl ErrUnexpectedEOF
      else inl EOF
  end.

(** [Decoder.readValue], for the first call of [Decode]. *)
Definition readValue (data : string) : error + nat :=
  readValueLoop data reset data 0.

(** The first value of a stream, as [Decoder.Decode] reads it: the text
    that [readValue] delimits, parsed.  What follows the value is left in
    the stream.  (The text has passed the scanner, and the decoder goes
    through it again without a check of its own.) *)
Definition parseFirst (data : string) : error + value :=
  match readValue data with
  | inl e => inl e
  | inr n =>
      match parseValue (S n) 0 (string_take n data) with
      | Some (v, _) => inr v
      | None => inl (SyntaxError "invalid JSON")
      end
  end.

(** *** The encoder *)

Definition hex (d : Z) : ascii :=
  if d <? 10 then byte (48 + d) else byte (97 + d - 10).

(** [htmlSafeSet]: the ASCII bytes written as they are. *)
Definition htmlSafe (b : Z) : bool :=
  (32 <=? b) && negb (b =? 34) && negb (b =? 92)
  && negb (b =? 60) && negb (b =? 62) && negb (b =? 38).

(** What [appendString] writes for an ASCII byte. *)
Definition escapeByte (c : ascii) : string :=
  let b := byteval c in
  if htmlSafe b then String c EmptyString
  else if (b =? 92) || (b =? 34) then String "\"%char (String c EmptyString)
  else if b =? 8 then "\b"
  else if b =? 12 then "\f"
  else if b =? 10 then "\n"
  else if b =? 13 then "\r"
  else if b =? 9 then "\t"
  else
    String "\"%char (String "u"%char (String "0"%char (String "0"%char
      (String (hex (Z.shiftr b 4)) (String (hex (Z.land b 15)) EmptyString))))).

(** The loop of [appendString], with the escaping of HTML characters that
    [Marshal] asks for: what is written between the quotes.  Every iteration
    consumes at least one byte of [src]. *)
Fixpoint appendStringLoop (fuel : nat) (src : string) : string :=
  match fuel with
  | O => EmptyString
  | S fuel' =>
      match src with
      | EmptyString => EmptyString
      | String c src' =>
          if byteval c <? utf8.RuneSelf then
            escapeByte c +:+ appendStringLoop fuel' src'
          else
            let '(r, size) := utf8.DecodeRuneInString src in
            if (r =? utf8.RuneError) && (size =? 1) then
              "\ufffd" +:+ appendStringLoop fuel' src'
            else if (r =? 0x2028) || (r =? 0x2029) then
              String "\"%char (String "u"%char (String "2"%char (String "0"%char
                (String "2"%char (String (hex (Z.land r 15)) EmptyString)))))
              +:+ appendStringLoop fuel' (string_drop (Z.to_nat size) src)
            else
              string_take (Z.to_nat size) src
              +:+ appendStringLoop fuel' (string_drop (Z.to_nat size) src)
      end
  end.

(** [appendString]: the string literal for [src]. *)
Definition appendString (src : string) : string :=
  String "034"%char
    (appendStringLoop (String.length src) src +:+ String "034"%char EmptyString).

(** A new line and the indentation of [depth] levels; nothing in the compact
    form ([indent = None]). *)
Fixpoint indentation (indent : string) (depth : nat) : string :=
  match depth with
  | O => EmptyString
  | S depth' => indent +:+ indentation indent depth'
  end.

Definition newline (indent : option string) (depth : nat) : string :=
  match indent with
  | None => EmptyString
  | Some i => String "010"%char (indentation i depth)
  end.

Definition colon (indent : option string) : string :=
  match indent with None => ":" | Some _ => ": " end.

(** The text of a value: compact, as [Marshal] and [Encoder.Encode] write
    it, or indented, as [MarshalIndent] does with an empty prefix. *)
Fixpoint render (indent : option string) (depth : nat) (v : value) : string :=
  match v with
  | Null => "null"
  | Bool true => "true"
  | Bool false => "false"
  | Number literal => literal
  | Str s => appendString s
  | Array [] => "[]"
  | Array (e :: es) =>
      "[" +:+ newline indent (S depth) +:+ render indent (S depth) e
      +:+ (fix rest (es : list value) : string :=
             match es with
             | [] => EmptyString
             | e :: es' =>
                 "," +:+ newline indent (S depth) +:+ render indent (S depth) e
                 +:+ rest es'
             end) es
      +:+ newline indent depth +:+ "]"
  | Object [] => "{}"
  | Object ((k, m) :: ms) =>
      "{" +:+ newline indent (S depth) +:+ appendString k +:+ colon indent
      +:+ render indent (S depth) m
      +:+ (fix rest (ms : list (string * value)) : string :=
             match ms with
             | [] => EmptyString
             | (k, m) :: ms' =>
                 "," +:+ newline indent (S depth) +:+ appendString k
                 +:+ colon indent +:+ render indent (S depth) m +:+ rest ms'
             end) ms
      +:+ newline indent depth +:+ "}"
  end.

(** *** The types of the index, from and to documents *)

(** The record of a file, as both variants store it: the path, the lines and
    the time of modification. *)
Record record := {
  recPath : string;
  recLines : gmap Z string;
  recModified : Z
}.

(** The names of the fields of a record in the document. *)
Record fieldNames := {
  pathName : string;
  linesName : string;
  modifiedName : string
}.

(** The order of [strings.Compare] on keys. *)
Definition keyLe {A} (x y : string * A) : Prop := String.leb x.1 y.1 = true.

#[global] Instance keyLe_dec {A} (x y : string * A) : Decision (keyLe x y).
Proof. unfold keyLe. apply _. Defined.

(** A map with string keys, as an object: the members are sorted by key. *)
Definition sortedMembers {A} (toValue : A -> value) (m : list (string * A))
  : list (string * value) :=
  prod_map id toValue <$> merge_sort keyLe m.

(** [map[int]string]: the keys are written in decimal. *)
Definition linesToValue (lines : gmap Z string) : value :=
  Object (sortedMembers Str (prod_map strconv.Itoa id <$> map_to_list lines)).

Definition recordToValue (names : fieldNames) (r : record) : value :=
  Object [ (pathName names, Str (recPath r));
           (linesName names, linesToValue (recLines r));
           (modifiedName names, Number (strconv.Itoa (recModified r))) ].

(** [map[string]*T], with no nil pointer among the values. *)
Definition filesToValue (names : fieldNames) (files : gmap string record) : value :=
  Object (sortedMembers (recordToValue names) (map_to_list files)).

(** [foldName]: ASCII letters in upper case, and the two runes that fold to
    an ASCII letter (U+017F to [S], U+212A to [K]); no other rune folds to
    ASCII, so that this decides the equality under folding with the names
    of the fields, which are ASCII. *)
Fixpoint foldName (key : string) : string :=
  match key with
  | EmptyString => EmptyString
  | String c rest =>
      let b := byteval c in
      if (97 <=? b) && (b <=? 122) then String (byte (b - 32)) (foldName rest)
      else
        match rest with
        | String d rest' =>
            if (b =? 0xC5) && (byteval d =? 0xBF) then String "S"%char (foldName rest')
            else
              match rest' with
              | String e rest2 =>
                  if (b =? 0xE2) && (byteval d =? 0x84) && (byteval e =? 0xAA)
                  then String "K"%char (foldName rest2)
                  else String c (foldName rest)
              | EmptyString => String c (foldName rest)
              end
        | EmptyString => String c EmptyString
        end
  end.

(** Does the key of a member select the field [name]? *)
Definition selects (key name : string) : bool :=
  bool_decide (key = name) || bool_decide (foldName key = foldName name).

(** A string field or element: [null] leaves it as it is. *)
Definition decodeString (v : value) (old : string) : error + string :=
  match v with
  | Str s => inr s
  | Null => inr old
  | Bool _ => inl (UnmarshalTypeError "bool")
  | Number _ => inl (UnmarshalTypeError "number")
  | Array _ => inl (UnmarshalTypeError "array")
  | Object _ => inl (UnmarshalTypeError "object")
  end.

(** An [int64] field. *)
Definition decodeInt64 (v : value) (old : Z) : error + Z :=
  match v with
  | Number literal =>
      match strconv.ParseInt literal with
      | Some n => inr n
      | None => inl (UnmarshalTypeError ("number " +:+ literal))
      end
  | Null => inr old
  | Bool _ => inl (UnmarshalTypeError "bool")
  | Str _ => inl (UnmarshalTypeError "string")
  | Array _ => inl (UnmarshalTypeError "array")
  | Object _ => inl (UnmarshalTypeError "object")
  end.

(** The members of an object into a [map[int]string]. *)
Fixpoint decodeLineMembers (members : list (string * value)) (m : gmap Z string)
  : error + gmap Z string :=
  match members with
  | [] => inr m
  | (key, v) :: members' =>
      match decodeString v EmptyString with
      | inl err => inl err
      | inr line =>
          match strconv.ParseInt key with
          | None => inl (UnmarshalTypeError ("number " +:+ key))
          | Some n => decodeLineMembers members' (<[n := line]> m)
          end
      end
  end.

(** A [map[int]string] field: an object is added to the map, [null] empties
    it. *)
Definition decodeLines (v : value) (old : gmap Z string) : error + gmap Z string :=
  match v with
  | Object members => decodeLineMembers members old
  | Null => inr ∅
  | Bool _ => inl (UnmarshalTypeError "bool")
  | Number _ => inl (UnmarshalTypeError "number")
  | Str _ => inl (UnmarshalTypeError "string")
  | Array _ => inl (UnmarshalTypeError "array")
  end.

(** The members of an object into a record; a member that selects no field
    is skipped. *)
Fixpoint decodeFields (names : fieldNames) (members : list (string * value))
    (r : record) : error + record :=
  match members with
  | [] => inr r
  | (key, v) :: members' =>
      if selects key (pathName names) then
        match decodeString v (recPath r) with
        | inl err => inl err
        | inr p =>
            decodeFields names members'
              {| recPath := p; recLines := recLines r; recModified := recModified r |}
        end
      else if selects key (linesName names) then
        match decodeLines v (recLines r) with
        | inl err => inl err
        | inr l =>
            decodeFields names members'
              {| recPath := recPath r; recLines := l; recModified := recModified r |}
        end
      else if selects key (modifiedName names) then
        match decodeInt64 v (recModified r) with
        | inl err => inl err
        | inr t =>
            decodeFields names members'
              {| recPath := recPath r; recLines := recLines r; recModified := t |}
        end
      else decodeFields names members' r
  end.

(** A value of a [map[string]*T]: a pointer to a new record, or nil for
    [null]. *)
Definition decodeRecord (names : fieldNames) (v : value) : error + option record :=
  match v with
  | Object members =>
      match decodeFields names members
              {| recPath := ""; recLines := ∅; recModified := 0 |} with
      | inl err => inl err
      | inr r => inr (Some r)
      end
  | Null => inr None
  | Bool _ => inl (UnmarshalTypeError "bool")
  | Number _ => inl (UnmarshalTypeError "number")
  | Str _ => inl (UnmarshalTypeError "string")
  | Array _ => inl (UnmarshalTypeError "array")
  end.

Fixpoint decodeFileMembers (names : fieldNames) (members : list (string * value))
    (m : gmap string (option record)) : error + gmap string (option record) :=
  match members with
  | [] => inr m
  | (key, v) :: members' =>
      match decodeRecord names v with
      | inl err => inl err
      | inr r => decodeFileMembers names members' (<[key := r]> m)
      end
  end.

(** A [map[string]*T]: an object is added to the map, [null] empties it. *)
Definition decodeFiles (names : fieldNames) (v : value)
    (old : gmap string (option record)) : error + gmap string (option record) :=
  match v with
  | Object members => decodeFileMembers names members old
  | Null => inr ∅
  | Bool _ => inl (UnmarshalTypeError "bool")
  | Number _ => inl (UnmarshalTypeError "number")
  | Str _ => inl (UnmarshalTypeError "string")
  | Array _ => inl (UnmarshalTypeError "array")
  end.

End json.

(** ** Package [sort] *)

Module sort.

(** [Slice] sorts in place, and is not stable: what it leaves of the slice
    [x] is a permutation of [x] in which no element is less than the one
    before it. *)
Definition Slice_returns {A} (less : A -> A -> bool) (x out : list A) : Prop :=
  out ≡ₚ x
  /\ forall i a b, out !! i = Some a -> out !! S i = Some b -> less b a = false.

End sort.

(** ** Variant [cursor] *)

Module cursor.

(** *** Package [indexer] *)

Module indexer.

(** Maximum size for the scanner buffer (16MB). *)
Definition maxScannerBufferSize : Z := 16 * 1024 * 1024.

(** [FileEntry]: an indexed file. *)
Record FileEntry := {
  Path : string;
  LineIndex : gmap Z string;
  Modified : Z
}.

(** [Index]: the indexer; the mutex carries no data. *)
Record Index := {
  files : gmap string FileEntry;
  workers : Z;
  indexed : Z;
  skipped : Z
}.

(** [NewIndex] *)
Definition NewIndex (workers : Z) : Index :=
  {| files := ∅;
     workers := if workers <=? 0 then 1 else workers;
     indexed := 0;
     skipped := 0 |}.

(** [GetFiles] returns a copy of the map of the indexer: a map that shares
    nothing with the indexer's own. *)
Definition GetFiles (idx : Index) : gmap string FileEntry := files idx.

(** The extensions of [isBinaryFile]. *)
Definition binaryExts : list string :=
  [ ".exe"; ".dll"; ".so"; ".dylib";
    ".bin"; ".obj"; ".o"; ".a";
    ".lib"; ".pyc"; ".class"; ".jar";
    ".war"; ".ear"; ".zip"; ".tar";
    ".gz"; ".7z"; ".rar"; ".pdf";
    ".jpg"; ".jpeg"; ".png"; ".gif";
    ".bmp"; ".ico"; ".mp3"; ".mp4";
    ".avi"; ".mov"; ".wmv"; ".flv" ].

Section indexer.
Context `{unicode.CaseTables}.

(** [isBinaryFile] *)
Definition isBinaryFile (path : string) : bool :=
  let ext := strings.ToLower (filepath.Ext path) in
  bool_decide (ext ∈ binaryExts).

(** The split function that [indexFile] gives to its scanner. *)
Definition splitLines : bufio.SplitFunc := fun data atEOF =>
  if atEOF && (len data =? 0) then (0, None, None)
  else
    let i := bytes.IndexByte data "010"%char in
    if 0 <=? i then (i + 1, Some (string_take (Z.to_nat i) data), None)
    else if atEOF then (len data, Some data, None)
    else (0, None, None).

(** [for scanner.Scan() { entry.LineIndex[lineNum] = scanner.Text();
    lineNum++ }]; every token of a line scanner consumes at least one byte,
    which bounds the number of iterations by the size of the file. *)
Fixpoint scanLoop (fuel : nat) (scanner : bufio.Scanner) (lineNum : Z)
    (lineIndex : gmap Z string) : bufio.Scanner * gmap Z string :=
  match fuel with
  | O => (scanner, lineIndex)
  | S fuel' =>
      let '(ok, scanner) := bufio.Scan scanner in
      if ok then
        scanLoop fuel' scanner (lineNum + 1)
          (<[lineNum := bufio.Text scanner]> lineIndex)
      else (scanner, lineIndex)
  end.

(** The part of [indexFile] that reads an open file. *)
Definition scanFile (path absPath : string) (f : os.file) : error + FileEntry :=
  match os.fstat f with
  | inl err => inl (Wrapf "failed to stat file" (PathError "stat" path err))
  | inr info =>
      let scanner := bufio.NewScanner (os.contents f) bufio.ScanLines in
      let scanner := bufio.Buffer scanner maxScannerBufferSize maxScannerBufferSize in
      let scanner := bufio.Split scanner splitLines in
      let '(scanner, lineIndex) :=
        scanLoop (S (String.length (os.contents f))) scanner 1 ∅ in
      match bufio.Err scanner with
      | Some err => inl (Wrapf "error scanning file" err)
      | None =>
          inr {| Path := absPath; LineIndex := lineIndex;
                 Modified := os.ModTime info |}
      end
  end.

(** [indexFile] *)
Definition indexFile (fs : os.FileSystem) (idx : Index) (path : string)
  : Index * option error :=
  let absPath := filepath.Abs (os.Getwd fs) path in
  match os.Open fs path with
  | inl err => (idx, Some (Wrapf "failed to open file" (PathError "open" path err)))
  | inr f =>
      match scanFile path absPath f with
      | inl err => (idx, Some err)
      | inr entry =>
          ({| files := <[absPath := entry]> (files idx);
              workers := workers idx; indexed := indexed idx;
              skipped := skipped idx |}, None)
      end
  end.

(** What the goroutine that walks the tree produces: the paths sent to the
    workers, the counter of skipped files and the warnings printed. *)
Record walkState := {
  sent : list string;
  skippedFiles : Z;
  warnings : list (string * error)
}.

(** The function given to [filepath.Walk]. *)
Definition walkFn : walk.WalkFunc (S := walkState) := fun path info err st =>
  match err, info with
  | Some e, _ =>
      ({| sent := sent st; skippedFiles := skippedFiles st;
          warnings := warnings st ++ [(path, e)] |}, None)
  | None, Some info =>
      if negb (os.IsDir info) then
        if isBinaryFile path || strings.HasPrefix (filepath.Base path) "." then
          ({| sent := sent st; skippedFiles := skippedFiles st + 1;
              warnings := warnings st |}, None)
        else if 100 * 1024 * 1024 <? os.Size info then
          ({| sent := sent st; skippedFiles := skippedFiles st + 1;
              warnings := warnings st |}, None)
        else
          ({| sent := sent st ++ [path]; skippedFiles := skippedFiles st;
              warnings := warnings st |}, None)
      else (st, None)
  | None, None => (st, None)
  end.

(** One path taken from the channel by a worker: the index after the work
    and the errors sent so far. *)
Definition worker (fs : os.FileSystem) (st : Index * list error) (path : string)
  : Index * list error :=
  let '(idx, errors) := st in
  match indexFile fs idx path with
  | (idx, Some err) => (idx, errors ++ [Wrapf ("error indexing " +:+ path) err])
  | (idx, None) =>
      ({| files := files idx; workers := workers idx;
          indexed := indexed idx + 1; skipped := skipped idx |}, errors)
  end.

(** What a run of [IndexDirectory] leaves: the index, the error it returns
    and the errors it printed.  The workers take the paths in the order in
    which they were sent; they write distinct keys of the map, so another
    schedule gives the same index. *)
Record runResult := {
  index : Index;
  returned : option error;
  printed : list error;
  warned : list (string * error)
}.

(** [IndexDirectory] *)
Definition IndexDirectory (fs : os.FileSystem) (idx : Index) (root : string)
  : runResult :=
  (* Reset counters and clear existing files *)
  let idx := {| files := ∅; workers := workers idx; indexed := 0; skipped := 0 |} in
  (* the goroutine that walks the directory *)
  let '(ws, walkErr) :=
    walk.Walk fs root walkFn {| sent := []; skippedFiles := 0; warnings := [] |} in
  let idx := {| files := files idx; workers := workers idx;
                indexed := indexed idx; skipped := skippedFiles ws |} in
  (* the workers *)
  let '(idx, errors) := foldl (worker fs) (idx, []) (sent ws) in
  let errors :=
    match walkErr with
    | Some err => errors ++ [Wrapf "walk error" err]
    | None => errors
    end in
  {| index := idx; returned := None; printed := errors; warned := warnings ws |}.

End indexer.

End indexer.

(** *** Package [search] *)

Module search.
Import indexer.

Record SearchResult := {
  FilePath : string;
  LineNumber : Z;
  Line : string;
  MatchCount : Z
}.

Section search.
Context `{unicode.CaseTables}.

(** [searchFile]: the results sent for one file; [keyword] is already in
    lower case. *)
Definition searchFile (path : string) (entry : FileEntry) (keyword : string)
  : list SearchResult :=
  omap (fun '(lineNum, line) =>
          let lowerLine := strings.ToLower line in
          let count := strings.Count lowerLine keyword in
          if 0 <? count then
            Some {| FilePath := path; LineNumber := lineNum;
                    Line := line; MatchCount := count |}
          else None)
       (map_to_list (LineIndex entry)).

(** [Search]: one task per file; the collector keeps the results with a
    positive count. *)
Definition Search (idx : Index) (keyword : string) : list SearchResult :=
  let files := GetFiles idx in
  let keyword := strings.ToLower keyword in
  filter (fun r => 0 < MatchCount r)
    (map_to_list files ≫= fun '(path, entry) => searchFile path entry keyword).

(** What a call of [Search] can return: the tasks run concurrently and Go
    iterates over maps in no fixed order, so the results arrive in any
    order. *)
Definition Search_returns (idx : Index) (keyword : string)
  (results : list SearchResult) : Prop :=
  results ≡ₚ Search idx keyword.

End search.

End search.

(** *** Package [cache] *)

Module cache.
Import indexer.

Definition defaultCacheFile : string := ".indexer_cache.json".

(** [Cache]: persistent storage of indexed data. *)
Record Cache := {
  filePath : string
}.

(** [NewCache] *)
Definition NewCache (cacheDir : string) : Cache :=
  {| filePath := filepath.Join cacheDir defaultCacheFile |}.

(** The names that the tags of [FileEntry] give to its fields. *)
Definition fileEntryNames : json.fieldNames :=
  {| json.pathName := "path";
     json.linesName := "line_index";
     json.modifiedName := "modified" |}.

Definition toRecord (e : FileEntry) : json.record :=
  {| json.recPath := Path e; json.recLines := LineIndex e;
     json.recModified := Modified e |}.

Definition ofRecord (r : json.record) : FileEntry :=
  {| Path := json.recPath r; LineIndex := json.recLines r;
     Modified := json.recModified r |}.

(** [json.MarshalIndent(data, "", "  ")]; it does not fail on a
    [map[string]*FileEntry]. *)
Definition MarshalIndent (data : gmap string FileEntry) : string :=
  json.render (Some "  ") 0 (json.filesToValue fileEntryNames (toRecord <$> data)).

(** [json.Unmarshal(jsonData, &data)] into the empty map that [Load] has
    made; a value of the map is a pointer, which [null] leaves nil. *)
Definition Unmarshal (jsonData : string) : error + gmap string (option FileEntry) :=
  match json.parse jsonData with
  | inl err => inl err
  | inr v =>
      match json.decodeFiles fileEntryNames v ∅ with
      | inl err => inl err
      | inr data => inr (fmap (M:=option) ofRecord <$> data)
      end
  end.

(** [Save] *)
Definition Save (c : Cache) (d : disk.Disk) (f : disk.fault) (idx : Index)
  : disk.Disk * option error :=
  let data := GetFiles idx in
  (* Create cache directory if it doesn't exist *)
  match disk.MkdirAll f (filepath.Dir (filePath c)) with
  | Some err => (d, Some err)
  | None =>
      (* Marshal data to JSON *)
      let jsonData := MarshalIndent data in
      (* Write to file *)
      disk.WriteFile d f (filePath c) jsonData
  end.

(** [Load] *)
Definition Load (c : Cache) (d : disk.Disk) (readErr : option errno)
  : error + gmap string (option FileEntry) :=
  match disk.ReadFile d readErr (filePath c) with
  | inl err => if IsNotExist err then inr ∅ else inl err
  | inr jsonData => Unmarshal jsonData
  end.

End cache.

(** *** Package [main] *)

Module main.
Import indexer.

(** One iteration of the loop of [main] over the loaded data.  The
    assignment [idx.GetFiles()[path] = entry] writes into the map that
    [GetFiles] has just returned, which is a copy: the map of the indexer is
    not changed. *)
Definition reconcile (fs : os.FileSystem) (st : Index * Z)
    (loaded : string * option FileEntry) : Index * Z :=
  let '(idx, validFiles) := st in
  let '(path, entry) := loaded in
  match os.Stat fs path with
  | inr _ => (idx, validFiles + 1)
  | inl _ => (idx, validFiles)
  end.

(** [for path, entry := range data { ... }], from [validFiles := 0]. *)
Definition reconcileAll (fs : os.FileSystem) (idx : Index)
    (data : gmap string (option FileEntry)) : Index * Z :=
  foldl (reconcile fs) (idx, 0) (map_to_list data).

(** The start of [main], once [os.UserHomeDir] has returned [home]: the
    indexer and the cache are made, and the cache is loaded.  The result is
    the indexer, the cache, the warning printed if the cache cannot be
    loaded, and the number of valid files printed otherwise. *)
Definition loadCache (fs : os.FileSystem) (d : disk.Disk) (readErr : option errno)
    (home : string) (numCPU : Z) : Index * cache.Cache * option error * Z :=
  let cacheDir := filepath.Join (filepath.Join home ".cache") "indexer" in
  let idx := NewIndex numCPU in
  let c := cache.NewCache cacheDir in
  match cache.Load c d readErr with
  | inl err => (idx, c, Some err, 0)
  | inr data =>
      let '(idx, validFiles) := reconcileAll fs idx data in
      (idx, c, None, validFiles)
  end.

Section main.
Context `{unicode.CaseTables}.

(** [handleIndex]: the indexer and the disk after the command, and the
    warning printed if the cache cannot be saved.  ([IndexDirectory] returns
    no error, so that the exit on its error is not taken.) *)
Definition handleIndex (fs : os.FileSystem) (d : disk.Disk) (f : disk.fault)
    (dirPath : string) (idx : Index) (c : cache.Cache)
  : Index * disk.Disk * option error :=
  let absPath := filepath.Abs (os.Getwd fs) dirPath in
  let run := IndexDirectory fs idx absPath in
  let '(d, err) := cache.Save c d f (index run) in
  (index run, d, err).

(** [handleSearch]: the results, before they are sorted and printed. *)
Definition handleSearch (keyword : string) (idx : Index)
  : list search.SearchResult :=
  search.Search idx keyword.

(** The order that [handleSearch] gives to [sort.Slice]: by file path, and
    by line number in a file. *)
Definition less (a b : search.SearchResult) : bool :=
  if bool_decide (search.FilePath a = search.FilePath b)
  then search.LineNumber a <? search.LineNumber b
  else String.ltb (search.FilePath a) (search.FilePath b).

(** The results that [handleSearch] prints, in the order in which it prints
    them: none for a search without result, and else the results of
    [Search], as [sort.Slice] leaves them. *)
Definition handleSearch_prints (keyword : string) (idx : Index)
    (out : list search.SearchResult) : Prop :=
  exists results,
    search.Search_returns idx keyword results
    /\ match results with
       | [] => out = []
       | _ => sort.Slice_returns less results out
       end.

End main.

End main.

End cursor.

(** ** Variant [windsurf] *)

Module windsurf.

(** [SearchResult]: a single search result with file path and line number. *)
Record SearchResult := {
  FilePath : string;
  LineNumber : Z
}.

(** [FileIndex]: the index data for a single file. *)
Record FileIndex := {
  Path : string;
  LineMap : gmap Z string;
  Modified : Z
}.

(** [Index]: the entire index data structure. *)
Record Index := {
  Files : gmap string FileIndex
}.

(** [Indexer]; the mutex carries no data. *)
Record Indexer := {
  index : Index;
  indexFilePath : string
}.

(** [NewIndexer]; [home] is the result of [os.UserHomeDir]. *)
Definition NewIndexer (home : error + string) : Indexer :=
  let homeDir := match home with inl _ => "." | inr dir => dir end in
  {| index := {| Files := ∅ |};
     indexFilePath := filepath.Join homeDir ".indexer_data.json" |}.

(** *** The classifier helpers *)

Definition DefaultExcludedDirs : list string :=
  [ ".git"; ".svn"; "node_modules"; "vendor"; "bin"; "obj" ].

Definition DefaultExcludedExtensions : list string :=
  [ ".exe"; ".dll"; ".so"; ".dylib"; ".o"; ".a"; ".out";
    ".jpg"; ".jpeg"; ".png"; ".gif"; ".bmp"; ".ico"; ".svg";
    ".mp3"; ".mp4"; ".avi"; ".mkv"; ".mov"; ".flv"; ".wmv";
    ".zip"; ".tar"; ".gz"; ".rar"; ".7z"; ".jar"; ".war";
    ".class"; ".pyc"; ".pyo"; ".obj" ].

Definition textExtensions : list string :=
  [ ".txt"; ".md"; ".json"; ".xml"; ".html"; ".htm"; ".css"; ".js";
    ".go"; ".py"; ".java"; ".c"; ".cpp"; ".h"; ".hpp"; ".cs"; ".php";
    ".rb"; ".pl"; ".sh"; ".bat"; ".ps1"; ".yaml"; ".yml"; ".toml";
    ".ini"; ".cfg"; ".conf"; ".log"; ".csv"; ".tsv" ].

Section windsurf.
Context `{unicode.CaseTables}.

(** [ShouldIndexFile] *)
Definition ShouldIndexFile (fs : os.FileSystem) (path : string) : bool :=
  match os.Stat fs path with
  | inl _ => false
  | inr info =>
      if os.IsDir info then false
      else if 10 * 1024 * 1024 <? os.Size info then false
      else
        let dirPath := filepath.Dir path in
        if existsb (fun excludedDir => strings.Contains dirPath excludedDir)
                   DefaultExcludedDirs
        then false
        else
          let ext := strings.ToLower (filepath.Ext path) in
          if existsb (fun excludedExt => bool_decide (ext = excludedExt))
                     DefaultExcludedExtensions
          then false
          else true
  end.

(** [IsTextFile] *)
Definition IsTextFile (path : string) : bool :=
  let ext := strings.ToLower (filepath.Ext path) in
  existsb (fun textExt => bool_decide (ext = textExt)) textExtensions.

(** [for scanner.Scan() { fileIndex.LineMap[lineNum] = scanner.Text();
    lineNum++ }] *)
Fixpoint scanLoop (fuel : nat) (scanner : bufio.Scanner) (lineNum : Z)
    (lineMap : gmap Z string) : bufio.Scanner * gmap Z string :=
  match fuel with
  | O => (scanner, lineMap)
  | S fuel' =>
      let '(ok, scanner) := bufio.Scan scanner in
      if ok then
        scanLoop fuel' scanner (lineNum + 1)
          (<[lineNum := bufio.Text scanner]> lineMap)
      else (scanner, lineMap)
  end.

(** The part of [indexFile] that reads an open file. *)
Definition scanFile (filePath : string) (f : os.file) : error + FileIndex :=
  match os.fstat f with
  | inl err => inl (PathError "stat" filePath err)
  | inr info =>
      let scanner := bufio.NewScanner (os.contents f) bufio.ScanLines in
      let '(scanner, lineMap) :=
        scanLoop (S (String.length (os.contents f))) scanner 1 ∅ in
      match bufio.Err scanner with
      | Some err => inl err
      | None =>
          inr {| Path := filePath; LineMap := lineMap;
                 Modified := os.ModTime info |}
      end
  end.

(** [indexFile] *)
Definition indexFile (fs : os.FileSystem) (filePath : string) : error + FileIndex :=
  match os.Open fs filePath with
  | inl err => inl (PathError "open" filePath err)
  | inr f => scanFile filePath f
  end.

(** The function given to [filepath.Walk]; its state is the list of the
    paths sent to the workers. *)
Definition walkFn (fs : os.FileSystem) : walk.WalkFunc (S := list string) :=
  fun path info err sent =>
    match err, info with
    | Some e, _ => (sent, Some e)
    | None, Some info =>
        if os.IsDir info then (sent, None)
        else if ShouldIndexFile fs path && IsTextFile path then (sent ++ [path], None)
        else (sent, None)
    | None, None => (sent, None)
    end.

(** One path taken from the channel by a worker, and its outcome taken by
    the collectors: the files of the index and the errors met so far. *)
Definition worker (fs : os.FileSystem) (st : gmap string FileIndex * list error)
    (filePath : string) : gmap string FileIndex * list error :=
  let '(files, errors) := st in
  match indexFile fs filePath with
  | inl err => (files, errors ++ [Wrapf ("error indexing " +:+ filePath) err])
  | inr fileIndex => (<[Path fileIndex := fileIndex]> files, errors)
  end.

(** [IndexDirectory], for a call that returns: the indexer after the run,
    the number of files in its index and the error returned.  The workers
    take the paths in the order in which they were sent; every error that
    a worker sends is received before the channel of the errors is closed.
    (A call does not always return: see [IndexDirectory_outcome].) *)
Definition IndexDirectory (fs : os.FileSystem) (idx : Indexer) (rootDir : string)
  : Indexer * Z * option error :=
  let '(sent, walkErr) := walk.Walk fs rootDir (walkFn fs) [] in
  let '(files, errors) := foldl (worker fs) (Files (index idx), []) sent in
  let indexingErrors :=
    match walkErr with
    | Some err => errors ++ [err]
    | None => errors
    end in
  let idx := {| index := {| Files := files |};
                indexFilePath := indexFilePath idx |} in
  let count := Z.of_nat (size files) in
  if 0 <? Z.of_nat (length indexingErrors) then
    (idx, count,
     Some (Errorf ("encountered "
                   +:+ strconv.Itoa (Z.of_nat (length indexingErrors))
                   +:+ " errors during indexing")))
  else (idx, count, None).

(** The paths that the walk sends to the workers on [filesChan]. *)
Definition sentPaths (fs : os.FileSystem) (rootDir : string) : list string :=
  (walk.Walk fs rootDir (walkFn fs) []).1.

(** The paths sent on which [indexFile] fails: for each of them a worker
    sends an error on [errorsChan]. *)
Definition failedPaths (fs : os.FileSystem) (rootDir : string) : list string :=
  List.filter (fun filePath =>
                 match indexFile fs filePath with inl _ => true | inr _ => false end)
              (sentPaths fs rootDir).

(** How a call of [IndexDirectory] ends. *)
Inductive outcome :=
| Returns (idx : Indexer) (count : Z) (err : option error)
| Panics.

(** The outcomes of a call of [IndexDirectory].  The goroutine that walks
    the tree closes [errorsChan] as soon as the walk has ended, without
    waiting for the workers, and a worker whose [indexFile] fails sends
    its error on that channel.  A send that comes after the close panics
    (send on closed channel), and the scheduler decides which comes first.
    So a call in which [indexFile] fails for a path sent to the workers
    returns or panics; a call in which it fails for none returns. *)
Definition IndexDirectory_outcome (fs : os.FileSystem) (idx : Indexer)
    (rootDir : string) (o : outcome) : Prop :=
  match o with
  | Returns idx' count err => (idx', count, err) = IndexDirectory fs idx rootDir
  | Panics => failedPaths fs rootDir <> []
  end.

(** [Search] *)
Definition Search (idx : Indexer) (keyword : string) : list SearchResult :=
  let keyword := strings.ToLower keyword in
  '(_, fileIndex) ← map_to_list (Files (index idx));
  '(lineNum, lineText) ← map_to_list (LineMap fileIndex);
  if strings.Contains (strings.ToLower lineText) keyword
  then [ {| FilePath := Path fileIndex; LineNumber := lineNum |} ]
  else [].

End windsurf.

(** *** The index file *)

Definition fileIndexNames : json.fieldNames :=
  {| json.pathName := "path";
     json.linesName := "lineMap";
     json.modifiedName := "modified" |}.

Definition toRecord (e : FileIndex) : json.record :=
  {| json.recPath := Path e; json.recLines := LineMap e;
     json.recModified := Modified e |}.

Definition ofRecord (r : json.record) : FileIndex :=
  {| Path := json.recPath r; LineMap := json.recLines r;
     Modified := json.recModified r |}.

(** What [Encoder.Encode(idx.index)] writes: the compact text of the
    [Index], and a new line. *)
Definition Encode (index : Index) : string :=
  json.render None 0
    (json.Object [("files", json.filesToValue fileIndexNames (toRecord <$> Files index))])
  +:+ String "010"%char EmptyString.

(** [SaveIndex]: the error of the deferred [file.Close] is dropped. *)
Definition SaveIndex (idx : Indexer) (d : disk.Disk) (f : disk.fault)
  : disk.Disk * option error :=
  match disk.Create d f (indexFilePath idx) with
  | (d, Some err) => (d, Some err)
  | (d, None) =>
      let '(d, err) := disk.Write d f (indexFilePath idx) (Encode (index idx)) in
      let _ := disk.Close f (indexFilePath idx) in
      (d, err)
  end.

(** The members of the document into the [Index]: the member [files] is
    added to the map of the index, and the other members are skipped. *)
Fixpoint decodeIndexMembers (members : list (string * json.value))
    (files : gmap string (option json.record))
  : error + gmap string (option json.record) :=
  match members with
  | [] => inr files
  | (key, v) :: members' =>
      if json.selects key "files" then
        match json.decodeFiles fileIndexNames v files with
        | inl err => inl err
        | inr files' => decodeIndexMembers members' files'
        end
      else decodeIndexMembers members' files
  end.

(** [Decoder.Decode(&idx.index)]: the first value of the file is decoded
    into the index that the indexer holds. *)
Definition Decode (data : string) (index : Index)
  : error + gmap string (option json.record) :=
  let files := Some ∘ toRecord <$> Files index in
  match json.parseFirst data with
  | inl err => inl err
  | inr (json.Object members) => decodeIndexMembers members files
  | inr json.Null => inr files
  | inr (json.Bool _) => inl (UnmarshalTypeError "bool")
  | inr (json.Number _) => inl (UnmarshalTypeError "number")
  | inr (json.Str _) => inl (UnmarshalTypeError "string")
  | inr (json.Array _) => inl (UnmarshalTypeError "array")
  end.

(** The records of a decoded map, if none of its pointers is nil. *)
Definition allRecords (files : gmap string (option json.record))
  : option (gmap string FileIndex) :=
  if bool_decide (map_Forall (fun _ r => r <> None) files)
  then Some (omap (fmap ofRecord) files) else None.

(** [LoadIndex]: the error returned, or the indexer after the call.  (After
    an error the command stops; what a failed decoding has stored by then is
    not modelled.)  A document that gives [null] for a file leaves a nil
    pointer in the map of the index, which a later search dereferences; the
    model has no such store and gives [None] then. *)
Definition LoadIndex (idx : Indexer) (d : disk.Disk) (readErr : option errno)
  : option (error + Indexer) :=
  match disk.ReadFile d readErr (indexFilePath idx) with
  | inl err => Some (inl err)
  | inr data =>
      match Decode data (index idx) with
      | inl err => Some (inl err)
      | inr files =>
          match allRecords files with
          | None => None
          | Some files =>
              Some (inr {| index := {| Files := files |};
                           indexFilePath := indexFilePath idx |})
          end
      end
  end.

Section windsurf_main.
Context `{unicode.CaseTables}.

(** [handleIndex], when the call of [IndexDirectory] returns: the indexer
    and the disk after the command, and the error that makes the command
    fail. *)
Definition handleIndex (fs : os.FileSystem) (home : error + string)
    (d : disk.Disk) (f : disk.fault) (dirPath : string)
  : Indexer * disk.Disk * option error :=
  let dirPath := filepath.Abs (os.Getwd fs) dirPath in
  let indexer := NewIndexer home in
  let '(indexer, count, err) := IndexDirectory fs indexer dirPath in
  match err with
  | Some err => (indexer, d, Some err)
  | None =>
      let '(d, err) := SaveIndex indexer d f in
      (indexer, d, err)
  end.

(** How the index command ends: it exits, with or without an error, or it
    stops on the panic of [IndexDirectory], before anything is written. *)
Inductive ending :=
| Exits (indexer : Indexer) (d : disk.Disk) (err : option error)
| Crashes (d : disk.Disk).

Definition handleIndex_ends (fs : os.FileSystem) (home : error + string)
    (d : disk.Disk) (f : disk.fault) (dirPath : string) (e : ending) : Prop :=
  match e with
  | Exits indexer d' err => (indexer, d', err) = handleIndex fs home d f dirPath
  | Crashes d' =>
      d' = d
      /\ IndexDirectory_outcome fs (NewIndexer home)
           (filepath.Abs (os.Getwd fs) dirPath) Panics
  end.

(** [handleSearch]: the error that makes the command fail, or the results.
    The index is loaded and searched as it is: no path is checked for
    existence. *)
Definition handleSearch (home : error + string) (d : disk.Disk)
    (readErr : option errno) (keyword : string)
  : option (error + list SearchResult) :=
  let indexer := NewIndexer home in
  match LoadIndex indexer d readErr with
  | None => None
  | Some (inl err) => Some (inl err)
  | Some (inr indexer) => Some (inr (Search indexer keyword))
  end.

End windsurf_main.

End windsurf.

(** * Properties *)

(** ** Byte sequences *)

Lemma byteval_range c : 0 <= byteval c < 256.
Proof.
  unfold byteval. pose proof (N_ascii_bounded c). lia.
Qed.

Lemma byte_byteval c : byte (byteval c) = c.
Proof.
  unfold byte. pose proof (byteval_range c).
  rewrite Z.mod_small by lia. unfold byteval.
  rewrite N2Z.id. apply ascii_N_embedding.
Qed.

Lemma byteval_byte x : byteval (byte x) = x mod 256.
Proof.
  unfold byte, byteval.
  pose proof (Z.mod_pos_bound x 256 ltac:(lia)).
  rewrite N_ascii_embedding by lia. lia.
Qed.

Lemma byteval_inj c d : byteval c = byteval d -> c = d.
Proof.
  intros E. rewrite <- (byte_byteval c), <- (byte_byteval d). by rewrite E.
Qed.

Lemma string_app_nil_l t : "" +:+ t = t.
Proof. reflexivity. Qed.

Lemma string_app_cons c s t : String c s +:+ t = String c (s +:+ t).
Proof. reflexivity. Qed.

(** [String.append] never unfolds under [simpl]; its two equations are
    rewritten instead. *)
Ltac str_simpl :=
  repeat (progress (simpl in *; rewrite ?string_app_nil_l, ?string_app_cons in * ));
  simpl in *.

Lemma string_app_length s t :
  String.length (s +:+ t) = (String.length s + String.length t)%nat.
Proof. induction s; str_simpl; auto. Qed.

Lemma string_app_assoc s t u : (s +:+ t) +:+ u = s +:+ (t +:+ u).
Proof. induction s; str_simpl; f_equal; auto. Qed.

Lemma string_app_nil_r s : s +:+ "" = s.
Proof. induction s; str_simpl; f_equal; auto. Qed.

Lemma string_drop_length n s :
  String.length (string_drop n s) = (String.length s - n)%nat.
Proof. revert s; induction n; intros [|c s]; simpl; auto. Qed.

Lemma string_take_length n s :
  String.length (string_take n s) = (n `min` String.length s)%nat.
Proof. revert s; induction n; intros [|c s]; simpl; auto. Qed.

Lemma string_take_drop n s : string_take n s +:+ string_drop n s = s.
Proof. revert s; induction n; intros [|c s]; str_simpl; f_equal; auto. Qed.

Lemma string_take_app s t : string_take (String.length s) (s +:+ t) = s.
Proof. induction s; str_simpl; f_equal; auto. Qed.

Lemma string_drop_app s t : string_drop (String.length s) (s +:+ t) = t.
Proof. induction s; str_simpl; auto. Qed.

Lemma string_drop_drop n m s :
  string_drop n (string_drop m s) = string_drop (m + n) s.
Proof.
  revert s; induction m; intros s; simpl; [done|].
  destruct s; [by destruct n|]. apply IHm.
Qed.

Lemma string_drop_all n s : (String.length s <= n)%nat -> string_drop n s = "".
Proof.
  revert s; induction n; intros [|c s]; simpl; intros; try done; try lia.
  apply IHn. lia.
Qed.

Lemma string_app_inv_length s1 s2 t1 t2 :
  s1 +:+ t1 = s2 +:+ t2 -> String.length s1 = String.length s2 ->
  s1 = s2 /\ t1 = t2.
Proof.
  revert s2; induction s1; intros [|c s2]; str_simpl; try done.
  intros [= -> E] [= L]. destruct (IHs1 _ E L). by subst.
Qed.

(** ** Package [strings]: [HasPrefix], [Index] and [Contains] *)

(** [sub] occurs in [s] at byte offset [i]. *)
Definition occurs_at (sub s : string) (i : nat) : Prop :=
  exists pre post, s = pre +:+ sub +:+ post /\ String.length pre = i.

Lemma HasPrefix_spec s p :
  strings.HasPrefix s p = true <-> exists post, s = p +:+ post.
Proof.
  unfold strings.HasPrefix, len.
  rewrite andb_true_iff, bool_decide_eq_true, Z.leb_le. split.
  - intros [_ E]. exists (string_drop (String.length p) s).
    rewrite <- E at 1. by rewrite string_take_drop.
  - intros [post ->]. rewrite string_app_length, string_take_app.
    split; [lia | done].
Qed.

Lemma occurs_at_0 sub s : occurs_at sub s 0 <-> strings.HasPrefix s sub = true.
Proof.
  rewrite HasPrefix_spec. split.
  - intros ([|??] & post & -> & L); [|done]. by exists post.
  - intros [post ->]. by exists "", post.
Qed.

Lemma occurs_at_S sub c s i : occurs_at sub (String c s) (S i) <-> occurs_at sub s i.
Proof.
  split.
  - intros ([|d pre] & post & E & L); [done|].
    simpl in *. injection E as -> ->. injection L as L. by exists pre, post.
  - intros (pre & post & -> & L). exists (String c pre), post. simpl. by rewrite L.
Qed.

Lemma occurs_at_bound sub s i :
  occurs_at sub s i -> (i + String.length sub <= String.length s)%nat.
Proof.
  intros (pre & post & -> & <-). rewrite !string_app_length. lia.
Qed.

Lemma occurs_at_drop sub s i k :
  (k <= i)%nat -> (k <= String.length s)%nat ->
  occurs_at sub s i <-> occurs_at sub (string_drop k s) (i - k).
Proof.
  revert s i; induction k; intros s i Hk Hs; simpl.
  - by rewrite Nat.sub_0_r.
  - destruct i as [|i]; [lia|]. destruct s as [|c s]; [simpl in Hs; lia|].
    rewrite occurs_at_S. simpl in *. apply IHk; lia.
Qed.

(** [Index] returns [-1] exactly when there is no occurrence, and otherwise
    the offset of the leftmost one. *)
Lemma Index_spec s sub :
  (strings.Index s sub = -1 /\ forall i, ~ occurs_at sub s i)
  \/ (0 <= strings.Index s sub
      /\ occurs_at sub s (Z.to_nat (strings.Index s sub))
      /\ forall i, occurs_at sub s i -> (Z.to_nat (strings.Index s sub) <= i)%nat).
Proof.
  induction s as [|c s IH]; simpl.
  - destruct (strings.HasPrefix "" sub) eqn:E.
    + right. split; [lia|]. split; [by apply occurs_at_0 | intros; lia].
    + left. split; [done|]. intros i Ho.
      assert (i = 0%nat) as ->.
      { apply occurs_at_bound in Ho. simpl in Ho. lia. }
      apply occurs_at_0 in Ho. congruence.
  - destruct (strings.HasPrefix (String c s) sub) eqn:E.
    + right. split; [lia|]. split; [by apply occurs_at_0 | intros; lia].
    + destruct IH as [[-> Hno]|(Hpos & Hocc & Hmin)].
      * left. split; [done|]. intros [|i] Ho.
        -- apply occurs_at_0 in Ho. congruence.
        -- apply occurs_at_S in Ho. by apply (Hno i).
      * right. destruct (Z.ltb_spec (strings.Index s sub) 0); [lia|].
        split; [lia|]. split.
        -- replace (Z.to_nat (strings.Index s sub + 1))
             with (S (Z.to_nat (strings.Index s sub))) by lia.
           by apply occurs_at_S.
        -- intros [|i] Ho.
           ++ apply occurs_at_0 in Ho. congruence.
           ++ apply occurs_at_S, Hmin in Ho. lia.
Qed.

Lemma Contains_spec s sub :
  strings.Contains s sub = true <-> exists i, occurs_at sub s i.
Proof.
  unfold strings.Contains. rewrite Z.leb_le.
  destruct (Index_spec s sub) as [[E Hno]|(Hpos & Hocc & _)].
  - rewrite E. split; [lia|]. intros [i Ho]. by apply Hno in Ho.
  - split; [eauto | done].
Qed.

(** ** Package [strings]: [Count] *)

(** The number of non-overlapping occurrences, as the specification words it:
    a family of occurrences of [sub] in [s] is a list of byte offsets, in
    increasing order, each at least [length sub] after the previous one; the
    number of non-overlapping occurrences is the size of a largest family. *)
Fixpoint spaced (width from : nat) (l : list nat) : Prop :=
  match l with
  | [] => True
  | i :: l' => (from <= i)%nat /\ spaced width (i + width) l'
  end.

Definition nonoverlapping_occurrences (sub s : string) (l : list nat) : Prop :=
  Forall (occurs_at sub s) l /\ spaced (String.length sub) 0 l.

Definition spec_nonoverlapping_count (sub s : string) (n : Z) : Prop :=
  (exists l, nonoverlapping_occurrences sub s l /\ Z.of_nat (length l) = n)
  /\ forall l, nonoverlapping_occurrences sub s l -> Z.of_nat (length l) <= n.

Lemma spec_nonoverlapping_count_unique sub s n m :
  spec_nonoverlapping_count sub s n -> spec_nonoverlapping_count sub s m -> n = m.
Proof.
  intros [(l1 & H1 & E1) U1] [(l2 & H2 & E2) U2].
  apply U2 in H1. apply U1 in H2. lia.
Qed.

Lemma spaced_weaken width from from' l :
  (from' <= from)%nat -> spaced width from l -> spaced width from' l.
Proof. destruct l; simpl; [done|]. intros ? [? ?]. split; [lia|done]. Qed.

Lemma spaced_lower_bound width from l :
  spaced width from l -> Forall (fun i => (from <= i)%nat) l.
Proof.
  revert from; induction l as [|i l IH]; intros from; simpl; [constructor|].
  intros [Hi Hl]. constructor; [done|].
  eapply Forall_impl; [by apply IH|]. simpl. intros. lia.
Qed.

Lemma spaced_shift_up width from k l :
  spaced width from l -> spaced width (from + k) ((fun i => (i + k)%nat) <$> l).
Proof.
  revert from; induction l as [|i l IH]; intros from; simpl; [done|].
  intros [Hi Hl]. split; [lia|].
  replace (i + k + width)%nat with (i + width + k)%nat by lia. by apply IH.
Qed.

Lemma spaced_shift_down width from k l :
  (k <= from)%nat -> spaced width from l ->
  spaced width (from - k) ((fun i => (i - k)%nat) <$> l).
Proof.
  revert from; induction l as [|i l IH]; intros from Hk; simpl; [done|].
  intros [Hi Hl]. split; [lia|].
  replace (i - k + width)%nat with (i + width - k)%nat by lia. apply IH; [lia|done].
Qed.

Lemma spec_count_none sub s :
  (forall i, ~ occurs_at sub s i) -> spec_nonoverlapping_count sub s 0.
Proof.
  intros Hno. split.
  - exists []. repeat split; constructor.
  - intros [|i l] [Hocc _]; [simpl; lia|].
    inversion Hocc; subst. by destruct (Hno i).
Qed.

(** The greedy step of the loop of [Count]: cutting [s] just after its
    leftmost occurrence loses exactly one occurrence of a largest family. *)
Lemma spec_count_step sub s i m :
  sub <> "" ->
  occurs_at sub s i -> (forall j, occurs_at sub s j -> (i <= j)%nat) ->
  spec_nonoverlapping_count sub (string_drop (i + String.length sub) s) m ->
  spec_nonoverlapping_count sub s (m + 1).
Proof.
  intros Hne Hocc Hmin [(l' & [Ho' Hs'] & El') Hmax].
  pose proof (occurs_at_bound _ _ _ Hocc) as Hb.
  set (k := (i + String.length sub)%nat) in *.
  split.
  - exists (i :: ((fun j => (j + k)%nat) <$> l')). split; [split|].
    + constructor; [done|]. apply Forall_fmap.
      eapply Forall_impl; [exact Ho'|]. simpl. intros j Hj.
      apply (occurs_at_drop sub s (j + k) k); [lia|lia|].
      by replace (j + k - k)%nat with j by lia.
    + simpl. split; [lia|].
      apply (spaced_shift_up _ 0 k) in Hs'. exact Hs'.
    + simpl. rewrite length_fmap. lia.
  - intros [|j l] [Ho Hs]; [simpl; lia|].
    apply Forall_cons in Ho as [Hj Hl]. destruct Hs as [_ Hs].
    pose proof (Hmin _ Hj) as Hij.
    assert (spaced (String.length sub) k l) as Hs2.
    { eapply spaced_weaken; [|exact Hs]. unfold k. lia. }
    specialize (Hmax ((fun x => (x - k)%nat) <$> l)).
    rewrite length_fmap in Hmax. simpl.
    assert (Z.of_nat (length l) <= m); [|lia].
    apply Hmax. split.
    + apply Forall_fmap.
      pose proof (spaced_lower_bound _ _ _ Hs2) as Hlb.
      rewrite Forall_forall in Hl, Hlb. apply Forall_forall.
      intros x Hx. simpl. apply (occurs_at_drop sub s x k); auto.
    + apply (spaced_shift_down _ k k) in Hs2; [|lia].
      by rewrite Nat.sub_diag in Hs2.
Qed.

(** When [sub] does not occur at offset 0, the first byte can be dropped. *)
Lemma spec_count_skip sub c s m :
  ~ occurs_at sub (String c s) 0 ->
  spec_nonoverlapping_count sub s m ->
  spec_nonoverlapping_count sub (String c s) m.
Proof.
  intros Hno [(l' & [Ho' Hs'] & El') Hmax]. split.
  - exists (S <$> l'). split; [split|].
    + apply Forall_fmap. eapply Forall_impl; [exact Ho'|].
      simpl. intros j Hj. by apply occurs_at_S.
    + apply (spaced_shift_up _ 0 1) in Hs'.
      eapply spaced_weaken; [|erewrite list_fmap_ext; [exact Hs'|]]; [lia|].
      intros; simpl; lia.
    + by rewrite length_fmap.
  - intros l [Ho Hs].
    assert (Forall (fun i => (1 <= i)%nat) l) as Hpos.
    { rewrite Forall_forall in Ho. apply Forall_forall. intros [|i] Hi; [|lia].
      by apply Ho in Hi. }
    specialize (Hmax ((fun x => (x - 1)%nat) <$> l)).
    rewrite length_fmap in Hmax. apply Hmax. split.
    + apply Forall_fmap. rewrite Forall_forall in Ho, Hpos. apply Forall_forall.
      intros [|i] Hi; simpl; [by apply Hpos in Hi; lia|].
      rewrite Nat.sub_0_r. apply (occurs_at_S sub c). by apply Ho.
    + destruct l as [|i l]; [done|]. simpl in *. destruct Hs as [_ Hs].
      apply Forall_cons in Hpos as [Hi _]. split; [lia|].
      apply (spaced_shift_down _ _ 1) in Hs; [|lia].
      eapply spaced_weaken; [|exact Hs]. lia.
Qed.

Lemma Count_loop_spec fuel s sub n :
  sub <> "" -> (String.length s < fuel)%nat ->
  exists m, strings.Count_loop fuel s sub n = n + m
            /\ spec_nonoverlapping_count sub s m.
Proof.
  intros Hne. revert s n. induction fuel as [|fuel IH]; intros s n Hf; [lia|].
  simpl. destruct (Index_spec s sub) as [[E Hno]|(Hpos & Hocc & Hmin)].
  - rewrite E. simpl. exists 0. split; [lia|]. by apply spec_count_none.
  - destruct (Z.eqb_spec (strings.Index s sub) (-1)); [lia|].
    set (i := Z.to_nat (strings.Index s sub)) in *.
    assert (Z.to_nat (strings.Index s sub + len sub)
            = (i + String.length sub)%nat) as -> by (unfold len, i; lia).
    destruct (IH (string_drop (i + String.length sub) s) (n + 1)) as (m & E & Hm).
    { rewrite string_drop_length. apply occurs_at_bound in Hocc.
      destruct sub; [done|]. simpl in *. lia. }
    exists (m + 1). split; [lia|]. by apply spec_count_step with i.
Qed.

Lemma CountString_spec s c :
  spec_nonoverlapping_count (String c "") s (strings.CountString s c).
Proof.
  induction s as [|d s IH]; simpl.
  - apply spec_count_none. intros i Ho%occurs_at_bound. simpl in Ho. lia.
  - case_bool_decide as Hd.
    + subst d. rewrite Z.add_comm.
      apply spec_count_step with 0%nat; [done| |intros; lia|done].
      apply occurs_at_0, HasPrefix_spec. by exists s.
    + rewrite Z.add_0_l. apply spec_count_skip; [|done].
      intros ([|??] & post & E & L); [|done]. by injection E.
Qed.

(** For a non-empty [substr], [Count] is the number of non-overlapping
    occurrences. *)
Lemma Count_spec s sub :
  sub <> "" -> spec_nonoverlapping_count sub s (strings.Count s sub).
Proof.
  intros Hne. unfold strings.Count. destruct sub as [|c [|d sub]]; [done| |].
  - apply CountString_spec.
  - destruct (Count_loop_spec (S (String.length s)) s (String c (String d sub)) 0)
      as (m & -> & Hm); [done|lia|]. by rewrite Z.add_0_l.
Qed.

Lemma spec_count_positive sub s n :
  spec_nonoverlapping_count sub s n -> 0 < n <-> exists i, occurs_at sub s i.
Proof.
  intros [(l & [Ho Hs] & El) Hmax]. split.
  - intros Hn. destruct l as [|i l]; [simpl in El; lia|].
    inversion Ho; subst. eauto.
  - intros [i Hi]. specialize (Hmax [i]). simpl in Hmax.
    assert (1 <= n); [|lia]. apply Hmax. split; [by repeat constructor|].
    simpl. split; [lia|done].
Qed.

Lemma RuneCount_loop_ge fuel s n : n <= utf8.RuneCount_loop fuel s n.
Proof.
  revert s n; induction fuel as [|fuel IH]; intros s n; simpl; [lia|].
  destruct s; [lia|]. etrans; [|apply IH]. lia.
Qed.

Lemma RuneCountInString_nonneg s : 0 <= utf8.RuneCountInString s.
Proof. apply RuneCount_loop_ge. Qed.

(** [Count] is positive exactly when [Contains] holds; this covers the empty
    [substr] too, which every string contains. *)
Lemma Count_positive s sub :
  0 < strings.Count s sub <-> strings.Contains s sub = true.
Proof.
  rewrite Contains_spec. destruct (decide (sub = "")) as [->|Hne].
  - simpl. pose proof (RuneCountInString_nonneg s). split; [|lia].
    intros _. exists 0%nat, "", s. done.
  - apply spec_count_positive. by apply Count_spec.
Qed.

Lemma Count_nonneg s sub : 0 <= strings.Count s sub.
Proof.
  destruct (decide (sub = "")) as [->|Hne].
  - simpl. pose proof (RuneCountInString_nonneg s). lia.
  - destruct (Count_spec s sub Hne) as [(l & _ & <-) _]. lia.
Qed.

(** ** Package [unicode/utf8] *)

Lemma first_cases b :
  0 <= b < 256 ->
  (b < 0x80 /\ utf8.first b = utf8.as_)
  \/ ((0x80 <= b < 0xC2 \/ 0xF5 <= b) /\ utf8.first b = utf8.xx)
  \/ (0xC2 <= b < 0xE0 /\ utf8.first b = utf8.s1)
  \/ (b = 0xE0 /\ utf8.first b = utf8.s2)
  \/ ((0xE1 <= b < 0xED \/ 0xEE <= b < 0xF0) /\ utf8.first b = utf8.s3)
  \/ (b = 0xED /\ utf8.first b = utf8.s4)
  \/ (b = 0xF0 /\ utf8.first b = utf8.s5)
  \/ (0xF1 <= b < 0xF4 /\ utf8.first b = utf8.s6)
  \/ (b = 0xF4 /\ utf8.first b = utf8.s7).
Proof.
  intros Hb. unfold utf8.first.
  repeat match goal with
         | |- context [?x <? ?y] => destruct (Z.ltb_spec x y)
         | |- context [?x =? ?y] => destruct (Z.eqb_spec x y)
         end; lia.
Qed.

(** Case analysis on the comparisons left in the goal. *)
Ltac cmp_cases :=
  repeat match goal with
         | |- context [?x <? ?y] => destruct (Z.ltb_spec x y); simpl
         | |- context [?x <=? ?y] => destruct (Z.leb_spec x y); simpl
         | |- context [?x =? ?y] => destruct (Z.eqb_spec x y); simpl
         end.

(** Rewriting of the comparisons that the context decides. *)
Ltac cmp_decide :=
  repeat first
    [ match goal with
      | |- context [?x <? ?y] =>
          first [ rewrite (proj2 (Z.ltb_lt x y)) by lia
                | rewrite (proj2 (Z.ltb_ge x y)) by lia ]
      end
    | match goal with
      | |- context [?x <=? ?y] =>
          first [ rewrite (proj2 (Z.leb_le x y)) by lia
                | rewrite (proj2 (Z.leb_gt x y)) by lia ]
      end
    | match goal with
      | |- context [?x =? ?y] =>
          first [ rewrite (proj2 (Z.eqb_eq x y)) by lia
                | rewrite (proj2 (Z.eqb_neq x y)) by lia ]
      end ];
  simpl.

(** Evaluation of the fields of a known entry of the [first] table. *)
Ltac eval_table_bits :=
  repeat match goal with
         | |- context [Z.land ?a 7] =>
             let v := eval vm_compute in (Z.land a 7) in
             progress change (Z.land a 7) with v
         | |- context [Z.shiftr ?a 4] =>
             let v := eval vm_compute in (Z.shiftr a 4) in
             progress change (Z.shiftr a 4) with v
         end.

Ltac first_byte_cases b :=
  let Hr := fresh "Hr" in let Hf := fresh "Hf" in
  destruct (first_cases b (byteval_range _))
    as [[Hr Hf]|[[Hr Hf]|[[Hr Hf]|[[Hr Hf]|[[Hr Hf]|[[Hr Hf]|[[Hr Hf]|[[Hr Hf]|[Hr Hf]]]]]]]]];
  rewrite Hf;
  unfold utf8.as_, utf8.xx, utf8.s1, utf8.s2, utf8.s3, utf8.s4, utf8.s5,
    utf8.s6, utf8.s7;
  eval_table_bits; cbn; unfold utf8.locb, utf8.hicb.

Lemma len_cons c s : len (String c s) = 1 + len s.
Proof. unfold len. simpl. lia. Qed.

Lemma len_nonneg s : 0 <= len s.
Proof. unfold len. lia. Qed.

(** The loop of [RuneCountInString] and [DecodeRuneInString] agree on the
    width of the first rune. *)
Lemma DecodeRune_width s :
  s <> "" -> snd (utf8.DecodeRuneInString s) = utf8.runeStep s.
Proof.
  destruct s as [|c0 r0]; [done|]. intros _.
  unfold utf8.DecodeRuneInString, utf8.runeStep. cbv zeta.
  unfold utf8.RuneSelf, utf8.locb, utf8.hicb.
  first_byte_cases (byteval c0);
    destruct r0 as [|c1 [|c2 [|c3 r3]]]; rewrite ?len_cons; cbn;
    try pose proof (len_nonneg r3); cmp_cases; try lia; try done.
Qed.

Lemma runeStep_range s : s <> "" -> 1 <= utf8.runeStep s <= len s.
Proof.
  destruct s as [|c0 r0]; [done|]. intros _.
  unfold utf8.runeStep. cbv zeta.
  unfold utf8.RuneSelf, utf8.locb, utf8.hicb.
  first_byte_cases (byteval c0);
    destruct r0 as [|c1 [|c2 [|c3 r3]]]; rewrite ?len_cons; cbn;
    try pose proof (len_nonneg r3); cmp_cases; try lia; try done.
Qed.

Lemma RuneCount_loop_indep k s fuel1 fuel2 n m :
  (String.length s <= k)%nat ->
  (String.length s <= fuel1)%nat -> (String.length s <= fuel2)%nat ->
  utf8.RuneCount_loop fuel1 s n - n = utf8.RuneCount_loop fuel2 s m - m.
Proof.
  revert s fuel1 fuel2 n m. induction k as [|k IH]; intros s f1 f2 n m Hk H1 H2.
  - destruct s; [|simpl in Hk; lia]. destruct f1, f2; simpl; lia.
  - destruct s as [|c s]; [destruct f1, f2; simpl; lia|].
    destruct f1 as [|f1]; [simpl in H1; lia|].
    destruct f2 as [|f2]; [simpl in H2; lia|].
    cbn [utf8.RuneCount_loop].
    pose proof (runeStep_range (String c s) ltac:(done)) as Hstep.
    set (w := utf8.runeStep _) in *. set (rest := string_drop _ _).
    assert (String.length rest < String.length (String c s))%nat as Hlt.
    { unfold rest. rewrite string_drop_length. cbn [String.length]. lia. }
    cbn [String.length] in Hlt, Hk, H1, H2.
    rewrite <- (Z.add_simpl_r (utf8.RuneCount_loop f1 rest (n + 1) - n) 1).
    rewrite <- (Z.add_simpl_r (utf8.RuneCount_loop f2 rest (m + 1) - m) 1).
    f_equal.
    pose proof (IH rest f1 f2 (n + 1) (m + 1)). lia.
Qed.

Lemma RuneCountInString_step s :
  s <> "" ->
  utf8.RuneCountInString s
  = 1 + utf8.RuneCountInString (string_drop (Z.to_nat (utf8.runeStep s)) s).
Proof.
  intros Hs. destruct s as [|c s]; [done|].
  unfold utf8.RuneCountInString at 1. cbn [String.length utf8.RuneCount_loop].
  pose proof (runeStep_range (String c s) ltac:(done)) as Hstep.
  set (w := utf8.runeStep _) in *. set (rest := string_drop _ _).
  assert (String.length rest <= String.length s)%nat as Hlt.
  { unfold rest. rewrite string_drop_length. cbn [String.length]. lia. }
  pose proof (RuneCount_loop_indep (String.length rest) rest (String.length s)
                (String.length rest) (0 + 1) 0 ltac:(lia) Hlt ltac:(lia)) as E.
  unfold utf8.RuneCountInString. lia.
Qed.

(** *** Bit operations as arithmetic *)

(** [lia] after the elimination of division and remainder by constants. *)
Ltac dlia := Z.div_mod_to_equations; lia.

(** The low six bits of a byte of [x] are the low six bits of [x]; a value
    below 256 is its own low byte. *)
Ltac norm_low_bits :=
  repeat match goal with
         | |- context [(?a mod 256) mod 64] =>
             replace ((a mod 256) mod 64) with (a mod 64) by dlia
         | |- context [(?a / ?k) mod 256] =>
             rewrite (Z.mod_small (a / k) 256) by dlia
         end.

Lemma lor_disjoint_add a y k :
  0 <= k -> a mod 2 ^ k = 0 -> 0 <= y < 2 ^ k -> Z.lor a y = a + y.
Proof.
  intros Hk Ha Hy. rewrite <- Z.add_lor_land.
  assert (Z.land a y = 0) as ->; [|lia].
  apply Z.bits_inj'. intros n Hn. rewrite Z.land_spec, Z.bits_0.
  destruct (Z.lt_ge_cases n k).
  - rewrite <- (Z.mod_pow2_bits_low a k n) by lia. by rewrite Ha, Z.bits_0.
  - rewrite <- (Z.mod_small y (2 ^ k)) by lia.
    rewrite Z.mod_pow2_bits_high by lia. apply andb_false_r.
Qed.

Lemma land_maskx x : Z.land x utf8.maskx = x mod 64.
Proof. change utf8.maskx with (Z.ones 6). by rewrite Z.land_ones. Qed.

Lemma lor_tx y : 0 <= y < 64 -> Z.lor utf8.tx y = 0x80 + y.
Proof. intros. by apply (lor_disjoint_add _ _ 6). Qed.

Lemma lor_t2 y : 0 <= y < 32 -> Z.lor utf8.t2 y = 0xC0 + y.
Proof. intros. by apply (lor_disjoint_add _ _ 5). Qed.

Lemma lor_t3 y : 0 <= y < 16 -> Z.lor utf8.t3 y = 0xE0 + y.
Proof. intros. by apply (lor_disjoint_add _ _ 4). Qed.

Lemma lor_t4 y : 0 <= y < 8 -> Z.lor utf8.t4 y = 0xF0 + y.
Proof. intros. by apply (lor_disjoint_add _ _ 3). Qed.

(** The bytes written by [EncodeRune], by range of the rune. *)
Lemma EncodeRune_cases r :
  0 <= r ->
  (r <= 0x7F /\ utf8.EncodeRune r = String (byte r) "")
  \/ (0x80 <= r <= 0x7FF
      /\ utf8.EncodeRune r
         = String (byte (0xC0 + r / 64)) (String (byte (0x80 + r mod 64)) ""))
  \/ ((0x800 <= r < 0xD800 \/ 0xE000 <= r <= 0xFFFF)
      /\ utf8.EncodeRune r
         = String (byte (0xE0 + r / 4096))
             (String (byte (0x80 + (r / 64) mod 64))
                (String (byte (0x80 + r mod 64)) "")))
  \/ (0x10000 <= r <= 0x10FFFF
      /\ utf8.EncodeRune r
         = String (byte (0xF0 + r / 262144))
             (String (byte (0x80 + (r / 4096) mod 64))
                (String (byte (0x80 + (r / 64) mod 64))
                   (String (byte (0x80 + r mod 64)) ""))))
  \/ ((0xD800 <= r <= 0xDFFF \/ 0x10FFFF < r)
      /\ utf8.EncodeRune r
         = String (byte 0xEF) (String (byte 0xBF) (String (byte 0xBD) ""))).
Proof.
  intros Hr. unfold utf8.EncodeRune.
  unfold utf8.rune1Max, utf8.rune2Max, utf8.rune3Max, utf8.MaxRune,
    utf8.surrogateMin, utf8.surrogateMax.
  rewrite !byteval_byte, !land_maskx, !Z.shiftr_div_pow2 by lia.
  change (2 ^ 6) with 64. change (2 ^ 12) with 4096. change (2 ^ 18) with 262144.
  destruct (Z_le_gt_dec r 0x7F); [left; split; [lia|]; by cmp_decide|].
  destruct (Z_le_gt_dec r 0x7FF).
  { right; left. split; [lia|]. cmp_decide.
    norm_low_bits. by rewrite lor_t2, lor_tx by dlia. }
  destruct (Z_le_gt_dec r 0xFFFF).
  { destruct (Z_lt_ge_dec r 0xD800); [|destruct (Z_le_gt_dec r 0xDFFF)].
    - right; right; left. split; [lia|]. cmp_decide.
      norm_low_bits. by rewrite lor_t3, !lor_tx by dlia.
    - do 4 right. split; [lia|]. by cmp_decide.
    - right; right; left. split; [lia|]. cmp_decide.
      norm_low_bits. by rewrite lor_t3, !lor_tx by dlia. }
  destruct (Z_le_gt_dec r 0x10FFFF).
  - do 3 right; left. split; [lia|]. cmp_decide.
    norm_low_bits. by rewrite lor_t4, !lor_tx by dlia.
  - do 4 right. split; [lia|]. by cmp_decide.
Qed.

Lemma EncodeRune_nonempty r : utf8.EncodeRune r <> "".
Proof.
  unfold utf8.EncodeRune. repeat case_match; done.
Qed.

(** The loop of [RuneCountInString] takes an encoded rune in one step. *)
Lemma runeStep_EncodeRune r t :
  0 <= r -> utf8.runeStep (utf8.EncodeRune r +:+ t) = len (utf8.EncodeRune r).
Proof.
  intros Hr.
  destruct (EncodeRune_cases r Hr)
    as [[Hc ->]|[[Hc ->]|[[Hc ->]|[[Hc ->]|[Hc ->]]]]];
    rewrite ?string_app_cons, ?string_app_nil_l;
    unfold utf8.runeStep; cbv zeta; rewrite ?len_cons;
    unfold utf8.RuneSelf, utf8.locb, utf8.hicb;
    change (len "") with 0; pose proof (len_nonneg t).
  - rewrite byteval_byte. rewrite Z.mod_small by lia. by cmp_decide.
  - first_byte_cases (byteval (byte (192 + r `div` 64)));
      rewrite !byteval_byte in *; cmp_cases; try done; dlia.
  - first_byte_cases (byteval (byte (224 + r `div` 4096)));
      rewrite !byteval_byte in *; cmp_cases; try done; dlia.
  - first_byte_cases (byteval (byte (240 + r `div` 262144)));
      rewrite !byteval_byte in *; cmp_cases; try done; dlia.
  - first_byte_cases (byteval (byte 239));
      rewrite !byteval_byte in *; cmp_cases; try done; dlia.
Qed.

Lemma DecodeRune_nonneg s : 0 <= fst (utf8.DecodeRuneInString s).
Proof.
  unfold utf8.DecodeRuneInString. pose proof (byteval_range).
  repeat case_match; simpl; unfold utf8.RuneError; try lia;
    try apply byteval_range;
    repeat first [ apply Z.lor_nonneg; split
                 | apply Z.shiftl_nonneg
                 | apply Z.land_nonneg; left; apply byteval_range ].
Qed.

Lemma RuneCount_EncodeRune_app r t :
  0 <= r ->
  utf8.RuneCountInString (utf8.EncodeRune r +:+ t) = 1 + utf8.RuneCountInString t.
Proof.
  intros Hr. rewrite RuneCountInString_step.
  - rewrite runeStep_EncodeRune by done. unfold len.
    by rewrite Nat2Z.id, string_drop_app.
  - pose proof (EncodeRune_nonempty r). by destruct (utf8.EncodeRune r).
Qed.

Lemma RuneCount_Map_loop mapping fuel s :
  (forall c, 0 <= c -> 0 <= mapping c) -> (String.length s <= fuel)%nat ->
  utf8.RuneCountInString (strings.Map_loop fuel mapping s)
  = utf8.RuneCountInString s.
Proof.
  intros Hm. revert s. induction fuel as [|fuel IH]; intros s Hf.
  - by destruct s; [|simpl in Hf; lia].
  - destruct s as [|c0 r0]; [done|]. cbn [strings.Map_loop].
    pose proof (DecodeRune_width (String c0 r0) ltac:(done)) as Hw.
    pose proof (DecodeRune_nonneg (String c0 r0)) as Hc.
    pose proof (runeStep_range (String c0 r0) ltac:(done)) as Hstep.
    destruct (utf8.DecodeRuneInString (String c0 r0)) as [c w].
    cbn [fst snd] in Hw, Hc.
    rewrite (RuneCountInString_step (String c0 r0)) by done.
    rewrite <- Hw in Hstep |- *.
    destruct (Z.leb_spec 0 (mapping c)) as [Hpos|Hneg].
    + rewrite RuneCount_EncodeRune_app by done. f_equal. apply IH.
      rewrite string_drop_length. cbn [String.length] in *. unfold len in *. lia.
    + specialize (Hm c Hc). lia.
Qed.

Lemma isASCII_RuneCount s :
  strings.isASCII s = true -> utf8.RuneCountInString s = len s.
Proof.
  induction s as [|c s IH]; [done|]. simpl.
  destruct (Z.leb_spec utf8.RuneSelf (byteval c)) as [|Hc]; [done|]. intros Hs.
  rewrite RuneCountInString_step by done.
  assert (utf8.runeStep (String c s) = 1) as ->.
  { unfold utf8.runeStep. by cmp_decide. }
  simpl. rewrite IH by done. rewrite len_cons. done.
Qed.

Lemma lowerByte_ascii c :
  byteval c < utf8.RuneSelf -> byteval (strings.lowerByte c) < utf8.RuneSelf.
Proof.
  unfold strings.lowerByte, utf8.RuneSelf. intros Hc.
  cmp_cases; try done. rewrite byteval_byte. dlia.
Qed.

Lemma lowerASCII_isASCII s :
  strings.isASCII s = true -> strings.isASCII (strings.lowerASCII s) = true.
Proof.
  induction s as [|c s IH]; [done|]. simpl.
  destruct (Z.leb_spec utf8.RuneSelf (byteval c)) as [|Hc]; [done|]. intros Hs.
  apply lowerByte_ascii in Hc.
  destruct (Z.leb_spec utf8.RuneSelf (byteval (strings.lowerByte c))); [lia|].
  by apply IH.
Qed.

Lemma lowerASCII_length s : len (strings.lowerASCII s) = len s.
Proof. induction s; [done|]. simpl. rewrite !len_cons. lia. Qed.

(** Lower-casing keeps the number of runes, provided the case table maps
    runes to runes (no negative value). *)
Lemma RuneCount_ToLower `{unicode.CaseTables} s :
  (forall r, unicode.MaxASCII < r -> 0 <= unicode.to_lower_table r) ->
  utf8.RuneCountInString (strings.ToLower s) = utf8.RuneCountInString s.
Proof.
  intros Htable. unfold strings.ToLower. destruct (strings.isASCII s) eqn:Ha.
  - rewrite !isASCII_RuneCount by auto using lowerASCII_isASCII.
    apply lowerASCII_length.
  - apply RuneCount_Map_loop; [|done]. intros c Hc. unfold unicode.ToLower.
    destruct (Z.leb_spec c unicode.MaxASCII); [|by apply Htable].
    cmp_cases; lia.
Qed.

Lemma ToLower_empty `{unicode.CaseTables} : strings.ToLower "" = "".
Proof. done. Qed.

(** ** Line scanning *)

Definition LF : ascii := "010"%char.

(** The line-feed-delimited segments of a byte sequence, as the specification
    words them: every line feed ends a segment, and what follows the last
    line feed is a segment too unless it is empty. *)
Fixpoint spec_segments (data : string) : list string :=
  match data with
  | EmptyString => []
  | String c rest =>
      if bool_decide (c = LF) then EmptyString :: spec_segments rest
      else
        match spec_segments rest with
        | [] => [String c EmptyString]
        | seg :: segs => String c seg :: segs
        end
  end.

(** The lines of a file record: [lines], numbered from [first] on. *)
Fixpoint numberFrom (first : Z) (lines : list string) (m : gmap Z string)
  : gmap Z string :=
  match lines with
  | [] => m
  | line :: lines' => numberFrom (first + 1) lines' (<[first := line]> m)
  end.

(** The shape shared by the split function of [cursor] and by
    [bufio.ScanLines]: lines end at a line feed, and [post] trims the
    token. *)
Definition lineSplit (post : string -> string) : bufio.SplitFunc := fun data atEOF =>
  if atEOF && (len data =? 0) then (0, None, None)
  else
    let i := bytes.IndexByte data LF in
    if 0 <=? i then (i + 1, Some (post (string_take (Z.to_nat i) data)), None)
    else if atEOF then (len data, Some (post data), None)
    else (0, None, None).

Lemma splitLines_lineSplit `{unicode.CaseTables} :
  cursor.indexer.splitLines = lineSplit (fun t => t).
Proof. reflexivity. Qed.

Lemma ScanLines_lineSplit : bufio.ScanLines = lineSplit bufio.dropCR.
Proof. reflexivity. Qed.

Lemma IndexByte_range b c : -1 <= bytes.IndexByte b c < len b.
Proof.
  induction b as [|d b IH]; simpl; [unfold len; simpl; lia|].
  rewrite len_cons. case_bool_decide; [lia|].
  destruct (Z.ltb_spec (bytes.IndexByte b c) 0); lia.
Qed.

Lemma IndexByte_app a b c :
  bytes.IndexByte (a +:+ b) c
  = if 0 <=? bytes.IndexByte a c then bytes.IndexByte a c
    else if 0 <=? bytes.IndexByte b c then len a + bytes.IndexByte b c
    else -1.
Proof.
  induction a as [|d a IH]; str_simpl.
  - pose proof (IndexByte_range b c). destruct (Z.leb_spec 0 (bytes.IndexByte b c)).
    + unfold len. simpl. lia.
    + lia.
  - rewrite len_cons. case_bool_decide; [done|]. rewrite IH.
    pose proof (IndexByte_range a c). pose proof (IndexByte_range b c).
    pose proof (len_nonneg a).
    destruct (Z.ltb_spec (bytes.IndexByte a c) 0);
      destruct (Z.leb_spec 0 (bytes.IndexByte a c)); try lia;
      destruct (Z.leb_spec 0 (bytes.IndexByte b c)); cmp_decide; lia.
Qed.

Lemma IndexByte_cons_eq c b : bytes.IndexByte (String c b) c = 0.
Proof. simpl. by rewrite bool_decide_eq_true_2. Qed.

(** The bytes before the first occurrence of [c]. *)
Lemma IndexByte_split b c :
  0 <= bytes.IndexByte b c ->
  exists a rest, b = a +:+ String c rest
                 /\ bytes.IndexByte a c = -1
                 /\ len a = bytes.IndexByte b c.
Proof.
  induction b as [|d b IH]; simpl; [lia|]. case_bool_decide as Hd.
  - subst d. intros _. by exists "", b.
  - destruct (Z.ltb_spec (bytes.IndexByte b c) 0); [lia|]. intros _.
    destruct IH as (a & rest & -> & Ha & Hl); [lia|].
    exists (String d a), rest. str_simpl. rewrite bool_decide_eq_false_2 by done.
    rewrite Ha, len_cons. split; [done|]. split; [done|lia].
Qed.

Lemma first_occurrence_unique a1 a2 r1 r2 c :
  bytes.IndexByte a1 c = -1 -> bytes.IndexByte a2 c = -1 ->
  a1 +:+ String c r1 = a2 +:+ String c r2 -> a1 = a2 /\ r1 = r2.
Proof.
  intros H1 H2 E.
  assert (len a1 = len a2) as Hl.
  { apply (f_equal (fun s => bytes.IndexByte s c)) in E.
    rewrite !IndexByte_app, H1, H2, !IndexByte_cons_eq in E. simpl in E. lia. }
  destruct (string_app_inv_length a1 a2 _ _ E) as [-> [= ->]]; [|done].
  unfold len in Hl. lia.
Qed.

Lemma len_app a b : len (a +:+ b) = len a + len b.
Proof. unfold len. rewrite string_app_length. lia. Qed.

Lemma len_zero s : len s = 0 -> s = "".
Proof. destruct s; [done|]. rewrite len_cons. pose proof (len_nonneg s). lia. Qed.

(** The three shapes of an input, and its segments in each. *)
Lemma spec_segments_line seg rest :
  bytes.IndexByte seg LF = -1 ->
  spec_segments (seg +:+ String LF rest) = seg :: spec_segments rest.
Proof.
  induction seg as [|c seg IH]; str_simpl.
  - done.
  - case_bool_decide as Hc; [done|].
    destruct (Z.ltb_spec (bytes.IndexByte seg LF) 0); [|lia].
    intros _. rewrite IH; [done|].
    pose proof (IndexByte_range seg LF). lia.
Qed.

Lemma spec_segments_last seg :
  bytes.IndexByte seg LF = -1 -> seg <> "" -> spec_segments seg = [seg].
Proof.
  induction seg as [|c seg IH]; [done|]. simpl.
  case_bool_decide as Hc; [done|].
  destruct (Z.ltb_spec (bytes.IndexByte seg LF) 0); [|lia]. intros _ _.
  destruct seg as [|d seg]; [done|]. rewrite IH; [done| |done].
  pose proof (IndexByte_range (String d seg) LF). lia.
Qed.

(** *** The scanner on lines *)

(** The scanner has met no error, holds [R] as what is left of the input
    (the bytes buffered and the bytes not read yet), and splits lines. *)
Record scanning (post : string -> string) (s : bufio.Scanner) (R : string)
  : Prop := {
  scanning_err : bufio.err s = None;
  scanning_data : bufio.pending s +:+ bufio.src s = R;
  scanning_buf : len (bufio.pending s) <= bufio.buflen s <= bufio.maxTokenSize s;
  scanning_max : 0 < bufio.maxTokenSize s;
  scanning_split : bufio.split s = lineSplit post
}.

(** The scanner has consumed its input and met its end. *)
Record finished (post : string -> string) (s : bufio.Scanner) : Prop := {
  finished_err : bufio.err s = Some EOF;
  finished_pending : bufio.pending s = "";
  finished_split : bufio.split s = lineSplit post
}.

Lemma Scan_loop_S fuel s :
  bufio.Scan_loop (S fuel) s
  = let continue (s : bufio.Scanner) : bool * bufio.Scanner :=
      if bool_decide (bufio.err s <> None) then (false, bufio.setPending s "")
      else
        match bufio.fill s with
        | None => (false, bufio.setErr s ErrTooLong)
        | Some s' => bufio.Scan_loop fuel s'
        end in
    if (0 <? len (bufio.pending s)) || bool_decide (bufio.err s <> None) then
      let '(advance, tok, e) :=
        bufio.split s (bufio.pending s) (bool_decide (bufio.err s <> None)) in
      match e with
      | Some e' => (false, bufio.setErr s e')
      | None =>
          if advance <? 0 then (false, bufio.setErr s ErrNegativeAdvance)
          else if len (bufio.pending s) <? advance
               then (false, bufio.setErr s ErrAdvanceTooFar)
          else
            let s := bufio.setPending s
                       (string_drop (Z.to_nat advance) (bufio.pending s)) in
            match tok with
            | Some t => (true, bufio.setToken s t)
            | None => continue s
            end
      end
    else continue s.
Proof. reflexivity. Qed.

Lemma string_take_all n s : (String.length s <= n)%nat -> string_take n s = s.
Proof.
  revert s; induction n; intros [|c s]; simpl; intros; try done; try lia.
  f_equal. apply IHn. lia.
Qed.

Lemma string_take_app_length a b n :
  n = String.length a -> string_take n (a +:+ b) = a.
Proof. intros ->. apply string_take_app. Qed.

Lemma string_drop_app_length a b n :
  n = String.length a -> string_drop n (a +:+ b) = b.
Proof. intros ->. apply string_drop_app. Qed.

Lemma setPending_same s : bufio.setPending s (bufio.pending s) = s.
Proof. by destruct s. Qed.

(** Reading more input, when the buffered bytes are fewer than the largest
    token. *)
Lemma fill_scanning post s R :
  scanning post s R -> len (bufio.pending s) < bufio.maxTokenSize s ->
  exists s',
    bufio.fill s = Some s'
    /\ bufio.split s' = lineSplit post
    /\ bufio.maxTokenSize s' = bufio.maxTokenSize s
    /\ bufio.pending s' +:+ bufio.src s' = R
    /\ len (bufio.pending s') <= bufio.buflen s' <= bufio.maxTokenSize s'
    /\ (bufio.src s <> "" ->
        bufio.err s' = None
        /\ (String.length (bufio.src s') < String.length (bufio.src s))%nat)
    /\ (bufio.src s = "" ->
        bufio.err s' = Some EOF /\ bufio.pending s' = bufio.pending s
        /\ bufio.src s' = "").
Proof.
  intros [Herr Hdata [Hb1 Hb2] Hmax Hsplit] Hroom. unfold bufio.fill.
  set (grown := if len (bufio.pending s) =? bufio.buflen s then _ else _).
  assert (exists b, grown = Some b /\ len (bufio.pending s) < b <= bufio.maxTokenSize s)
    as (b & -> & Hb).
  { unfold grown, bufio.startBufSize.
    destruct (Z.eqb_spec (len (bufio.pending s)) (bufio.buflen s)) as [E|E].
    - destruct (Z.leb_spec (bufio.maxTokenSize s) (bufio.buflen s)); [lia|].
      eexists; split; [done|].
      pose proof (len_nonneg (bufio.pending s)).
      destruct (Z.eqb_spec (bufio.buflen s * 2) 0); lia.
    - eexists; split; [done|]. lia. }
  eexists; split; [done|]. cbn [bufio.split bufio.maxTokenSize bufio.pending
    bufio.src bufio.buflen bufio.err].
  set (n := Z.to_nat _).
  pose proof (len_nonneg (bufio.src s)) as Hsrc.
  assert (Z.of_nat n <= b - len (bufio.pending s)) by (unfold n; lia).
  assert (n <= String.length (bufio.src s))%nat by (unfold n, len in *; lia).
  split; [done|]. split; [done|]. split.
  { rewrite string_app_assoc, string_take_drop. done. }
  split.
  { rewrite len_app. unfold len at 2. rewrite string_take_length. lia. }
  split.
  - intros Hne. rewrite bool_decide_eq_false_2 by done. split; [done|].
    rewrite string_drop_length.
    assert (0 < n)%nat; [|lia].
    destruct (bufio.src s) as [|c0 src0]; [done|]. unfold n. rewrite len_cons.
    pose proof (len_nonneg src0). lia.
  - intros Hempty. rewrite Hempty. simpl. split; [done|].
    destruct n; simpl; by rewrite string_app_nil_r.
Qed.

Lemma lineSplit_more post data :
  bytes.IndexByte data LF = -1 -> lineSplit post data false = (0, None, None).
Proof. unfold lineSplit. intros ->. done. Qed.

Lemma lineSplit_line post seg rest atEOF :
  bytes.IndexByte seg LF = -1 ->
  lineSplit post (seg +:+ String LF rest) atEOF
  = (len seg + 1, Some (post seg), None).
Proof.
  intros Hseg. unfold lineSplit.
  rewrite IndexByte_app, Hseg, IndexByte_cons_eq. simpl.
  rewrite len_app, len_cons. pose proof (len_nonneg seg). pose proof (len_nonneg rest).
  replace (len seg + (1 + len rest) =? 0) with false by (symmetry; lia).
  rewrite andb_false_r. rewrite Z.add_0_r.
  destruct (Z.leb_spec 0 (len seg)); [|lia].
  unfold len. rewrite Nat2Z.id, string_take_app. done.
Qed.

Lemma lineSplit_final post data :
  bytes.IndexByte data LF = -1 -> data <> "" ->
  lineSplit post data true = (len data, Some (post data), None).
Proof.
  intros Hd Hne. unfold lineSplit. rewrite Hd. simpl.
  destruct (Z.eqb_spec (len data) 0) as [E|E]; [|done].
  by apply len_zero in E.
Qed.

Lemma lineSplit_end post : lineSplit post "" true = (0, None, None).
Proof. done. Qed.

(** A scanner that buffers no line feed and has not met the end of a longer
    input reads on. *)
Lemma Scan_loop_more post fuel s R :
  scanning post s R -> bytes.IndexByte (bufio.pending s) LF = -1 ->
  len (bufio.pending s) < bufio.maxTokenSize s ->
  exists s',
    bufio.Scan_loop (S fuel) s = bufio.Scan_loop fuel s'
    /\ bufio.fill s = Some s'.
Proof.
  intros Hs Hp Hroom.
  destruct (fill_scanning post s R Hs Hroom) as (s' & Hfill & _).
  exists s'. split; [|done]. rewrite Scan_loop_S. cbv zeta.
  destruct Hs as [Herr Hdata Hbuf Hmax Hsplit]. rewrite Herr, Hsplit.
  rewrite (bool_decide_eq_false_2 (None <> None)) by (by intros []).
  rewrite orb_false_r, lineSplit_more by done.
  change (0 <? 0) with false. cbn [Z.to_nat string_drop].
  pose proof (len_nonneg (bufio.pending s)).
  destruct (Z.ltb_spec 0 (len (bufio.pending s))).
  - destruct (Z.ltb_spec (len (bufio.pending s)) 0); [lia|].
    rewrite setPending_same, Herr.
    rewrite (bool_decide_eq_false_2 (None <> None)) by (by intros []).
    by rewrite Hfill.
  - by rewrite Hfill.
Qed.

(** [Scan] on an input that begins with a line shorter than the largest
    token: the token is the line, and the scanner goes on with the rest. *)
Lemma Scan_loop_line post fuel s seg R' :
  scanning post s (seg +:+ String LF R') ->
  bytes.IndexByte seg LF = -1 -> len seg < bufio.maxTokenSize s ->
  (String.length (bufio.src s) < fuel)%nat ->
  exists s',
    bufio.Scan_loop fuel s = (true, s')
    /\ bufio.token s' = post seg
    /\ scanning post s' R'
    /\ bufio.maxTokenSize s' = bufio.maxTokenSize s.
Proof.
  revert s. induction fuel as [|fuel IH]; intros s Hs Hseg Hshort Hfuel; [lia|].
  pose proof Hs as [Herr Hdata Hbuf Hmax Hsplit].
  destruct (Z.leb_spec 0 (bytes.IndexByte (bufio.pending s) LF)) as [Hin|Hout].
  - (* the buffer holds the line feed *)
    destruct (IndexByte_split _ _ Hin) as (a & p' & Hp & Ha & _).
    rewrite Hp, string_app_assoc, string_app_cons in Hdata.
    destruct (first_occurrence_unique _ _ _ _ _ Ha Hseg Hdata) as [-> HR].
    rewrite Scan_loop_S. cbv zeta. rewrite Herr, Hsplit, Hp.
    rewrite lineSplit_line by done.
    rewrite len_app, len_cons.
    pose proof (len_nonneg seg). pose proof (len_nonneg p').
    destruct (Z.ltb_spec 0 (len seg + (1 + len p'))); [|lia]. simpl.
    destruct (Z.ltb_spec (len seg + 1) 0); [lia|].
    destruct (Z.ltb_spec (len seg + (1 + len p')) (len seg + 1)); [lia|].
    eexists. split; [done|]. simpl. split; [done|].
    assert (string_drop (Z.to_nat (len seg + 1)) (seg +:+ String LF p') = p') as Ed.
    { replace (Z.to_nat (len seg + 1)) with (String.length (seg +:+ String LF ""))
        by (rewrite string_app_length; unfold len; simpl; lia).
      rewrite <- (string_drop_app (seg +:+ String LF "") p') at 2.
      by rewrite string_app_assoc. }
    rewrite Ed. split; [|done].
    split; simpl; try done.
    rewrite Hp, len_app, len_cons in Hbuf. lia.
  - (* it does not: more input is read *)
    assert (bytes.IndexByte (bufio.pending s) LF = -1) as Hp.
    { pose proof (IndexByte_range (bufio.pending s) LF). lia. }
    pose proof (f_equal (fun x => bytes.IndexByte x LF) Hdata) as Hi. simpl in Hi.
    rewrite !IndexByte_app, Hp, Hseg, IndexByte_cons_eq in Hi. simpl in Hi.
    pose proof (IndexByte_range (bufio.src s) LF) as Hsrc.
    pose proof (len_nonneg seg). revert Hi.
    destruct (Z.leb_spec 0 (bytes.IndexByte (bufio.src s) LF)); intros Hi; [|lia].
    assert (bufio.src s <> "") as Hne.
    { intros E. rewrite E in *. simpl in *. lia. }
    assert (len (bufio.pending s) < bufio.maxTokenSize s) as Hroom by lia.
    destruct (Scan_loop_more post fuel s _ Hs Hp Hroom) as (s' & -> & Hfill).
    destruct (fill_scanning post s _ Hs Hroom)
      as (s2 & Hfill2 & Hsp & Hm & Hd & Hb & Hread & _).
    rewrite Hfill in Hfill2. injection Hfill2 as <-.
    destruct (Hread Hne) as [He Hlt].
    destruct (IH s') as (s3 & -> & ? & ? & ?); [|done|lia|lia|].
    { split; try done. lia. }
    exists s3. split; [done|]. split; [done|]. split; [done|]. congruence.
Qed.

(** [Scan] on an input that is one last line without line feed. *)
Lemma Scan_loop_last post fuel s R :
  scanning post s R ->
  bytes.IndexByte R LF = -1 -> R <> "" -> len R < bufio.maxTokenSize s ->
  (String.length (bufio.src s) + 1 < fuel)%nat ->
  exists s',
    bufio.Scan_loop fuel s = (true, s')
    /\ bufio.token s' = post R
    /\ finished post s'.
Proof.
  revert s. induction fuel as [|fuel IH]; intros s Hs HR Hne Hshort Hfuel; [lia|].
  pose proof Hs as [Herr Hdata Hbuf Hmax Hsplit].
  pose proof (f_equal (fun x => bytes.IndexByte x LF) Hdata) as Hi. simpl in Hi.
  rewrite IndexByte_app, HR in Hi.
  pose proof (IndexByte_range (bufio.pending s) LF) as Hp. revert Hi.
  destruct (Z.leb_spec 0 (bytes.IndexByte (bufio.pending s) LF)); intros Hi; [lia|].
  assert (len (bufio.pending s) < bufio.maxTokenSize s) as Hroom.
  { rewrite <- Hdata, len_app in Hshort. pose proof (len_nonneg (bufio.src s)). lia. }
  destruct (Scan_loop_more post fuel s _ Hs ltac:(lia) Hroom) as (s' & -> & Hfill).
  destruct (fill_scanning post s _ Hs Hroom)
    as (s2 & Hfill2 & Hsp & Hm & Hd & Hb & Hread & Heof).
  rewrite Hfill in Hfill2. injection Hfill2 as <-.
  destruct (decide (bufio.src s = "")) as [Hsrc|Hsrc].
  - (* the end of the input is met, and the line is the final token *)
    destruct (Heof Hsrc) as (He & Hpe & Hse).
    rewrite Hsrc, string_app_nil_r in Hdata.
    destruct fuel as [|fuel]; [rewrite Hsrc in Hfuel; simpl in Hfuel; lia|].
    rewrite Scan_loop_S. cbv zeta. rewrite He, Hsp, Hpe, Hdata.
    rewrite (bool_decide_eq_true_2 (Some EOF <> None)) by done.
    rewrite orb_true_r, lineSplit_final by done.
    pose proof (len_nonneg R).
    destruct (Z.ltb_spec (len R) 0); [lia|].
    destruct (Z.ltb_spec (len R) (len R)); [lia|].
    eexists. split; [done|]. simpl. split; [done|].
    split; simpl; try done.
    apply string_drop_all. unfold len. lia.
  - destruct (Hread Hsrc) as [He Hlt].
    destruct (IH s') as (s3 & -> & ? & ?); [|done|done|lia|lia|].
    { split; try done. lia. }
    by exists s3.
Qed.

Lemma Err_EOF s : bufio.err s = Some EOF -> bufio.Err s = None.
Proof. unfold bufio.Err. intros ->. done. Qed.

(** [Scan] once the end of the input has been met: no token, no error. *)
Lemma Scan_loop_finished post fuel s :
  finished post s ->
  exists s', bufio.Scan_loop (S fuel) s = (false, s') /\ bufio.Err s' = None.
Proof.
  intros [Herr Hp Hsplit]. rewrite Scan_loop_S. cbv zeta.
  rewrite Herr, Hsplit, Hp.
  rewrite (bool_decide_eq_true_2 (Some EOF <> None)) by done.
  rewrite orb_true_r, lineSplit_end. simpl. rewrite Herr.
  rewrite (bool_decide_eq_true_2 (Some EOF <> None)) by done.
  eexists. split; [done|]. by apply Err_EOF.
Qed.

(** [Scan] on the empty input. *)
Lemma Scan_loop_eof post fuel s :
  scanning post s "" ->
  exists s', bufio.Scan_loop (S (S fuel)) s = (false, s') /\ bufio.Err s' = None.
Proof.
  intros Hs. pose proof Hs as [Herr Hdata Hbuf Hmax Hsplit].
  assert (bufio.pending s = "" /\ bufio.src s = "") as [Hp Hsrc].
  { destruct (bufio.pending s); [|done]. by destruct (bufio.src s). }
  assert (len (bufio.pending s) < bufio.maxTokenSize s) as Hroom.
  { rewrite Hp. unfold len. simpl. lia. }
  destruct (Scan_loop_more post (S fuel) s _ Hs ltac:(by rewrite Hp) Hroom)
    as (s' & -> & Hfill).
  destruct (fill_scanning post s _ Hs Hroom)
    as (s2 & Hfill2 & Hsp & Hm & Hd & Hb & _ & Heof).
  rewrite Hfill in Hfill2. injection Hfill2 as <-.
  destruct (Heof Hsrc) as (He & Hpe & Hse).
  apply (Scan_loop_finished post). split; [done| |done]. by rewrite Hpe.
Qed.

(** The length of the first line of an input. *)
Definition firstLineLength (R : string) : Z :=
  if 0 <=? bytes.IndexByte R LF then bytes.IndexByte R LF else len R.

(** [Scan] on an input whose first line is not shorter than the largest
    token: the buffer fills up without a line feed, and the scan stops with
    [ErrTooLong]. *)
Lemma Scan_loop_too_long post fuel s R :
  scanning post s R -> bufio.maxTokenSize s <= firstLineLength R ->
  (String.length (bufio.src s) < fuel)%nat ->
  exists s', bufio.Scan_loop fuel s = (false, s')
             /\ bufio.Err s' = Some ErrTooLong.
Proof.
  revert s. induction fuel as [|fuel IH]; intros s Hs Hlong Hfuel; [lia|].
  pose proof Hs as [Herr Hdata Hbuf Hmax Hsplit].
  pose proof (IndexByte_range (bufio.pending s) LF) as Hpr.
  pose proof (IndexByte_range (bufio.src s) LF) as Hsr.
  pose proof (len_nonneg (bufio.src s)) as Hsn.
  assert (bytes.IndexByte (bufio.pending s) LF = -1
          /\ len (bufio.pending s) + len (bufio.src s) >= bufio.maxTokenSize s
          /\ (bufio.src s = "" -> len (bufio.pending s) >= bufio.maxTokenSize s))
    as (Hp & Htotal & Hsrc).
  { unfold firstLineLength in Hlong. rewrite <- Hdata, IndexByte_app, len_app in Hlong.
    revert Hlong.
    destruct (Z.leb_spec 0 (bytes.IndexByte (bufio.pending s) LF)).
    { destruct (Z.leb_spec 0 (bytes.IndexByte (bufio.pending s) LF)); lia. }
    destruct (Z.leb_spec 0 (bytes.IndexByte (bufio.src s) LF)); simpl.
    - destruct (Z.leb_spec 0 (len (bufio.pending s) + bytes.IndexByte (bufio.src s) LF));
        intros; (split; [lia|]); (split; [lia|]); intros E; rewrite E in *;
        simpl in *; lia.
    - intros; (split; [lia|]); (split; [lia|]). intros E; rewrite E in *.
      change (len "") with 0 in *. lia. }
  destruct (Z.lt_ge_cases (len (bufio.pending s)) (bufio.maxTokenSize s)) as [Hroom|Hfull].
  - destruct (Scan_loop_more post fuel s _ Hs Hp Hroom) as (s' & -> & Hfill).
    destruct (fill_scanning post s _ Hs Hroom)
      as (s2 & Hfill2 & Hsp & Hm & Hd & Hb & Hread & _).
    rewrite Hfill in Hfill2. injection Hfill2 as <-.
    assert (bufio.src s <> "") as Hne by (intros E; specialize (Hsrc E); lia).
    destruct (Hread Hne) as [He Hlt].
    apply IH; [|congruence|lia]. split; try done. lia.
  - rewrite Scan_loop_S. cbv zeta. rewrite Herr, Hsplit.
    rewrite (bool_decide_eq_false_2 (None <> None)) by (by intros []).
    rewrite orb_false_r, lineSplit_more by done.
    assert (bufio.fill s = None) as Hfill.
    { unfold bufio.fill.
      destruct (Z.eqb_spec (len (bufio.pending s)) (bufio.buflen s)); [|lia].
      destruct (Z.leb_spec (bufio.maxTokenSize s) (bufio.buflen s)); [done|lia]. }
    destruct (Z.ltb_spec 0 (len (bufio.pending s))); [|lia].
    change (0 <? 0) with false. cbn [Z.to_nat string_drop].
    destruct (Z.ltb_spec (len (bufio.pending s)) 0); [lia|].
    rewrite setPending_same, Herr.
    rewrite (bool_decide_eq_false_2 (None <> None)) by (by intros []).
    rewrite Hfill. eexists. split; [done|].
    unfold bufio.setErr, bufio.Err. rewrite Herr. done.
Qed.

Lemma firstLineLength_line seg R' :
  bytes.IndexByte seg LF = -1 -> firstLineLength (seg +:+ String LF R') = len seg.
Proof.
  intros Hs. unfold firstLineLength.
  rewrite IndexByte_app, Hs, IndexByte_cons_eq. simpl. pose proof (len_nonneg seg).
  rewrite Z.add_0_r. by destruct (Z.leb_spec 0 (len seg)); [|lia].
Qed.

Lemma firstLineLength_last R :
  bytes.IndexByte R LF = -1 -> firstLineLength R = len R.
Proof. intros Hs. unfold firstLineLength. by rewrite Hs. Qed.

Lemma numberFrom_lookup first lines m n :
  numberFrom first lines m !! n
  = if decide (first <= n < first + Z.of_nat (length lines))
    then lines !! Z.to_nat (n - first)
    else m !! n.
Proof.
  revert first m. induction lines as [|line lines IH]; intros first m; simpl.
  - by rewrite decide_False by lia.
  - rewrite IH. destruct (decide (n = first)) as [->|Hn].
    + rewrite decide_False by lia. rewrite decide_True by lia.
      rewrite Z.sub_diag. simpl. by rewrite lookup_insert_eq.
    + rewrite lookup_insert_ne by done.
      destruct (decide (first + 1 <= n < first + 1 + Z.of_nat (length lines))).
      * rewrite decide_True by lia.
        replace (Z.to_nat (n - first)) with (S (Z.to_nat (n - (first + 1)))) by lia.
        done.
      * by rewrite decide_False by lia.
Qed.

Section scanLoop_facts.
Import cursor.indexer.

(** The loop of [indexFile] over the lines of an input. *)
Lemma scanLoop_lines post fuel s R lineNum m :
  scanning post s R ->
  Forall (fun seg => len seg < bufio.maxTokenSize s) (spec_segments R) ->
  (String.length R < fuel)%nat ->
  exists s',
    scanLoop fuel s lineNum m
    = (s', numberFrom lineNum (post <$> spec_segments R) m)
    /\ bufio.Err s' = None.
Proof.
  revert s R lineNum m.
  induction fuel as [|fuel IH]; intros s R lineNum m Hs Hshort Hfuel; [lia|].
  cbn [scanLoop]. unfold bufio.Scan.
  destruct (Z.leb_spec 0 (bytes.IndexByte R LF)) as [Hin|Hout].
  - (* a line, ended by a line feed *)
    destruct (IndexByte_split _ _ Hin) as (seg & R' & -> & Hseg & _).
    rewrite spec_segments_line in * by done.
    apply Forall_cons in Hshort as [Hs1 Hs2].
    destruct (Scan_loop_line post (S (S (String.length (bufio.src s)))) s seg R')
      as (s' & -> & Htok & Hs' & Hm); [done|done|done|lia|].
    destruct (IH s' R' (lineNum + 1) (<[lineNum := bufio.Text s']> m))
      as (s2 & -> & He); [done|by rewrite Hm| |].
    { rewrite string_app_length in Hfuel. simpl in Hfuel. lia. }
    exists s2. split; [|done]. simpl. unfold bufio.Text. by rewrite Htok.
  - assert (bytes.IndexByte R LF = -1) as HR.
    { pose proof (IndexByte_range R LF). lia. }
    destruct (decide (R = "")) as [->|Hne].
    + (* the end of the input *)
      destruct (Scan_loop_eof post (String.length (bufio.src s)) s Hs)
        as (s' & -> & He).
      by exists s'.
    + (* a last line without line feed *)
      rewrite spec_segments_last in * by done.
      apply Forall_cons in Hshort as [Hs1 _].
      destruct (Scan_loop_last post (S (S (String.length (bufio.src s)))) s R)
        as (s' & -> & Htok & Hfin); [done|done|done|done|lia|].
      destruct fuel as [|fuel]; [destruct R; [done|simpl in Hfuel; lia]|].
      cbn [scanLoop]. unfold bufio.Scan.
      destruct (Scan_loop_finished post (S (String.length (bufio.src s'))) s' Hfin)
        as (s2 & -> & He).
      exists s2. split; [|done]. simpl. unfold bufio.Text. by rewrite Htok.
Qed.

(** The loop of [indexFile] over an input with a line as long as the largest
    token, or longer. *)
Lemma scanLoop_too_long post fuel s R lineNum m :
  scanning post s R ->
  Exists (fun seg => bufio.maxTokenSize s <= len seg) (spec_segments R) ->
  (String.length R < fuel)%nat ->
  exists s' m', scanLoop fuel s lineNum m = (s', m')
                /\ bufio.Err s' = Some ErrTooLong.
Proof.
  revert s R lineNum m.
  induction fuel as [|fuel IH]; intros s R lineNum m Hs Hlong Hfuel; [lia|].
  cbn [scanLoop]. unfold bufio.Scan.
  destruct (Z.leb_spec 0 (bytes.IndexByte R LF)) as [Hin|Hout].
  - destruct (IndexByte_split _ _ Hin) as (seg & R' & -> & Hseg & _).
    rewrite spec_segments_line in * by done.
    destruct (Z.lt_ge_cases (len seg) (bufio.maxTokenSize s)) as [Hshort|Hseglong].
    + apply Exists_cons in Hlong as [Hl|Hl]; [lia|].
      destruct (Scan_loop_line post (S (S (String.length (bufio.src s)))) s seg R')
        as (s' & -> & Htok & Hs' & Hm); [done|done|done|lia|].
      apply (IH s' R'); [done|by rewrite Hm|].
      rewrite string_app_length in Hfuel. simpl in Hfuel. lia.
    + destruct (Scan_loop_too_long post (S (S (String.length (bufio.src s)))) s
                  (seg +:+ String LF R'))
        as (s' & -> & He); [done| |lia|by exists s', m].
      by rewrite firstLineLength_line.
  - assert (bytes.IndexByte R LF = -1) as HR.
    { pose proof (IndexByte_range R LF). lia. }
    destruct (decide (R = "")) as [->|Hne]; [by apply Exists_nil in Hlong|].
    rewrite spec_segments_last in * by done.
    apply Exists_cons in Hlong as [Hl|Hl]; [|by apply Exists_nil in Hl].
    destruct (Scan_loop_too_long post (S (S (String.length (bufio.src s)))) s R)
      as (s' & -> & He); [done| |lia|by exists s', m].
    by rewrite firstLineLength_last.
Qed.

End scanLoop_facts.

(** ** [filepath.Walk] *)

(** Induction on a tree, with the hypothesis for every entry of a
    directory. *)
Lemma node_ind' (P : os.node -> Prop) :
  (forall size modTime, P (os.File size modTime)) ->
  (forall modTime readErr entries,
     Forall (fun e => P e.2) entries -> P (os.Directory modTime readErr entries)) ->
  (forall err, P (os.Broken err)) ->
  forall n, P n.
Proof.
  intros HF HD HB.
  refine (fix go (n : os.node) : P n :=
            match n with
            | os.File size modTime => HF size modTime
            | os.Directory modTime readErr entries =>
                HD modTime readErr entries
                   ((fix go_entries (es : list (string * os.node))
                       : Forall (fun e => P e.2) es :=
                       match es with
                       | [] => List.Forall_nil _
                       | (name, child) :: es' =>
                           List.Forall_cons _ (name, child) es' (go child)
                             (go_entries es')
                       end) entries)
            | os.Broken err => HB err
            end).
Qed.

(** The calls of the walk function that a complete walk of the tree makes,
    in order: the path, the [FileInfo] and the error given. *)
Fixpoint calls (path : string) (n : os.node)
  : list (string * option os.FileInfo * option error) :=
  match n with
  | os.Broken err => [(path, None, Some (PathError "lstat" path err))]
  | os.File size modTime => [(path, Some (os.fileInfo size modTime), None)]
  | os.Directory modTime readErr entries =>
      (path, Some (os.dirInfo modTime), PathError "open" path <$> readErr)
      :: match readErr with
         | Some _ => []
         | None =>
             (fix go (entries : list (string * os.node)) :=
                match entries with
                | [] => []
                | (name, child) :: entries' =>
                    calls (filepath.Join path name) child ++ go entries'
                end) entries
         end
  end.

(** The calls for the entries of a directory. *)
Fixpoint entryCalls (path : string) (entries : list (string * os.node))
  : list (string * option os.FileInfo * option error) :=
  match entries with
  | [] => []
  | (name, child) :: entries' =>
      calls (filepath.Join path name) child ++ entryCalls path entries'
  end.

Lemma calls_Directory path modTime readErr entries :
  calls path (os.Directory modTime readErr entries)
  = (path, Some (os.dirInfo modTime), PathError "open" path <$> readErr)
    :: match readErr with Some _ => [] | None => entryCalls path entries end.
Proof.
  simpl. f_equal. destruct readErr; [done|].
  induction entries as [|[name child] entries IH]; [done|]. simpl. by rewrite IH.
Qed.

Section walk_facts.
Context {S : Type}.
Implicit Types (fn : walk.WalkFunc (S := S)) (st : S).

(** The loop of [walk] over the entries of a directory. *)
Fixpoint walkEntries fn (path : string) (entries : list (string * os.node)) st
  : S * option error :=
  match entries with
  | [] => (st, None)
  | (name, child) :: entries' =>
      let '(st', err) := walk.walk fn (filepath.Join path name) child st in
      match err with
      | None => walkEntries fn path entries' st'
      | Some e =>
          if negb (walk.isFile child) && bool_decide (e = SkipDir)
          then walkEntries fn path entries' st'
          else (st', Some e)
      end
  end.

Lemma walk_Directory fn path modTime readErr entries st :
  walk.walk fn path (os.Directory modTime readErr entries) st
  = let err := PathError "open" path <$> readErr in
    let '(st1, err1) := fn path (Some (os.dirInfo modTime)) err st in
    if bool_decide (err <> None) || bool_decide (err1 <> None) then (st1, err1)
    else walkEntries fn path entries st1.
Proof.
  simpl. destruct (fn path _ _ st) as [st1 err1].
  destruct (_ || _); [done|]. clear st. revert st1.
  induction entries as [|[name child] entries IH]; intros st1; [done|].
  simpl. destruct (walk.walk fn _ child st1) as [st' [e|]]; [|apply IH].
  destruct (_ && _); [apply IH|done].
Qed.

(** One call of the walk function, on the state. *)
Definition call fn st (c : string * option os.FileInfo * option error) : S :=
  (fn c.1.1 c.1.2 c.2 st).1.

(** A property of the state that every call of a complete walk keeps is kept
    by the walk, wherever it stops. *)
Lemma walk_invariant (P : S -> Prop) fn path n st :
  (forall c st, c ∈ calls path n -> P st -> P (call fn st c)) ->
  P st -> P (walk.walk fn path n st).1.
Proof.
  revert path st.
  induction n as [size modTime|modTime readErr entries IH|err] using node_ind';
    intros path st Hcall HP.
  - apply (Hcall (path, _, _)); [|done]. simpl. by left.
  - rewrite walk_Directory. cbv zeta. rewrite calls_Directory in Hcall.
    pose proof (Hcall (path, _, _) st ltac:(by left) HP) as HP1.
    unfold call in HP1. simpl in HP1.
    destruct (fn path _ _ st) as [st1 err1]. simpl in HP1.
    destruct readErr as [e|]; [done|]. simpl.
    destruct (bool_decide (err1 <> None)); [done|].
    assert (forall c st, c ∈ entryCalls path entries -> P st -> P (call fn st c))
      as Hentries by (intros; apply Hcall; [by right|done]).
    clear Hcall HP st. revert st1 HP1.
    induction entries as [|[name child] entries IHe]; intros st1 HP1; [done|].
    apply Forall_cons in IH as [IHc IH]. simpl in *.
    specialize (IHc (filepath.Join path name) st1).
    destruct (walk.walk fn _ child st1) as [st' err].
    assert (P st') as HP'.
    { apply IHc; [|done]. intros; apply Hentries; [|done].
      apply elem_of_app. by left. }
    assert (P (walkEntries fn path entries st').1) as Hrest.
    { apply IHe; [done| |done]. intros; apply Hentries; [|done].
      apply elem_of_app. by right. }
    destruct err as [e|]; [|done]. by destruct (_ && _).
  - apply (Hcall (path, _, _)); [|done]. simpl. by left.
Qed.

(** A walk function that never returns an error makes every call of the
    complete walk, and the walk returns no error. *)
Lemma walk_complete fn path n st :
  (forall path info err st, (fn path info err st).2 = None) ->
  walk.walk fn path n st = (foldl (call fn) st (calls path n), None).
Proof.
  intros Hok. revert path st.
  induction n as [size modTime|modTime readErr entries IH|err] using node_ind';
    intros path st.
  - simpl. unfold call. simpl. specialize (Hok path (Some (os.fileInfo size modTime)) None st).
    by destruct (fn _ _ _ st) as [? ?]; simpl in *; subst.
  - rewrite walk_Directory, calls_Directory. cbv zeta. simpl. unfold call at 2. simpl.
    pose proof (Hok path (Some (os.dirInfo modTime)) (PathError "open" path <$> readErr) st) as H1.
    destruct (fn path _ _ st) as [st1 err1]. simpl in *. subst err1.
    destruct readErr as [e|]; [done|]. simpl.
    clear st. revert st1.
    induction entries as [|[name child] entries IHe]; intros st1; [done|].
    apply Forall_cons in IH as [IHc IH]. simpl in *.
    rewrite IHc, foldl_app. by apply IHe.
  - simpl. unfold call. simpl.
    specialize (Hok path None (Some (PathError "lstat" path err)) st).
    by destruct (fn _ _ _ st) as [? ?]; simpl in *; subst.
Qed.

End walk_facts.

(** ** Well-formed sequences of [unicode/utf8] *)

Lemma land_mask2 x : Z.land x utf8.mask2 = x mod 32.
Proof. change utf8.mask2 with (Z.ones 5). by rewrite Z.land_ones. Qed.

Lemma land_mask3 x : Z.land x utf8.mask3 = x mod 16.
Proof. change utf8.mask3 with (Z.ones 4). by rewrite Z.land_ones. Qed.

Lemma land_mask4 x : Z.land x utf8.mask4 = x mod 8.
Proof. change utf8.mask4 with (Z.ones 3). by rewrite Z.land_ones. Qed.

Lemma lor_rune2 a b :
  Z.lor (Z.shiftl (a mod 32) 6) (b mod 64) = (a mod 32) * 64 + b mod 64.
Proof.
  rewrite Z.shiftl_mul_pow2 by lia. change (2 ^ 6) with 64.
  apply (lor_disjoint_add _ _ 6); [lia| |]; dlia.
Qed.

Lemma lor_rune3 a b c :
  Z.lor (Z.lor (Z.shiftl (a mod 16) 12) (Z.shiftl (b mod 64) 6)) (c mod 64)
  = (a mod 16) * 4096 + (b mod 64) * 64 + c mod 64.
Proof.
  rewrite !Z.shiftl_mul_pow2 by lia. change (2 ^ 6) with 64. change (2 ^ 12) with 4096.
  rewrite (lor_disjoint_add _ ((b mod 64) * 64) 12) by dlia.
  apply (lor_disjoint_add _ _ 6); [lia| |]; dlia.
Qed.

Lemma lor_rune4 a b c d :
  Z.lor (Z.lor (Z.lor (Z.shiftl (a mod 8) 18) (Z.shiftl (b mod 64) 12))
                (Z.shiftl (c mod 64) 6)) (d mod 64)
  = (a mod 8) * 262144 + (b mod 64) * 4096 + (c mod 64) * 64 + d mod 64.
Proof.
  rewrite !Z.shiftl_mul_pow2 by lia.
  change (2 ^ 6) with 64. change (2 ^ 12) with 4096. change (2 ^ 18) with 262144.
  rewrite (lor_disjoint_add _ ((b mod 64) * 4096) 18) by dlia.
  rewrite (lor_disjoint_add _ ((c mod 64) * 64) 12) by dlia.
  apply (lor_disjoint_add _ _ 6); [lia| |]; dlia.
Qed.

(** The rune and the width that [DecodeRuneInString] gives for a sequence of
    two, three or four bytes that is well formed. *)
Inductive decoded : string -> Z -> Z -> Prop :=
| decoded2 c0 c1 t :
    0xC2 <= byteval c0 < 0xE0 -> 0x80 <= byteval c1 <= 0xBF ->
    decoded (String c0 (String c1 t))
      ((byteval c0 - 0xC0) * 64 + (byteval c1 - 0x80)) 2
| decoded3 c0 c1 c2 t :
    0xE0 <= byteval c0 < 0xF0 -> 0x80 <= byteval c1 <= 0xBF ->
    0x80 <= byteval c2 <= 0xBF ->
    (byteval c0 = 0xE0 -> 0xA0 <= byteval c1) ->
    (byteval c0 = 0xED -> byteval c1 <= 0x9F) ->
    decoded (String c0 (String c1 (String c2 t)))
      ((byteval c0 - 0xE0) * 4096 + (byteval c1 - 0x80) * 64 + (byteval c2 - 0x80)) 3
| decoded4 c0 c1 c2 c3 t :
    0xF0 <= byteval c0 < 0xF5 -> 0x80 <= byteval c1 <= 0xBF ->
    0x80 <= byteval c2 <= 0xBF -> 0x80 <= byteval c3 <= 0xBF ->
    (byteval c0 = 0xF0 -> 0x90 <= byteval c1) ->
    (byteval c0 = 0xF4 -> byteval c1 <= 0x8F) ->
    decoded (String c0 (String c1 (String c2 (String c3 t))))
      ((byteval c0 - 0xF0) * 262144 + (byteval c1 - 0x80) * 4096
       + (byteval c2 - 0x80) * 64 + (byteval c3 - 0x80)) 4.

Lemma DecodeRune_decoded c0 r0 r size :
  utf8.RuneSelf <= byteval c0 ->
  utf8.DecodeRuneInString (String c0 r0) = (r, size) -> size <> 1 ->
  decoded (String c0 r0) r size.
Proof.
  unfold utf8.RuneSelf. intros Hc0.
  unfold utf8.DecodeRuneInString. cbv zeta.
  first_byte_cases (byteval c0); try lia.
  all: destruct r0 as [|c1 [|c2 [|c3 r3]]]; rewrite ?len_cons; cbn;
    change (len "") with 0; try pose proof (len_nonneg r3);
    rewrite ?land_mask2, ?land_mask3, ?land_mask4, ?land_maskx,
      ?lor_rune2, ?lor_rune3, ?lor_rune4;
    pose proof (byteval_range c0);
    try pose proof (byteval_range c1); try pose proof (byteval_range c2);
    try pose proof (byteval_range c3);
    cmp_cases; intros [= <- <-] Hs; try done.
  all: match goal with
       | |- decoded _ ?r 4 =>
           replace r with ((byteval c0 - 0xF0) * 262144 + (byteval c1 - 0x80) * 4096
                           + (byteval c2 - 0x80) * 64 + (byteval c3 - 0x80)) by dlia;
           apply decoded4; lia
       | |- decoded _ ?r 3 =>
           replace r with ((byteval c0 - 0xE0) * 4096 + (byteval c1 - 0x80) * 64
                           + (byteval c2 - 0x80)) by dlia;
           apply decoded3; lia
       | |- decoded _ ?r 2 =>
           replace r with ((byteval c0 - 0xC0) * 64 + (byteval c1 - 0x80)) by dlia;
           apply decoded2; lia
       end.
Qed.

Lemma decoded_DecodeRune s r size :
  decoded s r size -> utf8.DecodeRuneInString s = (r, size).
Proof.
  intros Hd. destruct Hd; unfold utf8.DecodeRuneInString; cbv zeta.
  all: first_byte_cases (byteval c0); try lia.
  all: rewrite ?len_cons; cbn; pose proof (len_nonneg t);
    rewrite ?land_mask2, ?land_mask3, ?land_mask4, ?land_maskx,
      ?lor_rune2, ?lor_rune3, ?lor_rune4;
    cmp_cases; try lia; f_equal; dlia.
Qed.

Lemma decoded_take s r size t' :
  decoded s r size -> decoded (string_take (Z.to_nat size) s +:+ t') r size.
Proof. intros Hd. destruct Hd; cbn; str_simpl; by constructor. Qed.

Lemma decoded_width s r size :
  decoded s r size ->
  2 <= size <= 4 /\ String.length (string_take (Z.to_nat size) s) = Z.to_nat size.
Proof. intros Hd. destruct Hd; (split; [lia|reflexivity]). Qed.

Lemma decoded_first s r size :
  decoded s r size -> exists c0 r0, s = String c0 r0 /\ 0xC2 <= byteval c0.
Proof. intros Hd. destruct Hd; eexists _, _; split; try done; lia. Qed.

(** The bytes of a well-formed sequence are the encoding of its rune. *)
Lemma decoded_EncodeRune s r size :
  decoded s r size -> utf8.EncodeRune r = string_take (Z.to_nat size) s.
Proof.
  intros Hd. destruct Hd.
  all: change (Z.to_nat 2) with 2%nat; change (Z.to_nat 3) with 3%nat;
    change (Z.to_nat 4) with 4%nat; cbn [string_take].
  all: pose proof (byteval_range c0); pose proof (byteval_range c1);
    try pose proof (byteval_range c2); try pose proof (byteval_range c3).
  all: match goal with |- utf8.EncodeRune ?r = _ =>
         destruct (EncodeRune_cases r ltac:(lia))
           as [[Hc ->]|[[Hc ->]|[[Hc ->]|[[Hc ->]|[Hc ->]]]]]; try lia
       end.
  all: repeat match goal with
         | |- String (byte ?x) _ = String ?c _ =>
             replace x with (byteval c) by dlia; rewrite (byte_byteval c); f_equal
         end; done.
Qed.

(** ** Package [strconv] *)

Fixpoint digits (s : string) : bool :=
  match s with
  | EmptyString => true
  | String c s' => json.isDigit c && digits s'
  end.

Lemma digits_app a b : digits (a +:+ b) = digits a && digits b.
Proof. induction a as [|c a IH]; str_simpl; [done|]. by rewrite IH, andb_assoc. Qed.

Lemma parseDigits_app a b n :
  strconv.parseDigits (a +:+ b) n
  = match strconv.parseDigits a n with
    | Some m => strconv.parseDigits b m
    | None => None
    end.
Proof.
  revert n. induction a as [|c a IH]; intros n; str_simpl; [done|].
  destruct ((0 <=? byteval c - 48) && (byteval c - 48 <=? 9)); [apply IH|done].
Qed.

Lemma byteval_digit d : 0 <= d < 10 -> byteval (strconv.digit d) = 48 + d.
Proof. intros. unfold strconv.digit. rewrite byteval_byte. dlia. Qed.

(** The digits written for [n]: they are read back as [n], and they start
    with a zero for [n = 0] only. *)
Lemma formatDigits_spec fuel n acc :
  0 <= n < 10 ^ Z.of_nat (S fuel) ->
  exists c ds,
    strconv.formatDigits (S fuel) n acc = String c ds +:+ acc
    /\ digits (String c ds) = true
    /\ (forall m, strconv.parseDigits (String c ds) m
                  = Some (m * 10 ^ len (String c ds) + n))
    /\ (c = "0"%char -> ds = "" /\ n = 0).
Proof.
  assert (forall n acc, 0 <= n < 10 ->
            exists c ds,
              String (strconv.digit (n mod 10)) acc = String c ds +:+ acc
              /\ digits (String c ds) = true
              /\ (forall m, strconv.parseDigits (String c ds) m
                            = Some (m * 10 ^ len (String c ds) + n))
              /\ (c = "0"%char -> ds = "" /\ n = 0)) as Hone.
  { clear. intros n acc Hlt.
    exists (strconv.digit (n mod 10)), "". rewrite Z.mod_small in * by lia.
    split; [done|]. split; [|split].
    + simpl. unfold json.isDigit. rewrite byteval_digit by done.
      by cmp_decide.
    + intros m. simpl. rewrite byteval_digit by done. cmp_decide.
      f_equal. change (len (String (strconv.digit n) "")) with 1. lia.
    + intros E. split; [done|].
      apply (f_equal byteval) in E. rewrite byteval_digit in E by done.
      change (byteval "0") with 48 in E. lia. }
  revert n acc. induction fuel as [|fuel IH]; intros n acc Hn.
  { change (10 ^ Z.of_nat 1) with 10 in Hn.
    cbn [strconv.formatDigits]. destruct (n <? 10); apply Hone; lia. }
  cbn [strconv.formatDigits].
  assert (0 <= n mod 10 < 10) as Hd by dlia.
  destruct (Z.ltb_spec n 10) as [Hlt|Hge].
  - apply Hone; lia.
  - destruct (IH (n / 10) (String (strconv.digit (n mod 10)) acc))
      as (c & ds & E & Hdig & Hparse & Hzero).
    { rewrite Nat2Z.inj_succ, Z.pow_succ_r in Hn by lia. dlia. }
    cbn [strconv.formatDigits] in E. rewrite E. clear E.
    exists c, (ds +:+ String (strconv.digit (n mod 10)) "").
    split; [|split; [|split]].
    + rewrite <- !string_app_cons, string_app_assoc. done.
    + rewrite <- string_app_cons, digits_app, Hdig. simpl.
      unfold json.isDigit. rewrite byteval_digit by done. by cmp_decide.
    + intros m. rewrite <- string_app_cons, parseDigits_app, Hparse.
      simpl. rewrite byteval_digit by done. cmp_decide. f_equal.
      rewrite len_app. change (len (String (strconv.digit _) "")) with 1.
      rewrite Z.pow_add_r by (pose proof (len_nonneg (String c ds)); lia).
      dlia.
    + intros E. destruct (Hzero E) as [_ ?]. dlia.
Qed.

Definition int64 (n : Z) : Prop := - 2 ^ 63 <= n < 2 ^ 63.

Lemma isDigit_not_sign c :
  json.isDigit c = true -> c <> "+"%char /\ c <> "-"%char.
Proof.
  unfold json.isDigit. intros Hc. split; intros ->; revert Hc; by vm_compute.
Qed.

Lemma ParseInt_digits c ds n :
  digits (String c ds) = true ->
  strconv.parseDigits (String c ds) 0 = Some n -> 0 <= n < 2 ^ 63 ->
  strconv.ParseInt (String c ds) = Some n.
Proof.
  intros Hdig Hparse Hn. unfold strconv.ParseInt.
  simpl in Hdig. apply andb_prop in Hdig as [Hc _].
  destruct (isDigit_not_sign c Hc).
  rewrite !bool_decide_eq_false_2 by done. rewrite Hparse.
  cbn [negb andb]. by cmp_decide.
Qed.

(** [ParseInt] reads back what [Itoa] writes. *)
Lemma ParseInt_Itoa n : int64 n -> strconv.ParseInt (strconv.Itoa n) = Some n.
Proof.
  unfold int64, strconv.Itoa. intros Hn.
  destruct (Z.ltb_spec n 0) as [Hneg|Hpos].
  - destruct (formatDigits_spec 19 (- n) "") as (c & ds & -> & Hdig & Hparse & _).
    { change (10 ^ Z.of_nat 20) with 100000000000000000000. lia. }
    rewrite string_app_nil_r. unfold strconv.ParseInt.
    rewrite bool_decide_eq_false_2, bool_decide_eq_true_2 by done.
    rewrite Hparse. cbn [negb andb]. cmp_decide. f_equal. lia.
  - destruct (formatDigits_spec 19 n "") as (c & ds & -> & Hdig & Hparse & _).
    { change (10 ^ Z.of_nat 20) with 100000000000000000000. lia. }
    rewrite string_app_nil_r. apply ParseInt_digits; [done| |lia].
    rewrite Hparse. f_equal.
Qed.

(** ** Package [encoding/json] *)

(** *** String literals *)

#[local] Arguments utf8.DecodeRuneInString : simpl never.

Definition emit (out : string) (r : option (string * string))
  : option (string * string) :=
  match r with
  | Some (t, rest) => Some (out +:+ t, rest)
  | None => None
  end.

(** What [appendString] writes for an ASCII byte is read back as that
    byte. *)
Lemma unquote_escapeByte fuel c X :
  byteval c < utf8.RuneSelf ->
  json.unquote (S fuel) (json.escapeByte c +:+ X)
  = emit (String c "") (json.unquote fuel X).
Proof.
  destruct c as [b0 b1 b2 b3 b4 b5 b6 [|]]; intros Hc.
  { exfalso. revert Hc. unfold utf8.RuneSelf.
    destruct b0, b1, b2, b3, b4, b5, b6; vm_compute; congruence. }
  clear Hc. destruct b0, b1, b2, b3, b4, b5, b6; reflexivity.
Qed.

Lemma escapeByte_nonempty c : json.escapeByte c <> "".
Proof. unfold json.escapeByte. repeat case_match; done. Qed.

Lemma unquote_decoded fuel s r size :
  decoded s r size ->
  json.unquote (S fuel) s
  = emit (utf8.EncodeRune r) (json.unquote fuel (string_drop (Z.to_nat size) s)).
Proof.
  intros Hd. destruct (decoded_first _ _ _ Hd) as (c0 & r0 & -> & Hc0).
  cbn [json.unquote].
  rewrite !bool_decide_eq_false_2
    by (intros ->; revert Hc0; vm_compute; congruence).
  unfold utf8.RuneSelf. cmp_decide.
  by rewrite (decoded_DecodeRune _ _ _ Hd).
Qed.

Lemma unquote_separator fuel r X :
  r = 0x2028 \/ r = 0x2029 ->
  json.unquote (S fuel)
    (String "\"%char (String "u"%char (String "2"%char (String "0"%char
       (String "2"%char (String (json.hex (Z.land r 15)) EmptyString)))))
     +:+ X)
  = emit (utf8.EncodeRune r) (json.unquote fuel X).
Proof. intros [-> | ->]; reflexivity. Qed.

Lemma unquote_quote fuel rest :
  json.unquote (S fuel) (String "034"%char rest) = Some ("", rest).
Proof. reflexivity. Qed.

(** A string of valid UTF-8 is read back from its literal. *)
Lemma unquote_appendStringLoop n s rest fuel :
  (String.length s <= n)%nat -> utf8.ValidString_loop n s = true ->
  (String.length (json.appendStringLoop n s) < fuel)%nat ->
  json.unquote fuel (json.appendStringLoop n s +:+ String "034"%char rest)
  = Some (s, rest).
Proof.
  revert s fuel. induction n as [|n IH]; intros s fuel Hn Hv Hfuel.
  { destruct s; [|simpl in Hn; lia]. destruct fuel; [simpl in Hfuel; lia|].
    reflexivity. }
  destruct s as [|c s'].
  { destruct fuel; [simpl in Hfuel; lia|]. reflexivity. }
  destruct fuel as [|fuel]; [lia|].
  cbn [json.appendStringLoop utf8.ValidString_loop] in *.
  destruct (Z.ltb_spec (byteval c) utf8.RuneSelf) as [Hc|Hc].
  - rewrite string_app_assoc, unquote_escapeByte by done.
    rewrite IH; [done| simpl in Hn; lia | done|].
    rewrite string_app_length in Hfuel.
    pose proof (escapeByte_nonempty c).
    destruct (json.escapeByte c); [done|]. simpl in Hfuel. lia.
  - destruct (utf8.DecodeRuneInString (String c s')) as [r size] eqn:Hdec.
    destruct (Z.eqb_spec size 1) as [|Hsize]; [done|].
    apply DecodeRune_decoded in Hdec as Hd; [|done..].
    destruct (decoded_width _ _ _ Hd) as [Hw Hlen].
    pose proof (decoded_EncodeRune _ _ _ Hd) as Henc.
    rewrite andb_false_r in *.
    assert (String.length (string_drop (Z.to_nat size) (String c s')) <= n)%nat.
    { rewrite string_drop_length. simpl in *. lia. }
    destruct ((r =? 8232) || (r =? 8233)) eqn:Hsep.
    + rewrite string_app_assoc, unquote_separator by lia.
      rewrite string_app_length in Hfuel. cbn [String.length "+:+"] in Hfuel.
      rewrite IH; [|done|done|simpl in Hfuel; lia].
      cbn [emit]. by rewrite Henc, string_take_drop.
    + rewrite string_app_assoc.
      rewrite (unquote_decoded _ _ r size) by by apply decoded_take.
      rewrite <- Hlen at 1. rewrite string_drop_app.
      rewrite string_app_length in Hfuel.
      rewrite IH; [|done|done|lia].
      cbn [emit]. by rewrite Henc, string_take_drop.
Qed.

(** *** Numbers *)

(** What may follow a value in a document. *)
Definition endsValue (rest : string) : bool :=
  match rest with
  | EmptyString => true
  | String c _ =>
      json.isSpace c || bool_decide (c = ","%char) || bool_decide (c = "}"%char)
      || bool_decide (c = "]"%char)
  end.

Lemma spanDigits_app ds rest :
  digits ds = true ->
  match rest with String c _ => json.isDigit c = false | EmptyString => True end ->
  json.spanDigits (ds +:+ rest) = (ds, rest).
Proof.
  intros Hds Hrest. induction ds as [|c ds IH]; str_simpl.
  - destruct rest; [done|]. simpl. by rewrite Hrest.
  - apply andb_prop in Hds as [-> Hds]. by rewrite IH.
Qed.

Lemma endsValue_cases rest :
  endsValue rest = true ->
  rest = "" \/ exists c rest', rest = String c rest'
    /\ (c = " " \/ c = "009" \/ c = "013" \/ c = "010" \/ c = "," \/ c = "}" \/ c = "]")%char.
Proof.
  destruct rest as [|c rest']; [by left|]. intros Hc. right. exists c, rest'.
  split; [done|]. unfold endsValue, json.isSpace in Hc.
  repeat match type of Hc with
         | (_ || _) = true => apply orb_prop in Hc as [Hc|Hc]
         end; apply bool_decide_eq_true_1 in Hc; tauto.
Qed.

(** Evaluation of the comparisons of known bytes. *)
Ltac eval_byte_tests :=
  repeat match goal with
         | |- context [@bool_decide (?a = ?b) ?d] =>
             let v := eval vm_compute in (@bool_decide (a = b) d) in
             progress change (@bool_decide (a = b) d) with v; cbn
         end.

Lemma scanNumber_digits c ds rest :
  digits (String c ds) = true -> (c = "0"%char -> ds = "") ->
  endsValue rest = true ->
  json.scanNumber (String c ds +:+ rest) = Some (String c ds, rest)
  /\ json.scanNumber (String "-" (String c ds) +:+ rest)
     = Some (String "-" (String c ds), rest).
Proof.
  intros Hdig Hzero Hrest.
  assert (match rest with String c _ => json.isDigit c = false | "" => True end)
    as Hnd.
  { destruct (endsValue_cases _ Hrest) as [->|(r & rest' & -> & Hr)]; [done|].
    by repeat destruct Hr as [->|Hr]; try subst r. }
  pose proof (spanDigits_app _ _ Hdig Hnd) as Hspan.
  assert (c <> "-"%char) as Hc.
  { simpl in Hdig. apply andb_prop in Hdig as [Hc _].
    by destruct (isDigit_not_sign c Hc). }
  assert ((if bool_decide (c = "0"%char)
           then ("0", string_drop 1 (String c ds +:+ rest))
           else (String c ds, rest)) = (String c ds, rest)) as Hint.
  { case_bool_decide as E; [|done]. rewrite (Hzero E), E. reflexivity. }
  unfold json.scanNumber. split.
  - rewrite string_app_cons, (bool_decide_eq_false_2 (c = "-"%char)) by done.
    rewrite <- string_app_cons, Hspan, Hint.
    destruct (endsValue_cases _ Hrest) as [->|(r & rest' & -> & Hr)].
    + by rewrite !string_app_nil_r.
    + repeat destruct Hr as [->|Hr]; try subst r;
        cbn; eval_byte_tests; by rewrite ?string_app_nil_l, ?string_app_nil_r.
  - rewrite string_app_cons, (bool_decide_eq_true_2 ("-"%char = "-"%char)) by done.
    rewrite Hspan, Hint.
    destruct (endsValue_cases _ Hrest) as [->|(r & rest' & -> & Hr)].
    + by rewrite !string_app_nil_r.
    + repeat destruct Hr as [->|Hr]; try subst r;
        cbn; eval_byte_tests; by rewrite ?string_app_nil_l, ?string_app_nil_r.
Qed.

Lemma HasPrefix_head c X d p :
  c <> d -> strings.HasPrefix (String c X) (String d p) = false.
Proof.
  intros Hc. unfold strings.HasPrefix. cbn [String.length string_take].
  rewrite bool_decide_eq_false_2, andb_false_r; congruence.
Qed.

Lemma parseValue_number_head fuel depth c X :
  json.isDigit c = true \/ c = "-"%char ->
  json.parseValue (S fuel) depth (String c X)
  = match json.scanNumber (String c X) with
    | Some (lit, rest) => Some (json.Number lit, rest)
    | None => None
    end.
Proof.
  intros Hc.
  assert (Forall (fun d => c <> d)
            [" "; "009"; "013"; "010"; "034"; "{"; "["; "t"; "f"; "n"]%char) as Hne.
  { destruct Hc as [Hc| ->]; [|by repeat constructor].
    repeat constructor; intros ->; by vm_compute in Hc. }
  repeat match goal with
         | H : Forall _ (_ :: _) |- _ => apply Forall_cons in H as [? H]
         end.
  cbn [json.parseValue json.skipSpace]. unfold json.isSpace.
  rewrite !bool_decide_eq_false_2 by done. cbn [orb].
  rewrite !bool_decide_eq_false_2 by done.
  by rewrite !HasPrefix_head by done.
Qed.

(** A number literal is read back. *)
Lemma parseValue_Itoa fuel depth n rest :
  int64 n -> endsValue rest = true ->
  json.parseValue (S fuel) depth (strconv.Itoa n +:+ rest)
  = Some (json.Number (strconv.Itoa n), rest).
Proof.
  unfold int64, strconv.Itoa. intros Hn Hrest.
  destruct (Z.ltb_spec n 0) as [Hneg|Hpos].
  - destruct (formatDigits_spec 19 (- n) "") as (c & ds & -> & Hdig & _ & Hzero).
    { change (10 ^ Z.of_nat 20) with 100000000000000000000. lia. }
    rewrite string_app_nil_r, string_app_cons.
    rewrite parseValue_number_head by by right.
    rewrite <- string_app_cons.
    destruct (scanNumber_digits c ds rest) as [_ ->];
      [done|by intros E; destruct (Hzero E)|done|done].
  - destruct (formatDigits_spec 19 n "") as (c & ds & -> & Hdig & _ & Hzero).
    { change (10 ^ Z.of_nat 20) with 100000000000000000000. lia. }
    rewrite string_app_nil_r, string_app_cons.
    rewrite parseValue_number_head
      by (left; simpl in Hdig; by apply andb_prop in Hdig as [-> _]).
    rewrite <- string_app_cons.
    destruct (scanNumber_digits c ds rest) as [-> _];
      [done|by intros E; destruct (Hzero E)|done|done].
Qed.

(** *** Documents *)

(** The literal of an [int64], as [Itoa] writes it. *)
Definition isInt64Literal (lit : string) : bool :=
  match strconv.ParseInt lit with
  | Some n =>
      bool_decide (lit = strconv.Itoa n) && (- 2 ^ 63 <=? n) && (n <? 2 ^ 63)
  | None => false
  end.

(** The documents that hold an index: strings of valid UTF-8, integers and
    objects, nested at most [h] deep. *)
Fixpoint document (h : nat) (v : json.value) : bool :=
  match v with
  | json.Number lit => isInt64Literal lit
  | json.Str s => utf8.ValidString s
  | json.Object ms =>
      match h with
      | O => false
      | S h' => forallb (fun km => utf8.ValidString km.1 && document h' km.2) ms
      end
  | _ => false
  end.

Fixpoint allSpace (s : string) : bool :=
  match s with
  | EmptyString => true
  | String c s' => json.isSpace c && allSpace s'
  end.

(** The indentation is made of white space. *)
Definition spaces (indent : option string) : bool :=
  match indent with
  | Some i => allSpace i
  | None => true
  end.

Section render.
Variable indent : option string.
Variable d : nat.

(** The members of an object after the first one, as [render] writes
    them. *)
Fixpoint membersTail (ms : list (string * json.value)) : string :=
  match ms with
  | [] => EmptyString
  | (k, m) :: ms' =>
      "," +:+ json.newline indent (S d) +:+ json.appendString k
      +:+ json.colon indent +:+ json.render indent (S d) m +:+ membersTail ms'
  end.

Lemma render_Object_cons k m ms :
  json.render indent d (json.Object ((k, m) :: ms))
  = "{" +:+ json.newline indent (S d) +:+ json.appendString k
    +:+ json.colon indent +:+ json.render indent (S d) m +:+ membersTail ms
    +:+ json.newline indent d +:+ "}".
Proof. reflexivity. Qed.

End render.

Lemma skipSpace_idem s : json.skipSpace (json.skipSpace s) = json.skipSpace s.
Proof.
  induction s as [|c s IH]; [done|]. simpl.
  destruct (json.isSpace c) eqn:E; [done|]. simpl. by rewrite E.
Qed.

Lemma skipSpace_app w X :
  allSpace w = true -> json.skipSpace (w +:+ X) = json.skipSpace X.
Proof.
  induction w as [|c w IH]; str_simpl; [done|].
  intros [-> Hw]%andb_prop. auto.
Qed.

Lemma allSpace_app a b : allSpace (a +:+ b) = allSpace a && allSpace b.
Proof. induction a as [|c a IH]; str_simpl; [done|]. by rewrite IH, andb_assoc. Qed.

Lemma allSpace_newline indent d :
  spaces indent = true -> allSpace (json.newline indent d) = true.
Proof.
  destruct indent as [i|]; [|done]. simpl. intros Hi.
  induction d as [|d IH]; [done|]. simpl in *. by rewrite allSpace_app, Hi.
Qed.

Lemma parseValue_skipSpace fuel depth s :
  json.parseValue fuel depth (json.skipSpace s) = json.parseValue fuel depth s.
Proof. destruct fuel; [done|]. cbn [json.parseValue]. by rewrite skipSpace_idem. Qed.

Lemma parseValue_spaces fuel depth w X :
  allSpace w = true ->
  json.parseValue fuel depth (w +:+ X) = json.parseValue fuel depth X.
Proof.
  intros Hw. rewrite <- parseValue_skipSpace, skipSpace_app by done.
  apply parseValue_skipSpace.
Qed.

Lemma skipSpace_head c X :
  json.isSpace c = false -> json.skipSpace (String c X) = String c X.
Proof. simpl. by intros ->. Qed.

Lemma skipSpace_newline indent d c X :
  spaces indent = true -> json.isSpace c = false ->
  json.skipSpace (json.newline indent d +:+ String c X) = String c X.
Proof.
  intros Hi Hc. rewrite skipSpace_app by by apply allSpace_newline.
  by apply skipSpace_head.
Qed.

Lemma appendString_length s :
  String.length (json.appendString s)
  = S (S (String.length (json.appendStringLoop (String.length s) s))).
Proof.
  unfold json.appendString. cbn [String.length].
  rewrite string_app_length. simpl. lia.
Qed.

(** The literal of a string of valid UTF-8 is read back. *)
Lemma unquote_appendString s rest :
  utf8.ValidString s = true ->
  exists s1, json.appendString s +:+ rest = String "034"%char s1
    /\ json.unquote (S (String.length s1)) s1 = Some (s, rest).
Proof.
  intros Hs. eexists. split.
  - unfold json.appendString. rewrite string_app_cons, string_app_assoc.
    rewrite string_app_cons, string_app_nil_l. reflexivity.
  - apply unquote_appendStringLoop; [done|done|].
    rewrite string_app_length. lia.
Qed.

Lemma parseValue_Str fuel depth s rest :
  utf8.ValidString s = true ->
  json.parseValue (S fuel) depth (json.appendString s +:+ rest)
  = Some (json.Str s, rest).
Proof.
  intros Hs. destruct (unquote_appendString s rest Hs) as (s1 & -> & Hs1).
  cbn [json.parseValue]. rewrite skipSpace_head by done.
  rewrite bool_decide_eq_true_2 by done. by rewrite Hs1.
Qed.

Lemma isInt64Literal_Itoa lit :
  isInt64Literal lit = true -> exists n, lit = strconv.Itoa n /\ int64 n.
Proof.
  unfold isInt64Literal, int64. destruct (strconv.ParseInt lit) as [n|]; [|done].
  intros H. apply andb_prop in H as [H Hhi]. apply andb_prop in H as [Hlit Hlo].
  apply bool_decide_eq_true_1 in Hlit. exists n. split; [done|lia].
Qed.

Lemma endsValue_membersTail indent d ms rest :
  endsValue (membersTail indent d ms +:+ json.newline indent d +:+ String "}" rest)
  = true.
Proof.
  destruct ms as [|[k m] ms]; [|done]. str_simpl.
  destruct indent; done.
Qed.

(** A document is read back from its text, compact or indented. *)
Lemma parseValue_render indent h :
  spaces indent = true ->
  forall v d fuel depth rest,
    document h v = true ->
    (String.length (json.render indent d v) <= fuel)%nat ->
    depth + Z.of_nat h <= json.maxNestingDepth ->
    endsValue rest = true ->
    json.parseValue fuel depth (json.render indent d v +:+ rest) = Some (v, rest).
Proof.
  intros Hindent. induction h as [|h IH]; intros v d fuel depth rest Hv Hfuel Hdepth Hrest.
  - destruct v; try done.
    + apply isInt64Literal_Itoa in Hv as (n & -> & Hn).
      destruct fuel as [|fuel]; [|by apply parseValue_Itoa].
      simpl in Hfuel. destruct (strconv.Itoa n) eqn:E; [|simpl in Hfuel; lia].
      pose proof (ParseInt_Itoa n Hn) as Hp. by rewrite E in Hp.
    + destruct fuel as [|fuel]; [|by apply parseValue_Str].
      simpl in Hfuel. lia.
  - destruct v as [| |lit|s| |ms]; try done.
    + apply isInt64Literal_Itoa in Hv as (n & -> & Hn).
      destruct fuel as [|fuel]; [|by apply parseValue_Itoa].
      simpl in Hfuel. destruct (strconv.Itoa n) eqn:E; [|simpl in Hfuel; lia].
      pose proof (ParseInt_Itoa n Hn) as Hp. by rewrite E in Hp.
    + destruct fuel as [|fuel]; [|by apply parseValue_Str].
      simpl in Hfuel. lia.
    + assert ((json.maxNestingDepth <? depth + 1) = false) as Hmax
        by (apply Z.ltb_ge; lia).
      destruct ms as [|[k m] ms].
      { destruct fuel as [|fuel]; [simpl in Hfuel; lia|].
        cbn [json.render]. str_simpl. cbn [json.parseValue json.skipSpace].
        by rewrite Hmax. }
      assert (forall ms k m fuel rest,
                utf8.ValidString k = true -> document h m = true ->
                forallb (fun km => utf8.ValidString km.1 && document h km.2) ms
                = true ->
                (String.length (json.appendString k +:+ json.colon indent
                   +:+ json.render indent (S d) m +:+ membersTail indent d ms)
                 <= fuel)%nat ->
                json.parseMembers fuel (depth + 1)
                  (json.newline indent (S d) +:+ json.appendString k
                   +:+ json.colon indent +:+ json.render indent (S d) m
                   +:+ membersTail indent d ms +:+ json.newline indent d
                   +:+ String "}" rest)
                = Some ((k, m) :: ms, rest)) as Hmembers.
      { clear Hv Hfuel Hrest k m ms fuel rest. intros ms.
        induction ms as [|[k' m'] ms IHms]; intros k m fuel rest Hk Hm Hms Hfuel;
          rewrite !string_app_length, appendString_length in Hfuel;
          (destruct fuel as [|fuel]; [lia|]);
          cbn [json.parseMembers];
          rewrite skipSpace_app by (by apply allSpace_newline);
          match goal with
          | |- context [membersTail indent d ?l] =>
              destruct (unquote_appendString k
                (json.colon indent +:+ json.render indent (S d) m
                 +:+ membersTail indent d l +:+ json.newline indent d
                 +:+ String "}" rest) Hk) as (s1 & Es1 & Hs1)
          end;
          rewrite Es1, skipSpace_head by done; lazy beta match; rewrite Hs1;
          assert (exists w, allSpace w = true
                 /\ forall X, json.colon indent +:+ X = String ":" (w +:+ X))
            as (w & Hw & ->)
            by (destruct indent; [by exists " "|by exists ""]);
          rewrite skipSpace_head by done; lazy beta match;
          rewrite parseValue_spaces by done.
        - cbn [membersTail]. rewrite string_app_nil_l.
          rewrite IH; [|done|simpl in Hfuel; lia|lia|].
          + rewrite skipSpace_newline by done. done.
          + apply (endsValue_membersTail indent d []).
        - rewrite IH;
            [|done|lia|lia|apply (endsValue_membersTail indent d ((k', m') :: ms))].
          cbn [membersTail]. rewrite !string_app_assoc.
          rewrite string_app_cons, string_app_nil_l.
          rewrite skipSpace_head by done. lazy beta match.
          cbn [forallb] in Hms. apply andb_prop in Hms as [[Hk' Hm']%andb_prop Hms].
          rewrite IHms; [done..|].
          cbn [membersTail] in Hfuel.
          rewrite !string_app_length, appendString_length in *.
          cbn [String.length] in Hfuel. lia. }
      cbn [document forallb] in Hv.
      apply andb_prop in Hv as [[Hk Hm]%andb_prop Hms].
      rewrite render_Object_cons in *.
      rewrite !string_app_length in Hfuel. cbn [String.length] in Hfuel.
      destruct fuel as [|fuel]; [lia|].
      rewrite !string_app_assoc. rewrite string_app_cons, string_app_nil_l.
      cbn [json.parseValue]. rewrite skipSpace_head by done.
      rewrite !bool_decide_eq_false_2 by done.
      rewrite bool_decide_eq_true_2 by done. rewrite Hmax.
      rewrite skipSpace_app by by apply allSpace_newline.
      destruct (unquote_appendString k
               (json.colon indent +:+ json.render indent (S d) m
                +:+ membersTail indent d ms +:+ json.newline indent d
                +:+ "}" +:+ rest) Hk) as (s1 & Es1 & _).
      rewrite Es1, skipSpace_head by done. lazy beta match.
      rewrite <- Es1. rewrite (string_app_cons "}" "" rest), string_app_nil_l.
      rewrite Hmembers; [done..|].
      rewrite !string_app_length. lia.
Qed.

Lemma parse_render indent h v :
  spaces indent = true -> document h v = true ->
  Z.of_nat h <= json.maxNestingDepth ->
  json.parse (json.render indent 0 v) = inr v.
Proof.
  intros Hi Hv Hh. unfold json.parse.
  rewrite <- (string_app_nil_r (json.render indent 0 v)) at 2.
  rewrite (parseValue_render indent h) by (try done; lia). done.
Qed.

(** *** Maps from the members of an object *)

Lemma foldl_insert_union `{Countable K} {V} (l : list (K * V)) (m0 : gmap K V) :
  NoDup l.*1 ->
  foldl (fun m kv => <[kv.1 := kv.2]> m) m0 l = list_to_map l ∪ m0.
Proof.
  revert m0. induction l as [|[k v] l IH]; intros m0 Hnd; simpl.
  - by rewrite (left_id_L ∅ (∪)).
  - apply NoDup_cons in Hnd as [Hk Hnd]. rewrite IH by done.
    rewrite <- insert_union_r, insert_union_l; [done|].
    by apply not_elem_of_list_to_map_1.
Qed.

(** The members of a map, in any order, give the map back. *)
Lemma foldl_insert_Permutation `{Countable K} {V} (l : list (K * V)) (m : gmap K V) :
  l ≡ₚ map_to_list m ->
  foldl (fun acc kv => <[kv.1 := kv.2]> acc) ∅ l = m.
Proof.
  intros Hl.
  assert (NoDup l.*1) as Hnd.
  { rewrite Hl. apply NoDup_fst_map_to_list. }
  rewrite foldl_insert_union, (right_id_L ∅ (∪)) by done.
  rewrite (list_to_map_proper l (map_to_list m)) by done.
  apply list_to_map_to_list.
Qed.

Lemma foldl_insert_fmap `{Countable K} {V A} (f : A -> K * V) (l : list A) m0 :
  foldl (fun (m : gmap K V) kv => <[kv.1 := kv.2]> m) m0 (f <$> l)
  = foldl (fun m a => <[(f a).1 := (f a).2]> m) m0 l.
Proof. revert m0. induction l; intros; simpl; auto. Qed.

(** *** The records of the index *)

Definition lineKey (key : string) : Z := default 0 (strconv.ParseInt key).

Lemma decodeLineMembers_foldl (l : list (string * string)) m0 :
  Forall (fun kv => is_Some (strconv.ParseInt kv.1)) l ->
  json.decodeLineMembers (prod_map id json.Str <$> l) m0
  = inr (foldl (fun m kv => <[lineKey kv.1 := kv.2]> m) m0 l).
Proof.
  revert m0. induction l as [|[k v] l IH]; intros m0 Hl; [done|].
  apply Forall_cons in Hl as [[n Hn] Hl]. simpl in *.
  unfold lineKey at 2. rewrite Hn. simpl. by apply IH.
Qed.

(** A record whose integers fit their types: the numbers of the lines an
    [int], the time an [int64]. *)
Definition fits (r : json.record) : Prop :=
  map_Forall (fun n _ => int64 n) (json.recLines r) /\ int64 (json.recModified r).

Lemma decodeLines_linesToValue lines :
  map_Forall (fun n _ => int64 n) lines ->
  json.decodeLines (json.linesToValue lines) ∅ = inr lines.
Proof.
  intros Hlines. unfold json.linesToValue, json.sortedMembers. cbn [json.decodeLines].
  set (l := merge_sort _ _).
  assert (l ≡ₚ prod_map strconv.Itoa id <$> map_to_list lines) as Hl
    by apply merge_sort_Permutation.
  assert (Forall (fun kv => exists n, kv.1 = strconv.Itoa n /\ int64 n) l) as Hkeys.
  { rewrite Hl. apply Forall_fmap, Forall_forall. intros [n line] Hin.
    apply elem_of_map_to_list in Hin. exists n. split; [done|].
    by apply (Hlines n line). }
  rewrite decodeLineMembers_foldl.
  2:{ eapply Forall_impl; [exact Hkeys|]. intros kv (n & -> & Hn).
      rewrite ParseInt_Itoa by done. by eexists. }
  f_equal.
  rewrite <- (foldl_insert_fmap (prod_map lineKey id) l ∅).
  apply foldl_insert_Permutation.
  rewrite Hl, <- list_fmap_compose.
  rewrite (list_fmap_ext _ id (map_to_list lines)); [by rewrite list_fmap_id|].
  intros i [n line] Hin. apply list_elem_of_lookup_2, elem_of_map_to_list in Hin.
  unfold lineKey. simpl. rewrite ParseInt_Itoa; [done|]. by apply (Hlines n line).
Qed.

(** The names of the fields select one field each, and are valid UTF-8. *)
Definition goodNames (names : json.fieldNames) : bool :=
  negb (json.selects (json.linesName names) (json.pathName names))
  && negb (json.selects (json.modifiedName names) (json.pathName names))
  && negb (json.selects (json.modifiedName names) (json.linesName names))
  && utf8.ValidString (json.pathName names)
  && utf8.ValidString (json.linesName names)
  && utf8.ValidString (json.modifiedName names).

Lemma selects_refl key : json.selects key key = true.
Proof. unfold json.selects. by rewrite bool_decide_eq_true_2. Qed.

Lemma decodeRecord_recordToValue names r :
  goodNames names = true -> fits r ->
  json.decodeRecord names (json.recordToValue names r) = inr (Some r).
Proof.
  unfold goodNames. intros Hnames [Hlines Hmod].
  do 3 (apply andb_prop in Hnames as [Hnames _]).
  apply andb_prop in Hnames as [Hnames H3]. apply andb_prop in Hnames as [H1 H2].
  apply negb_true_iff in H1, H2, H3.
  destruct r as [p lines t].
  cbn [json.recLines json.recModified] in *. unfold json.recordToValue.
  cbn [json.decodeRecord json.decodeFields json.recPath json.recLines
         json.recModified].
  rewrite !selects_refl, H1, H2, H3.
  cbn [json.decodeString json.decodeInt64 json.recPath json.recLines
         json.recModified].
  rewrite decodeLines_linesToValue by done.
  rewrite ParseInt_Itoa by done. done.
Qed.

Lemma decodeFileMembers_foldl names (l : list (string * json.record)) m0 :
  goodNames names = true -> Forall (fun kv => fits kv.2) l ->
  json.decodeFileMembers names (prod_map id (json.recordToValue names) <$> l) m0
  = inr (foldl (fun m kv => <[kv.1 := Some kv.2]> m) m0 l).
Proof.
  intros Hnames. revert m0. induction l as [|[k r] l IH]; intros m0 Hl; [done|].
  apply Forall_cons in Hl as [Hr Hl].
  cbn [fmap list_fmap prod_map json.decodeFileMembers fst snd id foldl] in *.
  rewrite decodeRecord_recordToValue by done. by apply IH.
Qed.

(** The records of a map are decoded from its document. *)
Lemma decodeFiles_filesToValue names files :
  goodNames names = true -> map_Forall (fun _ r => fits r) files ->
  json.decodeFiles names (json.filesToValue names files) ∅ = inr (Some <$> files).
Proof.
  intros Hnames Hfiles. unfold json.filesToValue, json.sortedMembers.
  cbn [json.decodeFiles].
  set (l := merge_sort _ _).
  assert (l ≡ₚ map_to_list files) as Hl by apply merge_sort_Permutation.
  rewrite decodeFileMembers_foldl; [|done|].
  2:{ rewrite Hl. apply Forall_forall. intros [p r] Hin.
      apply elem_of_map_to_list in Hin. by apply (Hfiles p r). }
  f_equal.
  rewrite <- (foldl_insert_fmap (prod_map id Some) l ∅).
  apply foldl_insert_Permutation.
  by rewrite Hl, map_to_list_fmap.
Qed.

(** A record of valid UTF-8 whose integers fit their types. *)
Definition validRecord (r : json.record) : Prop :=
  utf8.ValidString (json.recPath r) = true
  /\ map_Forall (fun n line => int64 n /\ utf8.ValidString line = true)
       (json.recLines r)
  /\ int64 (json.recModified r).

Lemma validRecord_fits r : validRecord r -> fits r.
Proof.
  intros (_ & Hlines & Hmod). split; [|done].
  intros n line Hn. by destruct (Hlines n line Hn).
Qed.

Lemma ValidString_digits s n : digits s = true -> utf8.ValidString_loop n s = true.
Proof.
  revert s. induction n as [|n IH]; intros [|c s] Hs; try done.
  simpl in *. apply andb_prop in Hs as [Hc Hs].
  unfold json.isDigit in Hc. apply andb_prop in Hc as [_ Hc%Z.leb_le].
  unfold utf8.RuneSelf. cmp_decide. by apply IH.
Qed.

Lemma ValidString_Itoa n : int64 n -> utf8.ValidString (strconv.Itoa n) = true.
Proof.
  unfold int64, strconv.Itoa, utf8.ValidString. intros Hn.
  destruct (Z.ltb_spec n 0) as [Hneg|Hpos].
  - destruct (formatDigits_spec 19 (- n) "") as (c & ds & -> & Hdig & _).
    { change (10 ^ Z.of_nat 20) with 100000000000000000000. lia. }
    rewrite string_app_nil_r.
    exact (ValidString_digits (String c ds) (String.length (String c ds)) Hdig).
  - destruct (formatDigits_spec 19 n "") as (c & ds & -> & Hdig & _).
    { change (10 ^ Z.of_nat 20) with 100000000000000000000. lia. }
    rewrite string_app_nil_r. by apply ValidString_digits.
Qed.

Lemma isInt64Literal_Itoa_true n : int64 n -> isInt64Literal (strconv.Itoa n) = true.
Proof.
  intros Hn. unfold isInt64Literal. rewrite ParseInt_Itoa by done.
  unfold int64 in Hn. rewrite bool_decide_eq_true_2 by done. by cmp_decide.
Qed.

Lemma forallb_sortedMembers {A} (P : string * json.value -> bool)
    (toValue : A -> json.value) (l : list (string * A)) :
  (forall k a, (k, a) ∈ l -> P (k, toValue a) = true) ->
  forallb P (json.sortedMembers toValue l) = true.
Proof.
  intros Hl. apply forallb_forall. intros km Hin.
  apply list_elem_of_In in Hin. unfold json.sortedMembers in Hin.
  apply list_elem_of_fmap in Hin as ([k a] & -> & Hin).
  rewrite merge_sort_Permutation in Hin. by apply Hl.
Qed.

Lemma document_linesToValue lines :
  map_Forall (fun n line => int64 n /\ utf8.ValidString line = true) lines ->
  document 1 (json.linesToValue lines) = true.
Proof.
  intros Hlines. unfold json.linesToValue. cbn [document].
  apply forallb_sortedMembers. intros k line Hin.
  apply list_elem_of_fmap in Hin as ([n line'] & [= -> ->] & Hin).
  apply elem_of_map_to_list in Hin. destruct (Hlines n line' Hin) as [Hn Hline].
  cbn [fst snd document]. by rewrite ValidString_Itoa, Hline.
Qed.

Lemma document_recordToValue names r :
  goodNames names = true -> validRecord r ->
  document 2 (json.recordToValue names r) = true.
Proof.
  unfold goodNames. intros Hnames (Hpath & Hlines & Hmod).
  apply andb_prop in Hnames as [Hnames V3]. apply andb_prop in Hnames as [Hnames V2].
  apply andb_prop in Hnames as [_ V1].
  unfold json.recordToValue. cbn [document forallb fst snd].
  rewrite V1, V2, V3, Hpath, isInt64Literal_Itoa_true by done.
  pose proof (document_linesToValue _ Hlines) as Hdoc. cbn [document] in Hdoc.
  by rewrite Hdoc.
Qed.

Lemma document_filesToValue names (files : gmap string json.record) :
  goodNames names = true ->
  map_Forall (fun path r => utf8.ValidString path = true /\ validRecord r) files ->
  document 3 (json.filesToValue names files) = true.
Proof.
  intros Hnames Hfiles. unfold json.filesToValue. cbn [document].
  apply forallb_sortedMembers. intros path r Hin.
  apply elem_of_map_to_list in Hin. destruct (Hfiles path r Hin) as [Hpath Hr].
  cbn [fst snd]. rewrite Hpath.
  pose proof (document_recordToValue names r Hnames Hr) as Hdoc.
  cbn [document] in Hdoc. by rewrite Hdoc.
Qed.

(** *** The scanner on the text of a document *)

(** The scanner inside a document: no error so far. *)
Definition inDocument (f : json.state) (stack : list json.parseKind) : json.scanner :=
  {| json.step := f; json.parseState := stack; json.err := None;
     json.endTop := false |}.

#[local] Arguments json.readValueLoop : simpl never.

(** What [appendString] writes for an ASCII byte keeps the scanner in the
    string. *)
Lemma readValueLoop_escapeByte data stack c X n :
  byteval c < utf8.RuneSelf ->
  json.readValueLoop data (inDocument json.stInString stack) (json.escapeByte c +:+ X) n
  = json.readValueLoop data (inDocument json.stInString stack) X
      (String.length (json.escapeByte c) + n).
Proof.
  destruct c as [b0 b1 b2 b3 b4 b5 b6 [|]]; intros Hc.
  { exfalso. revert Hc. unfold utf8.RuneSelf.
    destruct b0, b1, b2, b3, b4, b5, b6; vm_compute; congruence. }
  clear Hc. destruct b0, b1, b2, b3, b4, b5, b6; reflexivity.
Qed.

(** A byte on which the scanner goes on. *)
Lemma readValueLoop_continue data scan scan' op c X n :
  json.scanStep scan c = (scan', op) ->
  op <> json.scanEnd -> op <> json.scanEndObject -> op <> json.scanEndArray ->
  op <> json.scanError ->
  json.readValueLoop data scan (String c X) n = json.readValueLoop data scan' X (S n).
Proof.
  intros E ? ? ? ?. unfold json.readValueLoop at 1. fold json.readValueLoop.
  rewrite E. by destruct op.
Qed.

(** A byte of a sequence of several bytes keeps the scanner in the
    string. *)
Lemma readValueLoop_high data stack c X n :
  0x80 <= byteval c ->
  json.readValueLoop data (inDocument json.stInString stack) (String c X) n
  = json.readValueLoop data (inDocument json.stInString stack) X (S n).
Proof.
  intros Hc. apply (readValueLoop_continue _ _ _ json.scanContinue); [|done..].
  unfold json.scanStep. cbn [inDocument json.step].
  rewrite !bool_decide_eq_false_2
    by (intros ->; revert Hc; vm_compute; congruence).
  destruct (Z.ltb_spec (byteval c) 32); [lia|]. reflexivity.
Qed.

Lemma readValueLoop_decoded data stack s r size X n :
  decoded s r size ->
  json.readValueLoop data (inDocument json.stInString stack)
    (string_take (Z.to_nat size) s +:+ X) n
  = json.readValueLoop data (inDocument json.stInString stack) X (Z.to_nat size + n).
Proof.
  intros Hd. destruct Hd.
  all: change (Z.to_nat 2) with 2%nat; change (Z.to_nat 3) with 3%nat;
    change (Z.to_nat 4) with 4%nat; cbn [string_take]; str_simpl.
  all: rewrite !readValueLoop_high by lia; f_equal; lia.
Qed.

Lemma readValueLoop_separator data stack r X n :
  r = 0x2028 \/ r = 0x2029 ->
  json.readValueLoop data (inDocument json.stInString stack)
    (String "\"%char (String "u"%char (String "2"%char (String "0"%char
       (String "2"%char (String (json.hex (Z.land r 15)) EmptyString)))))
     +:+ X) n
  = json.readValueLoop data (inDocument json.stInString stack) X (6 + n).
Proof. intros [-> | ->]; reflexivity. Qed.

(** The text of a string of valid UTF-8, between its quotes, keeps the
    scanner in the string. *)
Lemma readValueLoop_appendStringLoop data stack fuel s X n :
  (String.length s <= fuel)%nat -> utf8.ValidString_loop fuel s = true ->
  json.readValueLoop data (inDocument json.stInString stack)
    (json.appendStringLoop fuel s +:+ X) n
  = json.readValueLoop data (inDocument json.stInString stack) X
      (String.length (json.appendStringLoop fuel s) + n).
Proof.
  revert s n. induction fuel as [|fuel IH]; intros s n Hn Hv.
  { destruct s; [|simpl in Hn; lia]. reflexivity. }
  destruct s as [|c s']; [reflexivity|].
  cbn [json.appendStringLoop utf8.ValidString_loop] in *.
  destruct (Z.ltb_spec (byteval c) utf8.RuneSelf) as [Hc|Hc].
  - rewrite string_app_assoc, readValueLoop_escapeByte by done.
    rewrite IH; [|simpl in Hn; lia|done].
    rewrite string_app_length. f_equal. lia.
  - destruct (utf8.DecodeRuneInString (String c s')) as [r size] eqn:Hdec.
    destruct (Z.eqb_spec size 1) as [|Hsize]; [done|].
    apply DecodeRune_decoded in Hdec as Hd; [|done..].
    destruct (decoded_width _ _ _ Hd) as [Hw Hlen].
    rewrite andb_false_r in *.
    assert (String.length (string_drop (Z.to_nat size) (String c s')) <= fuel)%nat.
    { rewrite string_drop_length. simpl in *. lia. }
    destruct ((r =? 8232) || (r =? 8233)) eqn:Hsep.
    + rewrite string_app_assoc, readValueLoop_separator by lia.
      rewrite IH by done. rewrite string_app_length. f_equal.
      cbn [String.length]. lia.
    + rewrite string_app_assoc, (readValueLoop_decoded _ _ _ r size) by done.
      rewrite IH by done. rewrite string_app_length, Hlen. f_equal. lia.
Qed.

(** The states in which a string literal can begin. *)
Definition beginsString (f : json.state) : bool :=
  match f with
  | json.stBeginValue | json.stBeginString | json.stBeginStringOrEmpty => true
  | _ => false
  end.

(** A string literal takes the scanner to the end of a value. *)
Lemma readValueLoop_appendString data f stack s X n :
  beginsString f = true -> utf8.ValidString s = true ->
  json.readValueLoop data (inDocument f stack) (json.appendString s +:+ X) n
  = json.readValueLoop data (inDocument json.stEndValue stack) X
      (String.length (json.appendString s) + n).
Proof.
  intros Hf Hs. unfold json.appendString.
  transitivity (json.readValueLoop data (inDocument json.stInString stack)
                  (json.appendStringLoop (String.length s) s
                   +:+ String "034"%char X) (S n)).
  { str_simpl. rewrite string_app_assoc. str_simpl. by destruct f. }
  rewrite readValueLoop_appendStringLoop by done.
  cbn [String.length]. rewrite string_app_length. cbn [String.length].
  rewrite (readValueLoop_continue _ _ (inDocument json.stEndValue stack)
             json.scanContinue) by done.
  f_equal. lia.
Qed.

(** After the digits of a number the scanner is where it is after any
    other value: the byte that follows ends the number. *)
Lemma readValueLoop_number_end data f stack X n :
  f = json.st0 \/ f = json.st1 -> endsValue X = true ->
  json.readValueLoop data (inDocument f stack) X n
  = json.readValueLoop data (inDocument json.stEndValue stack) X n.
Proof.
  intros Hf HX.
  destruct (endsValue_cases _ HX) as [->|(c & X' & -> & Hc)].
  - destruct Hf as [-> | ->]; by destruct stack as [|[| |] stack].
  - repeat destruct Hc as [->|Hc]; try subst c;
      destruct Hf as [-> | ->]; by destruct stack as [|[| |] stack].
Qed.

Lemma isDigit_cases c :
  json.isDigit c = true ->
  c ∈ ["0"; "1"; "2"; "3"; "4"; "5"; "6"; "7"; "8"; "9"]%char.
Proof.
  destruct c as [[|] [|] [|] [|] [|] [|] [|] [|]]; vm_compute; intros Hc;
    try discriminate Hc; set_solver.
Qed.

Lemma readValueLoop_digits data stack ds X n :
  digits ds = true ->
  json.readValueLoop data (inDocument json.st1 stack) (ds +:+ X) n
  = json.readValueLoop data (inDocument json.st1 stack) X (String.length ds + n).
Proof.
  revert n. induction ds as [|c ds IH]; intros n Hds; [done|].
  cbn [digits] in Hds. apply andb_prop in Hds as [Hc Hds].
  rewrite string_app_cons.
  rewrite (readValueLoop_continue _ _ (inDocument json.st1 stack) json.scanContinue);
    [|by unfold json.scanStep; cbn [inDocument json.step]; rewrite Hc|done..].
  rewrite IH by done. cbn [String.length]. f_equal. lia.
Qed.

(** The digits of a number, with or without a sign, take the scanner to the
    end of a value. *)
Lemma readValueLoop_number data stack c ds X n :
  digits (String c ds) = true -> (c = "0"%char -> ds = "") ->
  endsValue X = true ->
  json.readValueLoop data (inDocument json.stBeginValue stack) (String c ds +:+ X) n
  = json.readValueLoop data (inDocument json.stEndValue stack) X
      (String.length (String c ds) + n)
  /\ json.readValueLoop data (inDocument json.stBeginValue stack)
       (String "-" (String c ds) +:+ X) n
     = json.readValueLoop data (inDocument json.stEndValue stack) X
         (String.length (String "-" (String c ds)) + n).
Proof.
  intros Hdig Hzero HX. cbn [digits] in Hdig.
  apply andb_prop in Hdig as [Hc Hds].
  assert (forall f m,
            f = json.stBeginValue \/ f = json.stNeg ->
            json.readValueLoop data (inDocument f stack) (String c ds +:+ X) m
            = json.readValueLoop data (inDocument json.stEndValue stack) X
                (String.length (String c ds) + m)) as Hgo.
  { intros f m Hf. rewrite string_app_cons.
    assert (exists op,
              json.scanStep (inDocument f stack) c
              = (inDocument (if bool_decide (c = "0"%char) then json.st0 else json.st1)
                   stack, op)
              /\ (op = json.scanContinue \/ op = json.scanBeginLiteral))
      as (op & Estep & Hop).
    { apply isDigit_cases in Hc.
      repeat (apply elem_of_cons in Hc as [->|Hc];
              [destruct Hf as [-> | ->]; eexists; (split; [reflexivity|tauto])|]).
      by apply elem_of_nil in Hc. }
    rewrite (readValueLoop_continue _ _ _ op _ _ _ Estep)
      by (by destruct Hop as [-> | ->]).
    case_bool_decide as E.
    - rewrite (Hzero E), string_app_nil_l.
      rewrite readValueLoop_number_end by tauto. done.
    - rewrite readValueLoop_digits by done.
      rewrite readValueLoop_number_end by tauto. cbn [String.length].
      f_equal. lia. }
  split; [by apply Hgo; left|].
  rewrite string_app_cons.
  rewrite (readValueLoop_continue _ _ (inDocument json.stNeg stack)
             json.scanBeginLiteral) by done.
  rewrite Hgo by by right. cbn [String.length]. f_equal. lia.
Qed.

Lemma readValueLoop_Itoa data stack i X n :
  int64 i -> endsValue X = true ->
  json.readValueLoop data (inDocument json.stBeginValue stack) (strconv.Itoa i +:+ X) n
  = json.readValueLoop data (inDocument json.stEndValue stack) X
      (String.length (strconv.Itoa i) + n).
Proof.
  unfold int64, strconv.Itoa. intros Hi HX.
  destruct (Z.ltb_spec i 0) as [Hneg|Hpos].
  - destruct (formatDigits_spec 19 (- i) "") as (c & ds & -> & Hdig & _ & Hzero).
    { change (10 ^ Z.of_nat 20) with 100000000000000000000. lia. }
    rewrite string_app_nil_r.
    destruct (readValueLoop_number data stack c ds X n) as [_ ->];
      [done|by intros E; destruct (Hzero E)|done|done].
  - destruct (formatDigits_spec 19 i "") as (c & ds & -> & Hdig & _ & Hzero).
    { change (10 ^ Z.of_nat 20) with 100000000000000000000. lia. }
    rewrite string_app_nil_r.
    destruct (readValueLoop_number data stack c ds X n) as [-> _];
      [done|by intros E; destruct (Hzero E)|done|done].
Qed.

(** The states in which the scanner skips white space. *)
Definition skipsSpace (f : json.state) (stack : list json.parseKind) : bool :=
  match f with
  | json.stBeginValue | json.stBeginString | json.stBeginStringOrEmpty => true
  | json.stEndValue => match stack with [] => false | _ => true end
  | _ => false
  end.

Lemma readValueLoop_spaces data f stack w X n :
  skipsSpace f stack = true -> allSpace w = true ->
  json.readValueLoop data (inDocument f stack) (w +:+ X) n
  = json.readValueLoop data (inDocument f stack) X (String.length w + n).
Proof.
  intros Hf. revert n. induction w as [|c w IH]; intros n Hw; [done|].
  cbn [allSpace] in Hw. apply andb_prop in Hw as [Hc Hw].
  rewrite string_app_cons.
  rewrite (readValueLoop_continue _ _ (inDocument f stack) json.scanSkipSpace).
  - rewrite IH by done. cbn [String.length]. f_equal. lia.
  - unfold json.scanStep.
    destruct f; try done; cbn [inDocument json.step];
      unfold json.stateBeginValue, json.stateBeginString, json.stateEndValue;
      cbn [inDocument json.parseState]; rewrite ?Hc; try done.
    by destruct stack.
  - done.
  - done.
  - done.
  - done.
Qed.

(** The closing brace of an object: the end of the stream's value when no
    value is open around it. *)
Lemma readValueLoop_close data stack X n :
  json.readValueLoop data (inDocument json.stEndValue (json.parseObjectValue :: stack))
    (String "}" X) n
  = match stack with
    | [] => inr (S n)
    | _ => json.readValueLoop data (inDocument json.stEndValue stack) X (S n)
    end.
Proof. by destruct stack as [|[| |] stack]. Qed.

Lemma readValueLoop_open data stack X n :
  Z.of_nat (length stack) + 1 <= json.maxNestingDepth ->
  json.readValueLoop data (inDocument json.stBeginValue stack) (String "{" X) n
  = json.readValueLoop data
      (inDocument json.stBeginStringOrEmpty (json.parseObjectKey :: stack)) X (S n).
Proof.
  intros Hdepth.
  apply (readValueLoop_continue _ _ _ json.scanBeginObject); [|done..].
  unfold json.scanStep, json.stateBeginValue, json.pushParseState.
  cbn [inDocument json.step json.isSpace]. eval_byte_tests.
  cbn [json.setStep json.setParseState json.parseState length].
  destruct (Z.leb_spec (Z.of_nat (S (length stack))) json.maxNestingDepth); [done|lia].
Qed.

Lemma readValueLoop_colon data indent stack X n :
  json.readValueLoop data (inDocument json.stEndValue (json.parseObjectKey :: stack))
    (json.colon indent +:+ X) n
  = json.readValueLoop data (inDocument json.stBeginValue (json.parseObjectValue :: stack))
      X (String.length (json.colon indent) + n).
Proof. by destruct indent. Qed.

Lemma readValueLoop_comma data stack X n :
  json.readValueLoop data (inDocument json.stEndValue (json.parseObjectValue :: stack))
    (String "," X) n
  = json.readValueLoop data (inDocument json.stBeginString (json.parseObjectKey :: stack))
      X (S n).
Proof. done. Qed.

Section scan_members.
Variables (data : string) (indent : option string) (h : nat).
Hypothesis Hindent : spaces indent = true.

(** The scanner goes through every value of height [h]. *)
Hypothesis scans :
  forall v d stack X n,
    document h v = true -> stack <> [] ->
    Z.of_nat (length stack) + Z.of_nat h <= json.maxNestingDepth ->
    endsValue X = true ->
    json.readValueLoop data (inDocument json.stBeginValue stack)
      (json.render indent d v +:+ X) n
    = json.readValueLoop data (inDocument json.stEndValue stack) X
        (String.length (json.render indent d v) + n).

(** The members of an object, up to its closing brace. *)
Lemma readValueLoop_members d stack ms :
  Z.of_nat (length stack) + 1 + Z.of_nat h <= json.maxNestingDepth ->
  forall k m f X n,
    f = json.stBeginStringOrEmpty \/ f = json.stBeginString ->
    utf8.ValidString k = true -> document h m = true ->
    forallb (fun km => utf8.ValidString km.1 && document h km.2) ms = true ->
    json.readValueLoop data (inDocument f (json.parseObjectKey :: stack))
      (json.newline indent (S d) +:+ json.appendString k +:+ json.colon indent
       +:+ json.render indent (S d) m +:+ membersTail indent d ms
       +:+ json.newline indent d +:+ String "}" X) n
    = json.readValueLoop data
        (inDocument json.stEndValue (json.parseObjectValue :: stack)) (String "}" X)
        (String.length
           (json.newline indent (S d) +:+ json.appendString k +:+ json.colon indent
            +:+ json.render indent (S d) m +:+ membersTail indent d ms
            +:+ json.newline indent d) + n).
Proof.
  intros Hdepth.
  induction ms as [|[k' m'] ms' IHms]; intros k m f X n Hf Hk Hm Hms.
  all: rewrite readValueLoop_spaces;
    [|by destruct Hf as [-> | ->]|by apply allSpace_newline].
  all: rewrite readValueLoop_appendString; [|by destruct Hf as [-> | ->]|done].
  all: rewrite readValueLoop_colon.
  all: rewrite scans; [|done|done|cbn [length]; lia|].
  - cbn [membersTail]. rewrite string_app_nil_l.
    rewrite readValueLoop_spaces; [|done|by apply allSpace_newline].
    f_equal. rewrite !string_app_length. cbn [String.length]. lia.
  - apply (endsValue_membersTail indent d []).
  - cbn [membersTail]. rewrite !string_app_assoc.
    rewrite string_app_cons, string_app_nil_l, readValueLoop_comma.
    cbn [forallb] in Hms. apply andb_prop in Hms as [[Hk' Hm']%andb_prop Hms].
    rewrite IHms; [|by right|done..].
    f_equal. rewrite !string_app_length. cbn [String.length].
    rewrite ?string_app_length. lia.
  - apply (endsValue_membersTail indent d ((k', m') :: ms')).
Qed.

(** An object whose members have a height of at most [h]. *)
Lemma readValueLoop_Object d stack ms X n :
  Z.of_nat (length stack) + 1 + Z.of_nat h <= json.maxNestingDepth ->
  forallb (fun km => utf8.ValidString km.1 && document h km.2) ms = true ->
  json.readValueLoop data (inDocument json.stBeginValue stack)
    (json.render indent d (json.Object ms) +:+ X) n
  = match stack with
    | [] => inr (String.length (json.render indent d (json.Object ms)) + n)%nat
    | _ =>
        json.readValueLoop data (inDocument json.stEndValue stack) X
          (String.length (json.render indent d (json.Object ms)) + n)
    end.
Proof.
  intros Hdepth Hms. destruct ms as [|[k m] ms].
  { cbn [json.render]. rewrite !string_app_cons, string_app_nil_l.
    rewrite readValueLoop_open by lia. by destruct stack as [|[| |] stack]. }
  cbn [forallb] in Hms. apply andb_prop in Hms as [[Hk Hm]%andb_prop Hms].
  rewrite render_Object_cons. rewrite !string_app_assoc.
  rewrite string_app_cons, string_app_nil_l.
  rewrite readValueLoop_open by lia.
  rewrite (string_app_cons "}" "" X), string_app_nil_l.
  rewrite readValueLoop_members; [|done|by left|done..].
  rewrite readValueLoop_close.
  destruct stack; f_equal; rewrite !string_app_length; cbn [String.length];
    rewrite ?string_app_length; cbn [String.length]; lia.
Qed.

End scan_members.

(** The scanner goes through the text of a document, compact or
    indented. *)
Lemma readValueLoop_render data indent h :
  spaces indent = true ->
  forall v d stack X n,
    document h v = true -> stack <> [] ->
    Z.of_nat (length stack) + Z.of_nat h <= json.maxNestingDepth ->
    endsValue X = true ->
    json.readValueLoop data (inDocument json.stBeginValue stack)
      (json.render indent d v +:+ X) n
    = json.readValueLoop data (inDocument json.stEndValue stack) X
        (String.length (json.render indent d v) + n).
Proof.
  intros Hindent. induction h as [|h IH]; intros v d stack X n Hv Hstack Hdepth HX.
  - destruct v; try done.
    + apply isInt64Literal_Itoa in Hv as (i & -> & Hi). by apply readValueLoop_Itoa.
    + by apply readValueLoop_appendString.
  - destruct v as [| |lit|s| |ms]; try done.
    + apply isInt64Literal_Itoa in Hv as (i & -> & Hi). by apply readValueLoop_Itoa.
    + by apply readValueLoop_appendString.
    + rewrite (readValueLoop_Object data indent h Hindent IH); [|lia|done].
      by destruct stack.
Qed.

(** [readValue] finds the end of an object at its closing brace, whatever
    follows. *)
Lemma readValue_render indent h ms X :
  spaces indent = true -> document (S h) (json.Object ms) = true ->
  Z.of_nat (S h) <= json.maxNestingDepth ->
  json.readValue (json.render indent 0 (json.Object ms) +:+ X)
  = inr (String.length (json.render indent 0 (json.Object ms))).
Proof.
  intros Hindent Hv Hh. unfold json.readValue.
  change json.reset with (inDocument json.stBeginValue []).
  rewrite (readValueLoop_Object _ indent h Hindent);
    [by rewrite Nat.add_0_r| |cbn [length]; lia|done].
  intros. by apply (readValueLoop_render _ indent h).
Qed.

(** The first value of a stream that begins with the text of an object is
    this object, whatever follows. *)
Lemma parseFirst_render indent h ms X :
  spaces indent = true -> document (S h) (json.Object ms) = true ->
  Z.of_nat (S h) <= json.maxNestingDepth ->
  json.parseFirst (json.render indent 0 (json.Object ms) +:+ X)
  = inr (json.Object ms).
Proof.
  intros Hindent Hv Hh. unfold json.parseFirst.
  rewrite (readValue_render indent h) by done.
  rewrite string_take_app_length by done.
  rewrite <- (string_app_nil_r (json.render indent 0 (json.Object ms))) at 2.
  rewrite (parseValue_render indent (S h)); [done|done|done|lia|lia|done].
Qed.

Lemma nonSpace_allSpace data : json.nonSpace data = false -> allSpace data = true.
Proof.
  unfold json.nonSpace. induction data as [|c data IH]; [done|].
  cbn [json.skipSpace allSpace]. destruct (json.isSpace c); [exact IH|done].
Qed.

(** A stream that holds white space only has no value. *)
Lemma readValue_blank data : json.nonSpace data = false -> json.readValue data = inl EOF.
Proof.
  intros Hblank. unfold json.readValue.
  change json.reset with (inDocument json.stBeginValue []).
  rewrite <- (string_app_nil_r data) at 2.
  rewrite readValueLoop_spaces; [|done|by apply nonSpace_allSpace].
  unfold json.readValueLoop. by rewrite Hblank.
Qed.

#[global] Instance int64_dec n : Decision (int64 n).
Proof. unfold int64. apply _. Defined.

#[global] Instance validRecord_dec r : Decision (validRecord r).
Proof. unfold validRecord. apply _. Defined.

(** A store of valid UTF-8 whose integers fit their types. *)
Definition validFiles (files : gmap string json.record) : Prop :=
  map_Forall (fun path r => utf8.ValidString path = true /\ validRecord r) files.

#[global] Instance validFiles_dec files : Decision (validFiles files).
Proof. unfold validFiles. apply _. Defined.

Lemma validFiles_fits files :
  validFiles files -> map_Forall (fun _ r => fits r) files.
Proof.
  intros Hfiles path r Hr. apply validRecord_fits. by destruct (Hfiles path r Hr).
Qed.

(** ** The cache of [cursor] *)

Lemma cursor_names_good : goodNames cursor.cache.fileEntryNames = true.
Proof. by vm_compute. Qed.

Lemma cursor_ofRecord_toRecord e :
  cursor.cache.ofRecord (cursor.cache.toRecord e) = e.
Proof. by destruct e. Qed.

(** What [Save] writes for a valid store is read back by [Load] as that
    store. *)
Lemma cursor_Unmarshal_MarshalIndent (data : gmap string cursor.indexer.FileEntry) :
  validFiles (cursor.cache.toRecord <$> data) ->
  cursor.cache.Unmarshal (cursor.cache.MarshalIndent data) = inr (Some <$> data).
Proof.
  intros Hdata. unfold cursor.cache.Unmarshal, cursor.cache.MarshalIndent.
  rewrite (parse_render (Some "  ") 3); [|done| |done].
  2:{ apply document_filesToValue; [apply cursor_names_good|done]. }
  rewrite decodeFiles_filesToValue
    by (try apply cursor_names_good; by apply validFiles_fits).
  f_equal. rewrite <- !map_fmap_compose. apply map_fmap_ext.
  intros path e _. simpl. by rewrite cursor_ofRecord_toRecord.
Qed.

(** [os.Stat] returns no error. *)
Definition statOk (fs : os.FileSystem) (path : string) : bool :=
  match os.Stat fs path with inr _ => true | inl _ => false end.

(** The loop of [main] over the loaded data leaves the indexer as it is, and
    counts the paths that exist. *)
Lemma reconcile_foldl fs idx n (l : list (string * option cursor.indexer.FileEntry)) :
  foldl (cursor.main.reconcile fs) (idx, n) l
  = (idx, n + Z.of_nat (length (filter (fun pe => statOk fs pe.1 = true) l))).
Proof.
  revert n. induction l as [|[path e] l IH]; intros n; simpl.
  - f_equal. lia.
  - rewrite filter_cons. cbn [fst].
    destruct (decide (statOk fs path = true)) as [Hs|Hs]; unfold statOk in Hs;
      destruct (os.Stat fs path); try done; rewrite IH; simpl; f_equal; lia.
Qed.

Lemma filter_Forall_id {A} (P : A -> Prop) `{forall x, Decision (P x)} (l : list A) :
  Forall P l -> filter P l = l.
Proof.
  induction 1 as [|x l Hx Hl IH]; [done|].
  rewrite filter_cons, decide_True by done. by f_equal.
Qed.

Lemma reconcileAll_index fs idx data :
  (cursor.main.reconcileAll fs idx data).1 = idx.
Proof. unfold cursor.main.reconcileAll. by rewrite reconcile_foldl. Qed.

Lemma reconcileAll_all fs idx (data : gmap string (option cursor.indexer.FileEntry)) :
  (forall path, is_Some (data !! path) -> statOk fs path = true) ->
  (cursor.main.reconcileAll fs idx data).2 = Z.of_nat (size data).
Proof.
  intros Hall. unfold cursor.main.reconcileAll. rewrite reconcile_foldl. simpl.
  rewrite <- length_map_to_list, filter_Forall_id; [done|].
  apply Forall_forall. intros [path e] Hin. apply Hall.
  apply elem_of_map_to_list in Hin. by eexists.
Qed.

(** ** The index file of [windsurf] *)

Lemma windsurf_names_good : goodNames windsurf.fileIndexNames = true.
Proof. by vm_compute. Qed.

Lemma windsurf_ofRecord_toRecord e : windsurf.ofRecord (windsurf.toRecord e) = e.
Proof. by destruct e. Qed.

Lemma allRecords_Some (files : gmap string windsurf.FileIndex) :
  windsurf.allRecords (Some ∘ windsurf.toRecord <$> files) = Some files.
Proof.
  unfold windsurf.allRecords. rewrite bool_decide_eq_true_2.
  - f_equal. apply map_eq. intros path.
    rewrite lookup_omap, lookup_fmap. destruct (files !! path) as [e|]; [|done].
    simpl. by rewrite windsurf_ofRecord_toRecord.
  - intros path r. rewrite lookup_fmap.
    destruct (files !! path); simpl; congruence.
Qed.

(** What [SaveIndex] writes for a valid store is read back by [LoadIndex]
    into a new indexer as that store. *)
Lemma windsurf_Decode_Encode (index : windsurf.Index) :
  validFiles (windsurf.toRecord <$> windsurf.Files index) ->
  windsurf.Decode (windsurf.Encode index) {| windsurf.Files := ∅ |}
  = inr (Some ∘ windsurf.toRecord <$> windsurf.Files index).
Proof.
  intros Hfiles. unfold windsurf.Decode, windsurf.Encode.
  rewrite (parseFirst_render None 3); [|done| |done].
  2:{ cbn [document forallb fst snd]. rewrite andb_true_r.
      pose proof (document_filesToValue _ _ windsurf_names_good Hfiles) as Hdoc.
      cbn [document] in Hdoc. by rewrite Hdoc. }
  cbn [windsurf.decodeIndexMembers windsurf.Files].
  rewrite selects_refl, fmap_empty.
  rewrite decodeFiles_filesToValue
    by (try apply windsurf_names_good; by apply validFiles_fits).
  by rewrite <- map_fmap_compose.
Qed.

(** ** Search (variant [cursor]) *)

Lemma NoDup_omap_inj {A B} (f : A -> option B) (l : list A) :
  NoDup l ->
  (forall x y z, x ∈ l -> y ∈ l -> f x = Some z -> f y = Some z -> x = y) ->
  NoDup (omap f l).
Proof.
  induction 1 as [|x l Hx Hl IH]; intros Hinj; simpl; [constructor|].
  destruct (f x) as [z|] eqn:E.
  - constructor.
    + intros (y & Hy & Ey)%list_elem_of_omap.
      assert (x = y) as <-; [|done].
      eapply Hinj; eauto using list_elem_of_here, list_elem_of_further.
    + apply IH. intros; eapply Hinj; eauto using list_elem_of_further.
  - apply IH. intros; eapply Hinj; eauto using list_elem_of_further.
Qed.

Section search_facts.
Context `{unicode.CaseTables}.
Import cursor.indexer cursor.search.

Lemma searchFile_elem path entry kw r :
  r ∈ searchFile path entry kw <->
  FilePath r = path
  /\ LineIndex entry !! LineNumber r = Some (Line r)
  /\ MatchCount r = strings.Count (strings.ToLower (Line r)) kw
  /\ 0 < MatchCount r.
Proof.
  unfold searchFile. rewrite list_elem_of_omap. split.
  - intros ([n line] & Hin%elem_of_map_to_list & E).
    destruct (Z.ltb_spec 0 (strings.Count (strings.ToLower line) kw));
      [|done].
    injection E as <-. simpl. done.
  - intros (<- & Hl & Hc & Hpos). exists (LineNumber r, Line r).
    split; [by apply elem_of_map_to_list|].
    rewrite <- Hc. destruct (Z.ltb_spec 0 (MatchCount r)); [|lia].
    by destruct r.
Qed.

Lemma searchFile_NoDup path entry kw : NoDup (searchFile path entry kw).
Proof.
  apply NoDup_omap_inj; [apply NoDup_map_to_list|].
  intros [n1 l1] [n2 l2] r H1%elem_of_map_to_list H2%elem_of_map_to_list E1 E2.
  simpl in E1, E2.
  destruct (0 <? strings.Count (strings.ToLower l1) kw); [|done].
  destruct (0 <? strings.Count (strings.ToLower l2) kw); [|done].
  injection E1 as <-. by injection E2 as [= -> ->].
Qed.

Lemma Search_elem idx keyword r :
  r ∈ Search idx keyword <->
  exists entry,
    files idx !! FilePath r = Some entry
    /\ LineIndex entry !! LineNumber r = Some (Line r)
    /\ MatchCount r
       = strings.Count (strings.ToLower (Line r)) (strings.ToLower keyword)
    /\ 0 < MatchCount r.
Proof.
  unfold Search, GetFiles. rewrite list_elem_of_filter, list_elem_of_bind. split.
  - intros (Hpos & [path entry] & (<- & ? & ? & ?)%searchFile_elem
            & Hin%elem_of_map_to_list).
    by exists entry.
  - intros (entry & Hf & Hl & Hc & Hpos). split; [done|].
    exists (FilePath r, entry). split; [|by apply elem_of_map_to_list].
    by apply searchFile_elem.
Qed.

Lemma Search_NoDup idx keyword : NoDup (Search idx keyword).
Proof.
  unfold Search. apply NoDup_filter, NoDup_bind.
  - intros [p1 e1] [p2 e2] r H1%elem_of_map_to_list H2%elem_of_map_to_list
      (E1 & _)%searchFile_elem (E2 & _)%searchFile_elem.
    subst p1 p2. unfold GetFiles in *. congruence.
  - intros [p e] _. apply searchFile_NoDup.
  - apply NoDup_map_to_list.
Qed.

(** The results for one line of one file. *)
Lemma Search_line idx keyword path entry lineNum line :
  files idx !! path = Some entry -> LineIndex entry !! lineNum = Some line ->
  let count := strings.Count (strings.ToLower line) (strings.ToLower keyword) in
  filter (fun r => FilePath r = path /\ LineNumber r = lineNum) (Search idx keyword)
  ≡ₚ if decide (0 < count)
     then [ {| FilePath := path; LineNumber := lineNum;
               Line := line; MatchCount := count |} ]
     else [].
Proof.
  intros Hf Hl count. apply NoDup_Permutation.
  - apply NoDup_filter, Search_NoDup.
  - destruct (decide _); [apply NoDup_singleton | constructor].
  - intros r. rewrite list_elem_of_filter, Search_elem. split.
    + intros ([<- <-] & entry' & Hf' & Hl' & Hc & Hpos).
      assert (entry' = entry) as -> by congruence.
      assert (Line r = line) as El by congruence.
      rewrite El in Hc. fold count in Hc.
      rewrite decide_True by lia. apply list_elem_of_singleton.
      destruct r; simpl in *; by subst.
    + destruct (decide _) as [Hpos|]; [|by intros ?%elem_of_nil].
      intros ->%list_elem_of_singleton. simpl. split; [done|]. by exists entry.
Qed.

Lemma Search_returns_line idx keyword results path entry lineNum line :
  Search_returns idx keyword results ->
  files idx !! path = Some entry -> LineIndex entry !! lineNum = Some line ->
  let count := strings.Count (strings.ToLower line) (strings.ToLower keyword) in
  filter (fun r => FilePath r = path /\ LineNumber r = lineNum) results
  = if decide (0 < count)
    then [ {| FilePath := path; LineNumber := lineNum;
              Line := line; MatchCount := count |} ]
    else [].
Proof.
  intros Hperm Hf Hl count. unfold Search_returns in Hperm.
  pose proof (Search_line idx keyword path entry lineNum line Hf Hl) as Hline.
  simpl in Hline. fold count in Hline. rewrite <- Hperm in Hline.
  destruct (decide (0 < count)).
  - by apply Permutation_singleton_r.
  - by apply Permutation_nil_r.
Qed.

End search_facts.

(** A case table without any mapping above [MaxASCII]; the examples below
    search ASCII text, where the table is not consulted. *)
Definition no_case_table : unicode.CaseTables := fun r => r.


(** The example of the specification: the line ["The Quick fox"] and the
    keyword ["quick"]. *)
Definition quick_fox_index : cursor.indexer.Index :=
  {| cursor.indexer.files :=
       {[ "/tmp/a.txt" :=
            {| cursor.indexer.Path := "/tmp/a.txt";
               cursor.indexer.LineIndex := {[ 1 := "The Quick fox"; 2 := "foofoo" ]};
               cursor.indexer.Modified := 0 |} ]};
     cursor.indexer.workers := 1; cursor.indexer.indexed := 1; cursor.indexer.skipped := 0 |}.


(** ** Search with the empty keyword *)

(** An index that holds one file record, of a file without any line. *)
Definition empty_file_index : cursor.indexer.Index :=
  {| cursor.indexer.files :=
       {[ "/tmp/empty.txt" :=
            {| cursor.indexer.Path := "/tmp/empty.txt";
               cursor.indexer.LineIndex := ∅;
               cursor.indexer.Modified := 0 |} ]};
     cursor.indexer.workers := 1; cursor.indexer.indexed := 1; cursor.indexer.skipped := 0 |}.

(** C10, as stated, fails: the index below is not empty, and the search for
    the empty keyword returns no result, since its only file has no line. *)
Lemma empty_keyword_search_of_empty_file :
  cursor.indexer.files empty_file_index <> ∅
  /\ cursor.search.Search (H := no_case_table) empty_file_index "" = [].
Proof.
  split; [|by vm_compute].
  intros E. apply (f_equal (fun m => m !! "/tmp/empty.txt")) in E.
  by vm_compute in E.
Qed.

(** C10, amended.  For the empty keyword, search produces exactly one result
    for every line of every file record of the store, with match count the
    number of UTF-8 runes of the line plus one; so the search returns at
    least one result as soon as some file record of the index holds a line. *)
Theorem empty_keyword_search_counts_runes `{unicode.CaseTables}
    (idx : cursor.indexer.Index) (results : list cursor.search.SearchResult) :
  (forall r, unicode.MaxASCII < r -> 0 <= unicode.to_lower_table r) ->
  cursor.search.Search_returns idx "" results ->
  (forall path entry lineNum line,
     cursor.indexer.files idx !! path = Some entry ->
     cursor.indexer.LineIndex entry !! lineNum = Some line ->
     filter (fun r => cursor.search.FilePath r = path /\ cursor.search.LineNumber r = lineNum)
            results
     = [ {| cursor.search.FilePath := path; cursor.search.LineNumber := lineNum;
            cursor.search.Line := line;
            cursor.search.MatchCount := utf8.RuneCountInString line + 1 |} ])
  /\ ((exists path entry lineNum line,
         cursor.indexer.files idx !! path = Some entry
         /\ cursor.indexer.LineIndex entry !! lineNum = Some line) ->
      results <> []).
Proof.
  intros Htable Hret.
  assert (forall path entry lineNum line,
     cursor.indexer.files idx !! path = Some entry ->
     cursor.indexer.LineIndex entry !! lineNum = Some line ->
     filter (fun r => cursor.search.FilePath r = path /\ cursor.search.LineNumber r = lineNum)
            results
     = [ {| cursor.search.FilePath := path; cursor.search.LineNumber := lineNum;
            cursor.search.Line := line;
            cursor.search.MatchCount := utf8.RuneCountInString line + 1 |} ]) as Hline.
  { intros path entry lineNum line Hf Hl.
    rewrite (Search_returns_line idx "" results path entry lineNum line Hret Hf Hl).
    rewrite ToLower_empty. cbn [strings.Count].
    rewrite RuneCount_ToLower by done.
    pose proof (RuneCountInString_nonneg line). by rewrite decide_True by lia. }
  split; [exact Hline|].
  intros (path & entry & lineNum & line & Hf & Hl) ->.
  by specialize (Hline path entry lineNum line Hf Hl).
Qed.

Lemma empty_keyword_search_counts_runes_witness :
  filter (fun r => cursor.search.FilePath r = "/tmp/a.txt" /\ cursor.search.LineNumber r = 2)
         (cursor.search.Search (H := no_case_table) quick_fox_index "")
  = [ {| cursor.search.FilePath := "/tmp/a.txt"; cursor.search.LineNumber := 2;
         cursor.search.Line := "foofoo"; cursor.search.MatchCount := 7 |} ].
Proof.
  assert (forall r, unicode.MaxASCII < r
                    -> 0 <= unicode.to_lower_table (CaseTables := no_case_table) r)
    as Htable.
  { intros r. unfold unicode.MaxASCII, unicode.to_lower_table, no_case_table. lia. }
  exact (proj1 (@empty_keyword_search_counts_runes no_case_table
                  quick_fox_index
                  (cursor.search.Search (H := no_case_table) quick_fox_index "")
                  Htable (Permutation_refl _))
           "/tmp/a.txt" _ 2 "foofoo" eq_refl eq_refl).
Defined.

(** ** The file scanner *)

Lemma windsurf_scanLoop_eq fuel s lineNum m :
  windsurf.scanLoop fuel s lineNum m = cursor.indexer.scanLoop fuel s lineNum m.
Proof.
  revert s lineNum m. induction fuel as [|fuel IH]; intros s lineNum m; [done|].
  simpl. destruct (bufio.Scan s) as [[] s']; [apply IH|done].
Qed.

(** The lines of a file record are numbered from 1 on, without gap. *)
Lemma numberFrom_1_lookup lines n :
  numberFrom 1 lines ∅ !! n
  = if decide (1 <= n <= Z.of_nat (length lines))
    then lines !! Z.to_nat (n - 1) else None.
Proof.
  rewrite numberFrom_lookup, lookup_empty.
  destruct (decide (1 <= n <= Z.of_nat (length lines)));
    [by rewrite decide_True by lia | by rewrite decide_False by lia].
Qed.

Lemma cursor_scanner_scanning data :
  scanning (fun t => t)
    (bufio.Split
       (bufio.Buffer (bufio.NewScanner data bufio.ScanLines)
          cursor.indexer.maxScannerBufferSize cursor.indexer.maxScannerBufferSize)
       cursor.indexer.splitLines)
    data.
Proof. split; simpl; done. Qed.

Lemma windsurf_scanner_scanning data :
  scanning bufio.dropCR (bufio.NewScanner data bufio.ScanLines) data.
Proof. split; simpl; try done. Qed.

Lemma cursor_scanFile_lines path absPath f info :
  os.fstat f = inr info ->
  Forall (fun seg => len seg < cursor.indexer.maxScannerBufferSize)
         (spec_segments (os.contents f)) ->
  cursor.indexer.scanFile path absPath f
  = inr {| cursor.indexer.Path := absPath;
           cursor.indexer.LineIndex := numberFrom 1 (spec_segments (os.contents f)) ∅;
           cursor.indexer.Modified := os.ModTime info |}.
Proof.
  intros Hstat Hshort. unfold cursor.indexer.scanFile. rewrite Hstat.
  destruct (scanLoop_lines (fun t => t) (S (String.length (os.contents f))) _
              (os.contents f) 1 ∅ (cursor_scanner_scanning _))
    as (s' & -> & ->); [done|lia|].
  by rewrite list_fmap_id.
Qed.

Lemma cursor_scanFile_too_long path absPath f info :
  os.fstat f = inr info ->
  Exists (fun seg => cursor.indexer.maxScannerBufferSize <= len seg)
         (spec_segments (os.contents f)) ->
  cursor.indexer.scanFile path absPath f = inl (Wrapf "error scanning file" ErrTooLong).
Proof.
  intros Hstat Hlong. unfold cursor.indexer.scanFile. rewrite Hstat.
  destruct (scanLoop_too_long (fun t => t) (S (String.length (os.contents f))) _
              (os.contents f) 1 ∅ (cursor_scanner_scanning _))
    as (s' & m' & -> & ->); [done|lia|done].
Qed.

Lemma windsurf_scanFile_lines filePath f info :
  os.fstat f = inr info ->
  Forall (fun seg => len seg < bufio.MaxScanTokenSize) (spec_segments (os.contents f)) ->
  windsurf.scanFile filePath f
  = inr {| windsurf.Path := filePath;
           windsurf.LineMap :=
             numberFrom 1 (bufio.dropCR <$> spec_segments (os.contents f)) ∅;
           windsurf.Modified := os.ModTime info |}.
Proof.
  intros Hstat Hshort. unfold windsurf.scanFile. rewrite Hstat, windsurf_scanLoop_eq.
  destruct (scanLoop_lines bufio.dropCR (S (String.length (os.contents f))) _
              (os.contents f) 1 ∅ (windsurf_scanner_scanning _))
    as (s' & -> & ->); [done|lia|done].
Qed.

Lemma windsurf_scanFile_too_long filePath f info :
  os.fstat f = inr info ->
  Exists (fun seg => bufio.MaxScanTokenSize <= len seg) (spec_segments (os.contents f)) ->
  windsurf.scanFile filePath f = inl ErrTooLong.
Proof.
  intros Hstat Hlong. unfold windsurf.scanFile. rewrite Hstat, windsurf_scanLoop_eq.
  destruct (scanLoop_too_long bufio.dropCR (S (String.length (os.contents f))) _
              (os.contents f) 1 ∅ (windsurf_scanner_scanning _))
    as (s' & m' & -> & ->); [done|lia|done].
Qed.

(** A line of [n] bytes [c]. *)
Fixpoint repeatByte (c : ascii) (n : nat) : string :=
  match n with
  | O => EmptyString
  | S n' => String c (repeatByte c n')
  end.

Lemma repeatByte_len c n : len (repeatByte c n) = Z.of_nat n.
Proof. induction n; [done|]. cbn [repeatByte]. rewrite len_cons. lia. Qed.

Lemma repeatByte_IndexByte c d n :
  c <> d -> bytes.IndexByte (repeatByte c n) d = -1.
Proof.
  intros Hcd. induction n as [|n IH]; [done|]. cbn [repeatByte bytes.IndexByte].
  rewrite bool_decide_eq_false_2 by done. by rewrite IH.
Qed.

Lemma repeatByte_segments c n :
  c <> LF -> (0 < n)%nat -> spec_segments (repeatByte c n) = [repeatByte c n].
Proof.
  intros Hc Hn. apply spec_segments_last; [by apply repeatByte_IndexByte|].
  intros E. apply (f_equal len) in E. rewrite repeatByte_len in E.
  change (len "") with 0 in E. lia.
Qed.

(** A file that holds one line of 16 MiB, without line feed. *)
Definition one_long_line : os.file :=
  {| os.fstat := inr {| os.Size := 16 * 1024 * 1024; os.IsDir := false;
                        os.ModTime := 0 |};
     os.contents := repeatByte "a"%char (Z.to_nat (16 * 1024 * 1024)) |}.

(** C2, as stated, fails: the file is readable, and its scan ends with the
    error [ErrTooLong] of the scanner, whose buffer is limited to 16 MiB. *)
Lemma scan_of_16MiB_line_fails :
  cursor.indexer.scanFile "long.txt" "/tmp/long.txt" one_long_line
  = inl (Wrapf "error scanning file" ErrTooLong).
Proof.
  eapply cursor_scanFile_too_long; [reflexivity|].
  cbn [os.contents one_long_line].
  rewrite repeatByte_segments by (done || lia).
  apply Exists_cons_hd. rewrite repeatByte_len.
  unfold cursor.indexer.maxScannerBufferSize. lia.
Qed.

(** C2, amended.  For every readable file whose lines are all shorter than
    the limit of the scanner (16 MiB in [cursor], 64 KiB in [windsurf]), the
    scan succeeds and produces a record whose lines have exactly the keys
    [1..N], where [N] is the number of line-feed-delimited segments of the
    bytes of the file, a final segment without line feed included; line [n]
    is the [n]-th segment, without its line feed (and, in [windsurf],
    without the carriage return before it).  With a line as long as the
    limit, or longer, the scan fails with [ErrTooLong] and there is no
    record. *)
Theorem scan_numbers_lines_below_buffer_limit
    (path absPath : string) (f : os.file) (info : os.FileInfo) :
  os.fstat f = inr info ->
  let segs := spec_segments (os.contents f) in
  (Forall (fun seg => len seg < 16 * 1024 * 1024) segs ->
     exists entry,
       cursor.indexer.scanFile path absPath f = inr entry
       /\ cursor.indexer.Path entry = absPath
       /\ cursor.indexer.Modified entry = os.ModTime info
       /\ forall n, cursor.indexer.LineIndex entry !! n
                    = if decide (1 <= n <= Z.of_nat (length segs))
                      then segs !! Z.to_nat (n - 1) else None)
  /\ (Exists (fun seg => 16 * 1024 * 1024 <= len seg) segs ->
        cursor.indexer.scanFile path absPath f
        = inl (Wrapf "error scanning file" ErrTooLong))
  /\ (Forall (fun seg => len seg < 64 * 1024) segs ->
        exists fileIndex,
          windsurf.scanFile path f = inr fileIndex
          /\ windsurf.Path fileIndex = path
          /\ windsurf.Modified fileIndex = os.ModTime info
          /\ forall n, windsurf.LineMap fileIndex !! n
                       = if decide (1 <= n <= Z.of_nat (length segs))
                         then bufio.dropCR <$> segs !! Z.to_nat (n - 1) else None)
  /\ (Exists (fun seg => 64 * 1024 <= len seg) segs ->
        windsurf.scanFile path f = inl ErrTooLong).
Proof.
  intros Hstat segs. repeat split.
  - intros Hshort. eexists. split; [by apply (cursor_scanFile_lines _ _ _ info)|].
    simpl. repeat split. apply numberFrom_1_lookup.
  - by apply (cursor_scanFile_too_long _ _ _ info).
  - intros Hshort. eexists. split; [by apply (windsurf_scanFile_lines _ _ info)|].
    simpl. repeat split. intros n.
    rewrite numberFrom_1_lookup, length_fmap, list_lookup_fmap. done.
  - by apply (windsurf_scanFile_too_long _ _ info).
Qed.

(** The file [a.txt] of the end-to-end scenario of the specification. *)
Definition a_txt : os.file :=
  {| os.fstat := inr {| os.Size := 20; os.IsDir := false; os.ModTime := 1700000000 |};
     os.contents := "hello world" +:+ String LF ("foo bar" +:+ String LF "") |}.

Lemma scan_numbers_lines_below_buffer_limit_witness :
  exists entry,
    cursor.indexer.scanFile "a.txt" "/tmp/a.txt" a_txt = inr entry
    /\ cursor.indexer.LineIndex entry !! 1 = Some "hello world"
    /\ cursor.indexer.LineIndex entry !! 2 = Some "foo bar"
    /\ cursor.indexer.LineIndex entry !! 3 = None.
Proof.
  destruct (scan_numbers_lines_below_buffer_limit "a.txt" "/tmp/a.txt" a_txt _
              eq_refl)
    as [Hcursor _].
  destruct Hcursor as (entry & E & _ & _ & Hlines).
  { repeat constructor; vm_compute; reflexivity. }
  exists entry. split; [exact E|]. rewrite !Hlines.
  repeat split; reflexivity.
Defined.

(** ** The indexing engine *)

(** [path] is a file that the walk of [root] finds. *)
Definition file_under (fs : os.FileSystem) (root path : string) : Prop :=
  exists size modTime,
    (path, Some (os.fileInfo size modTime), None)
    ∈ calls root (os.lstatTree fs root).

(** The errors that the walk of a tree meets: the errors given to the walk
    function by a complete walk, with their paths. *)
Definition walkErrors (path : string) (n : os.node) : list (string * error) :=
  omap (fun c => (fun e => (c.1.1, e)) <$> c.2) (calls path n).

Lemma calls_error_PathError path n c e :
  c ∈ calls path n -> c.2 = Some e -> exists op p err, e = PathError op p err.
Proof.
  revert path.
  induction n as [size modTime|modTime readErr entries IH|err] using node_ind';
    intros path Hc He.
  - apply list_elem_of_singleton in Hc as ->. done.
  - rewrite calls_Directory in Hc. apply elem_of_cons in Hc as [->|Hc].
    + simpl in He. destruct readErr; [|done]. injection He as <-. eauto.
    + destruct readErr; [by apply elem_of_nil in Hc|].
      induction entries as [|[name child] entries IHe]; [by apply elem_of_nil in Hc|].
      apply Forall_cons in IH as [IHc IH]. simpl in Hc.
      apply elem_of_app in Hc as [Hc|Hc]; [by eapply IHc|by apply IHe].
  - apply list_elem_of_singleton in Hc as ->. injection He as <-. eauto.
Qed.

(** A call with the [FileInfo] of a file is the call for a file of the
    tree. *)
Lemma calls_file_call path n p info err :
  (p, Some info, err) ∈ calls path n -> os.IsDir info = false ->
  exists size modTime, info = os.fileInfo size modTime /\ err = None.
Proof.
  revert path.
  induction n as [size modTime|modTime readErr entries IH|e] using node_ind';
    intros path Hc Hd.
  - apply list_elem_of_singleton in Hc. injection Hc as -> -> ->. eauto.
  - rewrite calls_Directory in Hc. apply elem_of_cons in Hc as [Hc|Hc].
    { injection Hc as -> -> ->. done. }
    destruct readErr; [by apply elem_of_nil in Hc|].
    induction entries as [|[name child] entries IHe]; [by apply elem_of_nil in Hc|].
    apply Forall_cons in IH as [IHc IH]. simpl in Hc.
    apply elem_of_app in Hc as [Hc|Hc]; [by eapply IHc|by apply IHe].
  - by apply list_elem_of_singleton in Hc.
Qed.

Section cursor_index_facts.
Context `{unicode.CaseTables}.
Import cursor.indexer.

Lemma cursor_walkFn_no_error path info err st : (walkFn path info err st).2 = None.
Proof.
  unfold walkFn. destruct err; [done|]. destruct info as [info|]; [|done].
  repeat case_match; done.
Qed.

(** The walk of [cursor] visits the whole tree. *)
Lemma cursor_Walk_complete fs root st :
  walk.Walk fs root walkFn st
  = (foldl (call walkFn) st (calls root (os.lstatTree fs root)), None).
Proof.
  unfold walk.Walk. by rewrite (walk_complete _ _ _ _ cursor_walkFn_no_error).
Qed.

(** What the walk function of [cursor] accepts. *)
Definition cursor_accepts (path : string) (info : os.FileInfo) : bool :=
  negb (os.IsDir info)
  && negb (isBinaryFile path || strings.HasPrefix (filepath.Base path) ".")
  && negb (100 * 1024 * 1024 <? os.Size info).

(** The path that a call of the walk function sends to the workers. *)
Definition cursor_sends (c : string * option os.FileInfo * option error)
  : option string :=
  match c with
  | (path, Some info, None) => if cursor_accepts path info then Some path else None
  | _ => None
  end.

Lemma cursor_walkFn_sent c st :
  sent (call walkFn st c) = sent st ++ option_list (cursor_sends c).
Proof.
  destruct c as [[path info] err]. unfold call, walkFn, cursor_sends, cursor_accepts.
  simpl. destruct err; simpl; [by destruct info; rewrite app_nil_r|].
  destruct info as [info|]; [|by rewrite app_nil_r].
  destruct (os.IsDir info); simpl; [by rewrite app_nil_r|].
  destruct (_ || _); simpl; [by rewrite app_nil_r|].
  destruct (_ <? _); simpl; by rewrite ?app_nil_r.
Qed.

Lemma cursor_walkFn_warnings c st :
  warnings (call walkFn st c)
  = warnings st ++ option_list ((fun e => (c.1.1, e)) <$> c.2).
Proof.
  destruct c as [[path info] err]. unfold call, walkFn. simpl.
  destruct err; simpl; [done|].
  destruct info as [info|]; [|by rewrite app_nil_r].
  repeat case_match; simpl; by rewrite app_nil_r.
Qed.

(** The paths sent to the workers: the files of the tree that are
    accepted, in the order of the walk. *)
Definition cursor_sent (fs : os.FileSystem) (root : string) : list string :=
  omap cursor_sends (calls root (os.lstatTree fs root)).

Lemma cursor_foldl_sent cs st :
  sent (foldl (call walkFn) st cs) = sent st ++ omap cursor_sends cs.
Proof.
  revert st. induction cs as [|c cs IH]; intros st; simpl.
  - by rewrite app_nil_r.
  - rewrite IH, cursor_walkFn_sent, <- app_assoc. f_equal.
    by destruct (cursor_sends c).
Qed.

Lemma cursor_foldl_warnings cs st :
  warnings (foldl (call walkFn) st cs)
  = warnings st ++ omap (fun c => (fun e => (c.1.1, e)) <$> c.2) cs.
Proof.
  revert st. induction cs as [|c cs IH]; intros st; simpl.
  - by rewrite app_nil_r.
  - rewrite IH, cursor_walkFn_warnings, <- app_assoc. f_equal.
    by destruct (c.2).
Qed.

Lemma cursor_sent_file_under fs root path :
  path ∈ cursor_sent fs root ->
  file_under fs root path
  /\ isBinaryFile path = false
  /\ strings.HasPrefix (filepath.Base path) "." = false.
Proof.
  unfold cursor_sent. intros ([[p info] err] & Hc & E)%list_elem_of_omap.
  unfold cursor_sends in E.
  destruct info as [info|]; [|done]. destruct err; [done|].
  destruct (cursor_accepts p info) eqn:Ha; [|done]. injection E as ->.
  unfold cursor_accepts in Ha.
  apply andb_true_iff in Ha as [[Hd Hb]%andb_true_iff Hsz].
  apply negb_true_iff, orb_false_iff in Hb as [Hb1 Hb2].
  split; [|done]. unfold file_under.
  apply negb_true_iff in Hd.
  destruct (calls_file_call _ _ _ _ _ Hc Hd) as (size & modTime & -> & _).
  by exists size, modTime.
Qed.

(** The records that the workers leave depend on the prior records only. *)
Lemma cursor_workers_files fs paths idx idx' errors errors' :
  files idx = files idx' ->
  files (foldl (worker fs) (idx, errors) paths).1
  = files (foldl (worker fs) (idx', errors') paths).1.
Proof.
  revert idx idx' errors errors'.
  induction paths as [|path paths IH]; intros idx idx' errors errors' Hf;
    cbn [foldl fst]; [done|].
  unfold worker at 2 4. unfold indexFile. rewrite Hf.
  destruct (os.Open fs path) as [err|f]; [by apply IH|].
  destruct (scanFile path _ f) as [err|entry]; by apply IH.
Qed.

(** The index after the workers: every record is a prior record of the map
    or the scan of a file taken from the channel. *)
Lemma cursor_workers_records fs paths idx errors p e :
  files (foldl (worker fs) (idx, errors) paths).1 !! p = Some e ->
  files idx !! p = Some e
  \/ exists path f,
       path ∈ paths /\ os.Open fs path = inr f
       /\ p = filepath.Abs (os.Getwd fs) path
       /\ scanFile path p f = inr e.
Proof.
  revert idx errors. induction paths as [|path paths IH]; intros idx errors;
    cbn [foldl fst].
  { by left. }
  intros Hl. unfold worker at 2 in Hl. unfold indexFile in Hl.
  destruct (os.Open fs path) as [err|f] eqn:Hopen.
  { apply IH in Hl as [?|(path' & f' & ? & ?)]; [by left|right].
    exists path', f'. split; [by right|done]. }
  destruct (scanFile path _ f) as [err|entry] eqn:Hscan.
  { apply IH in Hl as [?|(path' & f' & ? & ?)]; [by left|right].
    exists path', f'. split; [by right|done]. }
  apply IH in Hl as [Hl|(path' & f' & ? & ?)].
  - simpl in Hl. destruct (decide (p = filepath.Abs (os.Getwd fs) path)) as [->|Hp].
    + rewrite lookup_insert_eq in Hl. injection Hl as <-. right.
      exists path, f. split; [by left|done].
    + rewrite lookup_insert_ne in Hl by done. by left.
  - right. exists path', f'. split; [by right|done].
Qed.

Lemma cursor_IndexDirectory_eq fs idx root :
  IndexDirectory fs idx root
  = let ws := foldl (call walkFn) {| sent := []; skippedFiles := 0; warnings := [] |}
                (calls root (os.lstatTree fs root)) in
    let st := foldl (worker fs)
                ({| files := ∅; workers := workers idx; indexed := 0;
                    skipped := skippedFiles ws |}, [])
                (sent ws) in
    {| index := st.1; returned := None; printed := st.2; warned := warnings ws |}.
Proof.
  unfold IndexDirectory. rewrite cursor_Walk_complete. cbv zeta. simpl.
  by destruct (foldl (worker fs) _ _).
Qed.

End cursor_index_facts.

Section windsurf_index_facts.
Context `{unicode.CaseTables}.
Import windsurf.

(** The walk function of [windsurf] passes every error on. *)
Lemma windsurf_walkFn_error fs path info err st :
  (walkFn fs path info err st).2 = err.
Proof.
  unfold walkFn. destruct err; [done|]. destruct info as [info|]; [|done].
  repeat case_match; done.
Qed.

(** The walk of [windsurf] stops at the first error that it meets. *)
Lemma windsurf_walk_error fs path n st :
  (walk.walk (walkFn fs) path n st).2 = head (omap snd (calls path n)).
Proof.
  revert path st.
  induction n as [size modTime|modTime readErr entries IH|err] using node_ind';
    intros path st.
  - cbn [walk.walk]. by rewrite windsurf_walkFn_error.
  - rewrite walk_Directory, calls_Directory. cbv zeta.
    pose proof (windsurf_walkFn_error fs path (Some (os.dirInfo modTime))
                  (PathError "open" path <$> readErr) st) as H1.
    destruct (walkFn fs path _ _ st) as [st1 err1]. simpl in H1. subst err1.
    destruct readErr as [e|]; [done|]. simpl.
    clear st. revert st1.
    induction entries as [|[name child] entries IHe]; intros st1; [done|].
    pose proof IH as IH0.
    apply Forall_cons in IH as [IHc IH]. simpl in *.
    specialize (IHc (filepath.Join path name) st1). rewrite omap_app.
    destruct (walk.walk (walkFn fs) _ child st1) as [st' err]. simpl in IHc.
    destruct err as [e|].
    + assert (e <> SkipDir) as Hne.
      { destruct (omap snd (calls (filepath.Join path name) child)) as [|e' l] eqn:E;
          [done|]. injection IHc as ->.
        assert (e' ∈ omap snd (calls (filepath.Join path name) child)) as Hin
          by (rewrite E; by left).
        apply list_elem_of_omap in Hin as (c & Hc & He).
        destruct (calls_error_PathError _ _ _ _ Hc He) as (? & ? & ? & ->). done. }
      rewrite (bool_decide_eq_false_2 (e = SkipDir)) by done.
      rewrite andb_false_r. simpl.
      destruct (omap snd (calls (filepath.Join path name) child)); [done|].
      done.
    + destruct (omap snd (calls (filepath.Join path name) child)); [|done].
      simpl. by apply IHe.
  - cbn [walk.walk]. by rewrite windsurf_walkFn_error.
Qed.

Lemma windsurf_Walk_error fs root st :
  (walk.Walk fs root (walkFn fs) st).2
  = head (omap snd (calls root (os.lstatTree fs root))).
Proof.
  unfold walk.Walk.
  pose proof (windsurf_walk_error fs root (os.lstatTree fs root) st) as Hw.
  destruct (walk.walk (walkFn fs) root _ st) as [st' err]. simpl in Hw.
  destruct err as [e|]; [|by rewrite bool_decide_eq_false_2].
  assert (exists op p err, e = PathError op p err) as (op & p & err & ->).
  { destruct (omap snd (calls root (os.lstatTree fs root))) as [|e' l] eqn:E; [done|].
    injection Hw as ->.
    assert (e' ∈ omap snd (calls root (os.lstatTree fs root))) as Hin
      by (rewrite E; by left).
    apply list_elem_of_omap in Hin as (c & Hc & He).
    by apply (calls_error_PathError _ _ _ _ Hc He). }
  done.
Qed.

(** What the classifier of [windsurf] accepts. *)
Definition windsurf_accepts (fs : os.FileSystem) (path : string) : bool :=
  ShouldIndexFile fs path && IsTextFile path.

(** The paths that the walk of [windsurf] sends are accepted files of the
    tree. *)
Lemma windsurf_Walk_sent fs root path :
  path ∈ (walk.Walk fs root (walkFn fs) []).1 ->
  file_under fs root path /\ windsurf_accepts fs path = true.
Proof.
  set (P := fun sent : list string =>
              forall p, p ∈ sent -> file_under fs root p /\ windsurf_accepts fs p = true).
  assert (P (walk.walk (walkFn fs) root (os.lstatTree fs root) []).1) as HP.
  { apply walk_invariant; [|by intros p Hp%elem_of_nil].
    intros [[p info] err] st Hc Hst. unfold call, walkFn. simpl.
    destruct err; [done|]. destruct info as [info|]; [|done].
    destruct (os.IsDir info) eqn:Hd; [done|].
    destruct (ShouldIndexFile fs p && IsTextFile p) eqn:Ha; [|done].
    intros q [Hq|Hq]%elem_of_app; [by apply Hst|].
    apply list_elem_of_singleton in Hq as ->. split; [|done].
    destruct (calls_file_call _ _ _ _ _ Hc Hd) as (size & modTime & -> & _).
    by exists size, modTime. }
  unfold walk.Walk. destruct (walk.walk (walkFn fs) root _ []) as [sent err].
  intros Hin. apply HP. by destruct (_ || _).
Qed.

(** The files after the workers: every record is a prior record of the map
    or the scan of a file taken from the channel. *)
Lemma windsurf_workers_records fs paths files errors p e :
  (foldl (worker fs) (files, errors) paths).1 !! p = Some e ->
  files !! p = Some e
  \/ exists path f,
       path ∈ paths /\ os.Open fs path = inr f
       /\ p = path /\ scanFile path f = inr e.
Proof.
  revert files errors. induction paths as [|path paths IH]; intros files errors;
    cbn [foldl fst].
  { by left. }
  intros Hl. unfold worker at 2 in Hl. unfold indexFile in Hl.
  destruct (os.Open fs path) as [err|f] eqn:Hopen.
  { apply IH in Hl as [?|(path' & f' & ? & ?)]; [by left|right].
    exists path', f'. split; [by right|done]. }
  destruct (scanFile path f) as [err|fileIndex] eqn:Hscan.
  { apply IH in Hl as [?|(path' & f' & ? & ?)]; [by left|right].
    exists path', f'. split; [by right|done]. }
  assert (Path fileIndex = path) as HP.
  { unfold scanFile in Hscan. destruct (os.fstat f); [done|].
    destruct (scanLoop _ _ _ _) as [sc lm]. destruct (bufio.Err sc); [done|].
    by injection Hscan as <-. }
  apply IH in Hl as [Hl|(path' & f' & ? & ?)].
  - rewrite HP in Hl. destruct (decide (p = path)) as [->|Hp].
    + rewrite lookup_insert_eq in Hl. injection Hl as <-. right.
      exists path, f. split; [by left|done].
    + rewrite lookup_insert_ne in Hl by done. by left.
  - right. exists path', f'. split; [by right|done].
Qed.

(** The workers never remove a record. *)
Lemma windsurf_workers_keep fs paths files errors p :
  is_Some (files !! p) -> is_Some ((foldl (worker fs) (files, errors) paths).1 !! p).
Proof.
  revert files errors. induction paths as [|path paths IH]; intros files errors Hp;
    cbn [foldl fst]; [done|].
  unfold worker at 2. destruct (indexFile fs path) as [err|fileIndex]; [by apply IH|].
  apply IH. destruct (decide (Path fileIndex = p)) as [->|Hne].
  - by rewrite lookup_insert_eq.
  - by rewrite lookup_insert_ne.
Qed.

End windsurf_index_facts.

(** A walk function that returns no error on the calls of the tree makes
    every call of the complete walk. *)
Lemma walk_complete_if {S} (fn : walk.WalkFunc (S := S)) path n st :
  (forall c st, c ∈ calls path n -> (fn c.1.1 c.1.2 c.2 st).2 = None) ->
  walk.walk fn path n st = (foldl (call fn) st (calls path n), None).
Proof.
  revert path st.
  induction n as [size modTime|modTime readErr entries IH|err] using node_ind';
    intros path st Hok.
  - simpl. unfold call. simpl.
    specialize (Hok (path, Some (os.fileInfo size modTime), None) st ltac:(by left)).
    simpl in Hok. by destruct (fn _ _ _ st) as [? ?]; simpl in *; subst.
  - rewrite walk_Directory. rewrite calls_Directory in *. cbv zeta. simpl.
    unfold call at 2. simpl.
    pose proof (Hok (path, Some (os.dirInfo modTime), PathError "open" path <$> readErr)
                  st ltac:(by left)) as H1.
    simpl in H1. destruct (fn path _ _ st) as [st1 err1]. simpl in *. subst err1.
    destruct readErr as [e|]; [done|]. simpl.
    assert (forall c st, c ∈ entryCalls path entries ->
                         (fn c.1.1 c.1.2 c.2 st).2 = None) as Hentries
      by (intros; apply Hok; by right).
    clear Hok st. revert st1.
    induction entries as [|[name child] entries IHe]; intros st1; [done|].
    apply Forall_cons in IH as [IHc IH]. simpl in *.
    rewrite IHc, foldl_app.
    + apply IHe; [done|]. intros. apply Hentries. apply elem_of_app. by right.
    + intros. apply Hentries. apply elem_of_app. by left.
  - simpl. unfold call. simpl.
    specialize (Hok (path, None, Some (PathError "lstat" path err)) st ltac:(by left)).
    simpl in Hok. by destruct (fn _ _ _ st) as [? ?]; simpl in *; subst.
Qed.

Lemma walkErrors_nil path n :
  walkErrors path n = [] <-> forall c, c ∈ calls path n -> c.2 = None.
Proof.
  unfold walkErrors. induction (calls path n) as [|c cs IH]; simpl.
  - split; [by intros _ c Hc%elem_of_nil|done].
  - destruct c as [[p i] [e|]]; simpl.
    + split; [done|]. intros Hall. by specialize (Hall _ ltac:(by left)).
    + rewrite IH. split.
      * intros Hall c [->|Hc]%elem_of_cons; [done|by apply Hall].
      * intros Hall c Hc. apply Hall. by right.
Qed.

Section windsurf_walk_facts.
Context `{unicode.CaseTables}.

(** The path that a call of the walk function of [windsurf] sends. *)
Definition windsurf_sends (fs : os.FileSystem)
    (c : string * option os.FileInfo * option error) : option string :=
  match c with
  | (path, Some info, None) =>
      if negb (os.IsDir info) && windsurf_accepts fs path then Some path else None
  | _ => None
  end.

Lemma windsurf_foldl_sent fs cs st :
  Forall (fun c => c.2 = None) cs ->
  foldl (call (windsurf.walkFn fs)) st cs = st ++ omap (windsurf_sends fs) cs.
Proof.
  intros Hcs. revert st. induction Hcs as [|[[p info] err] cs Hc _ IH]; intros st; simpl.
  - by rewrite app_nil_r.
  - simpl in Hc. subst err. rewrite IH. unfold call, windsurf.walkFn, windsurf_accepts.
    simpl. destruct info as [info|]; [|done].
    destruct (os.IsDir info); simpl; [done|].
    destruct (_ && _); simpl; [|done]. by rewrite <- app_assoc.
Qed.

End windsurf_walk_facts.

(** The calls that a walk makes when it stops at the first error: the calls
    of the complete walk before the first one that is given an error. *)
Fixpoint untilError (cs : list (string * option os.FileInfo * option error))
  : list (string * option os.FileInfo * option error) :=
  match cs with
  | [] => []
  | c :: cs' =>
      match c.2 with
      | Some _ => []
      | None => c :: untilError cs'
      end
  end.

Lemma untilError_app_error cs cs' e :
  head (omap snd cs) = Some e -> untilError (cs ++ cs') = untilError cs.
Proof.
  induction cs as [|[[p i] [e'|]] cs IH]; simpl; [done|done|].
  intros He. by rewrite IH.
Qed.

Lemma untilError_app_none cs cs' :
  head (omap snd cs) = None -> untilError (cs ++ cs') = cs ++ untilError cs'.
Proof.
  induction cs as [|[[p i] [e'|]] cs IH]; simpl; [done|done|].
  intros He. by rewrite IH.
Qed.

Lemma untilError_first before c after :
  Forall (fun c => c.2 = None) before -> c.2 <> None ->
  untilError (before ++ c :: after) = before.
Proof.
  intros Hb Hc. induction Hb as [|[[p i] e] cs Hx _ IH]; simpl.
  - by destruct (c.2).
  - simpl in Hx. subst e. by rewrite IH.
Qed.

Lemma untilError_Forall cs : Forall (fun c => c.2 = None) (untilError cs).
Proof.
  induction cs as [|[[p i] [e|]] cs IH]; simpl; [done|done|]. by constructor.
Qed.

Lemma untilError_sublist cs c : c ∈ untilError cs -> c ∈ cs.
Proof.
  induction cs as [|[[p i] [e|]] cs IH]; simpl; [done|by intros ?%elem_of_nil|].
  intros [->|Hc]%elem_of_cons; [by left|]. right. by apply IH.
Qed.

Section windsurf_stops.
Context `{unicode.CaseTables}.

(** The walk of [windsurf] sends the accepted files that it meets before
    the first error, and no other. *)
Lemma windsurf_walk_until_error fs path n st :
  (walk.walk (windsurf.walkFn fs) path n st).1
  = st ++ omap (windsurf_sends fs) (untilError (calls path n)).
Proof.
  revert path st.
  induction n as [size modTime|modTime readErr entries IH|err] using node_ind';
    intros path st.
  - change (calls path (os.File size modTime))
      with [(path, Some (os.fileInfo size modTime), @None error)].
    rewrite <- (windsurf_foldl_sent fs _ st) by (by repeat constructor). done.
  - assert (forall st,
              (walkEntries (windsurf.walkFn fs) path entries st).1
              = st ++ omap (windsurf_sends fs) (untilError (entryCalls path entries)))
      as Hentries.
    { clear st. induction entries as [|[name child] entries IHe]; intros st;
        [by rewrite app_nil_r|].
      apply Forall_cons in IH as [IHc IH]. cbn [walkEntries entryCalls].
      cbn [snd] in IHc. specialize (IHc (filepath.Join path name) st).
      pose proof (windsurf_walk_error fs (filepath.Join path name) child st) as Herr.
      destruct (walk.walk (windsurf.walkFn fs) _ child st) as [st' err].
      cbn [fst snd] in IHc, Herr. subst st'.
      destruct err as [e|].
      - rewrite (untilError_app_error _ _ e) by done.
        assert (e <> SkipDir) as Hne.
        { destruct (omap snd (calls (filepath.Join path name) child)) as [|e' l] eqn:E;
            [done|]. injection Herr as ->.
          assert (e' ∈ omap snd (calls (filepath.Join path name) child)) as Hin
            by (rewrite E; by left).
          apply list_elem_of_omap in Hin as (c & Hc & He).
          destruct (calls_error_PathError _ _ _ _ Hc He) as (? & ? & ? & ->). done. }
        rewrite (bool_decide_eq_false_2 (e = SkipDir)) by done.
        by rewrite andb_false_r.
      - rewrite IHe by done.
        rewrite (untilError_app_none _ (entryCalls path entries)) by done.
        pose proof (untilError_app_none (calls (filepath.Join path name) child) []
                      ltac:(done)) as E.
        rewrite !app_nil_r in E. rewrite E.
        by rewrite omap_app, app_assoc. }
    rewrite walk_Directory, calls_Directory. cbv zeta.
    destruct readErr as [e|]; [by rewrite app_nil_r|].
    change (windsurf.walkFn fs path (Some (os.dirInfo modTime))
              (PathError "open" path <$> None) st)
      with (st, @None error).
    rewrite !(bool_decide_eq_false_2 (_ <> None)) by (by intros ?).
    cbn [orb]. rewrite Hentries. reflexivity.
  - by rewrite app_nil_r.
Qed.

Lemma windsurf_sentPaths fs root :
  windsurf.sentPaths fs root
  = omap (windsurf_sends fs) (untilError (calls root (os.lstatTree fs root))).
Proof.
  unfold windsurf.sentPaths, walk.Walk.
  pose proof (windsurf_walk_until_error fs root (os.lstatTree fs root) []) as Hw.
  destruct (walk.walk (windsurf.walkFn fs) root _ []) as [st' err].
  simpl in Hw. by destruct (_ || _).
Qed.

(** The errors of the workers: one for each path on which [indexFile]
    fails. *)
Lemma windsurf_workers_count fs paths files errors :
  length (foldl (windsurf.worker fs) (files, errors) paths).2
  = (length errors
     + length (List.filter
                 (fun p => match windsurf.indexFile fs p with
                           | inl _ => true | inr _ => false end) paths))%nat.
Proof.
  revert files errors. induction paths as [|q paths IH]; intros files errors;
    cbn [foldl List.filter]; [simpl; lia|].
  unfold windsurf.worker at 2. destruct (windsurf.indexFile fs q).
  - rewrite IH, length_app. simpl. lia.
  - by rewrite IH.
Qed.

(** What a call of [IndexDirectory] that returns returns as its error: the
    number of the errors of the workers and of the walk. *)
Lemma windsurf_IndexDirectory_error fs idx root :
  (windsurf.IndexDirectory fs idx root).2
  = let n := (length (windsurf.failedPaths fs root)
              + match head (walkErrors root (os.lstatTree fs root)) with
                | Some _ => 1 | None => 0
                end)%nat in
    if (0 <? Z.of_nat n) then
      Some (Errorf ("encountered " +:+ strconv.Itoa (Z.of_nat n)
                    +:+ " errors during indexing"))
    else None.
Proof.
  unfold windsurf.IndexDirectory, windsurf.failedPaths, windsurf.sentPaths.
  pose proof (windsurf_Walk_error fs root []) as Hw.
  destruct (walk.Walk fs root (windsurf.walkFn fs) []) as [sent walkErr].
  cbn [fst snd] in *.
  pose proof (windsurf_workers_count fs sent (windsurf.Files (windsurf.index idx)) [])
    as Hn.
  destruct (foldl (windsurf.worker fs) _ sent) as [files errors].
  cbn [snd length] in Hn. cbv zeta.
  assert (match head (walkErrors root (os.lstatTree fs root)) with
          | Some _ => 1%nat | None => 0%nat end
          = match walkErr with Some _ => 1%nat | None => 0%nat end) as ->.
  { rewrite Hw. unfold walkErrors. clear.
    induction (calls root (os.lstatTree fs root)) as [|[[p i] [e|]] l IH]; simpl;
      [done|done|exact IH]. }
  destruct walkErr as [e|].
  - rewrite length_app. cbn [length]. rewrite Hn.
    replace (0 + length _ + 1)%nat with (length (List.filter
      (fun p => match windsurf.indexFile fs p with inl _ => true | inr _ => false end)
      sent) + 1)%nat by lia.
    by destruct (_ <? _).
  - rewrite Hn. rewrite Nat.add_0_r. cbn [Nat.add]. by destruct (_ <? _).
Qed.

(** A call can panic only when [indexFile] fails on a path that the walk
    has sent. *)
Lemma windsurf_failedPaths_elem fs root :
  windsurf.failedPaths fs root <> [] ->
  exists p err, p ∈ windsurf.sentPaths fs root /\ windsurf.indexFile fs p = inl err.
Proof.
  unfold windsurf.failedPaths. intros Hne.
  destruct (List.filter _ _) as [|p l] eqn:E; [done|].
  assert (p ∈ List.filter
            (fun filePath => match windsurf.indexFile fs filePath with
                             | inl _ => true | inr _ => false end)
            (windsurf.sentPaths fs root)) as Hin by (rewrite E; by left).
  apply list_elem_of_In, filter_In in Hin as [Hin Hf].
  apply list_elem_of_In in Hin.
  destruct (windsurf.indexFile fs p) as [err|] eqn:Hp; [|done].
  by exists p, err.
Qed.

Lemma windsurf_failedPaths_nil fs root :
  (forall p, p ∈ windsurf.sentPaths fs root ->
             exists e, windsurf.indexFile fs p = inr e) ->
  windsurf.failedPaths fs root = [].
Proof.
  intros Hall. destruct (windsurf.failedPaths fs root) as [|q l] eqn:E; [done|].
  destruct (windsurf_failedPaths_elem fs root) as (p & err & Hin & Hp);
    [by rewrite E|].
  destruct (Hall p Hin) as [e He]. congruence.
Qed.

End windsurf_stops.

(** ** Indexing runs *)

(** A directory [/data] without any entry, on a file system where nothing
    else exists. *)
Definition empty_directory_fs : os.FileSystem :=
  {| os.lstatTree := fun path =>
       if bool_decide (path = "/data") then os.Directory 0 None []
       else os.Broken ENOENT;
     os.Open := fun _ => inl ENOENT;
     os.Stat := fun _ => inl ENOENT;
     os.Getwd := "/" |}.

(** An indexer of [windsurf] that holds the record of an earlier run. *)
Definition loaded_indexer : windsurf.Indexer :=
  {| windsurf.index :=
       {| windsurf.Files :=
            {[ "/old/x.txt" :=
                 {| windsurf.Path := "/old/x.txt";
                    windsurf.LineMap := {[ 1 := "old" ]};
                    windsurf.Modified := 0 |} ]} |};
     windsurf.indexFilePath := "/home/u/.indexer_data.json" |}.

(** C3, as stated, fails on [windsurf]: [IndexDirectory] does not reset the
    store, and the record of [/old/x.txt], which is not under [/data], is
    still there after the run. *)
Lemma windsurf_run_keeps_prior_records :
  windsurf.IndexDirectory (H := no_case_table) empty_directory_fs loaded_indexer "/data"
  = (loaded_indexer, 1, None).
Proof. by vm_compute. Qed.

(** C3, amended.  In [cursor], for every prior store state and every root,
    [IndexDirectory] first resets the store: the store after the run does
    not depend on the prior store, and each of its records is the scan,
    during this run, of a file found under that root.  In [windsurf],
    [IndexDirectory] does not reset the store: each record after the run is
    a prior record or the scan, during this run, of a file found under the
    root; the run is a full replacement when it starts from a new indexer,
    as it does in [handleIndex]. *)
Theorem index_run_replaces_store `{unicode.CaseTables}
    (fs : os.FileSystem) (root : string) :
  (forall idx idx',
     cursor.indexer.files (cursor.indexer.index (cursor.indexer.IndexDirectory fs idx root))
     = cursor.indexer.files
         (cursor.indexer.index (cursor.indexer.IndexDirectory fs idx' root)))
  /\ (forall idx p e,
        cursor.indexer.files
          (cursor.indexer.index (cursor.indexer.IndexDirectory fs idx root)) !! p
        = Some e ->
        exists path f,
          file_under fs root path /\ os.Open fs path = inr f
          /\ p = filepath.Abs (os.Getwd fs) path
          /\ cursor.indexer.scanFile path p f = inr e)
  /\ (forall idx p e,
        windsurf.Files (windsurf.index (windsurf.IndexDirectory fs idx root).1.1) !! p
        = Some e ->
        windsurf.Files (windsurf.index idx) !! p = Some e
        \/ exists f, file_under fs root p /\ os.Open fs p = inr f
                     /\ windsurf.scanFile p f = inr e)
  /\ (forall home p e,
        windsurf.Files
          (windsurf.index
             (windsurf.IndexDirectory fs (windsurf.NewIndexer home) root).1.1) !! p
        = Some e ->
        exists f, file_under fs root p /\ os.Open fs p = inr f
                  /\ windsurf.scanFile p f = inr e).
Proof.
  assert (forall idx p e,
        windsurf.Files (windsurf.index (windsurf.IndexDirectory fs idx root).1.1) !! p
        = Some e ->
        windsurf.Files (windsurf.index idx) !! p = Some e
        \/ exists f, file_under fs root p /\ os.Open fs p = inr f
                     /\ windsurf.scanFile p f = inr e) as Hwindsurf.
  { intros idx p e. unfold windsurf.IndexDirectory.
    pose proof (windsurf_Walk_sent fs root) as Hsent.
    destruct (walk.Walk fs root (windsurf.walkFn fs) []) as [sent walkErr].
    pose proof (windsurf_workers_records fs sent (windsurf.Files (windsurf.index idx))
                  [] p e) as Hrec.
    destruct (foldl (windsurf.worker fs) _ sent) as [files errors].
    intros Hl.
    assert (files !! p = Some e) as Hp by (by destruct (_ <? _)).
    destruct (Hrec Hp) as [?|(path & f & Hin & Hopen & -> & Hscan)]; [by left|].
    right. exists f. split; [|done]. by apply Hsent. }
  split; [|split; [|split]].
  - intros idx idx'. rewrite !cursor_IndexDirectory_eq. cbv zeta. simpl.
    by apply cursor_workers_files.
  - intros idx p e. rewrite cursor_IndexDirectory_eq. cbv zeta. simpl.
    intros [Hl|(path & f & Hin & Hopen & -> & Hscan)]%cursor_workers_records.
    { simpl in Hl. by rewrite lookup_empty in Hl. }
    exists path, f. split; [|done].
    rewrite cursor_foldl_sent in Hin. simpl in Hin.
    by apply cursor_sent_file_under in Hin as [? _].
  - exact Hwindsurf.
  - intros home p e Hl. destruct (Hwindsurf _ _ _ Hl) as [Hprior|?]; [|done].
    simpl in Hprior. by rewrite lookup_empty in Hprior.
Qed.

(** ** Traversal errors *)

(** A file system on which [/missing] does not exist, and [/data] holds a
    file, an entry that cannot be examined, and another file. *)
Definition faulty_fs : os.FileSystem :=
  {| os.lstatTree := fun path =>
       if bool_decide (path = "/data") then
         os.Directory 0 None
           [ ("a.txt", os.File 12 0); ("locked", os.Broken EACCES);
             ("z.txt", os.File 8 0) ]
       else os.Broken ENOENT;
     os.Open := fun path =>
       if bool_decide (path = "/data/a.txt") then
         inr {| os.fstat := inr (os.fileInfo 12 0);
                os.contents := "hello world" +:+ String LF "" |}
       else if bool_decide (path = "/data/z.txt") then
         inr {| os.fstat := inr (os.fileInfo 8 0);
                os.contents := "foo bar" +:+ String LF "" |}
       else inl ENOENT;
     os.Stat := fun path =>
       if bool_decide (path = "/data/a.txt") then inr (os.fileInfo 12 0)
       else if bool_decide (path = "/data/z.txt") then inr (os.fileInfo 8 0)
       else inl ENOENT;
     os.Getwd := "/" |}.

(** C4, as stated, fails in both variants.  In [cursor], a run on a root
    that does not exist returns no error, and leaves an empty store.  In
    [windsurf], the error on the entry [locked] of [/data] stops the walk:
    the run returns an error, and [z.txt] is not indexed.  (No path sent
    fails in [indexFile], so that the call returns.) *)
Lemma traversal_errors_in_both_variants :
  (let run := cursor.indexer.IndexDirectory (H := no_case_table) faulty_fs
                (cursor.indexer.NewIndex 4) "/missing" in
   cursor.indexer.returned run = None
   /\ cursor.indexer.files (cursor.indexer.index run) = ∅
   /\ cursor.indexer.warned run
      = [("/missing", PathError "lstat" "/missing" ENOENT)])
  /\ (let '(idx, count, err) :=
        windsurf.IndexDirectory (H := no_case_table) faulty_fs
          (windsurf.NewIndexer (inr "/home/u")) "/data" in
      err = Some (Errorf "encountered 1 errors during indexing")
      /\ count = 1
      /\ windsurf.Files (windsurf.index idx) !! "/data/z.txt" = None)
  /\ windsurf.failedPaths (H := no_case_table) faulty_fs "/data" = [].
Proof. by vm_compute. Qed.

(** C4, amended.  In [cursor], no traversal error is fatal, on the root or
    on an entry under it: every error is logged as a warning, the walk goes
    on through the whole tree, and [IndexDirectory] returns no error; when
    the root itself cannot be examined, the run leaves an empty store.  In
    [windsurf], every traversal error is fatal, on the root or on an entry
    under it.  The walk stops at the first error: the paths sent to the
    workers are the accepted files met before it.  A call that returns
    then returns an error that tells the number of errors met, one for the
    walk and one for each path sent on which [indexFile] has failed, and
    every record of the store is a record that it held before or the
    record of a path sent; a call can panic instead only when [indexFile]
    fails on a path sent.  When the root itself cannot be examined, no
    path is sent: the call returns, that number is 1 and the store is left
    as it was. *)
Theorem traversal_errors_by_variant `{unicode.CaseTables}
    (fs : os.FileSystem) (root : string) :
  (forall idx,
     let run := cursor.indexer.IndexDirectory fs idx root in
     cursor.indexer.returned run = None
     /\ cursor.indexer.warned run = walkErrors root (os.lstatTree fs root))
  /\ (forall idx err,
        os.lstatTree fs root = os.Broken err ->
        let run := cursor.indexer.IndexDirectory fs idx root in
        cursor.indexer.files (cursor.indexer.index run) = ∅
        /\ cursor.indexer.warned run = [(root, PathError "lstat" root err)])
  /\ (forall idx before c after,
        calls root (os.lstatTree fs root) = before ++ c :: after ->
        Forall (fun c => c.2 = None) before -> c.2 <> None ->
        (forall p,
           p ∈ windsurf.sentPaths fs root
           <-> exists size modTime,
                 (p, Some (os.fileInfo size modTime), None) ∈ before
                 /\ windsurf.ShouldIndexFile fs p && windsurf.IsTextFile p = true)
        /\ forall o,
             windsurf.IndexDirectory_outcome fs idx root o ->
             match o with
             | windsurf.Panics =>
                 exists p err, p ∈ windsurf.sentPaths fs root
                               /\ windsurf.indexFile fs p = inl err
             | windsurf.Returns idx' count err =>
                 err = Some (Errorf
                               ("encountered "
                                +:+ strconv.Itoa
                                      (Z.of_nat (length (windsurf.failedPaths fs root)) + 1)
                                +:+ " errors during indexing"))
                 /\ forall p e,
                      windsurf.Files (windsurf.index idx') !! p = Some e ->
                      windsurf.Files (windsurf.index idx) !! p = Some e
                      \/ (p ∈ windsurf.sentPaths fs root
                          /\ windsurf.indexFile fs p = inr e)
             end)
  /\ (forall idx err o,
        os.lstatTree fs root = os.Broken err ->
        windsurf.IndexDirectory_outcome fs idx root o ->
        o = windsurf.Returns idx
              (Z.of_nat (size (windsurf.Files (windsurf.index idx))))
              (Some (Errorf "encountered 1 errors during indexing"))).
Proof.
  split; [|split; [|split]].
  - intros idx run. unfold run. rewrite cursor_IndexDirectory_eq. cbv zeta. simpl.
    split; [done|]. by rewrite cursor_foldl_warnings.
  - intros idx err Htree run. unfold run. rewrite cursor_IndexDirectory_eq.
    cbv zeta. simpl. rewrite cursor_foldl_warnings. unfold walkErrors.
    unfold cursor_sent. rewrite Htree. done.
  - intros idx before c after Hcalls Hbefore Hc.
    assert (forall p,
              p ∈ windsurf.sentPaths fs root
              <-> exists size modTime,
                    (p, Some (os.fileInfo size modTime), None) ∈ before
                    /\ windsurf.ShouldIndexFile fs p && windsurf.IsTextFile p = true)
      as Hsent.
    { intros p. rewrite windsurf_sentPaths, Hcalls, untilError_first by done.
      rewrite list_elem_of_omap. split.
      - intros ([[q info] err] & Hin & E). unfold windsurf_sends in E.
        destruct info as [info|]; [|done]. destruct err; [done|].
        destruct (os.IsDir info) eqn:Hd; [done|]. simpl in E.
        destruct (windsurf_accepts fs q) eqn:Ha; [|done]. injection E as ->.
        assert ((p, Some info, None) ∈ calls root (os.lstatTree fs root)) as Hin'.
        { rewrite Hcalls. apply elem_of_app. by left. }
        destruct (calls_file_call _ _ _ _ _ Hin' Hd) as (size & modTime & -> & _).
        by exists size, modTime.
      - intros (size & modTime & Hin & Ha). eexists. split; [exact Hin|].
        simpl. unfold windsurf_accepts. by rewrite Ha. }
    split; [exact Hsent|].
    intros [idx' count err|] Ho; simpl in Ho.
    + pose proof (windsurf_IndexDirectory_error fs idx root) as Herr.
      rewrite <- Ho in Herr. cbn [snd] in Herr. cbv zeta in Herr.
      assert (head (walkErrors root (os.lstatTree fs root)) <> None) as Hw.
      { unfold walkErrors. rewrite Hcalls, omap_app.
        assert (omap (fun c => (fun e => (c.1.1, e)) <$> c.2) before = []) as ->.
        { clear -Hbefore. induction Hbefore as [|[[q i] e] cs Hx _ IH]; [done|].
          simpl in *. by subst e. }
        simpl. destruct c as [[q i] [e|]]; done. }
      destruct (head (walkErrors root (os.lstatTree fs root))) as [w|]; [|done].
      split.
      * rewrite Herr. rewrite Nat2Z.inj_add. 
        destruct (Z.ltb_spec 0 (Z.of_nat (length (windsurf.failedPaths fs root))
                                + Z.of_nat 1)); [done|lia].
      * intros p e Hl.
        assert (idx' = (windsurf.IndexDirectory fs idx root).1.1) as ->
          by (by rewrite <- Ho).
        unfold windsurf.IndexDirectory, windsurf.sentPaths in *.
        destruct (walk.Walk fs root (windsurf.walkFn fs) []) as [sent walkErr].
        pose proof (windsurf_workers_records fs sent
                      (windsurf.Files (windsurf.index idx)) [] p e) as Hrec.
        destruct (foldl (windsurf.worker fs) _ sent) as [files errors].
        assert (files !! p = Some e) as Hp by (by destruct (_ <? _)).
        destruct (Hrec Hp) as [?|(path & f & Hin & Hopen & -> & Hscan)]; [by left|].
        right. split; [done|]. unfold windsurf.indexFile. by rewrite Hopen.
    + by apply windsurf_failedPaths_elem.
  - intros [[files] indexFilePath] err o Htree Ho.
    assert (windsurf.IndexDirectory fs
              {| windsurf.index := {| windsurf.Files := files |};
                 windsurf.indexFilePath := indexFilePath |} root
            = ({| windsurf.index := {| windsurf.Files := files |};
                  windsurf.indexFilePath := indexFilePath |},
               Z.of_nat (size files),
               Some (Errorf "encountered 1 errors during indexing"))) as Hrun.
    { unfold windsurf.IndexDirectory, walk.Walk. rewrite Htree. done. }
    destruct o as [idx' count err'|]; simpl in Ho.
    + rewrite Hrun in Ho. by injection Ho as -> -> ->.
    + exfalso. apply Ho. unfold windsurf.failedPaths, windsurf.sentPaths, walk.Walk.
      rewrite Htree. done.
Qed.

Lemma index_run_replaces_store_witness :
  exists path f,
    file_under faulty_fs "/data" path
    /\ os.Open faulty_fs path = inr f
    /\ "/data/a.txt" = filepath.Abs (os.Getwd faulty_fs) path
    /\ cursor.indexer.scanFile path "/data/a.txt" f
       = inr {| cursor.indexer.Path := "/data/a.txt";
                cursor.indexer.LineIndex := {[ 1 := "hello world" ]};
                cursor.indexer.Modified := 0 |}.
Proof.
  apply (proj1 (proj2 (@index_run_replaces_store no_case_table faulty_fs "/data"))
           (cursor.indexer.NewIndex 4)).
  vm_compute. reflexivity.
Defined.

Lemma traversal_errors_by_variant_witness :
  (windsurf.IndexDirectory (H := no_case_table) faulty_fs loaded_indexer "/data").2
  = Some (Errorf
            ("encountered "
             +:+ strconv.Itoa
                   (Z.of_nat (length (windsurf.failedPaths (H := no_case_table)
                                        faulty_fs "/data")) + 1)
             +:+ " errors during indexing")).
Proof.
  pose proof (proj1 (proj2 (proj2 (@traversal_errors_by_variant no_case_table
                                     faulty_fs "/data")))
                loaded_indexer
                [("/data", Some (os.dirInfo 0), None);
                 ("/data/a.txt", Some (os.fileInfo 12 0), None)]
                ("/data/locked", None, Some (PathError "lstat" "/data/locked" EACCES))
                [("/data/z.txt", Some (os.fileInfo 8 0), None)]
                eq_refl) as Hrun.
  destruct Hrun as [_ Hout]; [by repeat constructor|done|].
  exact (proj1 (Hout (windsurf.Returns
                        (windsurf.IndexDirectory (H := no_case_table) faulty_fs
                           loaded_indexer "/data").1.1
                        (windsurf.IndexDirectory (H := no_case_table) faulty_fs
                           loaded_indexer "/data").1.2
                        (windsurf.IndexDirectory (H := no_case_table) faulty_fs
                           loaded_indexer "/data").2)
                  eq_refl)).
Defined.

(** ** The classifier *)

(** A directory [/data] with a hidden text file and a file in a dependency
    directory. *)
Definition hidden_and_vendored_fs : os.FileSystem :=
  {| os.lstatTree := fun path =>
       if bool_decide (path = "/data") then
         os.Directory 0 None
           [ (".hidden.txt", os.File 7 0);
             ("node_modules", os.Directory 0 None [ ("x.txt", os.File 7 0) ]) ]
       else os.Broken ENOENT;
     os.Open := fun path =>
       if bool_decide (path = "/data/.hidden.txt")
          || bool_decide (path = "/data/node_modules/x.txt") then
         inr {| os.fstat := inr (os.fileInfo 7 0);
                os.contents := "secret" +:+ String LF "" |}
       else inl ENOENT;
     os.Stat := fun path =>
       if bool_decide (path = "/data/.hidden.txt")
          || bool_decide (path = "/data/node_modules/x.txt") then
         inr (os.fileInfo 7 0)
       else inl ENOENT;
     os.Getwd := "/" |}.

(** C9, as stated, fails in both variants: [windsurf] indexes the file
    [.hidden.txt], whose name starts with a dot, and [cursor] indexes the
    file [x.txt] under [node_modules]. *)
Lemma each_variant_has_one_rule :
  windsurf.Files
    (windsurf.index
       (windsurf.IndexDirectory (H := no_case_table) hidden_and_vendored_fs
          (windsurf.NewIndexer (inr "/home/u")) "/data").1.1)
    !! "/data/.hidden.txt" <> None
  /\ cursor.indexer.files
       (cursor.indexer.index
          (cursor.indexer.IndexDirectory (H := no_case_table) hidden_and_vendored_fs
             (cursor.indexer.NewIndex 4) "/data"))
       !! "/data/node_modules/x.txt" <> None.
Proof. split; by vm_compute. Qed.

Lemma ShouldIndexFile_excluded_dirs `{unicode.CaseTables} fs path dir :
  dir ∈ windsurf.DefaultExcludedDirs ->
  strings.Contains (filepath.Dir path) dir = true ->
  windsurf.ShouldIndexFile fs path = false.
Proof.
  intros Hdir Hc. unfold windsurf.ShouldIndexFile.
  destruct (os.Stat fs path) as [|info]; [done|].
  destruct (os.IsDir info); [done|]. destruct (_ <? _); [done|].
  assert (existsb (fun excludedDir => strings.Contains (filepath.Dir path) excludedDir)
            windsurf.DefaultExcludedDirs = true) as ->; [|done].
  apply existsb_exists. exists dir. split; [by apply list_elem_of_In|done].
Qed.

(** C9, amended.  Each variant supports one of the two rules.  The
    classification of [cursor] rejects every file whose name starts with a
    dot (the file is counted as skipped and is not indexed) and has no rule
    on directories.  The classifier of [windsurf] rejects every file whose
    directory path contains one of the configured excluded directory names
    as a substring (the file is not indexed) and has no rule on hidden
    files. *)
Theorem classifier_rule_of_each_variant `{unicode.CaseTables}
    (fs : os.FileSystem) (root : string) :
  (forall path info st,
     strings.HasPrefix (filepath.Base path) "." = true -> os.IsDir info = false ->
     cursor.indexer.walkFn path (Some info) None st
     = ({| cursor.indexer.sent := cursor.indexer.sent st;
           cursor.indexer.skippedFiles := cursor.indexer.skippedFiles st + 1;
           cursor.indexer.warnings := cursor.indexer.warnings st |}, None))
  /\ (forall idx p e,
        cursor.indexer.files
          (cursor.indexer.index (cursor.indexer.IndexDirectory fs idx root)) !! p
        = Some e ->
        exists path,
          p = filepath.Abs (os.Getwd fs) path
          /\ strings.HasPrefix (filepath.Base path) "." = false)
  /\ (forall path dir,
        dir ∈ windsurf.DefaultExcludedDirs ->
        strings.Contains (filepath.Dir path) dir = true ->
        windsurf.ShouldIndexFile fs path = false)
  /\ (forall idx p e,
        windsurf.Files (windsurf.index (windsurf.IndexDirectory fs idx root).1.1) !! p
        = Some e ->
        windsurf.Files (windsurf.index idx) !! p = Some e
        \/ forall dir, dir ∈ windsurf.DefaultExcludedDirs ->
                       strings.Contains (filepath.Dir p) dir = false).
Proof.
  split; [|split; [|split]].
  - intros path info st Hh Hd. unfold cursor.indexer.walkFn.
    rewrite Hd, Hh, orb_true_r. done.
  - intros idx p e. rewrite cursor_IndexDirectory_eq. cbv zeta. simpl.
    intros [Hl|(path & f & Hin & Hopen & -> & Hscan)]%cursor_workers_records.
    { simpl in Hl. by rewrite lookup_empty in Hl. }
    exists path. split; [done|].
    rewrite cursor_foldl_sent in Hin. simpl in Hin.
    by apply cursor_sent_file_under in Hin as (_ & _ & ?).
  - intros path dir. apply ShouldIndexFile_excluded_dirs.
  - intros idx p e. unfold windsurf.IndexDirectory.
    pose proof (windsurf_Walk_sent fs root) as Hsent.
    destruct (walk.Walk fs root (windsurf.walkFn fs) []) as [sent walkErr].
    pose proof (windsurf_workers_records fs sent (windsurf.Files (windsurf.index idx))
                  [] p e) as Hrec.
    destruct (foldl (windsurf.worker fs) _ sent) as [files errors].
    intros Hl.
    assert (files !! p = Some e) as Hp by (by destruct (_ <? _)).
    destruct (Hrec Hp) as [?|(path & f & Hin & Hopen & -> & Hscan)]; [by left|].
    right. intros dir Hdir.
    destruct (Hsent _ Hin) as [_ [Hshould _]%andb_true_iff].
    destruct (strings.Contains (filepath.Dir path) dir) eqn:Hc; [|done].
    by rewrite (ShouldIndexFile_excluded_dirs fs path dir) in Hshould.
Qed.

Lemma classifier_rule_of_each_variant_witness :
  windsurf.ShouldIndexFile (H := no_case_table) hidden_and_vendored_fs
    "/data/node_modules/x.txt" = false.
Proof.
  apply (proj1 (proj2 (proj2 (@classifier_rule_of_each_variant no_case_table
                                 hidden_and_vendored_fs "/data")))
           "/data/node_modules/x.txt" "node_modules").
  - vm_compute. do 2 right. left.
  - vm_compute. reflexivity.
Defined.

(** ** The cache: saving and loading *)

Definition user_cache : cursor.cache.Cache :=
  cursor.cache.NewCache "/home/u/.cache/indexer".

(** A store of [cursor] whose file has a line of two bytes: [0xFF], which is
    no UTF-8, and [z]. *)
Definition latin1_index : cursor.indexer.Index :=
  {| cursor.indexer.files :=
       {[ "/data/a.txt" :=
            {| cursor.indexer.Path := "/data/a.txt";
               cursor.indexer.LineIndex := {[ 1 := String "255" "z" ]};
               cursor.indexer.Modified := 1700000000 |} ]};
     cursor.indexer.workers := 4;
     cursor.indexer.indexed := 1;
     cursor.indexer.skipped := 0 |}.

(** C5, as stated, fails: the round trip is lossy on bytes that are not
    valid UTF-8.  [Save] writes the byte [0xFF] as the escape of U+FFFD, and
    [Load] returns the three bytes of that rune in its place. *)
Lemma save_load_replaces_invalid_utf8 :
  let saved := cursor.cache.Save user_cache ∅ disk.NoFault latin1_index in
  saved.2 = None
  /\ cursor.cache.Load user_cache saved.1 None
     = inr {[ "/data/a.txt" :=
                Some {| cursor.indexer.Path := "/data/a.txt";
                        cursor.indexer.LineIndex :=
                          {[ 1 := String "239" (String "191" (String "189" "z")) ]};
                        cursor.indexer.Modified := 1700000000 |} ]}
  /\ cursor.cache.Load user_cache saved.1 None
     <> inr (Some <$> cursor.indexer.GetFiles latin1_index).
Proof.
  cbv zeta. split; [reflexivity|]. split; [vm_compute; reflexivity|].
  intros E.
  apply (f_equal (fun r => match r with
                           | inr data =>
                               e ← data !! "/data/a.txt" ≫= id;
                               cursor.indexer.LineIndex e !! 1
                           | inl _ => None
                           end)) in E.
  vm_compute in E. discriminate E.
Qed.

(** C5, amended.  For every store of [cursor] whose paths and lines are
    valid UTF-8 (and whose line numbers and times are in the range of
    [int64]), a save without failure followed by a load returns a mapping
    equal to the store; and on a file system where every path of the store
    exists, the existence check of [main] accepts every loaded entry. *)
Theorem save_load_round_trip (c : cursor.cache.Cache) (d : disk.Disk)
    (idx : cursor.indexer.Index) (fs : os.FileSystem) :
  validFiles (cursor.cache.toRecord <$> cursor.indexer.GetFiles idx) ->
  (forall path, is_Some (cursor.indexer.GetFiles idx !! path) ->
                exists info, os.Stat fs path = inr info) ->
  let '(d', err) := cursor.cache.Save c d disk.NoFault idx in
  err = None
  /\ cursor.cache.Load c d' None = inr (Some <$> cursor.indexer.GetFiles idx)
  /\ forall idx0,
       (cursor.main.reconcileAll fs idx0 (Some <$> cursor.indexer.GetFiles idx)).2
       = Z.of_nat (size (cursor.indexer.GetFiles idx)).
Proof.
  intros Hvalid Hexist. unfold cursor.cache.Save, cursor.cache.Load. simpl.
  split; [done|]. split.
  - unfold disk.ReadFile. rewrite lookup_insert_eq.
    by apply cursor_Unmarshal_MarshalIndent.
  - intros idx0. rewrite reconcileAll_all, map_size_fmap; [done|].
    intros path [e He]. rewrite lookup_fmap in He.
    destruct (cursor.indexer.GetFiles idx !! path) as [e'|] eqn:E; [|done].
    destruct (Hexist path) as [info Hinfo]; [by rewrite E|].
    unfold statOk. by rewrite Hinfo.
Qed.

(** A store of [cursor] with one file of two lines. *)
Definition notes_index : cursor.indexer.Index :=
  {| cursor.indexer.files :=
       {[ "/data/notes.txt" :=
            {| cursor.indexer.Path := "/data/notes.txt";
               cursor.indexer.LineIndex :=
                 {[ 1 := "caf" +:+ String "195" (String "169" "");
                    2 := "<tab>" +:+ String "009" "\end" ]};
               cursor.indexer.Modified := 1700000000 |} ]};
     cursor.indexer.workers := 4;
     cursor.indexer.indexed := 1;
     cursor.indexer.skipped := 0 |}.

(** A file system on which [/data/notes.txt] exists. *)
Definition notes_fs : os.FileSystem :=
  {| os.lstatTree := fun path =>
       if bool_decide (path = "/data") then
         os.Directory 0 None [ ("notes.txt", os.File 17 1700000000) ]
       else os.Broken ENOENT;
     os.Open := fun _ => inl ENOENT;
     os.Stat := fun path =>
       if bool_decide (path = "/data/notes.txt")
       then inr (os.fileInfo 17 1700000000) else inl ENOENT;
     os.Getwd := "/" |}.

Lemma save_load_round_trip_witness :
  let '(d', err) := cursor.cache.Save user_cache ∅ disk.NoFault notes_index in
  err = None
  /\ cursor.cache.Load user_cache d' None
     = inr (Some <$> cursor.indexer.GetFiles notes_index)
  /\ forall idx0,
       (cursor.main.reconcileAll notes_fs idx0
          (Some <$> cursor.indexer.GetFiles notes_index)).2
       = Z.of_nat (size (cursor.indexer.GetFiles notes_index)).
Proof.
  apply (save_load_round_trip user_cache ∅ notes_index notes_fs).
  - apply (bool_decide_unpack _). by vm_compute.
  - intros path [e He]. exists (os.fileInfo 17 1700000000).
    unfold cursor.indexer.GetFiles, notes_index in He.
    cbn [cursor.indexer.files] in He.
    apply lookup_singleton_Some in He as [<- _]. reflexivity.
Defined.

(** ** Loading without a cache, or from one that cannot be parsed *)

(** C6, as stated, fails on [windsurf]: when no index has been saved,
    [LoadIndex] returns the error of opening the file, and the search
    command stops on it. *)
Lemma windsurf_load_without_index_fails :
  windsurf.LoadIndex (windsurf.NewIndexer (inr "/home/u")) ∅ None
  = Some (inl (PathError "open" "/home/u/.indexer_data.json" ENOENT))
  /\ windsurf.handleSearch (H := no_case_table) (inr "/home/u") ∅ None "fox"
     = Some (inl (PathError "open" "/home/u/.indexer_data.json" ENOENT)).
Proof. split; reflexivity. Qed.

(** C6, amended.  In [cursor], when no cache has been saved, [Load] returns
    an empty mapping and no error.  In [windsurf], when no index has been
    saved, [LoadIndex] returns the error of opening the file.  In [cursor],
    when the file exists and its content is no JSON document, or is a
    document of another type than the mapping, [Load] returns the error.
    In [windsurf], [LoadIndex] returns the error of the decoder when the
    first JSON value of the file cannot be read, which is [io.EOF] for a
    file that holds white space only, and an error of type when that value
    is a boolean, a number, a string or an array.  What follows the first
    value is not examined, and a first value [null] is no error: the store
    is left as it was. *)
Theorem load_without_or_with_unparseable_cache :
  (forall (c : cursor.cache.Cache) (d : disk.Disk) readErr,
     d !! cursor.cache.filePath c = None ->
     cursor.cache.Load c d readErr = inr ∅)
  /\ (forall (idx : windsurf.Indexer) (d : disk.Disk) readErr,
        d !! windsurf.indexFilePath idx = None ->
        windsurf.LoadIndex idx d readErr
        = Some (inl (PathError "open" (windsurf.indexFilePath idx) ENOENT)))
  /\ (forall (c : cursor.cache.Cache) (d : disk.Disk) data err,
        d !! cursor.cache.filePath c = Some data ->
        json.parse data = inl err
        \/ (exists v, json.parse data = inr v
                      /\ json.decodeFiles cursor.cache.fileEntryNames v ∅ = inl err) ->
        cursor.cache.Load c d None = inl err)
  /\ (forall (idx : windsurf.Indexer) (d : disk.Disk) data err,
        d !! windsurf.indexFilePath idx = Some data ->
        json.parseFirst data = inl err ->
        windsurf.LoadIndex idx d None = Some (inl err))
  /\ (forall (idx : windsurf.Indexer) (d : disk.Disk) data,
        d !! windsurf.indexFilePath idx = Some data ->
        json.nonSpace data = false ->
        windsurf.LoadIndex idx d None = Some (inl EOF))
  /\ (forall (idx : windsurf.Indexer) (d : disk.Disk) data v,
        d !! windsurf.indexFilePath idx = Some data ->
        json.parseFirst data = inr v ->
        match v with
        | json.Bool _ | json.Number _ | json.Str _ | json.Array _ =>
            exists msg,
              windsurf.LoadIndex idx d None = Some (inl (UnmarshalTypeError msg))
        | json.Null => windsurf.LoadIndex idx d None = Some (inr idx)
        | json.Object _ => True
        end).
Proof.
  split; [|split; [|split; [|split; [|split]]]].
  - intros c d readErr Hd. unfold cursor.cache.Load, disk.ReadFile. by rewrite Hd.
  - intros idx d readErr Hd. unfold windsurf.LoadIndex, disk.ReadFile. by rewrite Hd.
  - intros c d data err Hd Herr.
    unfold cursor.cache.Load, disk.ReadFile, cursor.cache.Unmarshal. rewrite Hd.
    destruct Herr as [->|(v & -> & ->)]; done.
  - intros idx d data err Hd Herr.
    unfold windsurf.LoadIndex, disk.ReadFile, windsurf.Decode. rewrite Hd.
    by rewrite Herr.
  - intros idx d data Hd Hblank.
    unfold windsurf.LoadIndex, disk.ReadFile, windsurf.Decode, json.parseFirst.
    rewrite Hd. by rewrite (readValue_blank data Hblank).
  - intros idx d data v Hd Hv.
    unfold windsurf.LoadIndex, disk.ReadFile, windsurf.Decode. rewrite Hd, Hv.
    destruct v; try done; try by eexists.
    rewrite allRecords_Some. by destruct idx as [[files] path].
Qed.

(** A disk whose cache file has been cut short. *)
Definition truncated_disk : disk.Disk :=
  {[ cursor.cache.filePath user_cache := "{ " ]}.

(** A disk whose index file has been cut short. *)
Definition truncated_index_disk : disk.Disk :=
  {[ windsurf.indexFilePath (windsurf.NewIndexer (inr "/home/u")) := "{ " ]}.

Lemma load_without_or_with_unparseable_cache_witness :
  cursor.cache.Load user_cache ∅ None = inr ∅
  /\ cursor.cache.Load user_cache truncated_disk None
     = inl (SyntaxError "invalid JSON")
  /\ windsurf.LoadIndex (windsurf.NewIndexer (inr "/home/u")) truncated_index_disk None
     = Some (inl ErrUnexpectedEOF).
Proof.
  split; [|split].
  - apply (proj1 load_without_or_with_unparseable_cache user_cache ∅ None).
    reflexivity.
  - apply (proj1 (proj2 (proj2 load_without_or_with_unparseable_cache))
             user_cache truncated_disk "{ ").
    + reflexivity.
    + left. reflexivity.
  - apply (proj1 (proj2 (proj2 (proj2 load_without_or_with_unparseable_cache)))
             (windsurf.NewIndexer (inr "/home/u")) truncated_index_disk "{ ").
    + reflexivity.
    + reflexivity.
Defined.

(** ** Saves that fail *)

(** A store of [cursor] with another file. *)
Definition todo_index : cursor.indexer.Index :=
  {| cursor.indexer.files :=
       {[ "/data/todo.txt" :=
            {| cursor.indexer.Path := "/data/todo.txt";
               cursor.indexer.LineIndex := {[ 1 := "buy milk" ]};
               cursor.indexer.Modified := 1700000500 |} ]};
     cursor.indexer.workers := 4;
     cursor.indexer.indexed := 1;
     cursor.indexer.skipped := 0 |}.

(** The disk after the store [notes_index] has been saved. *)
Definition notes_disk : disk.Disk :=
  (cursor.cache.Save user_cache ∅ disk.NoFault notes_index).1.

(** C7, as stated, fails: the cache file is emptied and written in place.
    After a save that is loaded back, a second save whose write stops after
    ten bytes (the disk is full) reports the error, and leaves these ten
    bytes in the file: the cache can no longer be loaded. *)
Lemma failed_save_leaves_unparseable_cache :
  cursor.cache.Load user_cache notes_disk None
  = inr (Some <$> cursor.indexer.GetFiles notes_index)
  /\ let saved :=
       cursor.cache.Save user_cache notes_disk (disk.WriteFails 10 ENOSPC) todo_index in
     saved.2 = Some (PathError "write" "/home/u/.cache/indexer/.indexer_cache.json" ENOSPC)
     /\ saved.1 !! "/home/u/.cache/indexer/.indexer_cache.json"
        = Some (string_take 10
                  (cursor.cache.MarshalIndent (cursor.indexer.GetFiles todo_index)))
     /\ cursor.cache.Load user_cache saved.1 None = inl (SyntaxError "invalid JSON").
Proof.
  cbv zeta. split; [vm_compute; reflexivity|].
  split; [reflexivity|]. split; vm_compute; reflexivity.
Qed.

(** C7, amended.  No save is an atomic replace: the file is emptied when it
    is opened, and written in place.  In [cursor], every failure of a save
    is reported to the caller; in [windsurf], the failure to open the file
    and the failure of the write are.  In both, a save changes no other
    file; a failure before the file is opened for writing leaves the disk as
    it was; a failure of the write leaves in the file the bytes written
    before the failure, and nothing of its previous content. *)
Theorem failed_save_is_reported (d : disk.Disk) (f : disk.fault) :
  f <> disk.NoFault ->
  (forall (c : cursor.cache.Cache) (idx : cursor.indexer.Index),
     let saved := cursor.cache.Save c d f idx in
     let text := cursor.cache.MarshalIndent (cursor.indexer.GetFiles idx) in
     saved.2 <> None
     /\ (forall path, path <> cursor.cache.filePath c -> saved.1 !! path = d !! path)
     /\ match f with
        | disk.MkdirFails _ | disk.OpenFails _ => saved.1 = d
        | disk.WriteFails written _ =>
            saved.1 !! cursor.cache.filePath c = Some (string_take written text)
        | disk.CloseFails _ | disk.NoFault => True
        end)
  /\ (forall (idx : windsurf.Indexer),
        let saved := windsurf.SaveIndex idx d f in
        let text := windsurf.Encode (windsurf.index idx) in
        (forall path, path <> windsurf.indexFilePath idx -> saved.1 !! path = d !! path)
        /\ match f with
           | disk.OpenFails _ => saved.2 <> None /\ saved.1 = d
           | disk.WriteFails written _ =>
               saved.2 <> None
               /\ saved.1 !! windsurf.indexFilePath idx
                  = Some (string_take written text)
           | disk.MkdirFails _ | disk.CloseFails _ | disk.NoFault => True
           end).
Proof.
  intros Hf. split.
  - intros c idx. unfold cursor.cache.Save, disk.WriteFile.
    destruct f; try done; cbn; (split; [done|]); (split; [|try done]);
      try (intros path Hpath; by rewrite ?lookup_insert_ne by done);
      by rewrite lookup_insert_eq.
  - intros idx. unfold windsurf.SaveIndex.
    destruct f; try done; cbn; (split; [|try done]);
      try (intros path Hpath; by rewrite ?lookup_insert_ne by done).
    split; [done|]. by rewrite lookup_insert_eq.
Qed.

Lemma failed_save_is_reported_witness :
  let saved :=
    cursor.cache.Save user_cache notes_disk (disk.WriteFails 10 ENOSPC) todo_index in
  let text := cursor.cache.MarshalIndent (cursor.indexer.GetFiles todo_index) in
  saved.2 <> None
  /\ (forall path, path <> cursor.cache.filePath user_cache ->
                   saved.1 !! path = notes_disk !! path)
  /\ saved.1 !! cursor.cache.filePath user_cache = Some (string_take 10 text).
Proof.
  apply (proj1 (failed_save_is_reported notes_disk (disk.WriteFails 10 ENOSPC)
                  ltac:(discriminate)) user_cache todo_index).
Defined.

(** ** Entries of files that no longer exist *)

(** The disk after the indexer [loaded_indexer] of [windsurf] has been
    saved. *)
Definition stale_disk : disk.Disk :=
  (windsurf.SaveIndex loaded_indexer ∅ disk.NoFault).1.

(** C8, as stated, fails on [windsurf], which has no reconciliation: on a
    file system where [/old/x.txt] does not exist, the search command loads
    the entry of that path, and finds the keyword in it. *)
Lemma windsurf_search_keeps_stale_entries :
  os.Stat empty_directory_fs "/old/x.txt" = inl ENOENT
  /\ windsurf.LoadIndex (windsurf.NewIndexer (inr "/home/u")) stale_disk None
     = Some (inr loaded_indexer)
  /\ windsurf.handleSearch (H := no_case_table) (inr "/home/u") stale_disk None "old"
     = Some (inr [ {| windsurf.FilePath := "/old/x.txt"; windsurf.LineNumber := 1 |} ]).
Proof. split; [reflexivity|]. split; vm_compute; reflexivity. Qed.

(** The start of [main] leaves the new indexer as it is. *)
Lemma loadCache_index fs d readErr home numCPU :
  (cursor.main.loadCache fs d readErr home numCPU).1.1.1
  = cursor.indexer.NewIndex numCPU.
Proof.
  unfold cursor.main.loadCache. destruct (cursor.cache.Load _ _ _) as [err|data]; [done|].
  pose proof (reconcileAll_index fs (cursor.indexer.NewIndex numCPU) data) as Hidx.
  by destruct (cursor.main.reconcileAll _ _ _).
Qed.

(** C8, amended.  In [cursor], the start of [main] checks every loaded path
    for existence; it counts the entries whose path exists and passes over
    the others silently; the Index Store it leaves contains no entry for a
    path that does not exist on the file system, and no entry whose
    content differs from the one loaded.  In [windsurf] there is no
    reconciliation: after the load of a saved index, the Index Store holds
    every saved entry as it was saved, whatever exists on the file
    system. *)
Theorem reconciliation_by_variant (fs : os.FileSystem) :
  (forall d readErr home numCPU data,
     let '(idx, c, warning, validFiles) :=
       cursor.main.loadCache fs d readErr home numCPU in
     cursor.cache.Load c d readErr = inr data ->
     warning = None
     /\ validFiles
        = Z.of_nat (length (filter (fun pe => statOk fs pe.1 = true) (map_to_list data)))
     /\ (forall path, statOk fs path = false -> cursor.indexer.files idx !! path = None)
     /\ (forall path e, cursor.indexer.files idx !! path = Some e ->
                        data !! path = Some (Some e)))
  /\ (forall home d (saved : windsurf.Indexer),
        windsurf.indexFilePath saved = windsurf.indexFilePath (windsurf.NewIndexer home) ->
        validFiles (windsurf.toRecord <$> windsurf.Files (windsurf.index saved)) ->
        windsurf.LoadIndex (windsurf.NewIndexer home)
          (windsurf.SaveIndex saved d disk.NoFault).1 None
        = Some (inr saved)).
Proof.
  split.
  - intros d readErr home numCPU data.
    pose proof (loadCache_index fs d readErr home numCPU) as Hidx.
    unfold cursor.main.loadCache in *.
    set (c := cursor.cache.NewCache _) in *.
    destruct (cursor.cache.Load c d readErr) as [err|data'] eqn:Hload.
    { lazy beta iota zeta. by rewrite Hload. }
    unfold cursor.main.reconcileAll in *. rewrite reconcile_foldl in *.
    lazy beta iota zeta. rewrite Hload. intros [= <-].
    split; [done|]. split; [done|].
    split; intros path; simpl; by rewrite ?lookup_empty.
  - intros home d [index path] Hpath Hvalid. simpl in Hpath. subst path.
    unfold windsurf.LoadIndex, windsurf.SaveIndex, disk.ReadFile. cbn.
    rewrite lookup_insert_eq.
    rewrite windsurf_Decode_Encode by done.
    rewrite allRecords_Some. by destruct index.
Qed.

Lemma reconciliation_by_variant_witness :
  windsurf.LoadIndex (windsurf.NewIndexer (inr "/home/u")) stale_disk None
  = Some (inr loaded_indexer).
Proof.
  apply (proj2 (reconciliation_by_variant empty_directory_fs)
           (inr "/home/u") ∅ loaded_indexer).
  - reflexivity.
  - apply (bool_decide_unpack _). by vm_compute.
Defined.

(** * Further properties *)

(** ** The search of [windsurf] *)

Section windsurf_search_facts.
Context `{unicode.CaseTables}.
Import windsurf.

Lemma windsurf_Search_elem idx keyword r :
  r ∈ Search idx keyword
  <-> exists key fileIndex line,
        Files (index idx) !! key = Some fileIndex
        /\ LineMap fileIndex !! LineNumber r = Some line
        /\ strings.Contains (strings.ToLower line) (strings.ToLower keyword) = true
        /\ FilePath r = Path fileIndex.
Proof.
  unfold Search. rewrite list_elem_of_bind. split.
  - intros ([key fileIndex] & Hr & Hf). apply elem_of_map_to_list in Hf.
    apply list_elem_of_bind in Hr as ([lineNum line] & Hr & Hl).
    apply elem_of_map_to_list in Hl.
    destruct (strings.Contains _ _) eqn:Hc; [|by apply elem_of_nil in Hr].
    apply list_elem_of_singleton in Hr as ->. by exists key, fileIndex, line.
  - intros (key & fileIndex & line & Hf & Hl & Hc & Hp).
    exists (key, fileIndex). split; [|by apply elem_of_map_to_list].
    apply list_elem_of_bind. exists (LineNumber r, line).
    split; [|by apply elem_of_map_to_list].
    rewrite Hc. apply list_elem_of_singleton. destruct r. simpl in *. by subst.
Qed.

Lemma windsurf_Search_NoDup idx keyword :
  (forall key fileIndex,
     Files (index idx) !! key = Some fileIndex -> Path fileIndex = key) ->
  NoDup (Search idx keyword).
Proof.
  intros Hkeys. unfold Search. apply NoDup_bind.
  - intros [k1 f1] [k2 f2] r Hf1 Hf2 Hr1 Hr2.
    apply elem_of_map_to_list in Hf1, Hf2.
    apply list_elem_of_bind in Hr1 as ([n1 l1] & Hr1 & _).
    apply list_elem_of_bind in Hr2 as ([n2 l2] & Hr2 & _).
    destruct (strings.Contains (strings.ToLower l1) _); [|by apply elem_of_nil in Hr1].
    destruct (strings.Contains (strings.ToLower l2) _); [|by apply elem_of_nil in Hr2].
    apply list_elem_of_singleton in Hr1, Hr2. subst r. injection Hr2 as Hp _.
    rewrite (Hkeys _ _ Hf1), (Hkeys _ _ Hf2) in Hp. subst k2.
    rewrite Hf1 in Hf2. by injection Hf2 as ->.
  - intros [key fileIndex] _. apply NoDup_bind.
    + intros [n1 l1] [n2 l2] r Hl1 Hl2 Hr1 Hr2.
      apply elem_of_map_to_list in Hl1, Hl2.
      destruct (strings.Contains (strings.ToLower l1) _); [|by apply elem_of_nil in Hr1].
      destruct (strings.Contains (strings.ToLower l2) _); [|by apply elem_of_nil in Hr2].
      apply list_elem_of_singleton in Hr1, Hr2. subst r. injection Hr2 as ->.
      rewrite Hl1 in Hl2. by injection Hl2 as ->.
    + intros [n l] _.
      destruct (strings.Contains _ _); [apply NoDup_singleton|apply NoDup_nil_2].
    + apply NoDup_map_to_list.
  - apply NoDup_map_to_list.
Qed.

End windsurf_search_facts.

(** X1.  The search of [windsurf] returns a result for a line of a record
    exactly when the line, in lower case, contains the keyword, in lower
    case; the result carries the path of the record and the number of the
    line, and nothing comes from elsewhere.  When every record is stored
    under its own path, as the indexing stores them, no result is
    returned twice. *)
Theorem windsurf_search_matching_lines `{unicode.CaseTables}
    (idx : windsurf.Indexer) (keyword : string) :
  (forall r,
     r ∈ windsurf.Search idx keyword
     <-> exists key fileIndex line,
           windsurf.Files (windsurf.index idx) !! key = Some fileIndex
           /\ windsurf.LineMap fileIndex !! windsurf.LineNumber r = Some line
           /\ strings.Contains (strings.ToLower line) (strings.ToLower keyword) = true
           /\ windsurf.FilePath r = windsurf.Path fileIndex)
  /\ ((forall key fileIndex,
         windsurf.Files (windsurf.index idx) !! key = Some fileIndex ->
         windsurf.Path fileIndex = key) ->
      NoDup (windsurf.Search idx keyword)).
Proof.
  split; [apply windsurf_Search_elem|apply windsurf_Search_NoDup].
Qed.

Lemma Contains_empty s : strings.Contains s "" = true.
Proof.
  unfold strings.Contains. destruct s; simpl; reflexivity.
Qed.

(** X2.  With the empty keyword the search of [windsurf] returns one result
    for every line of every record: the number of results is the number of
    lines that the index holds. *)
Theorem windsurf_search_empty_keyword `{unicode.CaseTables} (idx : windsurf.Indexer) :
  length (windsurf.Search idx "")
  = sum_list ((fun kf => size (windsurf.LineMap kf.2))
                <$> map_to_list (windsurf.Files (windsurf.index idx)))
  /\ forall key fileIndex lineNum line,
       windsurf.Files (windsurf.index idx) !! key = Some fileIndex ->
       windsurf.LineMap fileIndex !! lineNum = Some line ->
       {| windsurf.FilePath := windsurf.Path fileIndex;
          windsurf.LineNumber := lineNum |} ∈ windsurf.Search idx "".
Proof.
  split.
  - unfold windsurf.Search. rewrite ToLower_empty.
    induction (map_to_list (windsurf.Files (windsurf.index idx)))
      as [|[key fileIndex] l IH]; [done|].
    cbn [mbind list_bind fmap list_fmap sum_list sum_list_with].
    rewrite length_app. f_equal; [|exact IH].
    rewrite <- length_map_to_list. cbn [snd].
    induction (map_to_list (windsurf.LineMap fileIndex)) as [|[n line] ls IHl]; [done|].
    cbn [mbind list_bind]. rewrite Contains_empty. simpl. f_equal. exact IHl.
  - intros key fileIndex lineNum line Hf Hl. apply windsurf_Search_elem.
    exists key, fileIndex, line. rewrite ToLower_empty, Contains_empty. done.
Qed.

(** ** The counters of an indexing run *)

(** The calls of the walk function for the files of the tree. *)
Definition fileCall (c : string * option os.FileInfo * option error) : bool :=
  match c with
  | (_, Some info, None) => negb (os.IsDir info)
  | _ => false
  end.

(** The number of files that the walk of [root] finds. *)
Definition filesFound (fs : os.FileSystem) (root : string) : Z :=
  Z.of_nat (length (filter (fun c => fileCall c = true)
                      (calls root (os.lstatTree fs root)))).

Section cursor_counters.
Context `{unicode.CaseTables}.
Import cursor.indexer.

Lemma cursor_call_counters c st :
  Z.of_nat (length (sent (call walkFn st c))) + skippedFiles (call walkFn st c)
  = Z.of_nat (length (sent st)) + skippedFiles st
    + (if fileCall c then 1 else 0).
Proof.
  destruct c as [[path info] err]. unfold call, walkFn, fileCall. simpl.
  destruct err; simpl; [destruct info; lia|].
  destruct info as [info|]; [|simpl; lia].
  destruct (os.IsDir info); simpl; [lia|].
  destruct (_ || _); simpl; [lia|].
  destruct (_ <? _); simpl; rewrite ?length_app; simpl; lia.
Qed.

Lemma cursor_foldl_counters cs st :
  Z.of_nat (length (sent (foldl (call walkFn) st cs)))
  + skippedFiles (foldl (call walkFn) st cs)
  = Z.of_nat (length (sent st)) + skippedFiles st
    + Z.of_nat (length (filter (fun c => fileCall c = true) cs)).
Proof.
  revert st. induction cs as [|c cs IH]; intros st; simpl; [lia|].
  rewrite IH, cursor_call_counters, filter_cons.
  destruct (fileCall c); simpl; lia.
Qed.

Lemma cursor_workers_counters fs paths idx errors :
  let st := foldl (worker fs) (idx, errors) paths in
  indexed st.1 + Z.of_nat (length st.2)
  = indexed idx + Z.of_nat (length errors) + Z.of_nat (length paths)
  /\ skipped st.1 = skipped idx
  /\ Z.of_nat (size (files st.1)) - indexed st.1
     <= Z.of_nat (size (files idx)) - indexed idx.
Proof.
  revert idx errors. induction paths as [|path paths IH]; intros idx errors;
    cbn [foldl]; [simpl; lia|].
  unfold worker at 2 4 6 8 10. unfold indexFile.
  destruct (os.Open fs path) as [err|f].
  { specialize (IH idx (errors ++ [Wrapf ("error indexing " +:+ path)
       (Wrapf "failed to open file" (PathError "open" path err))])).
    cbv zeta in *. rewrite length_app in IH. simpl in *. lia. }
  destruct (scanFile path _ f) as [err|entry].
  { specialize (IH idx (errors ++ [Wrapf ("error indexing " +:+ path) err])).
    cbv zeta in *. rewrite length_app in IH. simpl in *. lia. }
  match goal with
  | |- context [foldl (worker fs) (?i, errors) paths] => specialize (IH i errors)
  end.
  cbv zeta in *. cbn [files indexed skipped workers length] in *.
  pose proof (map_size_insert (filepath.Abs (os.Getwd fs) path) entry (files idx)) as Hs.
  destruct (files idx !! _); unfold id in Hs; lia.
Qed.

End cursor_counters.

(** X3.  After a run of [IndexDirectory] in [cursor], every file that the
    walk has found is counted once: as indexed, as skipped, or by the error
    printed for it.  The store holds at most as many records as files
    were indexed, and the run returns no error. *)
Theorem cursor_run_counts_every_file `{unicode.CaseTables}
    (fs : os.FileSystem) (idx : cursor.indexer.Index) (root : string) :
  let run := cursor.indexer.IndexDirectory fs idx root in
  cursor.indexer.indexed (cursor.indexer.index run)
  + cursor.indexer.skipped (cursor.indexer.index run)
  + Z.of_nat (length (cursor.indexer.printed run))
  = filesFound fs root
  /\ Z.of_nat (size (cursor.indexer.files (cursor.indexer.index run)))
     <= cursor.indexer.indexed (cursor.indexer.index run)
  /\ cursor.indexer.returned run = None.
Proof.
  rewrite cursor_IndexDirectory_eq. cbv zeta. cbn [cursor.indexer.index
    cursor.indexer.printed cursor.indexer.returned].
  set (ws := foldl (call cursor.indexer.walkFn) _ _).
  pose proof (cursor_foldl_counters (calls root (os.lstatTree fs root))
                {| cursor.indexer.sent := []; cursor.indexer.skippedFiles := 0;
                   cursor.indexer.warnings := [] |}) as Hwalk.
  fold ws in Hwalk. simpl in Hwalk.
  pose proof (cursor_workers_counters fs (cursor.indexer.sent ws)
                {| cursor.indexer.files := ∅;
                   cursor.indexer.workers := cursor.indexer.workers idx;
                   cursor.indexer.indexed := 0;
                   cursor.indexer.skipped := cursor.indexer.skippedFiles ws |} [])
    as (Hidx & Hsk & Hsize).
  cbn [cursor.indexer.files cursor.indexer.indexed cursor.indexer.skipped length] in *.
  rewrite map_size_empty in Hsize. unfold filesFound.
  split; [lia|]. split; [lia|done].
Qed.

(** ** The records of an indexing run *)

Lemma cursor_scanFile_Path path absPath f e :
  cursor.indexer.scanFile path absPath f = inr e -> cursor.indexer.Path e = absPath.
Proof.
  unfold cursor.indexer.scanFile. destruct (os.fstat f); [done|].
  destruct (cursor.indexer.scanLoop _ _ _ _) as [sc lm].
  destruct (bufio.Err sc); [done|]. by intros [= <-].
Qed.

Lemma windsurf_scanFile_Path filePath f e :
  windsurf.scanFile filePath f = inr e -> windsurf.Path e = filePath.
Proof.
  unfold windsurf.scanFile. destruct (os.fstat f); [done|].
  destruct (windsurf.scanLoop _ _ _ _) as [sc lm].
  destruct (bufio.Err sc); [done|]. by intros [= <-].
Qed.

Section run_records.
Context `{unicode.CaseTables}.

(** The paths that the walk of [cursor] sends are the files of the tree
    that its walk function accepts. *)
Lemma cursor_sent_accepted fs root path :
  path ∈ cursor_sent fs root
  <-> exists size modTime,
        (path, Some (os.fileInfo size modTime), None)
        ∈ calls root (os.lstatTree fs root)
        /\ cursor_accepts path (os.fileInfo size modTime) = true.
Proof.
  unfold cursor_sent. rewrite list_elem_of_omap. split.
  - intros ([[p info] err] & Hc & E). unfold cursor_sends in E.
    destruct info as [info|]; [|done]. destruct err; [done|].
    destruct (cursor_accepts p info) eqn:Ha; [|done]. injection E as ->.
    assert (os.IsDir info = false) as Hd.
    { unfold cursor_accepts in Ha. by destruct (os.IsDir info). }
    destruct (calls_file_call _ _ _ _ _ Hc Hd) as (size & modTime & -> & _).
    by exists size, modTime.
  - intros (size & modTime & Hc & Ha). eexists. split; [exact Hc|].
    simpl. by rewrite Ha.
Qed.

(** The records after a run of [cursor]. *)
Lemma cursor_run_records fs idx root p e :
  cursor.indexer.files
    (cursor.indexer.index (cursor.indexer.IndexDirectory fs idx root)) !! p = Some e ->
  exists path f,
    path ∈ cursor_sent fs root /\ os.Open fs path = inr f
    /\ p = filepath.Abs (os.Getwd fs) path
    /\ cursor.indexer.scanFile path p f = inr e.
Proof.
  rewrite cursor_IndexDirectory_eq. cbv zeta. simpl.
  intros [Hl|(path & f & Hin & Hopen & -> & Hscan)]%cursor_workers_records.
  { simpl in Hl. by rewrite lookup_empty in Hl. }
  exists path, f. split; [|done].
  rewrite cursor_foldl_sent in Hin. by simpl in Hin.
Qed.

(** The records after a run of [windsurf]. *)
Lemma windsurf_run_records fs idx root p e :
  windsurf.Files (windsurf.index (windsurf.IndexDirectory fs idx root).1.1) !! p
  = Some e ->
  windsurf.Files (windsurf.index idx) !! p = Some e
  \/ exists f, file_under fs root p /\ windsurf_accepts fs p = true
               /\ os.Open fs p = inr f /\ windsurf.scanFile p f = inr e.
Proof.
  unfold windsurf.IndexDirectory.
  pose proof (windsurf_Walk_sent fs root) as Hsent.
  destruct (walk.Walk fs root (windsurf.walkFn fs) []) as [sent walkErr].
  pose proof (windsurf_workers_records fs sent (windsurf.Files (windsurf.index idx))
                [] p e) as Hrec.
  destruct (foldl (windsurf.worker fs) _ sent) as [files errors].
  intros Hl.
  assert (files !! p = Some e) as Hp by (by destruct (_ <? _)).
  destruct (Hrec Hp) as [?|(path & f & Hin & Hopen & -> & Hscan)]; [by left|].
  right. exists f. destruct (Hsent path Hin). done.
Qed.

End run_records.

(** X4.  Every record of the store is stored under its own path.  After a
    run of [IndexDirectory] in [cursor] the key of each record is its [Path]
    field; a run in [windsurf] keeps this invariant, which the new indexer
    of [handleIndex] satisfies. *)
Theorem records_are_stored_under_their_path `{unicode.CaseTables}
    (fs : os.FileSystem) (root : string) :
  (forall idx p e,
     cursor.indexer.files
       (cursor.indexer.index (cursor.indexer.IndexDirectory fs idx root)) !! p = Some e ->
     cursor.indexer.Path e = p)
  /\ (forall idx,
        (forall p e, windsurf.Files (windsurf.index idx) !! p = Some e ->
                     windsurf.Path e = p) ->
        forall p e,
          windsurf.Files (windsurf.index (windsurf.IndexDirectory fs idx root).1.1) !! p
          = Some e ->
          windsurf.Path e = p)
  /\ (forall home p e,
        windsurf.Files
          (windsurf.index
             (windsurf.IndexDirectory fs (windsurf.NewIndexer home) root).1.1) !! p
        = Some e ->
        windsurf.Path e = p).
Proof.
  split; [|split].
  - intros idx p e Hp.
    destruct (cursor_run_records fs idx root p e Hp) as (path & f & _ & _ & _ & Hscan).
    by apply cursor_scanFile_Path in Hscan.
  - intros idx Hinv p e Hp.
    destruct (windsurf_run_records fs idx root p e Hp) as [Hprior|(f & _ & _ & _ & Hscan)].
    + by apply Hinv.
    + by apply windsurf_scanFile_Path in Hscan.
  - intros home p e Hp.
    destruct (windsurf_run_records fs _ root p e Hp) as [Hprior|(f & _ & _ & _ & Hscan)].
    + simpl in Hprior. by rewrite lookup_empty in Hprior.
    + by apply windsurf_scanFile_Path in Hscan.
Qed.

(** ** What a run indexes *)

(** X5.  A run of [cursor] indexes no file with a binary extension, no file
    whose name starts with a dot and no file of more than 100 MiB: every
    record of the store is the scan of a file that the walk has found with
    a size of at most [100 * 1024 * 1024] bytes, and that the two name
    rules let pass; its key is the absolute path of the file. *)
Theorem cursor_indexes_accepted_files_only `{unicode.CaseTables}
    (fs : os.FileSystem) (idx : cursor.indexer.Index) (root p : string)
    (e : cursor.indexer.FileEntry) :
  cursor.indexer.files
    (cursor.indexer.index (cursor.indexer.IndexDirectory fs idx root)) !! p = Some e ->
  exists path size modTime f,
    (path, Some (os.fileInfo size modTime), None) ∈ calls root (os.lstatTree fs root)
    /\ size <= 100 * 1024 * 1024
    /\ cursor.indexer.isBinaryFile path = false
    /\ strings.HasPrefix (filepath.Base path) "." = false
    /\ p = filepath.Abs (os.Getwd fs) path
    /\ os.Open fs path = inr f
    /\ cursor.indexer.scanFile path p f = inr e.
Proof.
  intros Hp.
  destruct (cursor_run_records fs idx root p e Hp) as (path & f & Hin & Hopen & -> & Hscan).
  apply cursor_sent_accepted in Hin as (size & modTime & Hc & Ha).
  exists path, size, modTime, f. split; [done|].
  unfold cursor_accepts in Ha.
  apply andb_true_iff in Ha as [[_ Hb]%andb_true_iff Hsz].
  apply negb_true_iff, orb_false_iff in Hb as [Hb1 Hb2].
  apply negb_true_iff, Z.ltb_ge in Hsz. simpl in Hsz. done.
Qed.

Lemma cursor_indexes_accepted_files_only_witness :
  exists path size modTime f,
    (path, Some (os.fileInfo size modTime), None)
    ∈ calls "/data" (os.lstatTree faulty_fs "/data")
    /\ size <= 100 * 1024 * 1024
    /\ cursor.indexer.isBinaryFile (H := no_case_table) path = false
    /\ strings.HasPrefix (filepath.Base path) "." = false
    /\ "/data/a.txt" = filepath.Abs (os.Getwd faulty_fs) path
    /\ os.Open faulty_fs path = inr f
    /\ cursor.indexer.scanFile path "/data/a.txt" f
       = inr {| cursor.indexer.Path := "/data/a.txt";
                cursor.indexer.LineIndex := {[ 1 := "hello world" ]};
                cursor.indexer.Modified := 0 |}.
Proof.
  apply (@cursor_indexes_accepted_files_only no_case_table faulty_fs
           (cursor.indexer.NewIndex 4) "/data").
  vm_compute. reflexivity.
Defined.

(** X6.  A run of [windsurf] from a new indexer indexes text files only:
    every record of the store is the scan of a file that the walk has found
    under the root, whose extension, in lower case, is one of the text
    extensions, and for which [os.Stat] has reported a file of at most
    [10 * 1024 * 1024] bytes.  A file without extension is never
    indexed. *)
Theorem windsurf_indexes_text_files_only `{unicode.CaseTables}
    (fs : os.FileSystem) (home : error + string) (root p : string)
    (e : windsurf.FileIndex) :
  windsurf.Files
    (windsurf.index
       (windsurf.IndexDirectory fs (windsurf.NewIndexer home) root).1.1) !! p
  = Some e ->
  exists info f,
    file_under fs root p
    /\ os.Stat fs p = inr info /\ os.IsDir info = false
    /\ os.Size info <= 10 * 1024 * 1024
    /\ strings.ToLower (filepath.Ext p) ∈ windsurf.textExtensions
    /\ filepath.Ext p <> ""
    /\ os.Open fs p = inr f
    /\ windsurf.scanFile p f = inr e.
Proof.
  intros Hp.
  destruct (windsurf_run_records fs _ root p e Hp) as [Hprior|(f & Hu & Ha & Ho & Hs)].
  { simpl in Hprior. by rewrite lookup_empty in Hprior. }
  unfold windsurf_accepts in Ha. apply andb_true_iff in Ha as [Hshould Htext].
  unfold windsurf.ShouldIndexFile in Hshould.
  destruct (os.Stat fs p) as [|info]; [done|].
  destruct (os.IsDir info) eqn:Hd; [done|].
  destruct (Z.ltb_spec (10 * 1024 * 1024) (os.Size info)) as [|Hsz]; [done|].
  assert (strings.ToLower (filepath.Ext p) ∈ windsurf.textExtensions) as Hext.
  { unfold windsurf.IsTextFile in Htext. apply existsb_exists in Htext as (x & Hx & Hb).
    apply bool_decide_eq_true_1 in Hb as ->. by apply list_elem_of_In. }
  exists info, f. repeat (split; [done|]). split; [|done].
  intros E. rewrite E, ToLower_empty in Hext. revert Hext.
  apply (bool_decide_eq_false_1 ("" ∈ windsurf.textExtensions)). by vm_compute.
Qed.

Lemma windsurf_indexes_text_files_only_witness :
  exists info f,
    file_under faulty_fs "/data" "/data/a.txt"
    /\ os.Stat faulty_fs "/data/a.txt" = inr info /\ os.IsDir info = false
    /\ os.Size info <= 10 * 1024 * 1024
    /\ strings.ToLower (H := no_case_table) (filepath.Ext "/data/a.txt")
       ∈ windsurf.textExtensions
    /\ filepath.Ext "/data/a.txt" <> ""
    /\ os.Open faulty_fs "/data/a.txt" = inr f
    /\ windsurf.scanFile "/data/a.txt" f
       = inr {| windsurf.Path := "/data/a.txt";
                windsurf.LineMap := {[ 1 := "hello world" ]};
                windsurf.Modified := 0 |}.
Proof.
  apply (@windsurf_indexes_text_files_only no_case_table faulty_fs
           (inr "/home/u") "/data").
  vm_compute. reflexivity.
Defined.

(** ** Files that a run does not miss *)

Section run_complete.
Context `{unicode.CaseTables}.

Lemma cursor_workers_keep fs paths idx errors p :
  is_Some (cursor.indexer.files idx !! p) ->
  is_Some (cursor.indexer.files
             (foldl (cursor.indexer.worker fs) (idx, errors) paths).1 !! p).
Proof.
  revert idx errors. induction paths as [|path paths IH]; intros idx errors Hp;
    cbn [foldl fst]; [done|].
  unfold cursor.indexer.worker at 2. unfold cursor.indexer.indexFile.
  destruct (os.Open fs path) as [err|f]; [by apply IH|].
  destruct (cursor.indexer.scanFile path _ f) as [err|entry]; [by apply IH|].
  apply IH. simpl.
  destruct (decide (filepath.Abs (os.Getwd fs) path = p)) as [->|Hne].
  - by rewrite lookup_insert_eq.
  - by rewrite lookup_insert_ne.
Qed.

Lemma cursor_workers_complete fs paths idx errors path f e :
  path ∈ paths -> os.Open fs path = inr f ->
  cursor.indexer.scanFile path (filepath.Abs (os.Getwd fs) path) f = inr e ->
  is_Some (cursor.indexer.files
             (foldl (cursor.indexer.worker fs) (idx, errors) paths).1
           !! filepath.Abs (os.Getwd fs) path).
Proof.
  intros Hin Hopen Hscan. revert idx errors.
  induction paths as [|q paths IH]; intros idx errors; [by apply elem_of_nil in Hin|].
  cbn [foldl fst]. apply elem_of_cons in Hin as [<-|Hin].
  2:{ destruct (cursor.indexer.worker fs (idx, errors) q). by apply IH. }
  unfold cursor.indexer.worker at 2. unfold cursor.indexer.indexFile.
  rewrite Hopen, Hscan. apply cursor_workers_keep. simpl.
  by rewrite lookup_insert_eq.
Qed.

End run_complete.

(** X7.  A run of [cursor] misses no file that it can read: whatever happens
    to the other files of the tree, a file that the walk finds, that the
    classifier lets pass (no binary extension, no name starting with a dot,
    at most 100 MiB) and that is opened and scanned without error has a
    record in the store, under its absolute path. *)
Theorem cursor_indexes_every_readable_file `{unicode.CaseTables}
    (fs : os.FileSystem) (idx : cursor.indexer.Index) (root path : string)
    (size modTime : Z) (f : os.file) (e : cursor.indexer.FileEntry) :
  (path, Some (os.fileInfo size modTime), None) ∈ calls root (os.lstatTree fs root) ->
  cursor.indexer.isBinaryFile path = false ->
  strings.HasPrefix (filepath.Base path) "." = false ->
  size <= 100 * 1024 * 1024 ->
  os.Open fs path = inr f ->
  cursor.indexer.scanFile path (filepath.Abs (os.Getwd fs) path) f = inr e ->
  exists e',
    cursor.indexer.files
      (cursor.indexer.index (cursor.indexer.IndexDirectory fs idx root))
    !! filepath.Abs (os.Getwd fs) path = Some e'
    /\ cursor.indexer.Path e' = filepath.Abs (os.Getwd fs) path.
Proof.
  intros Hc Hbin Hdot Hsize Hopen Hscan.
  assert (path ∈ cursor_sent fs root) as Hsent.
  { apply cursor_sent_accepted. exists size, modTime. split; [done|].
    unfold cursor_accepts. rewrite Hbin, Hdot. simpl.
    apply negb_true_iff, Z.ltb_ge. simpl. lia. }
  assert (is_Some (cursor.indexer.files
            (cursor.indexer.index (cursor.indexer.IndexDirectory fs idx root))
            !! filepath.Abs (os.Getwd fs) path)) as [e' He'].
  { rewrite cursor_IndexDirectory_eq. cbv zeta. simpl.
    apply (cursor_workers_complete fs _ _ _ path f e); [|done..].
    rewrite cursor_foldl_sent. by simpl. }
  exists e'. split; [done|].
  destruct (cursor_run_records fs idx root _ e' He') as (path' & f' & _ & _ & _ & Hscan').
  by apply cursor_scanFile_Path in Hscan'.
Qed.

Lemma cursor_indexes_every_readable_file_witness :
  exists e',
    cursor.indexer.files
      (cursor.indexer.index
         (cursor.indexer.IndexDirectory (H := no_case_table) faulty_fs
            (cursor.indexer.NewIndex 4) "/data"))
    !! filepath.Abs (os.Getwd faulty_fs) "/data/z.txt" = Some e'
    /\ cursor.indexer.Path e' = filepath.Abs (os.Getwd faulty_fs) "/data/z.txt".
Proof.
  apply (@cursor_indexes_every_readable_file no_case_table faulty_fs
           (cursor.indexer.NewIndex 4) "/data" "/data/z.txt" 8 0
           {| os.fstat := inr (os.fileInfo 8 0);
              os.contents := "foo bar" +:+ String LF "" |}
           {| cursor.indexer.Path := "/data/z.txt";
              cursor.indexer.LineIndex := {[ 1 := "foo bar" ]};
              cursor.indexer.Modified := 0 |}).
  - vm_compute. right. right. right. left.
  - reflexivity.
  - reflexivity.
  - lia.
  - reflexivity.
  - vm_compute. reflexivity.
Defined.

Section windsurf_run.
Context `{unicode.CaseTables}.

(** Without an error on the way, the walk of [windsurf] sends every
    accepted file of the tree. *)
Lemma windsurf_Walk_complete fs root :
  walkErrors root (os.lstatTree fs root) = [] ->
  walk.Walk fs root (windsurf.walkFn fs) []
  = (omap (windsurf_sends fs) (calls root (os.lstatTree fs root)), None).
Proof.
  intros Herr. pose proof (proj1 (walkErrors_nil _ _) Herr) as Hok.
  unfold walk.Walk.
  rewrite walk_complete_if.
  - rewrite windsurf_foldl_sent; [done|]. by apply Forall_forall.
  - intros c st Hc. rewrite windsurf_walkFn_error. by apply Hok.
Qed.

Lemma windsurf_workers_errors fs paths files errors :
  (foldl (windsurf.worker fs) (files, errors) paths).2 = errors
  <-> forall p, p ∈ paths -> exists e, windsurf.indexFile fs p = inr e.
Proof.
  assert (forall paths files errors,
            length errors
            <= length (foldl (windsurf.worker fs) (files, errors) paths).2)%nat
    as Hmono.
  { clear. intros paths. induction paths as [|q paths IH]; intros files errors;
      cbn [foldl]; [done|].
    unfold windsurf.worker at 2. destruct (windsurf.indexFile fs q).
    - etransitivity; [|apply IH]. rewrite length_app. simpl. lia.
    - apply IH. }
  revert files errors. induction paths as [|q paths IH]; intros files errors;
    cbn [foldl].
  { split; [by intros _ p Hp%elem_of_nil|done]. }
  unfold windsurf.worker at 2. destruct (windsurf.indexFile fs q) as [err|e] eqn:Hq.
  - split.
    + intros E.
      pose proof (Hmono paths files (errors ++ [Wrapf ("error indexing " +:+ q) err]))
        as Hle.
      rewrite E, length_app in Hle. simpl in Hle. lia.
    + intros Hall. destruct (Hall q ltac:(by left)) as [e He]. congruence.
  - rewrite IH. split.
    + intros Hall p [->|Hp]%elem_of_cons; [by eexists|by apply Hall].
    + intros Hall p Hp. apply Hall. by right.
Qed.

Lemma windsurf_workers_complete fs paths files errors path e :
  path ∈ paths -> windsurf.indexFile fs path = inr e ->
  (foldl (windsurf.worker fs) (files, errors) paths).1 !! path = Some e.
Proof.
  intros Hin He.
  assert (windsurf.Path e = path) as HP.
  { unfold windsurf.indexFile in He. destruct (os.Open fs path); [done|].
    by apply windsurf_scanFile_Path in He. }
  assert (forall paths files errors,
            files !! path = Some e ->
            (foldl (windsurf.worker fs) (files, errors) paths).1 !! path = Some e)
    as Hkeep.
  { clear Hin. intros ps. induction ps as [|q ps IH]; intros fl errs Hl;
      cbn [foldl]; [done|].
    unfold windsurf.worker at 2. destruct (windsurf.indexFile fs q) as [err|e'] eqn:Hq;
      [by apply IH|].
    apply IH. destruct (decide (windsurf.Path e' = path)) as [Hp|Hp].
    - rewrite Hp, lookup_insert_eq. f_equal.
      assert (q = path) as ->; [|congruence].
      unfold windsurf.indexFile in Hq. destruct (os.Open fs q); [done|].
      apply windsurf_scanFile_Path in Hq. congruence.
    - by rewrite lookup_insert_ne. }
  revert files errors. induction paths as [|q paths IH]; intros files errors;
    [by apply elem_of_nil in Hin|].
  cbn [foldl]. apply elem_of_cons in Hin as [<-|Hin].
  - unfold windsurf.worker at 2. rewrite He. apply Hkeep.
    by rewrite HP, lookup_insert_eq.
  - destruct (windsurf.worker fs (files, errors) q). by apply IH.
Qed.

End windsurf_run.

Section windsurf_run_theorems.
Context `{unicode.CaseTables}.

Lemma windsurf_sends_elem fs root p :
  p ∈ omap (windsurf_sends fs) (calls root (os.lstatTree fs root))
  <-> file_under fs root p /\ windsurf_accepts fs p = true.
Proof.
  rewrite list_elem_of_omap. split.
  - intros ([[q info] err] & Hc & E). unfold windsurf_sends in E.
    destruct info as [info|]; [|done]. destruct err; [done|].
    destruct (os.IsDir info) eqn:Hd; [done|]. simpl in E.
    destruct (windsurf_accepts fs q) eqn:Ha; [|done]. injection E as ->.
    destruct (calls_file_call _ _ _ _ _ Hc Hd) as (size & modTime & -> & _).
    split; [|done]. by exists size, modTime.
  - intros [(size & modTime & Hc) Ha]. eexists. split; [exact Hc|].
    simpl. by rewrite Ha.
Qed.

Lemma windsurf_IndexDirectory_no_error fs idx root :
  (windsurf.IndexDirectory fs idx root).2 = None
  <-> walkErrors root (os.lstatTree fs root) = []
      /\ forall p, file_under fs root p -> windsurf_accepts fs p = true ->
                   exists e, windsurf.indexFile fs p = inr e.
Proof.
  unfold windsurf.IndexDirectory.
  pose proof (windsurf_Walk_error fs root []) as Hw.
  destruct (walk.Walk fs root (windsurf.walkFn fs) []) as [sent walkErr] eqn:Hwalk.
  simpl in Hw.
  pose proof (windsurf_workers_errors fs sent (windsurf.Files (windsurf.index idx)) [])
    as Herrs.
  destruct (foldl (windsurf.worker fs) _ sent) as [files errors]. simpl in Herrs.
  assert (walkErr = None <-> walkErrors root (os.lstatTree fs root) = []) as Hnone.
  { rewrite Hw. unfold walkErrors. clear.
    induction (calls root (os.lstatTree fs root)) as [|[[p i] [e|]] l IH]; simpl;
      [done|done|exact IH]. }
  split.
  - intros Hret.
    assert (walkErr = None /\ errors = []) as [-> ->].
    { destruct walkErr; [|destruct errors; [done|]].
      - rewrite length_app in Hret. simpl in Hret.
        destruct (Z.ltb_spec 0 (Z.of_nat (length errors + 1))); [done|lia].
      - simpl in Hret. done. }
    pose proof (proj1 Hnone eq_refl) as Hok. split; [done|].
    rewrite (windsurf_Walk_complete fs root Hok) in Hwalk. injection Hwalk as <-.
    intros p Hu Ha. apply (proj1 Herrs eq_refl). by apply windsurf_sends_elem.
  - intros [Hok Hall]. rewrite (windsurf_Walk_complete fs root Hok) in Hwalk.
    injection Hwalk as <- <-.
    assert (errors = []) as ->.
    { apply Herrs. intros p [??]%windsurf_sends_elem. by apply Hall. }
    done.
Qed.

End windsurf_run_theorems.

(** X8.  When the walk of [windsurf] meets no error and the call of
    [IndexDirectory] returns, the run has missed no file that it can read:
    a file found under the root that [ShouldIndexFile] and [IsTextFile]
    accept and that [indexFile] reads has its record in the store, under
    its path, also when [indexFile] has failed on other files. *)
Theorem windsurf_indexes_every_readable_file `{unicode.CaseTables}
    (fs : os.FileSystem) (idx idx' : windsurf.Indexer) (root p : string)
    (e : windsurf.FileIndex) (count : Z) (err : option error) :
  walkErrors root (os.lstatTree fs root) = [] ->
  file_under fs root p ->
  windsurf.ShouldIndexFile fs p = true -> windsurf.IsTextFile p = true ->
  windsurf.indexFile fs p = inr e ->
  windsurf.IndexDirectory_outcome fs idx root (windsurf.Returns idx' count err) ->
  windsurf.Files (windsurf.index idx') !! p = Some e.
Proof.
  intros Hok Hu Hshould Htext He Ho. cbn [windsurf.IndexDirectory_outcome] in Ho.
  assert (idx' = (windsurf.IndexDirectory fs idx root).1.1) as ->
    by (by rewrite <- Ho).
  clear Ho. unfold windsurf.IndexDirectory.
  rewrite (windsurf_Walk_complete fs root Hok).
  pose proof (windsurf_workers_complete fs
                (omap (windsurf_sends fs) (calls root (os.lstatTree fs root)))
                (windsurf.Files (windsurf.index idx)) [] p e) as Hl.
  destruct (foldl (windsurf.worker fs) _ _) as [files errors].
  simpl in Hl.
  assert (files !! p = Some e) as Hp.
  { apply Hl; [|done]. apply windsurf_sends_elem. split; [done|].
    unfold windsurf_accepts. by rewrite Hshould, Htext. }
  by destruct (_ <? _).
Qed.

(** X9.  How a call of [IndexDirectory] in [windsurf] ends.  It can return
    without an error exactly when the walk meets no error and [indexFile]
    reads every accepted file of the tree; it can panic exactly when
    [indexFile] fails on a path that the walk has sent, so never when
    every accepted file can be read.  When it returns, the number that it
    returns is the number of records in the store, and no record that the
    store held before the run is removed. *)
Theorem windsurf_run_outcome `{unicode.CaseTables}
    (fs : os.FileSystem) (idx : windsurf.Indexer) (root : string) :
  ((exists idx' count,
      windsurf.IndexDirectory_outcome fs idx root (windsurf.Returns idx' count None))
   <-> walkErrors root (os.lstatTree fs root) = []
       /\ forall p, file_under fs root p ->
                    windsurf.ShouldIndexFile fs p && windsurf.IsTextFile p = true ->
                    exists e, windsurf.indexFile fs p = inr e)
  /\ (windsurf.IndexDirectory_outcome fs idx root windsurf.Panics
      <-> exists p err, p ∈ windsurf.sentPaths fs root
                        /\ windsurf.indexFile fs p = inl err)
  /\ ((forall p, file_under fs root p ->
                 windsurf.ShouldIndexFile fs p && windsurf.IsTextFile p = true ->
                 exists e, windsurf.indexFile fs p = inr e) ->
      ~ windsurf.IndexDirectory_outcome fs idx root windsurf.Panics)
  /\ forall idx' count err,
       windsurf.IndexDirectory_outcome fs idx root (windsurf.Returns idx' count err) ->
       count = Z.of_nat (size (windsurf.Files (windsurf.index idx')))
       /\ forall p, is_Some (windsurf.Files (windsurf.index idx) !! p) ->
                    is_Some (windsurf.Files (windsurf.index idx') !! p).
Proof.
  split; [|split; [|split]].
  - pose proof (windsurf_IndexDirectory_no_error fs idx root) as Hiff.
    unfold windsurf_accepts in Hiff. rewrite <- Hiff. clear Hiff. split.
    + intros (idx' & count & Ho). cbn [windsurf.IndexDirectory_outcome] in Ho.
      by rewrite <- Ho.
    + intros Hnone.
      destruct (windsurf.IndexDirectory fs idx root) as [[idx' count] err] eqn:E.
      simpl in Hnone. subst err. exists idx', count. simpl. by rewrite E.
  - cbn [windsurf.IndexDirectory_outcome]. split;
      [apply windsurf_failedPaths_elem|].
    intros (p & err & Hin & Hp) Hnil.
    assert (p ∈ windsurf.failedPaths fs root) as Hf;
      [|rewrite Hnil in Hf; by apply elem_of_nil in Hf].
    unfold windsurf.failedPaths. apply list_elem_of_In, filter_In.
    split; [by apply list_elem_of_In|by rewrite Hp].
  - intros Hall Hp. cbn [windsurf.IndexDirectory_outcome] in Hp. apply Hp.
    apply windsurf_failedPaths_nil. intros p Hin.
    apply windsurf_Walk_sent in Hin as [Hu Ha]. by apply Hall.
  - intros idx' count err Ho. cbn [windsurf.IndexDirectory_outcome] in Ho.
    revert Ho. unfold windsurf.IndexDirectory.
    destruct (walk.Walk fs root (windsurf.walkFn fs) []) as [sent walkErr].
    pose proof (windsurf_workers_keep fs sent (windsurf.Files (windsurf.index idx)) [])
      as Hkeep.
    destruct (foldl (windsurf.worker fs) _ sent) as [files errors]. simpl in Hkeep.
    by destruct (_ <? _); intros [= -> -> ->].
Qed.

Lemma windsurf_indexes_every_readable_file_witness :
  windsurf.Files
    (windsurf.index
       (windsurf.IndexDirectory (H := no_case_table) hidden_and_vendored_fs
          (windsurf.NewIndexer (inr "/home/u")) "/data").1.1)
  !! "/data/.hidden.txt"
  = Some {| windsurf.Path := "/data/.hidden.txt";
            windsurf.LineMap := {[ 1 := "secret" ]};
            windsurf.Modified := 0 |}.
Proof.
  apply (@windsurf_indexes_every_readable_file no_case_table hidden_and_vendored_fs
           (windsurf.NewIndexer (inr "/home/u")) _ "/data" "/data/.hidden.txt" _
           (windsurf.IndexDirectory (H := no_case_table) hidden_and_vendored_fs
              (windsurf.NewIndexer (inr "/home/u")) "/data").1.2
           (windsurf.IndexDirectory (H := no_case_table) hidden_and_vendored_fs
              (windsurf.NewIndexer (inr "/home/u")) "/data").2).
  - reflexivity.
  - exists 7, 0. vm_compute. right. left.
  - reflexivity.
  - reflexivity.
  - vm_compute. reflexivity.
  - vm_compute. reflexivity.
Defined.

(** ** The lines of a record and the bytes of the file *)

(** The text whose lines are [lines]: every line is followed by a line
    feed. *)
Fixpoint unlines (lines : list string) : string :=
  match lines with
  | [] => EmptyString
  | line :: lines' => line +:+ String LF (unlines lines')
  end.

(** The number of bytes of [data] equal to [c]. *)
Fixpoint countByte (c : ascii) (data : string) : nat :=
  match data with
  | EmptyString => 0
  | String d data' => (if bool_decide (d = c) then 1 else 0) + countByte c data'
  end.

(** The last byte of [data] is a line feed, or [data] is empty. *)
Fixpoint endsLines (data : string) : bool :=
  match data with
  | EmptyString => true
  | String c EmptyString => bool_decide (c = LF)
  | String _ data' => endsLines data'
  end.

Lemma spec_segments_nil data : spec_segments data = [] -> data = "".
Proof.
  destruct data as [|c rest]; [done|]. simpl.
  destruct (bool_decide (c = LF)); [done|]. by destruct (spec_segments rest).
Qed.

Lemma spec_segments_unlines data :
  unlines (spec_segments data)
  = if endsLines data then data else data +:+ String LF "".
Proof.
  induction data as [|c rest IH]; [done|].
  cbn [spec_segments endsLines]. case_bool_decide as Hc.
  - subst c. cbn [unlines]. rewrite string_app_nil_l, IH.
    destruct rest as [|d rest']; [done|].
    destruct (endsLines (String d rest')); done.
  - destruct (spec_segments rest) as [|seg segs] eqn:E.
    + apply spec_segments_nil in E as ->. cbn [unlines endsLines].
      by rewrite ?(bool_decide_eq_false_2 (c = LF)).
    + cbn [unlines] in *. rewrite string_app_cons, IH.
      destruct rest as [|d rest']; [done|].
      destruct (endsLines (String d rest')); done.
Qed.

Lemma spec_segments_no_LF data :
  Forall (fun seg => bytes.IndexByte seg LF = -1) (spec_segments data).
Proof.
  induction data as [|c rest IH]; [by constructor|]. simpl.
  case_bool_decide as Hc; [by constructor|].
  destruct (spec_segments rest) as [|seg segs].
  - repeat constructor. simpl. by rewrite bool_decide_eq_false_2.
  - apply Forall_cons in IH as [Hseg Hsegs]. constructor; [|done].
    simpl. rewrite bool_decide_eq_false_2 by done. by rewrite Hseg.
Qed.

Lemma spec_segments_length data :
  length (spec_segments data)
  = (countByte LF data + if endsLines data then 0 else 1)%nat.
Proof.
  induction data as [|c rest IH]; [done|].
  cbn [spec_segments countByte endsLines]. case_bool_decide as Hc.
  - simpl. rewrite IH. destruct rest as [|d rest']; [done|].
    destruct (endsLines (String d rest')); lia.
  - destruct (spec_segments rest) as [|seg segs] eqn:E.
    + apply spec_segments_nil in E as ->. cbn [countByte endsLines length].
      by rewrite ?(bool_decide_eq_false_2 (c = LF)).
    + simpl in *. rewrite IH. destruct rest as [|d rest']; [done|].
      destruct (endsLines (String d rest')); lia.
Qed.

Lemma IndexByte_cons_none c rest d :
  bytes.IndexByte (String c rest) d = -1 <-> c <> d /\ bytes.IndexByte rest d = -1.
Proof.
  simpl. pose proof (IndexByte_range rest d). case_bool_decide as Hc.
  - split; [done|]. by intros [? _].
  - destruct (Z.ltb_spec (bytes.IndexByte rest d) 0); split.
    + intros _. split; [done|lia].
    + done.
    + lia.
    + intros [_ ?]. lia.
Qed.

Lemma dropCR_no_LF seg :
  bytes.IndexByte seg LF = -1 -> bytes.IndexByte (bufio.dropCR seg) LF = -1.
Proof.
  induction seg as [|c rest IH]; [done|]. intros [Hc Hrest]%IndexByte_cons_none.
  destruct rest as [|d rest'].
  - simpl. case_bool_decide; [done|]. by apply IndexByte_cons_none.
  - change (bufio.dropCR (String c (String d rest')))
      with (String c (bufio.dropCR (String d rest'))).
    apply IndexByte_cons_none. split; [done|]. by apply IH.
Qed.

Lemma cursor_scanFile_inv path absPath f e :
  cursor.indexer.scanFile path absPath f = inr e ->
  exists info,
    os.fstat f = inr info
    /\ e = {| cursor.indexer.Path := absPath;
              cursor.indexer.LineIndex := numberFrom 1 (spec_segments (os.contents f)) ∅;
              cursor.indexer.Modified := os.ModTime info |}.
Proof.
  intros Hscan. destruct (os.fstat f) as [err|info] eqn:Hstat.
  { unfold cursor.indexer.scanFile in Hscan. by rewrite Hstat in Hscan. }
  exists info. split; [done|].
  destruct (decide (Forall (fun seg => len seg < cursor.indexer.maxScannerBufferSize)
                      (spec_segments (os.contents f)))) as [Hshort|Hlong].
  - rewrite (cursor_scanFile_lines _ _ _ info) in Hscan by done. by injection Hscan.
  - apply not_Forall_Exists in Hlong; [|apply _].
    rewrite (cursor_scanFile_too_long _ _ _ info) in Hscan; [done|done|].
    eapply Exists_impl; [exact Hlong|]. simpl. intros. lia.
Qed.

Lemma windsurf_scanFile_inv filePath f e :
  windsurf.scanFile filePath f = inr e ->
  exists info,
    os.fstat f = inr info
    /\ e = {| windsurf.Path := filePath;
              windsurf.LineMap :=
                numberFrom 1 (bufio.dropCR <$> spec_segments (os.contents f)) ∅;
              windsurf.Modified := os.ModTime info |}.
Proof.
  intros Hscan. destruct (os.fstat f) as [err|info] eqn:Hstat.
  { unfold windsurf.scanFile in Hscan. by rewrite Hstat in Hscan. }
  exists info. split; [done|].
  destruct (decide (Forall (fun seg => len seg < bufio.MaxScanTokenSize)
                      (spec_segments (os.contents f)))) as [Hshort|Hlong].
  - rewrite (windsurf_scanFile_lines _ _ info) in Hscan by done. by injection Hscan.
  - apply not_Forall_Exists in Hlong; [|apply _].
    rewrite (windsurf_scanFile_too_long _ _ info) in Hscan; [done|done|].
    eapply Exists_impl; [exact Hlong|]. simpl. intros. lia.
Qed.

(** X10.  The record that [cursor] makes of a file holds the bytes of the
    file: its lines are numbered from 1 without a gap, and the lines in
    this order, each followed by a line feed, are the bytes of the file,
    with one line feed added when the file does not end with one. *)
Theorem cursor_record_holds_the_file
    (path absPath : string) (f : os.file) (e : cursor.indexer.FileEntry) :
  cursor.indexer.scanFile path absPath f = inr e ->
  exists lines,
    (forall n, cursor.indexer.LineIndex e !! n
               = if decide (1 <= n <= Z.of_nat (length lines))
                 then lines !! Z.to_nat (n - 1) else None)
    /\ unlines lines
       = if endsLines (os.contents f) then os.contents f
         else os.contents f +:+ String LF "".
Proof.
  intros (info & _ & ->)%cursor_scanFile_inv.
  exists (spec_segments (os.contents f)). split.
  - apply numberFrom_1_lookup.
  - apply spec_segments_unlines.
Qed.

(** The record of the file [a.txt]. *)
Definition a_txt_entry : cursor.indexer.FileEntry :=
  {| cursor.indexer.Path := "/tmp/a.txt";
     cursor.indexer.LineIndex := {[ 1 := "hello world"; 2 := "foo bar" ]};
     cursor.indexer.Modified := 1700000000 |}.

Lemma cursor_record_holds_the_file_witness :
  exists lines,
    (forall n, cursor.indexer.LineIndex a_txt_entry !! n
               = if decide (1 <= n <= Z.of_nat (length lines))
                 then lines !! Z.to_nat (n - 1) else None)
    /\ unlines lines
       = if endsLines (os.contents a_txt) then os.contents a_txt
         else os.contents a_txt +:+ String LF "".
Proof.
  apply (cursor_record_holds_the_file "a.txt" "/tmp/a.txt" a_txt a_txt_entry).
  vm_compute. reflexivity.
Defined.

(** X11.  In both variants a record has one line for every line feed of the
    file, and one more when the file does not end with a line feed; the
    lines are numbered from 1 without a gap, and no line holds a line
    feed. *)
Theorem records_have_one_line_per_line_feed
    (path absPath : string) (f : os.file) :
  let count :=
    Z.of_nat (countByte LF (os.contents f)
              + if endsLines (os.contents f) then 0 else 1) in
  (forall e, cursor.indexer.scanFile path absPath f = inr e ->
     forall n,
       (1 <= n <= count <-> is_Some (cursor.indexer.LineIndex e !! n))
       /\ forall line, cursor.indexer.LineIndex e !! n = Some line ->
                       bytes.IndexByte line LF = -1)
  /\ (forall e, windsurf.scanFile path f = inr e ->
        forall n,
          (1 <= n <= count <-> is_Some (windsurf.LineMap e !! n))
          /\ forall line, windsurf.LineMap e !! n = Some line ->
                          bytes.IndexByte line LF = -1).
Proof.
  cbv zeta. rewrite <- spec_segments_length. split.
  - intros e (info & _ & ->)%cursor_scanFile_inv n. simpl.
    rewrite numberFrom_1_lookup. case_decide as Hn.
    + split.
      * split; [|done]. intros _. apply lookup_lt_is_Some. lia.
      * intros line Hl. pose proof (spec_segments_no_LF (os.contents f)) as Hno.
        rewrite Forall_lookup in Hno. by apply (Hno _ _ Hl).
    + split; [|done]. split; [done|]. by intros [? ?].
  - intros e (info & _ & ->)%windsurf_scanFile_inv n. simpl.
    rewrite numberFrom_1_lookup, length_fmap. case_decide as Hn.
    + split.
      * split; [|done]. intros _. apply lookup_lt_is_Some. rewrite length_fmap. lia.
      * intros line Hl. rewrite list_lookup_fmap in Hl.
        destruct (spec_segments (os.contents f) !! Z.to_nat (n - 1)) as [seg|] eqn:Hs;
          [|done].
        injection Hl as <-. apply dropCR_no_LF.
        pose proof (spec_segments_no_LF (os.contents f)) as Hno.
        rewrite Forall_lookup in Hno. by apply (Hno _ _ Hs).
    + split; [|done]. split; [done|]. by intros [? ?].
Qed.

(** ** Indexing, then searching *)

(** X12.  In [cursor], what a search returns after a run of
    [IndexDirectory] comes from the files of this run: every result names
    the absolute path of a file that the walk has found under the root and
    that has been opened and scanned during the run, and its line is the
    line of that number in the scan; the line, in lower case, contains the
    keyword, in lower case. *)
Theorem cursor_search_after_indexing `{unicode.CaseTables}
    (fs : os.FileSystem) (idx : cursor.indexer.Index) (root keyword : string)
    (r : cursor.search.SearchResult) :
  r ∈ cursor.search.Search
        (cursor.indexer.index (cursor.indexer.IndexDirectory fs idx root)) keyword ->
  exists path f e,
    file_under fs root path
    /\ os.Open fs path = inr f
    /\ cursor.search.FilePath r = filepath.Abs (os.Getwd fs) path
    /\ cursor.indexer.scanFile path (cursor.search.FilePath r) f = inr e
    /\ cursor.indexer.LineIndex e !! cursor.search.LineNumber r
       = Some (cursor.search.Line r)
    /\ strings.Contains (strings.ToLower (cursor.search.Line r))
         (strings.ToLower keyword) = true.
Proof.
  intros (e & Hf & Hl & Hc & Hpos)%Search_elem.
  destruct (cursor_run_records fs idx root _ e Hf) as (path & f & Hin & Hopen & Hp & Hscan).
  exists path, f, e. apply cursor_sent_file_under in Hin as [Hu _].
  repeat (split; [done|]). apply Count_positive. by rewrite <- Hc.
Qed.

Lemma cursor_search_after_indexing_witness :
  exists path f e,
    file_under faulty_fs "/data" path
    /\ os.Open faulty_fs path = inr f
    /\ "/data/z.txt" = filepath.Abs (os.Getwd faulty_fs) path
    /\ cursor.indexer.scanFile path "/data/z.txt" f = inr e
    /\ cursor.indexer.LineIndex e !! 1 = Some "foo bar"
    /\ strings.Contains (strings.ToLower (H := no_case_table) "foo bar")
         (strings.ToLower (H := no_case_table) "BAR") = true.
Proof.
  apply (@cursor_search_after_indexing no_case_table faulty_fs
           (cursor.indexer.NewIndex 4) "/data" "BAR"
           {| cursor.search.FilePath := "/data/z.txt";
              cursor.search.LineNumber := 1;
              cursor.search.Line := "foo bar";
              cursor.search.MatchCount := 1 |}).
  vm_compute. left.
Defined.

(** X13.  In [windsurf], a search after a call of [IndexDirectory] that has
    returned, and that has met no error on its walk, finds every matching
    line of every file that the run could read: for a file found under the
    root, accepted by the classifier and read by [indexFile], every line
    that, in lower case, contains the keyword, in lower case, is returned
    with the path of the file and its number. *)
Theorem windsurf_search_after_indexing `{unicode.CaseTables}
    (fs : os.FileSystem) (idx idx' : windsurf.Indexer) (root p keyword : string)
    (e : windsurf.FileIndex) (lineNum : Z) (line : string)
    (count : Z) (err : option error) :
  walkErrors root (os.lstatTree fs root) = [] ->
  file_under fs root p ->
  windsurf.ShouldIndexFile fs p = true -> windsurf.IsTextFile p = true ->
  windsurf.indexFile fs p = inr e ->
  windsurf.LineMap e !! lineNum = Some line ->
  strings.Contains (strings.ToLower line) (strings.ToLower keyword) = true ->
  windsurf.IndexDirectory_outcome fs idx root (windsurf.Returns idx' count err) ->
  {| windsurf.FilePath := p; windsurf.LineNumber := lineNum |}
  ∈ windsurf.Search idx' keyword.
Proof.
  intros Hok Hu Hshould Htext He Hl Hc Ho.
  cbn [windsurf.IndexDirectory_outcome] in Ho.
  assert (idx' = (windsurf.IndexDirectory fs idx root).1.1) as ->
    by (by rewrite <- Ho).
  clear Ho. apply windsurf_Search_elem.
  exists p, e, line. split; [|split; [done|split; [done|]]].
  - unfold windsurf.IndexDirectory.
    rewrite (windsurf_Walk_complete fs root Hok).
    pose proof (windsurf_workers_complete fs
                  (omap (windsurf_sends fs) (calls root (os.lstatTree fs root)))
                  (windsurf.Files (windsurf.index idx)) [] p e) as Hp.
    destruct (foldl (windsurf.worker fs) _ _) as [files errors]. simpl in Hp.
    assert (files !! p = Some e) as Hfp.
    { apply Hp; [|done]. apply windsurf_sends_elem. split; [done|].
      unfold windsurf_accepts. by rewrite Hshould, Htext. }
    by destruct (_ <? _).
  - simpl. unfold windsurf.indexFile in He. destruct (os.Open fs p); [done|].
    symmetry. by apply windsurf_scanFile_Path in He.
Qed.

Lemma windsurf_search_after_indexing_witness :
  {| windsurf.FilePath := "/data/.hidden.txt"; windsurf.LineNumber := 1 |}
  ∈ windsurf.Search (H := no_case_table)
      (windsurf.IndexDirectory (H := no_case_table) hidden_and_vendored_fs
         (windsurf.NewIndexer (inr "/home/u")) "/data").1.1 "SECRET".
Proof.
  apply (@windsurf_search_after_indexing no_case_table hidden_and_vendored_fs
           (windsurf.NewIndexer (inr "/home/u")) _ "/data" "/data/.hidden.txt" "SECRET"
           {| windsurf.Path := "/data/.hidden.txt";
              windsurf.LineMap := {[ 1 := "secret" ]};
              windsurf.Modified := 0 |} 1 "secret"
           (windsurf.IndexDirectory (H := no_case_table) hidden_and_vendored_fs
              (windsurf.NewIndexer (inr "/home/u")) "/data").1.2
           (windsurf.IndexDirectory (H := no_case_table) hidden_and_vendored_fs
              (windsurf.NewIndexer (inr "/home/u")) "/data").2).
  - reflexivity.
  - exists 7, 0. vm_compute. right. left.
  - reflexivity.
  - reflexivity.
  - vm_compute. reflexivity.
  - reflexivity.
  - reflexivity.
  - vm_compute. reflexivity.
Defined.

(** ** The commands *)

(** X14.  In [cursor], the entries that the start of [main] accepts from the
    cache do not reach the indexer: they are assigned into the copy that
    [GetFiles] returns.  Whatever the cache holds, the indexer of a new
    process holds no record, and its search command returns no result. *)
Theorem cursor_new_process_finds_nothing `{unicode.CaseTables}
    (fs : os.FileSystem) (d : disk.Disk) (readErr : option errno)
    (home : string) (numCPU : Z) (keyword : string) :
  let idx := (cursor.main.loadCache fs d readErr home numCPU).1.1.1 in
  cursor.indexer.GetFiles idx = ∅
  /\ cursor.main.handleSearch keyword idx = [].
Proof.
  cbv zeta. rewrite loadCache_index. split; [done|].
  unfold cursor.main.handleSearch, cursor.search.Search. simpl.
  by rewrite map_to_list_empty.
Qed.

(** ** The index file of [windsurf], again *)

(** The records of a document are added to the records that the map
    holds. *)
Lemma decodeFiles_filesToValue_into names files old :
  goodNames names = true -> map_Forall (fun _ r => fits r) files ->
  json.decodeFiles names (json.filesToValue names files) old
  = inr ((Some <$> files) ∪ old).
Proof.
  intros Hnames Hfiles. unfold json.filesToValue, json.sortedMembers.
  cbn [json.decodeFiles].
  set (l := merge_sort _ _).
  assert (l ≡ₚ map_to_list files) as Hl by apply merge_sort_Permutation.
  rewrite decodeFileMembers_foldl; [|done|].
  2:{ rewrite Hl. apply Forall_forall. intros [p r] Hin.
      apply elem_of_map_to_list in Hin. by apply (Hfiles p r). }
  f_equal.
  transitivity (foldl (fun (m : gmap string (option json.record)) kv =>
                         <[kv.1 := kv.2]> m) old (prod_map id Some <$> l));
    [by rewrite foldl_insert_fmap|].
  rewrite foldl_insert_union.
  2:{ rewrite <- list_fmap_compose.
      rewrite (list_fmap_ext _ fst l) by (by intros i [??]).
      rewrite Hl. apply NoDup_fst_map_to_list. }
  f_equal.
  rewrite (list_to_map_proper _ (prod_map id Some <$> map_to_list files)).
  - by rewrite <- map_to_list_fmap, list_to_map_to_list.
  - rewrite <- list_fmap_compose.
    rewrite (list_fmap_ext _ fst l) by (by intros i [??]).
    rewrite Hl. apply NoDup_fst_map_to_list.
  - by rewrite Hl.
Qed.

Lemma allRecords_union (files prior : gmap string windsurf.FileIndex) :
  windsurf.allRecords ((Some <$> (windsurf.toRecord <$> files))
                       ∪ (Some ∘ windsurf.toRecord <$> prior))
  = Some (files ∪ prior).
Proof.
  rewrite <- map_fmap_compose, <- map_fmap_union. apply allRecords_Some.
Qed.

(** After the load of an index saved without failure, the store holds the
    saved records and the records that it held under other paths. *)
Lemma windsurf_LoadIndex_SaveIndex (idx saved : windsurf.Indexer) (d : disk.Disk) :
  windsurf.indexFilePath saved = windsurf.indexFilePath idx ->
  validFiles (windsurf.toRecord <$> windsurf.Files (windsurf.index saved)) ->
  windsurf.LoadIndex idx (windsurf.SaveIndex saved d disk.NoFault).1 None
  = Some (inr {| windsurf.index :=
                   {| windsurf.Files :=
                        windsurf.Files (windsurf.index saved)
                        ∪ windsurf.Files (windsurf.index idx) |};
                 windsurf.indexFilePath := windsurf.indexFilePath idx |}).
Proof.
  intros Hpath Hvalid.
  unfold windsurf.LoadIndex, windsurf.SaveIndex, disk.ReadFile. cbn.
  rewrite Hpath, lookup_insert_eq.
  unfold windsurf.Decode, windsurf.Encode.
  rewrite (parseFirst_render None 3); [|done| |done].
  2:{ cbn [document forallb fst snd]. rewrite andb_true_r.
      pose proof (document_filesToValue _ _ windsurf_names_good Hvalid) as Hdoc.
      cbn [document] in Hdoc. by rewrite Hdoc. }
  cbn [windsurf.decodeIndexMembers]. rewrite selects_refl.
  rewrite decodeFiles_filesToValue_into
    by (try apply windsurf_names_good; by apply validFiles_fits).
  cbn [windsurf.decodeIndexMembers]. by rewrite allRecords_union.
Qed.

(** X15.  [LoadIndex] adds the records of the index file to the records that
    the indexer holds: after the load of an index saved without failure,
    the store holds every saved record, and every record that it held
    before under a path that the file does not name.  ([handleSearch]
    loads into a new indexer, which holds no record.) *)
Theorem windsurf_load_adds_to_the_store
    (idx saved : windsurf.Indexer) (d : disk.Disk) :
  windsurf.indexFilePath saved = windsurf.indexFilePath idx ->
  validFiles (windsurf.toRecord <$> windsurf.Files (windsurf.index saved)) ->
  windsurf.LoadIndex idx (windsurf.SaveIndex saved d disk.NoFault).1 None
  = Some (inr {| windsurf.index :=
                   {| windsurf.Files :=
                        windsurf.Files (windsurf.index saved)
                        ∪ windsurf.Files (windsurf.index idx) |};
                 windsurf.indexFilePath := windsurf.indexFilePath idx |}).
Proof. apply windsurf_LoadIndex_SaveIndex. Qed.

(** An indexer of [windsurf] that holds the record of another file; its
    index file is the one of [loaded_indexer]. *)
Definition other_indexer : windsurf.Indexer :=
  {| windsurf.index :=
       {| windsurf.Files :=
            {[ "/new/y.txt" :=
                 {| windsurf.Path := "/new/y.txt";
                    windsurf.LineMap := {[ 1 := "new" ]};
                    windsurf.Modified := 5 |} ]} |};
     windsurf.indexFilePath := "/home/u/.indexer_data.json" |}.

Lemma windsurf_load_adds_to_the_store_witness :
  windsurf.LoadIndex other_indexer
    (windsurf.SaveIndex loaded_indexer ∅ disk.NoFault).1 None
  = Some (inr {| windsurf.index :=
                   {| windsurf.Files :=
                        windsurf.Files (windsurf.index loaded_indexer)
                        ∪ windsurf.Files (windsurf.index other_indexer) |};
                 windsurf.indexFilePath := windsurf.indexFilePath other_indexer |}).
Proof.
  apply (windsurf_load_adds_to_the_store other_indexer loaded_indexer ∅).
  - reflexivity.
  - apply (bool_decide_unpack _). by vm_compute.
Defined.

(** ** The index command *)

(** X16.  The index command of [windsurf] saves the index of complete runs
    only.  A run is complete when the walk meets no error and [indexFile]
    reads every accepted file of the tree.  The command ends without error
    exactly when the run is complete and neither the opening nor the
    writing of the index file fails; the index file then holds the text of
    the index.  When the run is not complete, the command exits on the
    error of [IndexDirectory], or stops on its panic, before it saves, and
    the disk is as it was: the index file of an earlier run is kept.  In
    every case no other file of the disk is touched. *)
Theorem windsurf_index_command_saves_complete_runs `{unicode.CaseTables}
    (fs : os.FileSystem) (home : error + string) (d : disk.Disk) (f : disk.fault)
    (dirPath : string) (ended : windsurf.ending) :
  let root := filepath.Abs (os.Getwd fs) dirPath in
  let path := windsurf.indexFilePath (windsurf.NewIndexer home) in
  let complete :=
    walkErrors root (os.lstatTree fs root) = []
    /\ forall p, file_under fs root p ->
                 windsurf.ShouldIndexFile fs p && windsurf.IsTextFile p = true ->
                 exists e, windsurf.indexFile fs p = inr e in
  windsurf.handleIndex_ends fs home d f dirPath ended ->
  match ended with
  | windsurf.Crashes d' => d' = d /\ ~ complete
  | windsurf.Exits indexer d' err =>
      (err = None
       <-> complete
           /\ match f with
              | disk.OpenFails _ | disk.WriteFails _ _ => False
              | _ => True
              end)
      /\ (err = None -> d' = <[path := windsurf.Encode (windsurf.index indexer)]> d)
      /\ (~ complete -> d' = d)
      /\ forall k, k <> path -> d' !! k = d !! k
  end.
Proof.
  cbv zeta. destruct ended as [indexer d' err|d']; cbn [windsurf.handleIndex_ends].
  - pose proof (windsurf_IndexDirectory_no_error fs (windsurf.NewIndexer home)
                  (filepath.Abs (os.Getwd fs) dirPath)) as Hiff.
    unfold windsurf_accepts in Hiff.
    assert (windsurf.indexFilePath
              (windsurf.IndexDirectory fs (windsurf.NewIndexer home)
                 (filepath.Abs (os.Getwd fs) dirPath)).1.1
            = windsurf.indexFilePath (windsurf.NewIndexer home)) as Hpath.
    { unfold windsurf.IndexDirectory.
      destruct (walk.Walk _ _ _ _) as [sent walkErr].
      destruct (foldl _ _ sent) as [files errors]. by destruct (_ <? _). }
    unfold windsurf.handleIndex.
    destruct (windsurf.IndexDirectory fs (windsurf.NewIndexer home) _)
      as [[indexer0 count] err0].
    cbn [fst snd] in Hiff, Hpath. destruct err0 as [err0|].
    + intros [= -> -> ->].
      assert (~ (walkErrors (filepath.Abs (os.Getwd fs) dirPath)
                   (os.lstatTree fs (filepath.Abs (os.Getwd fs) dirPath)) = []
                 /\ forall p, file_under fs (filepath.Abs (os.Getwd fs) dirPath) p ->
                      windsurf.ShouldIndexFile fs p && windsurf.IsTextFile p = true ->
                      exists e, windsurf.indexFile fs p = inr e)) as Hnot
        by (by intros ?%Hiff).
      split; [split; [done|by intros [? _]]|].
      split; [done|]. split; done.
    + unfold windsurf.SaveIndex, disk.Create, disk.Write. rewrite Hpath.
      pose proof (proj1 Hiff eq_refl) as Hc.
      destruct f as [| |oerr|written werr|]; intros [= -> -> ->].
      all: split; [split; [try done; by split|try done; by intros [_ ?]]|].
      all: split; [try done; intros _; by rewrite insert_insert_eq|].
      all: split; [done|].
      all: intros k Hk; by rewrite ?lookup_insert_ne.
  - intros [-> Hp]. split; [done|]. intros [_ Hall].
    cbn [windsurf.IndexDirectory_outcome] in Hp. apply Hp.
    apply windsurf_failedPaths_nil. intros p Hin.
    apply windsurf_Walk_sent in Hin as [Hu Ha]. by apply Hall.
Qed.

Lemma windsurf_index_command_saves_complete_runs_witness :
  (windsurf.handleIndex (H := no_case_table) hidden_and_vendored_fs (inr "/home/u")
     ∅ disk.NoFault "/data").1.2
  = <[windsurf.indexFilePath (windsurf.NewIndexer (inr "/home/u")) :=
        windsurf.Encode
          (windsurf.index
             (windsurf.handleIndex (H := no_case_table) hidden_and_vendored_fs
                (inr "/home/u") ∅ disk.NoFault "/data").1.1)]> ∅.
Proof.
  pose proof (@windsurf_index_command_saves_complete_runs no_case_table
                hidden_and_vendored_fs (inr "/home/u") ∅ disk.NoFault "/data"
                (windsurf.Exits
                   (windsurf.handleIndex (H := no_case_table) hidden_and_vendored_fs
                      (inr "/home/u") ∅ disk.NoFault "/data").1.1
                   (windsurf.handleIndex (H := no_case_table) hidden_and_vendored_fs
                      (inr "/home/u") ∅ disk.NoFault "/data").1.2
                   (windsurf.handleIndex (H := no_case_table) hidden_and_vendored_fs
                      (inr "/home/u") ∅ disk.NoFault "/data").2)
                ltac:(vm_compute; reflexivity)) as (_ & Hdisk & _).
  apply Hdisk. vm_compute. reflexivity.
Defined.

(** X17.  In [windsurf], what the search command of a later process finds
    is what the index of the indexing process holds: after an index command
    that ends without error on a store of valid UTF-8, the search command,
    run on the disk that the index command has left, returns the results of
    [Search] on the index that was saved. *)
Theorem windsurf_search_in_a_later_process `{unicode.CaseTables}
    (fs : os.FileSystem) (home : error + string) (d : disk.Disk)
    (dirPath keyword : string) :
  let done := windsurf.handleIndex fs home d disk.NoFault dirPath in
  done.2 = None ->
  validFiles (windsurf.toRecord <$> windsurf.Files (windsurf.index done.1.1)) ->
  windsurf.handleSearch home done.1.2 None keyword
  = Some (inr (windsurf.Search done.1.1 keyword)).
Proof.
  cbv zeta. unfold windsurf.handleIndex.
  assert (windsurf.indexFilePath
            (windsurf.IndexDirectory fs (windsurf.NewIndexer home)
               (filepath.Abs (os.Getwd fs) dirPath)).1.1
          = windsurf.indexFilePath (windsurf.NewIndexer home)) as Hpath.
  { unfold windsurf.IndexDirectory.
    destruct (walk.Walk _ _ _ _) as [sent walkErr].
    destruct (foldl _ _ sent) as [files errors]. by destruct (_ <? _). }
  destruct (windsurf.IndexDirectory fs (windsurf.NewIndexer home) _)
    as [[indexer count] err].
  simpl in Hpath. destruct err as [err|]; [done|].
  destruct (windsurf.SaveIndex indexer d disk.NoFault) as [d' err'] eqn:Hsave.
  simpl. intros -> Hvalid. unfold windsurf.handleSearch.
  pose proof (windsurf_LoadIndex_SaveIndex (windsurf.NewIndexer home) indexer d
                Hpath Hvalid) as Hload.
  rewrite Hsave in Hload. simpl in Hload. rewrite Hload.
  rewrite (right_id_L ∅ (∪)). unfold windsurf.Search. done.
Qed.

Lemma windsurf_search_in_a_later_process_witness :
  let done :=
    windsurf.handleIndex (H := no_case_table) hidden_and_vendored_fs
      (inr "/home/u") ∅ disk.NoFault "/data" in
  windsurf.handleSearch (H := no_case_table) (inr "/home/u") done.1.2 None "SECRET"
  = Some (inr (windsurf.Search (H := no_case_table) done.1.1 "SECRET")).
Proof.
  apply (@windsurf_search_in_a_later_process no_case_table hidden_and_vendored_fs
           (inr "/home/u") ∅ "/data" "SECRET").
  - reflexivity.
  - apply (bool_decide_unpack _). by vm_compute.
Defined.

(** X18.  The index command of [cursor] saves whatever its run leaves: the
    run returns no error, and without a failure of the save the cache file
    holds the text of the store after the run.  When the root cannot be
    examined, that store is empty, and the cache file is overwritten with
    the empty mapping. *)
Theorem cursor_index_command_always_saves `{unicode.CaseTables}
    (fs : os.FileSystem) (d : disk.Disk) (dirPath : string)
    (idx : cursor.indexer.Index) (c : cursor.cache.Cache) :
  let root := filepath.Abs (os.Getwd fs) dirPath in
  let done := cursor.main.handleIndex fs d disk.NoFault dirPath idx c in
  done.2 = None
  /\ done.1.1 = cursor.indexer.index (cursor.indexer.IndexDirectory fs idx root)
  /\ done.1.2 !! cursor.cache.filePath c
     = Some (cursor.cache.MarshalIndent (cursor.indexer.GetFiles done.1.1))
  /\ (forall err, os.lstatTree fs root = os.Broken err ->
                  done.1.2 !! cursor.cache.filePath c = Some "{}").
Proof.
  cbv zeta. unfold cursor.main.handleIndex, cursor.cache.Save, disk.WriteFile.
  cbn. rewrite lookup_insert_eq. repeat (split; [done|]).
  intros err Htree. f_equal.
  rewrite cursor_IndexDirectory_eq, Htree. reflexivity.
Qed.

(** *** The order of the printed results *)

Lemma Ascii_compare_Lt_trans (a b c : ascii) :
  Ascii.compare a b = Lt -> Ascii.compare b c = Lt -> Ascii.compare a c = Lt.
Proof.
  unfold Ascii.compare. rewrite !N.compare_lt_iff. lia.
Qed.

Lemma Ascii_compare_refl (a : ascii) : Ascii.compare a a = Eq.
Proof. unfold Ascii.compare. apply N.compare_refl. Qed.

Lemma String_compare_refl (a : string) : String.compare a a = Eq.
Proof. induction a as [|x a IH]; simpl; [done|]. by rewrite Ascii_compare_refl. Qed.

Lemma String_compare_Lt_trans (a b c : string) :
  String.compare a b = Lt -> String.compare b c = Lt -> String.compare a c = Lt.
Proof.
  revert b c. induction a as [|x a IH]; intros [|y b] [|z c]; simpl; try done.
  destruct (Ascii.compare x y) eqn:Exy; try done;
    destruct (Ascii.compare y z) eqn:Eyz; try done.
  - apply Ascii.compare_eq_iff in Exy, Eyz. subst y z.
    rewrite Ascii_compare_refl. apply IH.
  - apply Ascii.compare_eq_iff in Exy. subst y. by rewrite Eyz.
  - apply Ascii.compare_eq_iff in Eyz. subst z. by rewrite Exy.
  - by rewrite (Ascii_compare_Lt_trans x y z).
Qed.

Lemma String_ltb_trans (a b c : string) :
  String.ltb a b = true -> String.ltb b c = true -> String.ltb a c = true.
Proof.
  unfold String.ltb. intros Hab Hbc.
  destruct (String.compare a b) eqn:Eab; try done.
  destruct (String.compare b c) eqn:Ebc; try done.
  by rewrite (String_compare_Lt_trans a b c).
Qed.

Lemma String_ltb_irrefl (a : string) : String.ltb a a = false.
Proof.
  unfold String.ltb. by rewrite String_compare_refl.
Qed.

Lemma String_ltb_total (a b : string) :
  String.ltb a b = false -> String.ltb b a = false -> a = b.
Proof.
  unfold String.ltb. rewrite (String.compare_antisym a b).
  destruct (String.compare b a) eqn:E; simpl; try done.
  intros _ _. symmetry. by apply String.compare_eq_iff.
Qed.

Section order.
Context `{unicode.CaseTables}.
Import cursor.indexer cursor.search cursor.main.

Lemma less_spec a b :
  less a b = true <->
  String.ltb (FilePath a) (FilePath b) = true
  \/ FilePath a = FilePath b /\ LineNumber a < LineNumber b.
Proof.
  unfold less. case_bool_decide as E.
  - rewrite Z.ltb_lt, E, String_ltb_irrefl. split; [by right|].
    by intros [?|[_ ?]].
  - split; [by left|]. by intros [?|[? _]].
Qed.

Lemma less_trans a b c : less a b = true -> less b c = true -> less a c = true.
Proof.
  rewrite !less_spec. intros [Hab|[Eab Hab]] [Hbc|[Ebc Hbc]].
  - left. by apply (String_ltb_trans _ (FilePath b)).
  - left. by rewrite <- Ebc.
  - left. by rewrite Eab.
  - right. split; [congruence|lia].
Qed.

Lemma less_irrefl a : less a a = false.
Proof.
  apply not_true_is_false. rewrite less_spec, String_ltb_irrefl.
  intros [?|[_ ?]]; [done|lia].
Qed.

Lemma less_total a b :
  less a b = false -> less b a = false ->
  FilePath a = FilePath b /\ LineNumber a = LineNumber b.
Proof.
  unfold less. case_bool_decide as E.
  - rewrite bool_decide_eq_true_2 by done. rewrite !Z.ltb_ge. intros. split; [done|lia].
  - rewrite bool_decide_eq_false_2 by done. intros Hab Hba.
    destruct E. by apply String_ltb_total.
Qed.

(** [not_before a b]: [b] is not less than [a]. *)
Definition not_before (a b : SearchResult) : Prop := less b a = false.

Lemma not_before_trans : Transitive not_before.
Proof.
  intros a b c Hab Hbc. unfold not_before in *.
  destruct (less c a) eqn:Hca; [|done].
  destruct (less b c) eqn:Hbc'.
  - by rewrite (less_trans b c a) in Hab.
  - destruct (less_total b c Hbc' Hbc) as [Ep El].
    assert (less b a = true); [|congruence].
    apply less_spec. apply less_spec in Hca. rewrite Ep, El. done.
Qed.

(** Two results of a search for the same line of the same file are one. *)
Lemma Search_key idx keyword a b :
  a ∈ Search idx keyword -> b ∈ Search idx keyword ->
  FilePath a = FilePath b -> LineNumber a = LineNumber b -> a = b.
Proof.
  intros (ea & Hfa & Hla & Hca & _)%Search_elem (eb & Hfb & Hlb & Hcb & _)%Search_elem
    Ep El.
  rewrite Ep in Hfa. rewrite Hfa in Hfb. injection Hfb as <-.
  rewrite El in Hla. rewrite Hla in Hlb. injection Hlb as El'.
  destruct a, b; simpl in *. rewrite Hca, Hcb. congruence.
Qed.

Lemma Slice_returns_Sorted (results out : list SearchResult) :
  sort.Slice_returns less results out -> Sorted not_before out.
Proof.
  intros [_ Hadj]. induction out as [|a out IH]; [constructor|].
  constructor.
  - apply IH. intros i x y Hx Hy. by apply (Hadj (S i)).
  - destruct out as [|b out]; constructor. by apply (Hadj 0%nat).
Qed.

Lemma prints_Sorted idx keyword out :
  handleSearch_prints keyword idx out ->
  out ≡ₚ Search idx keyword /\ Sorted not_before out.
Proof.
  intros (results & Hret & Hout). unfold Search_returns in Hret.
  destruct results as [|r results].
  - subst out. split; [done|constructor].
  - split; [by rewrite <- Hret; apply Hout|].
    by apply (Slice_returns_Sorted (r :: results)).
Qed.

End order.

(** X19. The results that cursor's [handleSearch] prints are the results of
    [Search], each once, in one order: a result comes before every result
    for a file path that is greater byte by byte, and before every result
    for a greater line number of its file.  So the order in which the
    concurrent search delivers the results does not show in the output. *)
Theorem cursor_search_prints_one_order `{unicode.CaseTables}
    (idx : cursor.indexer.Index) (keyword : string)
    (out : list cursor.search.SearchResult) :
  cursor.main.handleSearch_prints keyword idx out ->
  out ≡ₚ cursor.search.Search idx keyword
  /\ (forall i j a b,
        out !! i = Some a -> out !! j = Some b -> (i < j)%nat ->
        String.ltb (cursor.search.FilePath a) (cursor.search.FilePath b) = true
        \/ cursor.search.FilePath a = cursor.search.FilePath b
           /\ cursor.search.LineNumber a < cursor.search.LineNumber b)
  /\ forall out', cursor.main.handleSearch_prints keyword idx out' -> out' = out.
Proof.
  intros [Hperm Hsorted]%prints_Sorted.
  assert (Hkey : forall l1 l2 x1 x2,
             l1 ≡ₚ cursor.search.Search idx keyword ->
             l2 ≡ₚ cursor.search.Search idx keyword ->
             x1 ∈ l1 -> x2 ∈ l2 -> not_before x1 x2 -> not_before x2 x1 -> x1 = x2).
  { intros l1 l2 x1 x2 H1 H2 Hx1 Hx2 H12 H21. rewrite H1 in Hx1. rewrite H2 in Hx2.
    destruct (less_total x1 x2 H21 H12) as [Ep El].
    by apply (Search_key idx keyword). }
  split; [done|]. split.
  - intros i j a b Ha Hb Hij. apply less_spec.
    apply (@Sorted_StronglySorted _ not_before not_before_trans) in Hsorted.
    assert (Hnd : NoDup out) by (rewrite Hperm; apply Search_NoDup).
    destruct (cursor.main.less a b) eqn:Hab; [done|]. exfalso.
    assert (Hba : not_before a b).
    { clear Hkey Hperm Hnd Hab. revert i j Ha Hb Hij.
      induction Hsorted as [|x l Hs IH Hall]; intros i j Ha Hb Hij; [done|].
      destruct j as [|j]; [lia|]. destruct i as [|i].
      - simpl in Ha, Hb. injection Ha as ->.
        rewrite Forall_forall in Hall. apply Hall.
        by apply list_elem_of_lookup_2 with j.
      - apply (IH i j); [done..|lia]. }
    assert (a = b).
    { apply (Hkey out out); try done.
      - by apply list_elem_of_lookup_2 with i.
      - by apply list_elem_of_lookup_2 with j. }
    subst b. assert (i = j) by by apply (NoDup_lookup out i j a). lia.
  - intros out' [Hperm' Hsorted']%prints_Sorted.
    apply (@Sorted_unique_strong _ not_before not_before_trans); try done.
    + intros x1 x2. by apply (Hkey out' out).
    + by rewrite Hperm, Hperm'.
Qed.

Definition two_file_index : cursor.indexer.Index :=
  {| cursor.indexer.files :=
       {[ "/tmp/b.txt" :=
            {| cursor.indexer.Path := "/tmp/b.txt";
               cursor.indexer.LineIndex := {[ 1 := "food"; 2 := "drink" ]};
               cursor.indexer.Modified := 0 |};
          "/tmp/a.txt" :=
            {| cursor.indexer.Path := "/tmp/a.txt";
               cursor.indexer.LineIndex := {[ 7 := "a fox"; 3 := "Fog"; 5 := "sun" ]};
               cursor.indexer.Modified := 0 |} ]};
     cursor.indexer.workers := 1; cursor.indexer.indexed := 2; cursor.indexer.skipped := 0 |}.

Definition two_file_output : list cursor.search.SearchResult :=
  [ {| cursor.search.FilePath := "/tmp/a.txt"; cursor.search.LineNumber := 3;
       cursor.search.Line := "Fog"; cursor.search.MatchCount := 1 |};
    {| cursor.search.FilePath := "/tmp/a.txt"; cursor.search.LineNumber := 7;
       cursor.search.Line := "a fox"; cursor.search.MatchCount := 1 |};
    {| cursor.search.FilePath := "/tmp/b.txt"; cursor.search.LineNumber := 1;
       cursor.search.Line := "food"; cursor.search.MatchCount := 1 |} ].

Lemma cursor_search_prints_one_order_witness :
  cursor.main.handleSearch_prints (H := no_case_table) "fo" two_file_index two_file_output
  /\ two_file_output ≡ₚ cursor.search.Search (H := no_case_table) two_file_index "fo".
Proof.
  assert (Hp : cursor.main.handleSearch_prints (H := no_case_table) "fo" two_file_index
                 two_file_output).
  { exists (cursor.search.Search (H := no_case_table) two_file_index "fo").
    split; [unfold cursor.search.Search_returns; reflexivity|].
    assert (E : exists a b c,
               two_file_output = [a; b; c]
               /\ cursor.search.Search (H := no_case_table) two_file_index "fo"
                  = [b; a; c]).
    { eexists _, _, _. split; [reflexivity|]. vm_compute. reflexivity. }
    destruct E as (x & y & z & Eout & ->). split.
    - rewrite Eout. apply perm_swap.
    - intros [|[|[|i]]] a b; simpl; intros [= <-] [= <-]; reflexivity. }
  split; [exact Hp|].
  exact (proj1 (@cursor_search_prints_one_order no_case_table two_file_index "fo"
                  two_file_output Hp)).
Defined.

(** *** The classifier of [windsurf] *)

Lemma existsb_bool_decide_elem (x : string) (l : list string) :
  existsb (fun y => bool_decide (x = y)) l = true <-> x ∈ l.
Proof.
  rewrite existsb_exists. split.
  - intros (y & Hin%list_elem_of_In & ->%bool_decide_eq_true). done.
  - intros Hin. exists x. split; [by apply list_elem_of_In|by apply bool_decide_eq_true].
Qed.

(** No extension of the text files is an excluded extension. *)
Lemma textExtensions_not_excluded (ext : string) :
  ext ∈ windsurf.textExtensions ->
  existsb (fun excludedExt => bool_decide (ext = excludedExt))
          windsurf.DefaultExcludedExtensions = false.
Proof.
  unfold windsurf.textExtensions. intros Hin.
  repeat (apply elem_of_cons in Hin as [->|Hin]; [by vm_compute|]).
  by apply elem_of_nil in Hin.
Qed.

(** X20. What the walk of windsurf's [IndexDirectory] accepts: a path passes
    [ShouldIndexFile] and [IsTextFile] exactly if [os.Stat] succeeds on it,
    it is no directory, it has at most 10 MiB, no excluded directory name
    occurs in its directory path, and its extension in lower case is one of
    the text extensions.  The list of excluded extensions never decides. *)
Theorem windsurf_accepts_by_directory_and_text_extension `{unicode.CaseTables}
    (fs : os.FileSystem) (path : string) :
  windsurf.ShouldIndexFile fs path && windsurf.IsTextFile path = true <->
  exists info,
    os.Stat fs path = inr info
    /\ os.IsDir info = false
    /\ os.Size info <= 10 * 1024 * 1024
    /\ (forall dir, dir ∈ windsurf.DefaultExcludedDirs ->
                    strings.Contains (filepath.Dir path) dir = false)
    /\ strings.ToLower (filepath.Ext path) ∈ windsurf.textExtensions.
Proof.
  rewrite andb_true_iff. unfold windsurf.ShouldIndexFile, windsurf.IsTextFile.
  cbv zeta. rewrite existsb_bool_decide_elem.
  destruct (os.Stat fs path) as [err|info].
  { split; [by intros [? _]|by intros (? & ? & _)]. }
  destruct (os.IsDir info) eqn:Hdir.
  { split; [by intros [? _]|]. intros (? & [= <-] & ? & _). congruence. }
  destruct (10 * 1024 * 1024 <? os.Size info) eqn:Hsize.
  { apply Z.ltb_lt in Hsize. split; [by intros [? _]|].
    intros (? & [= <-] & _ & ? & _). lia. }
  apply Z.ltb_ge in Hsize.
  destruct (existsb _ windsurf.DefaultExcludedDirs) eqn:Hdirs.
  { split; [by intros [? _]|]. intros (? & _ & _ & _ & Hno & _).
    apply existsb_exists in Hdirs as (dir & Hin%list_elem_of_In & Hc).
    by rewrite (Hno dir Hin) in Hc. }
  split.
  - intros [_ Hext]. exists info. repeat split; try done.
    intros dir Hin. destruct (strings.Contains _ dir) eqn:Hc; [|done].
    assert (existsb (fun excludedDir =>
                       strings.Contains (filepath.Dir path) excludedDir)
              windsurf.DefaultExcludedDirs = true) as E; [|by rewrite E in Hdirs].
    apply existsb_exists. exists dir. split; [by apply list_elem_of_In|done].
  - intros (? & _ & _ & _ & _ & Hext). split; [|done].
    by rewrite (textExtensions_not_excluded _ Hext).
Qed.

